(** * Cirspecte: consistency of the timeline and map projections

    A shallow embedding of three parts of the tour authoring tool:

    - [Timeline]: the classes [item], [rangeItem], [group] and
      [timelineViewer] (selection tracking, item aggregation, the refresh
      guard);
    - [MapViewer]: the classes [point], [line], [layerGroup], [controlGroup]
      and [mapViewer] (visual creation and deletion, derived parents, line
      visibility);
    - [Algorithms]: [algorithms.readTour] and [algorithms.loadGraph] (batch
      creation of the model from a tour document), [getColocated],
      [extractAtomicProperties] and [getAxisAlignedBoundingBox].

    JavaScript objects live in heaps indexed by references ([nat]); a
    dereference of a missing object is an uncaught [TypeError] and is
    rendered as [None].  The rendering libraries (vis-timeline, Leaflet) are
    external: their state is kept only as far as the viewers read it back. *)

From Stdlib Require Import ZArith QArith List Bool Lia.
From stdpp Require Import gmap strings list.
Close Scope Q_scope.

(** ** JavaScript values shared by the viewers *)

Module Js.

(** A JavaScript number: a finite double, kept as the rational it denotes,
    the two infinities and NaN.  The sign of a zero is not kept. *)
Inductive num :=
  | Fin (q : Q)
  | PInf
  | NInf
  | NaN.

(** An integer of magnitude up to [2^53], which a double holds exactly. *)
Definition of_Z (z : Z) : num := Fin (inject_Z z).

(** The integer nearest to [n / d] for [0 <= n] and [0 < d], a tie going to
    the even one. *)
Definition nearest_even (n d : Z) : Z :=
  let k := (n / d)%Z in
  match (2 * (n mod d) ?= d)%Z with
  | Lt => k
  | Gt => (k + 1)%Z
  | Eq => if Z.even k then k else (k + 1)%Z
  end.

(** [n / d] divided by [2^s], as a fraction. *)
Definition scaled (n d s : Z) : Z * Z :=
  if (0 <=? s)%Z then (n, (d * 2 ^ s)%Z) else ((n * 2 ^ (- s))%Z, d).

(** The double nearest to [n / d] for positive [n] and [d]: 53 significant
    bits, a least exponent of [-1074], infinity from [2^1024] on. *)
Definition round_pos (n d : Z) : num :=
  let e0 := (Z.log2 n - Z.log2 d)%Z in
  let e := (let (n0, d0) := scaled n d e0 in
            if (d0 <=? n0)%Z then e0 else e0 - 1)%Z in
  let s := Z.max (e - 52) (-1074) in
  let k := (let (n1, d1) := scaled n d s in nearest_even n1 d1) in
  if (0 <=? s)%Z then
    (if (2 ^ 1024 <=? k * 2 ^ s)%Z then PInf else Fin (inject_Z (k * 2 ^ s)))
  else Fin (Qred (Qmake k (Z.to_pos (2 ^ (- s))))).

Definition neg (x : num) : num :=
  match x with
  | Fin q => Fin (- q)%Q
  | PInf => NInf
  | NInf => PInf
  | NaN => NaN
  end.

(** The result of an arithmetic operation whose exact value is [q]. *)
Definition round (q : Q) : num :=
  match Qnum q with
  | Z0 => Fin 0
  | Zpos n => round_pos (Zpos n) (Zpos (Qden q))
  | Zneg n => neg (round_pos (Zpos n) (Zpos (Qden q)))
  end.

(** [x / b] for an integral [b]; the divisor [0] is the positive zero. *)
Definition div_Z (x : num) (b : Z) : num :=
  match x with
  | Fin q =>
      if (b =? 0)%Z then
        (if Qlt_le_dec 0 q then PInf
         else if Qlt_le_dec q 0 then NInf else NaN)
      else round (q / inject_Z b)%Q
  | PInf => if (b <? 0)%Z then NInf else PInf
  | NInf => if (b <? 0)%Z then PInf else NInf
  | NaN => NaN
  end.

(** [x * k] and [x / k] for a positive integral constant [k]. *)
Definition mul_pos (x : num) (k : positive) : num :=
  match x with
  | Fin q => round (q * Qmake (Zpos k) 1)%Q
  | other => other
  end.

Definition div_pos (x : num) (k : positive) : num :=
  match x with
  | Fin q => round (q / Qmake (Zpos k) 1)%Q
  | other => other
  end.

(** [a - x] for a time value [a]. *)
Definition Z_minus (a : Z) (x : num) : num :=
  match x with
  | Fin q => round (Qmake a 1 - q)%Q
  | PInf => NInf
  | NInf => PInf
  | NaN => NaN
  end.

(** [x < y]; every comparison with NaN is false. *)
Definition lt (x y : num) : bool :=
  match x, y with
  | NaN, _ | _, NaN => false
  | Fin a, Fin b => negb (Qle_bool b a)
  | Fin _, PInf => true
  | Fin _, NInf => false
  | PInf, _ => false
  | NInf, NInf => false
  | NInf, _ => true
  end.

Definition le (x y : num) : bool :=
  match x, y with
  | NaN, _ | _, NaN => false
  | Fin a, Fin b => Qle_bool a b
  | Fin _, PInf => true
  | Fin _, NInf => false
  | PInf, PInf => true
  | PInf, _ => false
  | NInf, _ => true
  end.

(** Truthiness of a number: [0] and NaN are falsy. *)
Definition truthy (x : num) : bool :=
  match x with
  | Fin q => negb (Qeq_bool q 0)
  | NaN => false
  | _ => true
  end.

(** A value that holds a point in time: [undefined], a date object that is
    invalid, or a date object at [ms] milliseconds after the epoch.  The
    model parses the time slot of a spatial group into a date object, so a
    time is never a bare number.  The time value of a date object is an
    integer of magnitude up to [maxTime], which a double holds exactly. *)
Inductive time :=
  | TUndef
  | TInvalid
  | TAt (ms : Z).

Definition time_truthy (t : time) : bool :=
  match t with
  | TUndef => false
  | _ => true
  end.

(** Conversion of a time to a number, as the relational and arithmetic
    operators perform it. *)
Definition valueOf (t : time) : num :=
  match t with
  | TAt ms => of_Z ms
  | _ => NaN
  end.

(** [a - b] on two times. *)
Definition time_minus (a b : time) : num :=
  match a, b with
  | TAt x, TAt y => round (inject_Z (x - y))
  | _, _ => NaN
  end.

(** Truncation of a number towards zero. *)
Definition trunc (q : Q) : Z := Z.quot (Qnum q) (Zpos (Qden q)).

Definition maxTime : Z := 8640000000000000.

(** [new Date(x)] for a number [x]: the time value is clipped. *)
Definition newDate (x : num) : time :=
  match x with
  | Fin q =>
      let t := trunc q in
      if (Z.abs t <=? maxTime)%Z then TAt t else TInvalid
  | _ => TInvalid
  end.

(** [moment(a).isSame(moment(b))]: both valid and at the same instant. *)
Definition isSame (a b : time) : bool :=
  match a, b with
  | TAt x, TAt y => (x =? y)%Z
  | _, _ => false
  end.

(** An insertion-ordered [Map] with string keys. *)
Abbreviation strmap V := (list (string * V)).

Section OrderedMap.
Context {V : Type}.

Fixpoint get (k : string) (m : strmap V) : option V :=
  match m with
  | [] => None
  | (k', v) :: m' => if decide (k' = k) then Some v else get k m'
  end.

Definition has (k : string) (m : strmap V) : bool :=
  match get k m with Some _ => true | None => false end.

(** [set] keeps the position of a key that is present. *)
Fixpoint set (k : string) (v : V) (m : strmap V) : strmap V :=
  match m with
  | [] => [(k, v)]
  | (k', v') :: m' =>
      if decide (k' = k) then (k, v) :: m' else (k', v') :: set k v m'
  end.

Definition delete (k : string) (m : strmap V) : strmap V :=
  filter (fun kv => fst kv <> k) m.

Definition keys (m : strmap V) : list string := map fst m.
Definition values (m : strmap V) : list V := map snd m.
End OrderedMap.

(** [new Set(array)] iterated in insertion order. *)
Fixpoint newSet (l : list string) : list string :=
  match l with
  | [] => []
  | x :: l' => x :: filter (fun y => y <> x) (newSet l')
  end.

End Js.


(** ** Computations with a state and uncaught exceptions

    A method call runs on the state of its viewer and either returns a value
    and the new state, or throws ([None]). *)

Module Eff.

Definition M (S A : Type) : Type := S -> option (A * S).

Section Ops.
Context {S : Type}.

Definition ret {A} (a : A) : M S A := fun st => Some (a, st).

Definition bind {A B} (m : M S A) (k : A -> M S B) : M S B :=
  fun st => match m st with
            | Some (a, st') => k a st'
            | None => None
            end.

Definition throw {A} : M S A := fun _ => None.

Definition gets {A} (f : S -> A) : M S A := fun st => Some (f st, st).

Definition modify (f : S -> S) : M S unit := fun st => Some (tt, f st).

(** A property access on an object reference. *)
Definition deref {A} (heap : S -> gmap nat A) (r : nat) : M S A :=
  fun st => match heap st !! r with
            | Some a => Some (a, st)
            | None => None
            end.

End Ops.

Notation "'let!' x := m 'in' k" := (bind m (fun x => k))
  (at level 10, x name, m at level 100, k at level 200).

Section Loops.
Context {S : Type}.

Fixpoint forM_ {A} (l : list A) (f : A -> M S unit) : M S unit :=
  match l with
  | [] => ret tt
  | x :: l' => let! _ := f x in forM_ l' f
  end.

Fixpoint filterM {A} (p : A -> M S bool) (l : list A) : M S (list A) :=
  match l with
  | [] => ret []
  | x :: l' =>
      let! b := p x in
      let! r := filterM p l' in
      ret (if b : bool then x :: r else r)
  end.

Fixpoint foldM {A B} (f : B -> A -> M S B) (acc : B) (l : list A) : M S B :=
  match l with
  | [] => ret acc
  | x :: l' => let! acc' := f acc x in foldM f acc' l'
  end.

End Loops.

End Eff.
(** ** The timeline projection (classes item, rangeItem, group, timelineViewer) *)

Module Timeline.
Import Js Eff.

(** *** Model entities, as far as the timeline reads them

    The classes [spatialGroup] and [temporalGroup] belong to the model.  The
    record fields below are the properties and methods the timeline uses. *)

Inductive child :=
  | CSpatial (r : nat)
  | CTemporal (r : nat).

(** Modelled from the spec: [spatialGroup.isMultiselect()] is the
    configuration of the owning group ("configured non-multiselect"); it is
    kept as the field [sg_multiselect]. *)
Record spatialGroup := {
  sg_id : string;
  sg_name : string;
  sg_description : string;
  sg_timeslot : time;
  sg_superGroup : option nat;
  sg_multiselect : bool;
  sg_item : option nat
}.

(** Modelled from the spec: [temporalGroup.forEach(f)] applies [f] to the
    sub groups of the group in order ([tg_subGroups]), and
    [temporalGroup.getDepth()] is the derived depth ([tg_depth]). *)
Record temporalGroup := {
  tg_id : string;
  tg_name : string;
  tg_description : string;
  tg_superGroup : option nat;
  tg_subGroups : list child;
  tg_depth : nat;
  tg_group : option nat
}.

(** *** Visual objects *)

Record item := {
  it_group : string;
  it_id : string;
  it_title : string;
  it_content : string;
  it_start : time;
  it_spatialGroup : nat
}.

Record rangeItem := {
  r_items : list nat;
  r_group : string;
  r_id : string;
  r_title : string;
  r_content : string;
  r_start : time;
  r_end : time
}.

Record group := {
  gr_id : string;
  gr_title : string;
  gr_content : string;
  gr_nestedGroups : option (list string);
  gr_treeLevel : nat;
  gr_nestedInGroup : option string;
  gr_temporalGroup : nat
}.

(** What is handed to the rendering layer: an item or a range item. *)
Inductive titem :=
  | Single (i : nat)
  | Range (r : rangeItem).

Inductive action := CREATE | DELETE | CLICK | SELECT | DESELECT.

Inductive target :=
  | EItem (r : nat)
  | EGroup (r : nat).

(** Calls received by the rendering layer. *)
Inductive call :=
  | SetItems (l : list titem)
  | SetGroups (l : list nat)
  | SetSelection (ids : list string).

(** The vis-timeline instance: the window, the measured width of its
    background, the cached scale, and the calls it received (latest
    last). *)
Record timeline := {
  window_start : Z;
  window_end : Z;
  bgwidth : Z;
  millisecondsPerPixelCache : option Q;
  calls : list call
}.

Record configurator := {
  aggregateItems : bool;
  timelineSelections : list string
}.

Record viewer := {
  sgroups : gmap nat spatialGroup;
  tgroups : gmap nat temporalGroup;
  iobjs : gmap nat item;
  gobjs : gmap nat group;
  next_ref : nat;
  items : strmap nat;
  groups : strmap nat;
  selections : strmap nat;
  start : time;
  end_ : time;
  width : Z;
  settings : configurator;
  tl : timeline;
  timers : nat;
  events : list (target * action)
}.

(** *** Field updates *)

Definition upd_sgroups (f : gmap nat spatialGroup -> gmap nat spatialGroup) (st : viewer) : viewer :=
  {| sgroups := f (sgroups st);
     tgroups := tgroups st;
     iobjs := iobjs st;
     gobjs := gobjs st;
     next_ref := next_ref st;
     items := items st;
     groups := groups st;
     selections := selections st;
     start := start st;
     end_ := end_ st;
     width := width st;
     settings := settings st;
     tl := tl st;
     timers := timers st;
     events := events st |}.

Definition upd_tgroups (f : gmap nat temporalGroup -> gmap nat temporalGroup) (st : viewer) : viewer :=
  {| sgroups := sgroups st;
     tgroups := f (tgroups st);
     iobjs := iobjs st;
     gobjs := gobjs st;
     next_ref := next_ref st;
     items := items st;
     groups := groups st;
     selections := selections st;
     start := start st;
     end_ := end_ st;
     width := width st;
     settings := settings st;
     tl := tl st;
     timers := timers st;
     events := events st |}.

Definition upd_iobjs (f : gmap nat item -> gmap nat item) (st : viewer) : viewer :=
  {| sgroups := sgroups st;
     tgroups := tgroups st;
     iobjs := f (iobjs st);
     gobjs := gobjs st;
     next_ref := next_ref st;
     items := items st;
     groups := groups st;
     selections := selections st;
     start := start st;
     end_ := end_ st;
     width := width st;
     settings := settings st;
     tl := tl st;
     timers := timers st;
     events := events st |}.

Definition upd_gobjs (f : gmap nat group -> gmap nat group) (st : viewer) : viewer :=
  {| sgroups := sgroups st;
     tgroups := tgroups st;
     iobjs := iobjs st;
     gobjs := f (gobjs st);
     next_ref := next_ref st;
     items := items st;
     groups := groups st;
     selections := selections st;
     start := start st;
     end_ := end_ st;
     width := width st;
     settings := settings st;
     tl := tl st;
     timers := timers st;
     events := events st |}.

Definition upd_next_ref (f : nat -> nat) (st : viewer) : viewer :=
  {| sgroups := sgroups st;
     tgroups := tgroups st;
     iobjs := iobjs st;
     gobjs := gobjs st;
     next_ref := f (next_ref st);
     items := items st;
     groups := groups st;
     selections := selections st;
     start := start st;
     end_ := end_ st;
     width := width st;
     settings := settings st;
     tl := tl st;
     timers := timers st;
     events := events st |}.

Definition upd_items (f : strmap nat -> strmap nat) (st : viewer) : viewer :=
  {| sgroups := sgroups st;
     tgroups := tgroups st;
     iobjs := iobjs st;
     gobjs := gobjs st;
     next_ref := next_ref st;
     items := f (items st);
     groups := groups st;
     selections := selections st;
     start := start st;
     end_ := end_ st;
     width := width st;
     settings := settings st;
     tl := tl st;
     timers := timers st;
     events := events st |}.

Definition upd_groups (f : strmap nat -> strmap nat) (st : viewer) : viewer :=
  {| sgroups := sgroups st;
     tgroups := tgroups st;
     iobjs := iobjs st;
     gobjs := gobjs st;
     next_ref := next_ref st;
     items := items st;
     groups := f (groups st);
     selections := selections st;
     start := start st;
     end_ := end_ st;
     width := width st;
     settings := settings st;
     tl := tl st;
     timers := timers st;
     events := events st |}.

Definition upd_selections (f : strmap nat -> strmap nat) (st : viewer) : viewer :=
  {| sgroups := sgroups st;
     tgroups := tgroups st;
     iobjs := iobjs st;
     gobjs := gobjs st;
     next_ref := next_ref st;
     items := items st;
     groups := groups st;
     selections := f (selections st);
     start := start st;
     end_ := end_ st;
     width := width st;
     settings := settings st;
     tl := tl st;
     timers := timers st;
     events := events st |}.

Definition upd_timers (f : nat -> nat) (st : viewer) : viewer :=
  {| sgroups := sgroups st;
     tgroups := tgroups st;
     iobjs := iobjs st;
     gobjs := gobjs st;
     next_ref := next_ref st;
     items := items st;
     groups := groups st;
     selections := selections st;
     start := start st;
     end_ := end_ st;
     width := width st;
     settings := settings st;
     tl := tl st;
     timers := f (timers st);
     events := events st |}.

Definition upd_events (f : list (target * action) -> list (target * action)) (st : viewer) : viewer :=
  {| sgroups := sgroups st;
     tgroups := tgroups st;
     iobjs := iobjs st;
     gobjs := gobjs st;
     next_ref := next_ref st;
     items := items st;
     groups := groups st;
     selections := selections st;
     start := start st;
     end_ := end_ st;
     width := width st;
     settings := settings st;
     tl := tl st;
     timers := timers st;
     events := f (events st) |}.

Definition upd_tl (f : timeline -> timeline) (st : viewer) : viewer :=
  {| sgroups := sgroups st;
     tgroups := tgroups st;
     iobjs := iobjs st;
     gobjs := gobjs st;
     next_ref := next_ref st;
     items := items st;
     groups := groups st;
     selections := selections st;
     start := start st;
     end_ := end_ st;
     width := width st;
     settings := settings st;
     tl := f (tl st);
     timers := timers st;
     events := events st |}.

Definition record_call (c : call) (t : timeline) : timeline :=
  {| window_start := window_start t;
     window_end := window_end t;
     bgwidth := bgwidth t;
     millisecondsPerPixelCache := millisecondsPerPixelCache t;
     calls := calls t ++ [c] |}.

(** [this.width = width; this.start = start; this.end = end]. *)
Definition store_window (w : Z) (s e : time) (st : viewer) : viewer :=
  {| sgroups := sgroups st;
     tgroups := tgroups st;
     iobjs := iobjs st;
     gobjs := gobjs st;
     next_ref := next_ref st;
     items := items st;
     groups := groups st;
     selections := selections st;
     start := s;
     end_ := e;
     width := w;
     settings := settings st;
     tl := tl st;
     timers := timers st;
     events := events st |}.

(** *** Computations on the viewer *)

Abbreviation M := (Eff.M viewer).

(** Modelled from the spec: [observable.emit(entity, action)] publishes the
    event; the bus is kept as the sequence of emitted events. *)
Definition emit (t : target) (a : action) : M unit :=
  modify (upd_events (fun l => l ++ [(t, a)])).

Definition tl_call (c : call) : M unit :=
  modify (upd_tl (record_call c)).

(** *** timelineViewer: lookups and selection *)

Definition getGroup (g : string) : M (option nat) :=
  gets (fun st => get g (groups st)).

Definition getItem (i : string) : M (option nat) :=
  gets (fun st => get i (items st)).

Definition getSelectionsIds : M (list string) :=
  gets (fun st => keys (selections st)).

Definition isSelected (i : option nat) : M bool :=
  match i with
  | None => ret false
  | Some r =>
      let! it := deref iobjs r in
      gets (fun st => has (it_id it) (selections st))
  end.

Definition refreshSelections : M unit :=
  let! ids := getSelectionsIds in
  tl_call (SetSelection ids).

(** [sg.item] for a sub group [sg] handed over by [forEach]; a temporal sub
    group has no such property. *)
Definition child_item (c : child) : M (option nat) :=
  match c with
  | CSpatial r => let! sg := deref sgroups r in ret (sg_item sg)
  | CTemporal r => let! _ := deref tgroups r in ret None
  end.

(** The body of the [forEach] in [toggleSelection]. *)
Definition deselect_sibling (c : child) : M unit :=
  let! oi := child_item c in
  match oi with
  | None => ret tt
  | Some r =>
      let! it := deref iobjs r in
      let! sel := gets selections in
      if has (it_id it) sel then
        let! _ := modify (upd_selections (delete (it_id it))) in
        emit (EItem r) DESELECT
      else ret tt
  end.

Definition toggleSelection (i : option nat) (select : option bool)
  : M (option nat) :=
  match i with
  | None => ret None
  | Some r =>
      let! select :=
        match select with
        | Some b => ret b
        | None => let! cur := isSelected i in ret (negb cur)
        end in
      let! update :=
        (if select : bool then
           let! cur := isSelected i in
           if negb cur then
             let! it := deref iobjs r in
             let! sg := deref sgroups (it_spatialGroup it) in
             let! _ :=
               match sg_superGroup sg with
               | Some sup =>
                   if negb (sg_multiselect sg) then
                     let! g := deref tgroups sup in
                     forM_ (tg_subGroups g) deselect_sibling
                   else ret tt
               | None => ret tt
               end in
             let! _ := modify (upd_selections (set (it_id it) r)) in
             let! _ := emit (EItem r) SELECT in
             ret true
           else ret false
         else
           let! it := deref iobjs r in
           let! sel := gets selections in
           let update := has (it_id it) sel in
           let! _ := modify (upd_selections (delete (it_id it))) in
           let! _ := (if update then emit (EItem r) DESELECT else ret tt) in
           ret update) in
      let! _ := (if update : bool then refreshSelections else ret tt) in
      ret (Some r)
  end.

(** The subscription to [settings.timeline.selections].  [Map.forEach]
    visits the entries that are still present when their turn comes; no
    entry is added while the first loop runs. *)
Definition deselect_unwanted (wanted : list string) (kv : string * nat)
  : M unit :=
  let! cur := gets (fun st => get (fst kv) (selections st)) in
  match cur with
  | None => ret tt
  | Some r =>
      let! it := deref iobjs r in
      if negb (bool_decide (it_id it ∈ wanted)) then
        let! _ := toggleSelection (Some r) (Some false) in ret tt
      else ret tt
  end.

Definition select_wanted (i : string) : M unit :=
  let! it := getItem i in
  let! _ := toggleSelection it (Some true) in
  ret tt.

Definition onTimelineSelections (val : list string) : M unit :=
  let wanted := newSet val in
  let! snapshot := gets selections in
  let! _ := forM_ snapshot (deselect_unwanted wanted) in
  forM_ wanted select_wanted.

(** *** Constructors of the visual objects *)

Definition with_item (o : option nat) (sg : spatialGroup) : spatialGroup :=
  {| sg_id := sg_id sg;
     sg_name := sg_name sg;
     sg_description := sg_description sg;
     sg_timeslot := sg_timeslot sg;
     sg_superGroup := sg_superGroup sg;
     sg_multiselect := sg_multiselect sg;
     sg_item := o |}.

Definition with_group (o : option nat) (g : temporalGroup) : temporalGroup :=
  {| tg_id := tg_id g;
     tg_name := tg_name g;
     tg_description := tg_description g;
     tg_superGroup := tg_superGroup g;
     tg_subGroups := tg_subGroups g;
     tg_depth := tg_depth g;
     tg_group := o |}.

Definition push_nested (id : string) (g : group) : group :=
  {| gr_id := gr_id g;
     gr_title := gr_title g;
     gr_content := gr_content g;
     gr_nestedGroups :=
       match gr_nestedGroups g with
       | None => Some [id]
       | Some l => Some (l ++ [id])
       end;
     gr_treeLevel := gr_treeLevel g;
     gr_nestedInGroup := gr_nestedInGroup g;
     gr_temporalGroup := gr_temporalGroup g |}.

Definition alloc : M nat :=
  let! r := gets next_ref in
  let! _ := modify (upd_next_ref S) in
  ret r.

(** [new item(g)]: reads [g.superGroup.id], so a spatial group without
    super group makes the constructor throw. *)
Definition new_item (g : nat) : M nat :=
  let! sg := deref sgroups g in
  let! sup :=
    match sg_superGroup sg with
    | Some t => deref tgroups t
    | None => throw
    end in
  let! r := alloc in
  let it := {| it_group := tg_id sup;
               it_id := sg_id sg;
               it_title := sg_description sg;
               it_content := sg_name sg;
               it_start := sg_timeslot sg;
               it_spatialGroup := g |} in
  let! _ := modify (upd_iobjs <[r := it]>) in
  let! _ := modify (upd_sgroups <[g := with_item (Some r) sg]>) in
  ret r.

(** [new group(g)] for a temporal group [g]; a temporal group carries a
    description and a name, and none of the properties [title], [content],
    [treeLevel] and [nestedGroups] of a timeline group. *)
Definition new_group (g : nat) : M nat :=
  let! t := deref tgroups g in
  let! nestedIn :=
    match tg_superGroup t with
    | Some sup =>
        let! s := deref tgroups sup in
        match tg_group s with
        | Some sgr =>
            let! so := deref gobjs sgr in
            let! _ := modify (upd_gobjs <[sgr := push_nested (tg_id t) so]>) in
            ret (Some (gr_id so))
        | None => throw
        end
    | None => ret None
    end in
  let! r := alloc in
  let gr := {| gr_id := tg_id t;
               gr_title := tg_description t;
               gr_content := tg_name t;
               gr_nestedGroups := None;
               gr_treeLevel := tg_depth t + 1;
               gr_nestedInGroup := nestedIn;
               gr_temporalGroup := g |} in
  let! _ := modify (upd_gobjs <[r := gr]>) in
  let! _ := modify (upd_tgroups <[g := with_group (Some r) t]>) in
  ret r.

Definition refreshGroups : M unit :=
  let! gs := gets (fun st => values (groups st)) in
  tl_call (SetGroups gs).

(** *** timelineViewer: creation

    The result is the returned value; [None] is [undefined]. *)

Definition createItem (g : nat) : M (option nat) :=
  let! sg := deref sgroups g in
  let! its := gets items in
  if has (sg_id sg) its then ret (get (sg_id sg) its)
  else
    let! it := new_item g in
    let! o := deref iobjs it in
    let! _ := modify (upd_items (set (it_id o) it)) in
    let! _ := modify (upd_timers S) in
    let! _ := emit (EItem it) CREATE in
    let! wanted :=
      gets (fun st => newSet (timelineSelections (settings st))) in
    let! _ :=
      (if bool_decide (it_id o ∈ wanted) then
         let! _ := toggleSelection (Some it) (Some true) in ret tt
       else ret tt) in
    ret None.

Definition createGroup (g : nat) : M (option nat) :=
  let! t := deref tgroups g in
  let! grs := gets groups in
  if has (tg_id t) grs then ret (get (tg_id t) grs)
  else
    let! gr := new_group g in
    let! o := deref gobjs gr in
    let! _ := modify (upd_groups (set (gr_id o) gr)) in
    let! _ := refreshGroups in
    let! _ := emit (EGroup gr) CREATE in
    ret None.

(** *** timelineViewer.refreshItems *)

Definition itemWidth : positive := 160.

(** [range.millisecondsPerPixelCache || (window.end - window.start) / width] *)
Definition millisecondsPerPixel (t : timeline) : num :=
  let computed :=
    div_Z (time_minus (TAt (window_end t)) (TAt (window_start t)))
          (bgwidth t) in
  match millisecondsPerPixelCache t with
  | Some q => if truthy (Fin q) then Fin q else computed
  | None => computed
  end.

Definition criticalDuration (t : timeline) : num :=
  div_pos (mul_pos (millisecondsPerPixel t) itemWidth) 2.

(** [new Date(window.start - itemWidth * millisecondsPerPixel)] *)
Definition lookahead_start (t : timeline) : time :=
  newDate (Z_minus (window_start t) (mul_pos (millisecondsPerPixel t) itemWidth)).

Definition lookahead_end (t : timeline) : time := TAt (window_end t).

(** [new rangeItem(items)]; the references of the members come with the
    objects read from the heap. *)
Definition new_rangeItem (first : nat * item) (others : list (nat * item))
  : rangeItem :=
  let lastItem := List.last others first in
  let text := it_content (snd first) +:+ " - " +:+ it_content (snd lastItem) in
  {| r_items := fst first :: map fst others;
     r_group := it_group (snd first);
     r_id := it_id (snd first) +:+ "-" +:+ it_id (snd lastItem);
     r_title := text;
     r_content := text;
     r_start := it_start (snd first);
     r_end := it_start (snd lastItem) |}.

(** The closure [processArray]; [items] is the array it pushes to. *)
Definition processArray (itemArray : list (nat * item)) (items : list titem)
  : list titem :=
  match itemArray with
  | [] => items
  | [a] => items ++ [Single (fst a)]
  | [a; b] => items ++ [Single (fst a); Single (fst b)]
  | a :: others => items ++ [Range (new_rangeItem a others)]
  end.

(** [groupItems.sort((a, b) => a.start - b.start)]: the sort is stable; a
    NaN from the comparator counts as [0]. *)
Definition before (a b : nat * item) : bool :=
  match it_start (snd a), it_start (snd b) with
  | TAt x, TAt y => (x <=? y)%Z
  | _, _ => true
  end.

Fixpoint insert_by_start (x : nat * item) (l : list (nat * item))
  : list (nat * item) :=
  match l with
  | [] => [x]
  | y :: l' => if before x y then x :: l else y :: insert_by_start x l'
  end.

Fixpoint sort_by_start (l : list (nat * item)) : list (nat * item) :=
  match l with
  | [] => []
  | x :: l' => insert_by_start x (sort_by_start l')
  end.

(** [itemArray[0] = i] *)
Definition set_first {A} (x : A) (l : list A) : list A :=
  match l with
  | [] => [x]
  | _ :: l' => x :: l'
  end.

(** The loop over the sorted items of one row; the state of the loop is
    [itemArray], [latestStart] ([None] is [null]) and [items]. *)
Fixpoint walk (cd : num) (groupItems itemArray : list (nat * item))
    (latestStart : option time) (items : list titem)
  : list (nat * item) * list titem :=
  match groupItems with
  | [] => (itemArray, items)
  | i :: rest =>
      let latest := Some (it_start (snd i)) in
      match latestStart with
      | Some t =>
          if time_truthy t then
            if lt (time_minus (it_start (snd i)) t) cd then
              walk cd rest (itemArray ++ [i]) latest items
            else
              walk cd rest [i] latest (processArray itemArray items)
          else
            walk cd rest (set_first i itemArray) latest items
      | None =>
          walk cd rest (set_first i itemArray) latest items
      end
  end.

(** The body of the loop over the groups, once [groupItems] is filled. *)
Definition aggregate (cd : num) (groupItems : list (nat * item))
    (items : list titem) : list titem :=
  let '(itemArray, items') := walk cd (sort_by_start groupItems) [] None items in
  processArray itemArray items'.

(** [start <= item.start && item.start <= end] *)
Definition in_window (s e : time) (i : nat) : M bool :=
  let! it := deref iobjs i in
  ret (le (valueOf s) (valueOf (it_start it))
       && le (valueOf (it_start it)) (valueOf e)).

Definition child_id (c : child) : M string :=
  match c with
  | CSpatial r => let! sg := deref sgroups r in ret (sg_id sg)
  | CTemporal r => let! t := deref tgroups r in ret (tg_id t)
  end.

(** The [forEach] that fills [groupItems] for the timeline group [gr]. *)
Definition collect (visibleItems : list nat) (gr : nat)
  : M (list (nat * item)) :=
  let! g := deref gobjs gr in
  let! t := deref tgroups (gr_temporalGroup g) in
  foldM (fun groupItems c =>
           let! id := child_id c in
           let! oi := getItem id in
           match oi with
           | Some i =>
               if bool_decide (i ∈ visibleItems) then
                 let! it := deref iobjs i in
                 ret (groupItems ++ [(i, it)])
               else ret groupItems
           | None => ret groupItems
           end)
        [] (tg_subGroups t).

Definition refreshItems (force : bool) : M unit :=
  let! t := gets tl in
  let w := bgwidth t in
  let s := lookahead_start t in
  let e := lookahead_end t in
  let! same :=
    gets (fun st => (w =? width st)%Z && isSame s (start st)
                    && isSame e (end_ st)) in
  if negb force && same then ret tt
  else
    let! _ := modify (store_window w s e) in
    let! all := gets (fun st => values (items st)) in
    let! agg := gets (fun st => aggregateItems (settings st)) in
    let! _ :=
      (if agg : bool then
         let! visibleItems := filterM (in_window s e) all in
         let! grs := gets (fun st => values (groups st)) in
         let! shown :=
           foldM (fun acc gr =>
                    let! groupItems := collect visibleItems gr in
                    ret (aggregate (criticalDuration t) groupItems acc))
                 [] grs in
         tl_call (SetItems shown)
       else tl_call (SetItems (map Single all))) in
    refreshSelections.

(** *** timelineViewer: update and deletion *)

Definition with_it_group (gid : string) (it : item) : item :=
  {| it_group := gid;
     it_id := it_id it;
     it_title := it_title it;
     it_content := it_content it;
     it_start := it_start it;
     it_spatialGroup := it_spatialGroup it |}.

(** [updateItem(g)]: reads [g.item.group] and [g.superGroup.id], so a
    spatial group without item or without super group makes it throw. *)
Definition updateItem (g : nat) : M unit :=
  let! sg := deref sgroups g in
  match sg_item sg, sg_superGroup sg with
  | Some i, Some t =>
      let! it := deref iobjs i in
      let! sup := deref tgroups t in
      if decide (it_group it <> tg_id sup) then
        let! _ := modify (upd_iobjs <[i := with_it_group (tg_id sup) it]>) in
        let! all := gets (fun st => values (items st)) in
        let! _ := tl_call (SetItems (map Single all)) in
        refreshItems true
      else ret tt
  | _, _ => throw
  end.

(** [deleteItem(g)]: [this.items.delete(g.id) && g.item]; the entry of the
    id is dropped before [g.item] is looked at. *)
Definition deleteItem (g : nat) : M unit :=
  let! sg := deref sgroups g in
  let! registered := gets (fun st => has (sg_id sg) (items st)) in
  let! _ := modify (upd_items (delete (sg_id sg))) in
  if registered : bool then
    match sg_item sg with
    | Some it =>
        let! _ := toggleSelection (Some it) (Some false) in
        let! sg' := deref sgroups g in
        let! _ := modify (upd_sgroups <[g := with_item None sg']>) in
        let! _ := refreshItems true in
        emit (EItem it) DELETE
    | None => ret tt
    end
  else ret tt.

(** [deleteGroup] as [forEach] calls it on an element of [nestedGroups]:
    the element is the id of a group, a string, whose property [id] is
    undefined, and no group is registered under [undefined]; nothing is
    deleted. *)
Definition deleteGroup_of_id (id : string) : M unit := ret tt.

(** [nestedGroups.findIndex(elem => elem === id)] followed by
    [splice(index, 1)] when found. *)
Fixpoint remove_first (id : string) (l : list string) : list string :=
  match l with
  | [] => []
  | x :: l' => if decide (x = id) then l' else x :: remove_first id l'
  end.

Definition with_nested (n : option (list string)) (g : group) : group :=
  {| gr_id := gr_id g;
     gr_title := gr_title g;
     gr_content := gr_content g;
     gr_nestedGroups := n;
     gr_treeLevel := gr_treeLevel g;
     gr_nestedInGroup := gr_nestedInGroup g;
     gr_temporalGroup := gr_temporalGroup g |}.

(** The body of the loop of [deleteGroup] over [this.items.values()]; the
    iterator of a [Map] skips an entry that was deleted before its turn. *)
Definition delete_item_of (gid : string) (kv : string * nat) : M unit :=
  let! cur := gets (fun st => get (fst kv) (items st)) in
  match cur with
  | Some i =>
      let! it := deref iobjs i in
      if decide (it_group it = gid) then deleteItem (it_spatialGroup it)
      else ret tt
  | None => ret tt
  end.

Definition deleteGroup (g : nat) : M unit :=
  let! t := deref tgroups g in
  let! registered := gets (fun st => has (tg_id t) (groups st)) in
  let! _ := modify (upd_groups (delete (tg_id t))) in
  if registered : bool then
    match tg_group t with
    | None => throw
    | Some gr =>
        let! o := deref gobjs gr in
        let! _ :=
          match gr_nestedGroups o with
          | Some ids => forM_ ids deleteGroup_of_id
          | None => ret tt
          end in
        let! snapshot := gets items in
        let! _ := forM_ snapshot (delete_item_of (tg_id t)) in
        let! _ :=
          match tg_superGroup t with
          | Some sup =>
              let! s := deref tgroups sup in
              match tg_group s with
              | Some sgr =>
                  let! so := deref gobjs sgr in
                  match gr_nestedGroups so with
                  | Some ids =>
                      modify (upd_gobjs
                                <[sgr := with_nested
                                           (Some (remove_first (tg_id t) ids)) so]>)
                  | None => ret tt
                  end
              | None => ret tt
              end
          | None => ret tt
          end in
        let! t' := deref tgroups g in
        let! _ := modify (upd_tgroups <[g := with_group None t']>) in
        let! _ := refreshGroups in
        emit (EGroup gr) DELETE
    end
  else ret tt.

End Timeline.
(** *** A timeline with one row of five items *)

Module TimelineExample.
Import Js Eff Timeline.

Definition sg (id : string) (ms : Z) : spatialGroup :=
  {| sg_id := id; sg_name := id; sg_description := "";
     sg_timeslot := TAt ms; sg_superGroup := Some 0;
     sg_multiselect := false; sg_item := None |}.

Definition row : temporalGroup :=
  {| tg_id := "T"; tg_name := "T"; tg_description := "";
     tg_superGroup := None;
     tg_subGroups := [CSpatial 1; CSpatial 2; CSpatial 3; CSpatial 4; CSpatial 5];
     tg_depth := 0; tg_group := None |}.

(** A viewer right after construction, at time [now], over the model
    [sgs], [tgs]. *)
Definition fresh (now : Z) (sgs : gmap nat spatialGroup)
    (tgs : gmap nat temporalGroup) (cfg : configurator) (t : timeline)
  : viewer :=
  {| sgroups := sgs; tgroups := tgs; iobjs := ∅; gobjs := ∅;
     next_ref := 0; items := []; groups := []; selections := [];
     start := TAt now; end_ := TAt now; width := 0;
     settings := cfg; tl := t; timers := 0; events := [] |}.

Definition model_sgs : gmap nat spatialGroup :=
  <[1 := sg "a" 0]> (<[2 := sg "b" 1]> (<[3 := sg "c" 2]>
  (<[4 := sg "d" 100]> (<[5 := sg "e" 101]> ∅)))).

Definition model_tgs : gmap nat temporalGroup := <[0 := row]> ∅.

(** The window is [0, 200] on 3200 pixels: 1/16 ms per pixel, hence a
    critical duration of 5 ms. *)
Definition window : timeline :=
  {| window_start := 0; window_end := 200; bgwidth := 3200;
     millisecondsPerPixelCache := None; calls := [] |}.

Definition empty_viewer : viewer :=
  fresh 1000 model_sgs model_tgs
    {| aggregateItems := true; timelineSelections := [] |} window.

Definition populate : M unit :=
  let! _ := createGroup 0 in
  forM_ [1; 2; 3; 4; 5] (fun g => let! _ := createItem g in ret tt).

Definition populated : viewer :=
  match populate empty_viewer with
  | Some (_, st) => st
  | None => empty_viewer
  end.

Definition refreshed : viewer :=
  match refreshItems false populated with
  | Some (_, st) => st
  | None => populated
  end.

(** The items that [populate] creates, as [refreshItems] reads them. *)
Definition it (id : string) (ms : Z) (g : nat) : item :=
  {| it_group := "T"; it_id := id; it_title := ""; it_content := id;
     it_start := TAt ms; it_spatialGroup := g |}.

Definition five : list (nat * item) :=
  [(1, it "a" 0 1); (2, it "b" 1 2); (3, it "c" 2 3);
   (4, it "d" 100 4); (5, it "e" 101 5)].

(** One row whose sub groups are listed out of the order of time, two of
    them outside the window: p before the start that the refresh computes
    ([-10]), q after the end. *)
Definition scattered_sgs : gmap nat spatialGroup :=
  <[1 := sg "d" 100]> (<[2 := sg "b" 1]> (<[3 := sg "p" (-500)]>
  (<[4 := sg "a" 0]> (<[5 := sg "e" 101]> (<[6 := sg "c" 2]>
  (<[7 := sg "q" 900]> ∅)))))).

Definition scattered_row : temporalGroup :=
  {| tg_id := "T"; tg_name := "T"; tg_description := "";
     tg_superGroup := None;
     tg_subGroups := [CSpatial 1; CSpatial 2; CSpatial 3; CSpatial 4;
                      CSpatial 5; CSpatial 6; CSpatial 7];
     tg_depth := 0; tg_group := None |}.

Definition scattered_viewer : viewer :=
  fresh 1000 scattered_sgs (<[0 := scattered_row]> ∅)
    {| aggregateItems := true; timelineSelections := [] |} window.

Definition scatter : M unit :=
  let! _ := createGroup 0 in
  forM_ [1; 2; 3; 4; 5; 6; 7] (fun g => let! _ := createItem g in ret tt).

Definition scattered : viewer :=
  match scatter scattered_viewer with
  | Some (_, st) => st
  | None => scattered_viewer
  end.

(** The populated row on a timeline whose background measures no pixel. *)
Definition collapsed : viewer :=
  upd_tl (fun t => {| window_start := window_start t;
                      window_end := window_end t;
                      bgwidth := 0;
                      millisecondsPerPixelCache := millisecondsPerPixelCache t;
                      calls := calls t |}) populated.

(** Two rows: [T] with the items a, b, c and [U] with the item x; no group
    is multiselect. *)
Definition sg_in (sup : nat) (id : string) (ms : Z) : spatialGroup :=
  {| sg_id := id; sg_name := id; sg_description := "";
     sg_timeslot := TAt ms; sg_superGroup := Some sup;
     sg_multiselect := false; sg_item := None |}.

Definition tg_with (id : string) (subs : list child) : temporalGroup :=
  {| tg_id := id; tg_name := id; tg_description := "";
     tg_superGroup := None; tg_subGroups := subs;
     tg_depth := 0; tg_group := None |}.

Definition two_rows : viewer :=
  fresh 1000
    (<[1 := sg_in 0 "a" 0]> (<[2 := sg_in 0 "b" 1]> (<[3 := sg_in 0 "c" 2]>
     (<[11 := sg_in 10 "x" 3]> ∅))))
    (<[0 := tg_with "T" [CSpatial 1; CSpatial 2; CSpatial 3]]>
     (<[10 := tg_with "U" [CSpatial 11]]> ∅))
    {| aggregateItems := true; timelineSelections := [] |} window.

Definition populate_rows : M unit :=
  let! _ := createGroup 0 in
  let! _ := createGroup 10 in
  forM_ [1; 2; 3; 11] (fun g => let! _ := createItem g in ret tt).

Definition click (id : string) : M unit :=
  let! i := getItem id in
  let! _ := toggleSelection i None in
  ret tt.

Definition rows : viewer :=
  match populate_rows two_rows with
  | Some (_, st) => st
  | None => two_rows
  end.

(** The rows after x and a were clicked. *)
Definition a_selected : viewer :=
  match (let! _ := click "x" in click "a") rows with
  | Some (_, st) => st
  | None => rows
  end.

(** The same two rows with multiselect spatial groups, a selected. *)
Definition multi (sg : spatialGroup) : spatialGroup :=
  {| sg_id := sg_id sg; sg_name := sg_name sg;
     sg_description := sg_description sg; sg_timeslot := sg_timeslot sg;
     sg_superGroup := sg_superGroup sg; sg_multiselect := true;
     sg_item := sg_item sg |}.

Definition multi_rows : viewer :=
  match (let! _ := modify (upd_sgroups (fmap multi)) in
         let! _ := populate_rows in
         click "a") two_rows with
  | Some (_, st) => st
  | None => two_rows
  end.

(** The rows after x and a were clicked and the item a was deleted. *)
Definition a_deleted : viewer :=
  match deleteItem 1 a_selected with
  | Some (_, st) => st
  | None => a_selected
  end.

(** A row P with the nested row Q, both registered, and the viewer after
    the group of P was deleted. *)
Definition nested : viewer :=
  fresh 1000 ∅
    (<[20 := tg_with "P" [CTemporal 21]]>
     (<[21 := {| tg_id := "Q"; tg_name := "Q"; tg_description := "Q";
                 tg_superGroup := Some 20; tg_subGroups := [];
                 tg_depth := 1; tg_group := None |}]> ∅))
    {| aggregateItems := true; timelineSelections := [] |} window.

Definition nested_groups : viewer :=
  match (let! _ := createGroup 20 in createGroup 21) nested with
  | Some (_, st) => st
  | None => nested
  end.

Definition parent_deleted : viewer :=
  match deleteGroup 20 nested_groups with
  | Some (_, st) => st
  | None => nested_groups
  end.

(** In the model the spatial group a has moved from the row T to the row
    U; the timeline has not followed yet. *)
Definition a_moved : viewer :=
  upd_sgroups <[1 := with_item (Some 2) (sg_in 10 "a" 0)]> rows.

Definition a_updated : viewer :=
  match updateItem 1 a_moved with
  | Some (_, st) => st
  | None => a_moved
  end.

(** The two rows with their groups registered and no item yet, and the row
    P alone with its group registered. *)
Definition rows_groups : viewer :=
  match (let! _ := createGroup 0 in createGroup 10) two_rows with
  | Some (_, st) => st
  | None => two_rows
  end.

Definition parent_group : viewer :=
  match createGroup 20 nested with
  | Some (_, st) => st
  | None => nested
  end.

End TimelineExample.

(** ** The map projection (classes point, line, layerGroup, controlGroup,
    mapViewer) *)

Module MapViewer.
Import Eff.

(** The value of a property that holds an object: absent, [null], or a
    reference. *)
Inductive jsref :=
  | Undefined
  | Null
  | Ref (r : nat).

#[global] Instance jsref_eq_dec : EqDecision jsref.
Proof. solve_decision. Defined.

(** [x != null] *)
Definition not_null (x : jsref) : option nat :=
  match x with
  | Ref r => Some r
  | _ => None
  end.

Definition of_option (o : option nat) : jsref :=
  match o with
  | Some r => Ref r
  | None => Undefined
  end.

(** *** Model entities, as far as the map reads them

    The classes [vertex], [edge], [spatialGroup] and [temporalGroup] belong
    to the model.  [vertex.forEach] visits the outgoing edges of the vertex
    in order ([v_edges]). *)

(** Modelled from the spec: the values of [edge.prototype.ROUTE],
    [TEMPORAL], [LANDMARK] and [TEMP] are the edge types
    "route/temporal/landmark/temp". *)
Definition edge_ROUTE : string := "route".
Definition edge_TEMPORAL : string := "temporal".
Definition edge_LANDMARK : string := "landmark".
Definition edge_TEMP : string := "temp".

Definition line_EDIT : string := "edit".
Definition line_LANDMARK : string := "landmark".

Record vertex := {
  v_type : string;
  v_spatialGroup : option nat;
  v_edges : list nat;
  v_point : option nat
}.

Record edge := {
  e_from : nat;
  e_to : nat;
  e_type : string;
  e_opposite : option nat;
  e_line : option nat
}.

Record spatialGroup := {
  sg_superGroup : option nat;
  sg_layerGroup : option nat
}.

Record temporalGroup := {
  tg_name : string;
  tg_superGroup : option nat;
  tg_controlGroup : option nat
}.

(** *** Visual objects

    Every visual owns the Leaflet layer made by its constructor; the layer
    is identified with the reference of the visual.  [delete elem.layer]
    clears [p_layer] or [l_layer]. *)

Record point := {
  p_vertex : nat;
  p_type : string;
  p_layer : bool;
  p_parent : jsref
}.

Record line := {
  l_edge : nat;
  l_type : string;
  l_layer : bool
}.

Record layerGroup := {
  lg_spatialGroup : nat;
  lg_parent : jsref
}.

Record controlGroup := {
  cg_label : string;
  cg_temporalGroup : nat;
  cg_parent : jsref;
  cg_children : option (list nat)
}.

Inductive kind := KPoint | KLine | KLayerGroup | KControlGroup.

#[global] Instance kind_eq_dec : EqDecision kind.
Proof. solve_decision. Defined.

Inductive action :=
  | CREATE | DELETE | SHOW | HIDE | CLICK | START_UPDATE | END_UPDATE.

(** The Leaflet side: the layers that are on the map ([map._layers]), the
    members of every feature group, the members of the line group with the
    flag that tells whether the line group itself is on the map, and the id
    of every layer.  Leaflet stamps the id on a layer when it first meets
    the layer and never changes it; the stamps are taken as given. *)
Record leaflet := {
  onmap : gset nat;
  members : gmap nat (list nat);
  lineGroup : list nat;
  lineGroup_onmap : bool;
  layerId : nat -> nat
}.

Record viewer := {
  vertices : gmap nat vertex;
  edges : gmap nat edge;
  sgroups : gmap nat spatialGroup;
  tgroups : gmap nat temporalGroup;
  points : gmap nat point;
  lines : gmap nat line;
  lgroups : gmap nat layerGroup;
  cgroups : gmap nat controlGroup;
  next_ref : nat;
  L : leaflet;
  layers : gmap nat kind;
  overlayTree : list nat;
  treeUpdates : nat;
  events : list (kind * nat * action)
}.

Abbreviation M := (Eff.M viewer).

(** *** Field updates *)

Definition upd_vertices (f : gmap nat vertex -> gmap nat vertex) (st : viewer) : viewer :=
  {| vertices := f (vertices st);
     edges := edges st;
     sgroups := sgroups st;
     tgroups := tgroups st;
     points := points st;
     lines := lines st;
     lgroups := lgroups st;
     cgroups := cgroups st;
     next_ref := next_ref st;
     L := L st;
     layers := layers st;
     overlayTree := overlayTree st;
     treeUpdates := treeUpdates st;
     events := events st |}.

Definition upd_edges (f : gmap nat edge -> gmap nat edge) (st : viewer) : viewer :=
  {| vertices := vertices st;
     edges := f (edges st);
     sgroups := sgroups st;
     tgroups := tgroups st;
     points := points st;
     lines := lines st;
     lgroups := lgroups st;
     cgroups := cgroups st;
     next_ref := next_ref st;
     L := L st;
     layers := layers st;
     overlayTree := overlayTree st;
     treeUpdates := treeUpdates st;
     events := events st |}.

Definition upd_sgroups (f : gmap nat spatialGroup -> gmap nat spatialGroup) (st : viewer) : viewer :=
  {| vertices := vertices st;
     edges := edges st;
     sgroups := f (sgroups st);
     tgroups := tgroups st;
     points := points st;
     lines := lines st;
     lgroups := lgroups st;
     cgroups := cgroups st;
     next_ref := next_ref st;
     L := L st;
     layers := layers st;
     overlayTree := overlayTree st;
     treeUpdates := treeUpdates st;
     events := events st |}.

Definition upd_tgroups (f : gmap nat temporalGroup -> gmap nat temporalGroup) (st : viewer) : viewer :=
  {| vertices := vertices st;
     edges := edges st;
     sgroups := sgroups st;
     tgroups := f (tgroups st);
     points := points st;
     lines := lines st;
     lgroups := lgroups st;
     cgroups := cgroups st;
     next_ref := next_ref st;
     L := L st;
     layers := layers st;
     overlayTree := overlayTree st;
     treeUpdates := treeUpdates st;
     events := events st |}.

Definition upd_points (f : gmap nat point -> gmap nat point) (st : viewer) : viewer :=
  {| vertices := vertices st;
     edges := edges st;
     sgroups := sgroups st;
     tgroups := tgroups st;
     points := f (points st);
     lines := lines st;
     lgroups := lgroups st;
     cgroups := cgroups st;
     next_ref := next_ref st;
     L := L st;
     layers := layers st;
     overlayTree := overlayTree st;
     treeUpdates := treeUpdates st;
     events := events st |}.

Definition upd_lines (f : gmap nat line -> gmap nat line) (st : viewer) : viewer :=
  {| vertices := vertices st;
     edges := edges st;
     sgroups := sgroups st;
     tgroups := tgroups st;
     points := points st;
     lines := f (lines st);
     lgroups := lgroups st;
     cgroups := cgroups st;
     next_ref := next_ref st;
     L := L st;
     layers := layers st;
     overlayTree := overlayTree st;
     treeUpdates := treeUpdates st;
     events := events st |}.

Definition upd_lgroups (f : gmap nat layerGroup -> gmap nat layerGroup) (st : viewer) : viewer :=
  {| vertices := vertices st;
     edges := edges st;
     sgroups := sgroups st;
     tgroups := tgroups st;
     points := points st;
     lines := lines st;
     lgroups := f (lgroups st);
     cgroups := cgroups st;
     next_ref := next_ref st;
     L := L st;
     layers := layers st;
     overlayTree := overlayTree st;
     treeUpdates := treeUpdates st;
     events := events st |}.

Definition upd_cgroups (f : gmap nat controlGroup -> gmap nat controlGroup) (st : viewer) : viewer :=
  {| vertices := vertices st;
     edges := edges st;
     sgroups := sgroups st;
     tgroups := tgroups st;
     points := points st;
     lines := lines st;
     lgroups := lgroups st;
     cgroups := f (cgroups st);
     next_ref := next_ref st;
     L := L st;
     layers := layers st;
     overlayTree := overlayTree st;
     treeUpdates := treeUpdates st;
     events := events st |}.

Definition upd_next_ref (f : nat -> nat) (st : viewer) : viewer :=
  {| vertices := vertices st;
     edges := edges st;
     sgroups := sgroups st;
     tgroups := tgroups st;
     points := points st;
     lines := lines st;
     lgroups := lgroups st;
     cgroups := cgroups st;
     next_ref := f (next_ref st);
     L := L st;
     layers := layers st;
     overlayTree := overlayTree st;
     treeUpdates := treeUpdates st;
     events := events st |}.

Definition upd_L (f : leaflet -> leaflet) (st : viewer) : viewer :=
  {| vertices := vertices st;
     edges := edges st;
     sgroups := sgroups st;
     tgroups := tgroups st;
     points := points st;
     lines := lines st;
     lgroups := lgroups st;
     cgroups := cgroups st;
     next_ref := next_ref st;
     L := f (L st);
     layers := layers st;
     overlayTree := overlayTree st;
     treeUpdates := treeUpdates st;
     events := events st |}.

Definition upd_layers (f : gmap nat kind -> gmap nat kind) (st : viewer) : viewer :=
  {| vertices := vertices st;
     edges := edges st;
     sgroups := sgroups st;
     tgroups := tgroups st;
     points := points st;
     lines := lines st;
     lgroups := lgroups st;
     cgroups := cgroups st;
     next_ref := next_ref st;
     L := L st;
     layers := f (layers st);
     overlayTree := overlayTree st;
     treeUpdates := treeUpdates st;
     events := events st |}.

Definition upd_overlayTree (f : list nat -> list nat) (st : viewer) : viewer :=
  {| vertices := vertices st;
     edges := edges st;
     sgroups := sgroups st;
     tgroups := tgroups st;
     points := points st;
     lines := lines st;
     lgroups := lgroups st;
     cgroups := cgroups st;
     next_ref := next_ref st;
     L := L st;
     layers := layers st;
     overlayTree := f (overlayTree st);
     treeUpdates := treeUpdates st;
     events := events st |}.

Definition upd_treeUpdates (f : nat -> nat) (st : viewer) : viewer :=
  {| vertices := vertices st;
     edges := edges st;
     sgroups := sgroups st;
     tgroups := tgroups st;
     points := points st;
     lines := lines st;
     lgroups := lgroups st;
     cgroups := cgroups st;
     next_ref := next_ref st;
     L := L st;
     layers := layers st;
     overlayTree := overlayTree st;
     treeUpdates := f (treeUpdates st);
     events := events st |}.

Definition upd_events (f : list (kind * nat * action) -> list (kind * nat * action)) (st : viewer) : viewer :=
  {| vertices := vertices st;
     edges := edges st;
     sgroups := sgroups st;
     tgroups := tgroups st;
     points := points st;
     lines := lines st;
     lgroups := lgroups st;
     cgroups := cgroups st;
     next_ref := next_ref st;
     L := L st;
     layers := layers st;
     overlayTree := overlayTree st;
     treeUpdates := treeUpdates st;
     events := f (events st) |}.

Definition upd_onmap (f : gset nat -> gset nat) (l : leaflet) : leaflet :=
  {| onmap := f (onmap l);
     members := members l;
     lineGroup := lineGroup l;
     lineGroup_onmap := lineGroup_onmap l;
     layerId := layerId l |}.

Definition upd_members (f : gmap nat (list nat) -> gmap nat (list nat)) (l : leaflet) : leaflet :=
  {| onmap := onmap l;
     members := f (members l);
     lineGroup := lineGroup l;
     lineGroup_onmap := lineGroup_onmap l;
     layerId := layerId l |}.

Definition upd_lineGroup (f : list nat -> list nat) (l : leaflet) : leaflet :=
  {| onmap := onmap l;
     members := members l;
     lineGroup := f (lineGroup l);
     lineGroup_onmap := lineGroup_onmap l;
     layerId := layerId l |}.

Definition with_point (o : option nat) (v : vertex) : vertex :=
  {| v_type := v_type v; v_spatialGroup := v_spatialGroup v;
     v_edges := v_edges v; v_point := o |}.

Definition with_line (o : option nat) (e : edge) : edge :=
  {| e_from := e_from e; e_to := e_to e; e_type := e_type e;
     e_opposite := e_opposite e; e_line := o |}.

Definition with_layerGroup (o : option nat) (g : spatialGroup) : spatialGroup :=
  {| sg_superGroup := sg_superGroup g; sg_layerGroup := o |}.

Definition with_controlGroup (o : option nat) (g : temporalGroup)
  : temporalGroup :=
  {| tg_name := tg_name g; tg_superGroup := tg_superGroup g;
     tg_controlGroup := o |}.

Definition point_parent (x : jsref) (p : point) : point :=
  {| p_vertex := p_vertex p; p_type := p_type p; p_layer := p_layer p;
     p_parent := x |}.

Definition point_no_layer (p : point) : point :=
  {| p_vertex := p_vertex p; p_type := p_type p; p_layer := false;
     p_parent := p_parent p |}.

Definition line_no_layer (l : line) : line :=
  {| l_edge := l_edge l; l_type := l_type l; l_layer := false |}.

Definition lg_with_parent (x : jsref) (g : layerGroup) : layerGroup :=
  {| lg_spatialGroup := lg_spatialGroup g; lg_parent := x |}.

Definition cg_with_parent (x : jsref) (g : controlGroup) : controlGroup :=
  {| cg_label := cg_label g; cg_temporalGroup := cg_temporalGroup g;
     cg_parent := x; cg_children := cg_children g |}.

Definition cg_with_children (c : option (list nat)) (g : controlGroup)
  : controlGroup :=
  {| cg_label := cg_label g; cg_temporalGroup := cg_temporalGroup g;
     cg_parent := cg_parent g; cg_children := c |}.

(** Modelled from the spec: [observable.emit(entity, action)] publishes the
    event; the bus is kept as the sequence of emitted events. *)
Definition emit (k : kind) (r : nat) (a : action) : M unit :=
  modify (upd_events (fun l => l ++ [(k, r, a)])).

(** Modelled from the spec: [observable.startUpdate] and [endUpdate]
    bracket a programmatic update of a visual (the reentrancy guard); they
    are recorded on the bus and touch no visual. *)
Definition startUpdate (k : kind) (r : nat) : M unit := emit k r START_UPDATE.
Definition endUpdate (k : kind) (r : nat) : M unit := emit k r END_UPDATE.

Definition alloc : M nat :=
  let! r := gets next_ref in
  let! _ := modify (upd_next_ref S) in
  ret r.

(** [array.indexOf(x)] followed by [splice(index, 1)] when found. *)
Fixpoint remove_first (x : nat) (l : list nat) : list nat :=
  match l with
  | [] => []
  | y :: l' => if decide (y = x) then l' else y :: remove_first x l'
  end.

(** *** Leaflet, as the viewer drives it

    [map.addLayer] registers the layer, adds the members of a feature group
    in turn, fires the listeners of the layer for 'add' and then the
    listener of the map for 'layeradd'.  [map.removeLayer] removes the
    members of a feature group first, unregisters the layer and fires
    'layerremove' on the map and 'remove' on the layer.  The recursion over
    nested groups is bounded by the number of feature groups, which is
    enough when no group holds itself; a group that holds itself makes
    Leaflet recurse until the stack overflows, and where the bound is hit
    the call has no result. *)

(** [map.hasLayer(layer)] *)
Definition hasLayer (x : nat) : M bool :=
  gets (fun st => bool_decide (x ∈ onmap (L st))).

(** The listener of the map for 'layeradd'. *)
Definition on_layeradd (x : nat) : M unit :=
  let! elem := gets (fun st => layers st !! x) in
  match elem with
  | Some k => emit k x SHOW
  | None => ret tt
  end.

(** The listener of the map for 'layerremove'. *)
Definition on_layerremove (x : nat) : M unit :=
  let! elem := gets (fun st => layers st !! x) in
  match elem with
  | Some KLayerGroup => emit KLayerGroup x HIDE
  | _ => ret tt
  end.

(** A layer without members and without listeners of its own (a line). *)
Definition map_addLine (x : nat) : M unit :=
  let! on := hasLayer x in
  if on : bool then ret tt
  else
    let! _ := modify (upd_L (upd_onmap (fun s => {[x]} ∪ s))) in
    on_layeradd x.

Definition map_removeLine (x : nat) : M unit :=
  let! on := hasLayer x in
  if on : bool then
    let! _ := modify (upd_L (upd_onmap (fun s => s ∖ {[x]}))) in
    on_layerremove x
  else ret tt.

(** [layer.addTo(this.lineGroup)] and [this.lineGroup.removeLayer(layer)] *)
Definition lineGroup_addLayer (x : nat) : M unit :=
  let! lg := gets (fun st => lineGroup (L st)) in
  if bool_decide (x ∈ lg) then ret tt
  else
    let! _ := modify (upd_L (upd_lineGroup (fun l => l ++ [x]))) in
    let! on := gets (fun st => lineGroup_onmap (L st)) in
    if on : bool then map_addLine x else ret tt.

Definition lineGroup_removeLayer (x : nat) : M unit :=
  let! lg := gets (fun st => lineGroup (L st)) in
  if bool_decide (x ∈ lg) then
    let! on := gets (fun st => lineGroup_onmap (L st)) in
    let! _ := (if on : bool then map_removeLine x else ret tt) in
    modify (upd_L (upd_lineGroup (filter (fun y => y <> x))))
  else ret tt.

(** [this.isVisible(elem)] for a point; a point without layer is on no
    map. *)
Definition isVisible (p : nat) : M bool :=
  let! pt := deref points p in
  if p_layer pt then hasLayer p else ret false.

(** The listener for 'add' that [createPoint] puts on the layer of the
    point [p]. *)
Definition onPointAdd (p : nat) : M unit :=
  let! pt := deref points p in
  let! v := deref vertices (p_vertex pt) in
  forM_ (v_edges v) (fun e =>
    let! ed := deref edges e in
    match e_line ed with
    | Some l =>
        let! target := deref vertices (e_to ed) in
        match v_point target with
        | Some q =>
            let! vis := isVisible q in
            if vis : bool then
              let! ln := deref lines l in
              if l_layer ln then lineGroup_addLayer l else throw
            else ret tt
        | None => ret tt
        end
    | None => ret tt
    end).

(** The listener for 'remove' that [createPoint] puts on the layer of the
    point [p]. *)
Definition onPointRemove (p : nat) : M unit :=
  let! pt := deref points p in
  let! v := deref vertices (p_vertex pt) in
  forM_ (v_edges v) (fun e =>
    let! ed := deref edges e in
    match e_line ed with
    | Some l =>
        let! ln := deref lines l in
        if l_layer ln then lineGroup_removeLayer l else ret tt
    | None => ret tt
    end).

(** The listeners of a layer: only the layers of points carry any. *)
Definition fire_add (x : nat) : M unit :=
  let! p := gets (fun st => points st !! x) in
  match p with
  | Some _ => onPointAdd x
  | None => ret tt
  end.

Definition fire_remove (x : nat) : M unit :=
  let! p := gets (fun st => points st !! x) in
  match p with
  | Some _ => onPointRemove x
  | None => ret tt
  end.

Definition members_of (x : nat) : M (list nat) :=
  gets (fun st => default [] (members (L st) !! x)).

(** [group.eachLayer]: a feature group keeps its members in an object keyed
    by layer id, which is walked by ascending id. *)
Fixpoint insert_by_id (id : nat -> nat) (x : nat) (l : list nat) : list nat :=
  match l with
  | [] => [x]
  | y :: l' => if (id x <=? id y)%nat then x :: l else y :: insert_by_id id x l'
  end.

Definition by_id (id : nat -> nat) (l : list nat) : list nat :=
  foldr (insert_by_id id) [] l.

Definition eachLayer (x : nat) : M (list nat) :=
  gets (fun st => by_id (layerId (L st)) (default [] (members (L st) !! x))).

Fixpoint map_addLayer_rec (fuel : nat) (x : nat) : M unit :=
  match fuel with
  | 0 => throw
  | S fuel' =>
      let! on := hasLayer x in
      if on : bool then ret tt
      else
        let! _ := modify (upd_L (upd_onmap (fun s => {[x]} ∪ s))) in
        let! ms := eachLayer x in
        let! _ := forM_ ms (map_addLayer_rec fuel') in
        let! _ := fire_add x in
        on_layeradd x
  end.

Fixpoint map_removeLayer_rec (fuel : nat) (x : nat) : M unit :=
  match fuel with
  | 0 => throw
  | S fuel' =>
      let! on := hasLayer x in
      if on : bool then
        let! ms := eachLayer x in
        let! _ := forM_ ms (map_removeLayer_rec fuel') in
        let! _ := modify (upd_L (upd_onmap (fun s => s ∖ {[x]}))) in
        let! _ := on_layerremove x in
        fire_remove x
      else ret tt
  end.

Definition nesting_bound : M nat :=
  gets (fun st => S (S (size (members (L st))))).

(** [layer.addTo(this.map)] and [layer.remove()] *)
Definition map_addLayer (x : nat) : M unit :=
  let! fuel := nesting_bound in map_addLayer_rec fuel x.

Definition map_removeLayer (x : nat) : M unit :=
  let! fuel := nesting_bound in map_removeLayer_rec fuel x.

(** [layer.addTo(group)] and [group.removeLayer(layer)] for the feature
    group of the visual [g]. *)
Definition group_addLayer (g x : nat) : M unit :=
  let! ms := members_of g in
  if bool_decide (x ∈ ms) then ret tt
  else
    let! _ := modify (upd_L (upd_members <[g := ms ++ [x]]>)) in
    let! on := hasLayer g in
    if on : bool then map_addLayer x else ret tt.

Definition group_removeLayer (g x : nat) : M unit :=
  let! ms := members_of g in
  if bool_decide (x ∈ ms) then
    let! on := hasLayer g in
    let! _ := (if on : bool then map_removeLayer x else ret tt) in
    modify (upd_L (upd_members <[g := filter (fun y => y <> x) ms]>))
  else ret tt.

(** *** mapViewer: parents *)

(** [elem.parent] of a visual. *)
Definition parent_of (k : kind) (r : nat) : M jsref :=
  match k with
  | KPoint => let! p := deref points r in ret (p_parent p)
  | KLayerGroup => let! g := deref lgroups r in ret (lg_parent g)
  | KControlGroup => let! g := deref cgroups r in ret (cg_parent g)
  | KLine => let! _ := deref lines r in ret Undefined
  end.

(** [elem.parent = x]; a line takes the property like any object. *)
Definition set_parent (k : kind) (r : nat) (x : jsref) : M unit :=
  match k with
  | KPoint =>
      let! p := deref points r in
      modify (upd_points <[r := point_parent x p]>)
  | KLayerGroup =>
      let! g := deref lgroups r in
      modify (upd_lgroups <[r := lg_with_parent x g]>)
  | KControlGroup =>
      let! g := deref cgroups r in
      modify (upd_cgroups <[r := cg_with_parent x g]>)
  | KLine => let! _ := deref lines r in ret tt
  end.

(** Whether the visual still has its layer. *)
Definition has_layer (k : kind) (r : nat) : M bool :=
  match k with
  | KPoint => let! p := deref points r in ret (p_layer p)
  | KLine => let! l := deref lines r in ret (l_layer l)
  | KLayerGroup => let! _ := deref lgroups r in ret true
  | KControlGroup => let! _ := deref cgroups r in ret true
  end.

(** [deriveParent(mapelem)]: a line has none of the properties [vertex],
    [spatialGroup], [temporalGroup], so the method throws for it. *)
Definition deriveParent (k : kind) (r : nat) : M jsref :=
  match k with
  | KPoint =>
      let! p := deref points r in
      let! v := deref vertices (p_vertex p) in
      match v_spatialGroup v with
      | Some g =>
          let! sg := deref sgroups g in ret (of_option (sg_layerGroup sg))
      | None => throw
      end
  | KLayerGroup =>
      let! lg := deref lgroups r in
      let! sg := deref sgroups (lg_spatialGroup lg) in
      match sg_superGroup sg with
      | Some t =>
          let! tg := deref tgroups t in ret (of_option (tg_controlGroup tg))
      | None => ret Null
      end
  | KControlGroup =>
      let! cg := deref cgroups r in
      let! g := deref tgroups (cg_temporalGroup cg) in
      match tg_superGroup g with
      | Some t =>
          let! tg := deref tgroups t in ret (of_option (tg_controlGroup tg))
      | None => ret Null
      end
  | KLine => throw
  end.

Definition addToDerivedParent (k : kind) (r : nat) : M unit :=
  let! d := deriveParent k r in
  let! _ := set_parent k r d in
  let! hl := has_layer k r in
  let! _ :=
    (if hl : bool then
       match d with
       | Ref pr => group_addLayer pr r
       | _ => map_addLayer r
       end
     else throw) in
  match k with
  | KControlGroup =>
      match d with
      | Ref pr =>
          let! pg := deref cgroups pr in
          modify (upd_cgroups
                    <[pr := cg_with_children
                              (Some (default [] (cg_children pg) ++ [r])) pg]>)
      | _ => modify (upd_overlayTree (fun l => l ++ [r]))
      end
  | _ => ret tt
  end.

Definition removeFromParentControlGroup (cg : nat) : M unit :=
  let! g := deref cgroups cg in
  let! _ :=
    match cg_parent g with
    | Ref pr =>
        let! pg := deref cgroups pr in
        match cg_children pg with
        | Some arr =>
            let arr' := remove_first cg arr in
            modify (upd_cgroups
                      <[pr := cg_with_children
                                (if decide (arr' = []) then None else Some arr')
                                pg]>)
        | None => throw
        end
    | _ => modify (upd_overlayTree (remove_first cg))
    end in
  set_parent KControlGroup cg Null.

Definition removeFromParent (k : kind) (r : nat) : M unit :=
  let! x := parent_of k r in
  let! _ :=
    match x with
    | Ref pr =>
        let! hl := has_layer k r in
        if hl : bool then group_removeLayer pr r else ret tt
    | _ => ret tt
    end in
  let! _ :=
    match k with
    | KControlGroup => removeFromParentControlGroup r
    | _ => ret tt
    end in
  set_parent k r Null.

Definition updateLayerTree : M unit :=
  modify (upd_treeUpdates S).

(** *** mapViewer: creation

    The rendering options ([this.config.point], [this.config.line]) and the
    coordinates only reach Leaflet and are left out; z-order calls
    ([bringToFront], [bringToBack]) and the listeners for clicks and drags
    have no effect on the state kept here. *)

(** [config.type || fallback] *)
Definition type_or (config_type : option string) (fallback : string) : string :=
  match config_type with
  | Some t => if decide (t = "") then fallback else t
  | None => fallback
  end.

Definition createControlGroup (g : nat) : M (option nat) :=
  let! tg := deref tgroups g in
  match tg_controlGroup tg with
  | Some cg => ret (Some cg)
  | None =>
      let! cg := alloc in
      let! _ := modify (upd_cgroups
                          <[cg := {| cg_label := tg_name tg;
                                     cg_temporalGroup := g;
                                     cg_parent := Undefined;
                                     cg_children := None |}]>) in
      let! _ := modify (upd_tgroups <[g := with_controlGroup (Some cg) tg]>) in
      let! _ := modify (upd_L (upd_members <[cg := []]>)) in
      let! _ := addToDerivedParent KControlGroup cg in
      let! _ := updateLayerTree in
      let! _ := modify (upd_layers <[cg := KControlGroup]>) in
      let! _ := emit KControlGroup cg CREATE in
      ret (Some cg)
  end.

Definition createLayerGroup (g : nat) : M (option nat) :=
  let! sg := deref sgroups g in
  match sg_layerGroup sg with
  | Some lg => ret (Some lg)
  | None =>
      let! lg := alloc in
      let! _ := modify (upd_lgroups
                          <[lg := {| lg_spatialGroup := g;
                                     lg_parent := Undefined |}]>) in
      let! _ := modify (upd_sgroups <[g := with_layerGroup (Some lg) sg]>) in
      let! _ := modify (upd_L (upd_members <[lg := []]>)) in
      let! _ := modify (upd_layers <[lg := KLayerGroup]>) in
      let! _ := emit KLayerGroup lg CREATE in
      ret (Some lg)
  end.

Definition createPoint (v : nat) (config_type : option string)
  : M (option nat) :=
  let! vx := deref vertices v in
  match v_point vx with
  | Some p => ret (Some p)
  | None =>
      let type := type_or config_type (v_type vx) in
      let! p := alloc in
      let! _ := modify (upd_points
                          <[p := {| p_vertex := v; p_type := type;
                                    p_layer := true;
                                    p_parent := Undefined |}]>) in
      let! _ := modify (upd_vertices <[v := with_point (Some p) vx]>) in
      let! _ := addToDerivedParent KPoint p in
      let! _ := modify (upd_layers <[p := KPoint]>) in
      let! _ := emit KPoint p CREATE in
      ret (Some p)
  end.

(** [new line(e, type, options)] *)
Definition new_line (e : nat) (type : string) : M nat :=
  let! ed := deref edges e in
  let! l := alloc in
  let! _ := modify (upd_lines
                      <[l := {| l_edge := e; l_type := type;
                                l_layer := true |}]>) in
  let! _ := modify (upd_edges <[e := with_line (Some l) ed]>) in
  let! _ :=
    match e_opposite ed with
    | Some o =>
        let! oe := deref edges o in
        modify (upd_edges <[o := with_line (Some l) oe]>)
    | None => ret tt
    end in
  let! _ := deref vertices (e_from ed) in
  let! _ := deref vertices (e_to ed) in
  ret l.

(** [e.from.point && e.to.point && this.isVisible(e.from.point) &&
    this.isVisible(e.to.point)] *)
Definition both_visible (e : nat) : M bool :=
  let! ed := deref edges e in
  let! vf := deref vertices (e_from ed) in
  let! vt := deref vertices (e_to ed) in
  match v_point vf, v_point vt with
  | Some p, Some q =>
      let! a := isVisible p in
      if a : bool then isVisible q else ret false
  | _, _ => ret false
  end.

(** The result [None] is [null]. *)
Definition createLine (e : nat) (config_type : option string)
  : M (option nat) :=
  let! ed := deref edges e in
  match e_line ed with
  | Some l => ret (Some l)
  | None =>
      if decide (e_type ed = edge_TEMPORAL) then ret None
      else
        let type := type_or config_type (e_type ed) in
        let type := if decide (type = edge_TEMP) then line_EDIT else type in
        let! l := new_line e type in
        let! _ := modify (upd_layers <[l := KLine]>) in
        let! vis := both_visible e in
        let! _ := (if vis : bool then lineGroup_addLayer l else ret tt) in
        let! _ := emit KLine l CREATE in
        ret (Some l)
  end.

(** *** mapViewer: visibility of layer groups *)

Definition showLayerGroup (g : nat) : M (option nat) :=
  let! sg := deref sgroups g in
  let! _ :=
    match sg_layerGroup sg with
    | Some _ => ret tt
    | None => let! _ := createLayerGroup g in ret tt
    end in
  let! sg' := deref sgroups g in
  match sg_layerGroup sg' with
  | Some lg =>
      let! _ := addToDerivedParent KLayerGroup lg in
      ret (Some lg)
  | None => throw
  end.

Definition hideLayerGroup (g : nat) : M (option nat) :=
  let! sg := deref sgroups g in
  match sg_layerGroup sg with
  | Some lg =>
      let! _ := removeFromParent KLayerGroup lg in
      ret (Some lg)
  | None => ret None
  end.

(** *** mapViewer: re-parenting *)

Inductive entity :=
  | EVertex (r : nat)
  | EEdge (r : nat)
  | ESpatial (r : nat)
  | ETemporal (r : nat).

(** [elem.line || elem.point || elem.layerGroup || elem.controlGroup]; an
    entity of one class has one of these properties at most. *)
Definition visual_of (elem : entity) : M (option (kind * nat)) :=
  match elem with
  | EVertex r =>
      let! v := deref vertices r in ret (pair KPoint <$> v_point v)
  | EEdge r =>
      let! e := deref edges r in ret (pair KLine <$> e_line e)
  | ESpatial r =>
      let! g := deref sgroups r in ret (pair KLayerGroup <$> sg_layerGroup g)
  | ETemporal r =>
      let! g := deref tgroups r in ret (pair KControlGroup <$> tg_controlGroup g)
  end.

Definition updateParent (elem : entity) : M (kind * nat) :=
  let! mapelem := visual_of elem in
  match mapelem with
  | None => throw
  | Some (k, r) =>
      let! x := parent_of k r in
      let! d := deriveParent k r in
      if decide (x = d) then ret (k, r)
      else
        let! _ := startUpdate k r in
        let! _ := removeFromParent k r in
        let! _ := addToDerivedParent k r in
        let! _ := updateLayerTree in
        let! _ := endUpdate k r in
        ret (k, r)
  end.

(** *** mapViewer: deletion *)

Definition deleteLine (e : nat) : M unit :=
  let! ed := deref edges e in
  match e_line ed with
  | None => ret tt
  | Some elem =>
      let! ln := deref lines elem in
      let! _ :=
        (if l_layer ln then
           let! _ := lineGroup_removeLayer elem in
           let! _ := map_removeLine elem in
           let! _ := modify (upd_layers (delete elem)) in
           modify (upd_lines <[elem := line_no_layer ln]>)
         else ret tt) in
      let! _ := modify (upd_edges <[e := with_line None ed]>) in
      let! _ :=
        match e_opposite ed with
        | Some o =>
            let! oe := deref edges o in
            modify (upd_edges <[o := with_line None oe]>)
        | None => ret tt
        end in
      emit KLine elem DELETE
  end.

Definition deletePoint (v : nat) : M unit :=
  let! vx := deref vertices v in
  match v_point vx with
  | None => ret tt
  | Some elem =>
      let! _ := forM_ (v_edges vx) deleteLine in
      let! _ := removeFromParent KPoint elem in
      let! _ := map_removeLayer elem in
      let! _ := modify (upd_layers (delete elem)) in
      let! pt := deref points elem in
      let! _ := modify (upd_points <[elem := point_no_layer pt]>) in
      let! vx' := deref vertices v in
      let! _ := modify (upd_vertices <[v := with_point None vx']>) in
      emit KPoint elem DELETE
  end.

Definition deleteLayerGroup (g : nat) : M unit :=
  let! sg := deref sgroups g in
  match sg_layerGroup sg with
  | None => ret tt
  | Some elem =>
      let! _ := removeFromParent KLayerGroup elem in
      let! _ := map_removeLayer elem in
      let! _ := modify (upd_layers (delete elem)) in
      let! _ := modify (upd_sgroups <[g := with_layerGroup None sg]>) in
      emit KLayerGroup elem DELETE
  end.

Definition deleteControlGroup (g : nat) : M unit :=
  let! tg := deref tgroups g in
  match tg_controlGroup tg with
  | None => ret tt
  | Some elem =>
      let! _ := removeFromParent KControlGroup elem in
      let! _ := map_removeLayer elem in
      let! _ := modify (upd_layers (delete elem)) in
      let! _ := modify (upd_tgroups <[g := with_controlGroup None tg]>) in
      emit KControlGroup elem DELETE
  end.

(** *** mapViewer: edit mode *)

Definition point_EDIT : string := "edit".

(** [elem.forEach(e => this.createLine(e))] for a vertex. *)
Definition createLines (v : nat) : M unit :=
  let! vx := deref vertices v in
  forM_ (v_edges vx) (fun e => let! _ := createLine e None in ret tt).

(** [setEditable(elem)]; the result [None] is [undefined] or [null]. *)
Definition setEditable (elem : entity) : M (option nat) :=
  match elem with
  | EVertex v =>
      let! vx := deref vertices v in
      let! editable :=
        match v_point vx with
        | Some p =>
            let! pt := deref points p in
            ret (bool_decide (p_type pt = point_EDIT))
        | None => ret false
        end in
      if editable : bool then ret (v_point vx)
      else
        let! _ := deletePoint v in
        let! p := createPoint v (Some point_EDIT) in
        let! _ := createLines v in
        ret p
  | EEdge e =>
      let! ed := deref edges e in
      match e_line ed with
      | Some l =>
          let! ln := deref lines l in
          if bool_decide (l_edge ln = e)
             && negb (bool_decide (e_type ed = edge_LANDMARK))
             && negb (bool_decide (l_type ln = line_EDIT))
          then
            let! _ := deleteLine e in
            createLine e (Some line_EDIT)
          else ret None
      | None => ret None
      end
  | _ => ret None
  end.

Definition unsetEditable (elem : entity) : M (option nat) :=
  match elem with
  | EVertex v =>
      let! vx := deref vertices v in
      match v_point vx with
      | Some _ =>
          let! _ := deletePoint v in
          let! p := createPoint v None in
          let! _ := createLines v in
          ret p
      | None => ret None
      end
  | EEdge e =>
      let! ed := deref edges e in
      match e_line ed with
      | Some l =>
          let! ln := deref lines l in
          if bool_decide (l_edge ln = e)
             && negb (bool_decide (e_type ed = edge_LANDMARK))
          then
            let! _ := deleteLine e in
            createLine e None
          else ret None
      | None => ret None
      end
  | _ => ret None
  end.

End MapViewer.

(** *** A map with three vertices in two spatial groups *)

Module MapExample.
Import Eff MapViewer.

Definition vx (g : nat) (es : list nat) : vertex :=
  {| v_type := "panorama"; v_spatialGroup := Some g; v_edges := es;
     v_point := None |}.

Definition ed (a b : nat) (t : string) (o : option nat) : edge :=
  {| e_from := a; e_to := b; e_type := t; e_opposite := o; e_line := None |}.

(** The temporal group 0 holds the spatial groups 1 (vertices 1 and 2) and
    2 (vertex 3).  The edges 1 and 2 connect the vertices 1 and 2 in both
    directions, the edge 3 leads from vertex 1 to vertex 3 only, and the
    edges 4 and 5 are the temporal pair between the vertices 1 and 2.
    Leaflet stamps the layers in the order in which the visuals are
    made. *)
Definition model : viewer :=
  {| vertices := <[1 := vx 1 [1; 3; 4]]> (<[2 := vx 1 [2; 5]]> (<[3 := vx 2 []]> ∅));
     edges := <[1 := ed 1 2 edge_ROUTE (Some 2)]>
              (<[2 := ed 2 1 edge_ROUTE (Some 1)]>
              (<[3 := ed 1 3 edge_ROUTE None]>
              (<[4 := ed 1 2 edge_TEMPORAL (Some 5)]>
              (<[5 := ed 2 1 edge_TEMPORAL (Some 4)]> ∅))));
     sgroups := <[1 := {| sg_superGroup := Some 0; sg_layerGroup := None |}]>
                (<[2 := {| sg_superGroup := Some 0; sg_layerGroup := None |}]> ∅);
     tgroups := <[0 := {| tg_name := "T"; tg_superGroup := None;
                          tg_controlGroup := None |}]> ∅;
     points := ∅; lines := ∅; lgroups := ∅; cgroups := ∅;
     next_ref := 0;
     L := {| onmap := ∅; members := ∅; lineGroup := [];
             lineGroup_onmap := true; layerId := fun r => r |};
     layers := ∅; overlayTree := []; treeUpdates := 0; events := [] |}.

Definition run {A} (m : M A) (st : viewer) : viewer :=
  match m st with
  | Some (_, st') => st'
  | None => st
  end.

(** All groups and points are created and shown; no line exists yet. *)
Definition build_points : M unit :=
  let! _ := createControlGroup 0 in
  let! _ := showLayerGroup 1 in
  let! _ := showLayerGroup 2 in
  forM_ [1; 2; 3] (fun v => let! _ := createPoint v None in ret tt).

Definition with_points : viewer := run build_points model.

Definition build_lines : M unit :=
  forM_ [1; 2; 3; 4; 5] (fun e => let! _ := createLine e None in ret tt).

Definition with_lines : viewer := run build_lines with_points.

(** The model moves vertex 2 from the spatial group 1 to the spatial
    group 2; the map has not followed yet. *)
Definition moved : viewer :=
  upd_vertices <[2 := with_point (Some 4) (vx 2 [2; 5])]> with_lines.

Definition reparented : viewer := run (updateParent (EVertex 2)) moved.

(** The groups are created and shown; no point exists yet. *)
Definition build_groups : M unit :=
  let! _ := createControlGroup 0 in
  let! _ := showLayerGroup 1 in
  let! _ := showLayerGroup 2 in
  ret tt.

Definition with_groups : viewer := run build_groups model.

(** The point of vertex 1 is deleted once the lines exist. *)
Definition point_deleted : viewer := run (deletePoint 1) with_lines.

(** The point of vertex 3 is made editable. *)
Definition editable : viewer := run (setEditable (EVertex 3)) with_lines.

(** A spatial group 7 without super group joins the model, and is shown. *)
Definition with_loose_group : viewer :=
  upd_sgroups <[7 := {| sg_superGroup := None; sg_layerGroup := None |}]>
    with_lines.

Definition loose_shown : viewer := run (showLayerGroup 7) with_loose_group.

Definition loose_hidden : viewer := run (hideLayerGroup 7) loose_shown.

(** The points exist and no line yet; the edge 5 is a route whose opposite,
    the edge 4, is temporal. *)
Definition mixed : viewer :=
  upd_edges <[5 := ed 2 1 edge_ROUTE (Some 4)]> with_points.

(** The control group ranks above the layer groups, which rank above the
    points. *)
Definition rank (r : nat) : nat :=
  match r with
  | 0 => 2
  | 1 | 2 => 1
  | _ => 0
  end.

End MapExample.
(** * Tour loading (src/unnamed/part_001, class [algorithms]) *)

Module Algorithms.
Import Eff.

Set Implicit Arguments.

Section Loader.

(** The graph model, the logger and the file system are other modules of the
    application; [loadGraph] and [readTour] only call them.  The entities
    the model returns, the errors it throws, its state and the properties of
    a JSON object that the loader passes on unread are left open. *)
Variables (entity error directory file path props MS : Type).

(** *** The JSON of a tour file *)

(** The field that names the parent of a JSON object: as the file has it,
    or overwritten by [loadGraph] with the entity created for the parent. *)
Inductive link : Type :=
| FromFile
| Created (e : entity).

Record jsonEdge : Type := {
  je_props : props;
  je_from : link
}.

Record jsonVertex : Type := {
  jv_props : props;
  jv_spatialGroup : link;
  jv_outgoingEdges : option (list jsonEdge)
}.

Record jsonSpatialGroup : Type := {
  jsg_props : props;
  jsg_superGroup : link;
  jsg_vertices : option (list jsonVertex)
}.

Record jsonTemporalGroup : Type := {
  jtg_props : props;
  jtg_subGroups : option (list jsonSpatialGroup)
}.

Record tour : Type := {
  temporalGroups : option (list jsonTemporalGroup);
  spatialGroups : option (list jsonSpatialGroup);
  vertices : option (list jsonVertex);
  tours : option (list path)
}.

(** [x || []] on a field that is an array or absent. *)
Definition or_empty {A} (o : option (list A)) : list A :=
  match o with
  | Some l => l
  | None => []
  end.

(** [g.superGroup = tg], [v.spatialGroup = sg] and [e.from = v]. *)
Definition set_superGroup (tg : entity) (g : jsonSpatialGroup)
  : jsonSpatialGroup :=
  {| jsg_props := jsg_props g;
     jsg_superGroup := Created tg;
     jsg_vertices := jsg_vertices g |}.

Definition set_spatialGroup (sg : entity) (v : jsonVertex) : jsonVertex :=
  {| jv_props := jv_props v;
     jv_spatialGroup := Created sg;
     jv_outgoingEdges := jv_outgoingEdges v |}.

Definition set_from (v : entity) (e : jsonEdge) : jsonEdge :=
  {| je_props := je_props e; je_from := Created v |}.

(** *** The modules the loader calls *)

(** A call into the model returns an entity or throws. *)
Inductive outcome : Type :=
| Returned (e : entity)
| Thrown (x : error).

(** [model.createTemporalGroup] is given the properties of the JSON object
    with [subGroups: []] and, from [readTour], [directory: rootFolder];
    [model.createSpatialGroup] the properties with [vertices: []] and the
    [superGroup] field; [model.createVertex] the properties with
    [outgoingEdges: []] and the [spatialGroup] field; [model.createEdge]
    the JSON edge.  [setDirectory] is the assignment
    [sg.directory = rootDirectory] on a created spatial group. *)
Variable createTemporalGroup : props -> option directory -> MS -> outcome * MS.
Variable createSpatialGroup : props -> link -> MS -> outcome * MS.
Variable createVertex : props -> link -> MS -> outcome * MS.
Variable createEdge : props -> link -> MS -> outcome * MS.
Variable setDirectory : entity -> option directory -> MS -> MS.

(** The observables of the file system, as the values they deliver to a
    subscriber, in order and within the subscription. *)
Variable searchFile : directory -> path -> list file.
Variable readAsJSON : file -> list tour.
Variable parent : file -> directory.

(** *** The state the loader runs on *)

Inductive call : Type :=
| CTemporalGroup (j : jsonTemporalGroup) (dir : option directory)
| CSpatialGroup (j : jsonSpatialGroup)
| CVertex (j : jsonVertex)
| CEdge (j : jsonEdge).

Record attempt : Type := {
  a_call : call;
  a_outcome : outcome
}.

(** The state of the model, what the logger has received, a record of the
    calls made into the model with their outcomes, and the values a
    subscriber of [readTour]'s observable has received. *)
Record world : Type := {
  model : MS;
  logged : list error;
  attempts : list attempt;
  delivered : list bool
}.

#[local] Abbreviation M := (Eff.M world).

Definition invoke (c : call) (f : MS -> outcome * MS) : M outcome :=
  fun w =>
    let (o, m) := f (model w) in
    Some (o, {| model := m;
                logged := logged w;
                attempts := attempts w ++ [{| a_call := c; a_outcome := o |}];
                delivered := delivered w |}).

Definition logger_log (x : error) : M unit :=
  modify (fun w => {| model := model w;
                      logged := logged w ++ [x];
                      attempts := attempts w;
                      delivered := delivered w |}).

Definition assign_directory (sg : entity) (dir : option directory) : M unit :=
  modify (fun w => {| model := setDirectory sg dir (model w);
                      logged := logged w;
                      attempts := attempts w;
                      delivered := delivered w |}).

(** A subscriber that keeps what it receives. *)
Definition collect (b : bool) : M unit :=
  modify (fun w => {| model := model w;
                      logged := logged w;
                      attempts := attempts w;
                      delivered := delivered w ++ [b] |}).

(** *** loadGraph *)

(** [rootDirectory || this.filesys]: the class has no field [filesys], so
    an absent directory stays undefined. *)
Definition or_filesys (rootDirectory : option directory) : option directory :=
  match rootDirectory with
  | Some d => Some d
  | None => None
  end.

(** The body of each of the four loops.  The accumulator holds the flag
    [successful] and the array the loop extends. *)
Definition loadTemporalGroup (acc : bool * list jsonSpatialGroup)
    (j : jsonTemporalGroup) : M (bool * list jsonSpatialGroup) :=
  let! o := invoke (CTemporalGroup j None)
                   (createTemporalGroup (jtg_props j) None) in
  match o with
  | Returned tg =>
      let gr := or_empty (jtg_subGroups j) in
      ret (fst acc, snd acc ++ map (set_superGroup tg) gr)
  | Thrown x =>
      let! _ := logger_log x in
      ret (false, snd acc)
  end.

Definition loadSpatialGroup (rootDirectory : option directory)
    (acc : bool * list jsonVertex) (j : jsonSpatialGroup)
  : M (bool * list jsonVertex) :=
  let! o := invoke (CSpatialGroup j)
                   (createSpatialGroup (jsg_props j) (jsg_superGroup j)) in
  match o with
  | Returned sg =>
      let! _ := assign_directory sg rootDirectory in
      let ver := or_empty (jsg_vertices j) in
      ret (fst acc, snd acc ++ map (set_spatialGroup sg) ver)
  | Thrown x =>
      let! _ := logger_log x in
      ret (false, snd acc)
  end.

Definition loadVertex (acc : bool * list jsonEdge) (j : jsonVertex)
  : M (bool * list jsonEdge) :=
  let! o := invoke (CVertex j)
                   (createVertex (jv_props j) (jv_spatialGroup j)) in
  match o with
  | Returned v =>
      let ed := or_empty (jv_outgoingEdges j) in
      ret (fst acc, snd acc ++ map (set_from v) ed)
  | Thrown x =>
      let! _ := logger_log x in
      ret (false, snd acc)
  end.

Definition loadEdge (successful : bool) (e : jsonEdge) : M bool :=
  let! o := invoke (CEdge e) (createEdge (je_props e) (je_from e)) in
  match o with
  | Returned _ => ret successful
  | Thrown x =>
      let! _ := logger_log x in
      ret false
  end.

Definition loadGraph (t : tour) (rootDirectory : option directory) : M bool :=
  let rootDirectory := or_filesys rootDirectory in
  let! r1 := foldM loadTemporalGroup (true, or_empty (spatialGroups t))
                   (or_empty (temporalGroups t)) in
  let! r2 := foldM (loadSpatialGroup rootDirectory)
                   (fst r1, or_empty (vertices t)) (snd r1) in
  let! r3 := foldM loadVertex (fst r2, []) (snd r2) in
  foldM loadEdge (fst r3) (snd r3).

(** *** readTour *)

(** The body of the loop that creates the temporal groups ahead of the
    referenced tours. *)
Definition prepareTemporalGroup (rootFolder : directory) (successful : bool)
    (j : jsonTemporalGroup) : M bool :=
  let! o := invoke (CTemporalGroup j (Some rootFolder))
                   (createTemporalGroup (jtg_props j) (Some rootFolder)) in
  match o with
  | Returned _ => ret successful
  | Thrown x =>
      let! _ := logger_log x in
      ret false
  end.

(** [successful => successful && this.loadGraph(tour, rootFolder)], applied
    to a value of the observable [other] and handed to the subscriber. *)
Definition deliver (t : tour) (rootFolder : directory) (next : bool -> M unit)
    (successful : bool) : M unit :=
  if successful
  then let! r := loadGraph t (Some rootFolder) in next r
  else next false.

(** [readTour] called and its observable subscribed with [next].  A tour
    file may reference tour files without end; the fuel bounds the depth of
    the references followed. *)
Fixpoint readTour (fuel : nat) (t : tour) (rootFolder : directory)
    (next : bool -> M unit) : M unit :=
  match fuel with
  | 0 => throw
  | S fuel' =>
      let! successful := foldM (prepareTemporalGroup rootFolder) true
                               (or_empty (temporalGroups t)) in
      match tours t with
      | None => deliver t rootFolder next successful
      | Some ps =>
          forM_ ps (fun p =>
            forM_ (searchFile rootFolder p) (fun f =>
              forM_ (readAsJSON f) (fun t' =>
                readTour fuel' t' (parent f) (deliver t rootFolder next))))
      end
  end.

End Loader.

Unset Implicit Arguments.

Arguments FromFile {entity}.
Arguments Created {entity} e.
Arguments Returned {entity error} e.
Arguments Thrown {entity error} x.
Arguments or_empty {A} o.
Arguments CSpatialGroup {entity directory props} j.
Arguments CVertex {entity directory props} j.
Arguments CEdge {entity directory props} j.
Arguments a_call {entity error directory props} a.
Arguments a_outcome {entity error directory props} a.

(** *** getColocated *)

Section Colocated.
Import Js.

(** [panoramaViewer.getDistance] belongs to another module; the vertices
    are those [sg.forEach] visits, in its order. *)
Variables (vertex coordinates : Type).
Variable getDistance : coordinates -> vertex -> num.

(** The body of the [forEach]; the accumulator is [minDist] and [vMin]
    ([None] is [null]). *)
Definition nearer (coords : coordinates) (acc : num * option vertex)
    (other : vertex) : num * option vertex :=
  let distance := getDistance coords other in
  if le distance (fst acc) then (distance, Some other) else acc.

(** [radius] is [sg.superGroup.getColocatedRadius()], or [None] for a
    spatial group without super group, on which the call throws;
    [distanceThreshold] is [None] when the argument is [null] or left out.
    The outer [None] of the result is the uncaught [TypeError]. *)
Definition getColocated (sg : list vertex) (radius : option num)
    (coords : coordinates) (distanceThreshold : option num)
  : option (option vertex) :=
  match
    match distanceThreshold with
    | Some d => Some d
    | None =>
        match radius with
        | Some r => Some (if truthy r then r else Fin 0)
        | None => None
        end
    end
  with
  | Some minDist => Some (snd (fold_left (nearer coords) sg (minDist, None)))
  | None => None
  end.

End Colocated.

Arguments nearer {vertex coordinates} getDistance coords acc other.
Arguments getColocated {vertex coordinates} getDistance sg radius coords
  distanceThreshold.

(** *** extractAtomicProperties *)

(** A JavaScript value by its [typeof]; objects and functions carry no
    content here. *)
Inductive jsval : Type :=
| VUndefined
| VObject
| VFunction
| VBoolean (b : bool)
| VNumber (x : Js.num)
| VSymbol (n : nat)
| VString (s : string).

(** The two tests of the loop body taken together. *)
Definition kept (v : jsval) : bool :=
  match v with
  | VNumber _ | VBoolean _ | VSymbol _ => true
  | VString s => negb (Nat.eqb (String.length s) 0)
  | _ => false
  end.

(** [res[attr] = obj[attr]] on the object literal [res], for a value that
    passed one of the tests.  The name [__proto__] reaches the setter that
    [res] inherits from [Object.prototype], which ignores a value that is
    neither an object nor [null]: nothing is stored.  Every other name
    becomes a property of [res]. *)
Definition assign (attr : string) (v : jsval) (res : Js.strmap jsval)
  : Js.strmap jsval :=
  if String.eqb attr "__proto__" then res else Js.set attr v res.

(** An object is the sequence of its enumerable properties in the order of
    [for ... in]; [None] is an argument that is [null] or [undefined], over
    which the loop does not run.  The result [None] is [undefined]. *)
Definition extractAtomicProperties (obj : option (Js.strmap jsval))
  : option (Js.strmap jsval) :=
  let loop :=
    fold_left (fun (acc : Js.strmap jsval * nat) (kv : string * jsval) =>
                 if kept (snd kv)
                 then (assign (fst kv) (snd kv) (fst acc), S (snd acc))
                 else acc)
              (match obj with Some o => o | None => [] end) ([], 0) in
  if Nat.ltb 0 (snd loop) then Some (fst loop) else None.

(** *** getAxisAlignedBoundingBox *)

(** [Math.min] and [Math.max] on two numbers. *)
Definition Math_min (a b : Js.num) : Js.num :=
  match a, b with
  | Js.NaN, _ | _, Js.NaN => Js.NaN
  | _, _ => if Js.le a b then a else b
  end.

Definition Math_max (a b : Js.num) : Js.num :=
  match a, b with
  | Js.NaN, _ | _, Js.NaN => Js.NaN
  | _, _ => if Js.le a b then b else a
  end.

(** [array.reduce(f)] without initial value: throws on an empty array. *)
Definition reduce {A} (f : A -> A -> A) (l : list A) : option A :=
  match l with
  | [] => None
  | x :: l' => Some (fold_left f l' x)
  end.

(** The result [[min x, min y], [max x, max y]]; the elements of the array
    literal are evaluated in this order, so the first throws. *)
Definition getAxisAlignedBoundingBox (points : list (Js.num * Js.num))
  : option ((Js.num * Js.num) * (Js.num * Js.num)) :=
  match reduce Math_min (map fst points) with
  | None => None
  | Some x0 =>
      match reduce Math_min (map snd points) with
      | None => None
      | Some y0 =>
          match reduce Math_max (map fst points) with
          | None => None
          | Some x1 =>
              match reduce Math_max (map snd points) with
              | None => None
              | Some y1 => Some ((x0, y0), (x1, y1))
              end
          end
      end
  end.

End Algorithms.
(** ** A model and two tour files *)

Module AlgorithmsExample.
Import Eff Algorithms.

(** The model keeps the ids it has registered; an entity is its id, and a
    JSON object whose id is 0 is malformed: its creation throws the id of
    the kind of entity. *)
Definition create (kind : nat) (id : nat) (m : list nat)
  : outcome nat nat * list nat :=
  if Nat.eqb id 0 then (Thrown kind, m) else (Returned id, m ++ [id]).

Definition createTemporalGroup (id : nat) (_ : option unit) := create 1 id.
Definition createSpatialGroup (id : nat) (_ : link nat) := create 2 id.
Definition createVertex (id : nat) (_ : link nat) := create 3 id.
Definition createEdge (id : nat) (_ : link nat) := create 4 id.
Definition setDirectory (_ : nat) (_ : option unit) (m : list nat) := m.

(** No file is found. *)
Definition searchFile (_ : unit) (_ : nat) : list nat := [].
Definition readAsJSON (_ : nat) : list (tour nat nat nat) := [].
Definition parent (_ : nat) : unit := tt.

Definition loadGraph
  : tour nat nat nat -> option unit ->
    Eff.M (world nat nat unit nat (list nat)) bool :=
  Algorithms.loadGraph createTemporalGroup createSpatialGroup createVertex
    createEdge setDirectory.

Definition readTour
  : nat -> tour nat nat nat -> unit ->
    (bool -> Eff.M (world nat nat unit nat (list nat)) unit) ->
    Eff.M (world nat nat unit nat (list nat)) unit :=
  Algorithms.readTour createTemporalGroup createSpatialGroup createVertex
    createEdge setDirectory searchFile readAsJSON parent.

Definition empty_world : world nat nat unit nat (list nat) :=
  {| model := []; logged := []; attempts := []; delivered := [] |}.

Definition edge_31 : jsonEdge nat nat :=
  {| je_props := 31; je_from := FromFile |}.

Definition vertex_21 : jsonVertex nat nat :=
  {| jv_props := 21; jv_spatialGroup := FromFile;
     jv_outgoingEdges := Some [edge_31] |}.

Definition vertex_22 : jsonVertex nat nat :=
  {| jv_props := 22; jv_spatialGroup := FromFile; jv_outgoingEdges := None |}.

Definition group_11 : jsonSpatialGroup nat nat :=
  {| jsg_props := 11; jsg_superGroup := FromFile;
     jsg_vertices := Some [vertex_21] |}.

Definition group_12 : jsonSpatialGroup nat nat :=
  {| jsg_props := 12; jsg_superGroup := FromFile;
     jsg_vertices := Some [vertex_22] |}.

(** A temporal group with the sub group 11, and a second one that is
    malformed and has the sub group 13. *)
Definition period_1 : jsonTemporalGroup nat nat :=
  {| jtg_props := 1; jtg_subGroups := Some [group_11] |}.

Definition group_13 : jsonSpatialGroup nat nat :=
  {| jsg_props := 13; jsg_superGroup := FromFile; jsg_vertices := None |}.

Definition period_bad : jsonTemporalGroup nat nat :=
  {| jtg_props := 0; jtg_subGroups := Some [group_13] |}.

(** A sound tour file. *)
Definition sound : tour nat nat nat :=
  {| temporalGroups := Some [period_1];
     spatialGroups := Some [group_12];
     vertices := None;
     tours := None |}.

(** The same file with a malformed temporal group added. *)
Definition one_bad : tour nat nat nat :=
  {| temporalGroups := Some [period_1; period_bad];
     spatialGroups := Some [group_12];
     vertices := None;
     tours := None |}.

(** The sound file with an empty array of referenced tours. *)
Definition no_references : tour nat nat nat :=
  {| temporalGroups := Some [period_1];
     spatialGroups := Some [group_12];
     vertices := None;
     tours := Some [] |}.

End AlgorithmsExample.

(** *** Runs of items, in the words of the specification *)

Module TimelineSpec.
Import Js Eff Timeline.

Definition start_of (i : nat * item) : time := it_start (snd i).

(** The gap from [a] to the following item [b] is below the threshold. *)
Definition gap_below (cd : num) (a b : nat * item) : bool :=
  lt (time_minus (start_of b) (start_of a)) cd.

(** All consecutive gaps inside a run are below the threshold. *)
Fixpoint close_run (cd : num) (r : list (nat * item)) : Prop :=
  match r with
  | a :: (b :: _) as r' => gap_below cd a b = true /\ close_run cd r'
  | _ => True
  end.

(** A run ends where the next gap is not below the threshold. *)
Definition apart (cd : num) (r1 r2 : list (nat * item)) : Prop :=
  forall a b, last r1 = Some a -> head r2 = Some b -> gap_below cd a b = false.

Fixpoint separated (cd : num) (runs : list (list (nat * item))) : Prop :=
  match runs with
  | r1 :: (r2 :: _) as runs' => apart cd r1 r2 /\ separated cd runs'
  | _ => True
  end.

(** The range item that spans a run from its first to its last member. *)
Definition range_over (first final : nat * item) (members : list nat)
  : rangeItem :=
  let text := it_content (snd first) +:+ " - " +:+ it_content (snd final) in
  {| r_items := members;
     r_group := it_group (snd first);
     r_id := it_id (snd first) +:+ "-" +:+ it_id (snd final);
     r_title := text;
     r_content := text;
     r_start := start_of first;
     r_end := start_of final |}.

(** A run of one or two items is emitted as it is, a longer run as one
    range item. *)
Definition flushed (r : list (nat * item)) : list titem :=
  match head r, last r with
  | Some first, Some final =>
      if (length r <=? 2)%nat then map (fun i => Single (fst i)) r
      else [Range (range_over first final (map fst r))]
  | _, _ => []
  end.

(** The items last handed to the rendering layer. *)
Fixpoint shown (cs : list call) : option (list titem) :=
  match cs with
  | [] => None
  | c :: cs' =>
      match shown cs' with
      | Some l => Some l
      | None => match c with SetItems l => Some l | _ => None end
      end
  end.

Definition valid_start (i : nat * item) : Prop :=
  exists ms, start_of i = TAt ms.

(** The start of an item lies in the window from [s] to [e]. *)
Definition in_view (s e : time) (it : item) : bool :=
  match s, it_start it, e with
  | TAt a, TAt x, TAt b => (a <=? x)%Z && (x <=? b)%Z
  | _, _, _ => false
  end.

(** The id of a sub group. *)
Definition id_of (st : viewer) (c : child) : option string :=
  match c with
  | CSpatial r => sg_id <$> sgroups st !! r
  | CTemporal r => tg_id <$> tgroups st !! r
  end.

(** What a sub group puts into the row of its group: the item registered
    under the id of the sub group, when it starts in the window. *)
Definition row_item (st : viewer) (s e : time) (c : child)
  : option (nat * item) :=
  match id_of st c with
  | Some k =>
      match get k (items st) with
      | Some i =>
          match iobjs st !! i with
          | Some it => if in_view s e it then Some (i, it) else None
          | None => None
          end
      | None => None
      end
  | None => None
  end.

Definition row_items (st : viewer) (s e : time) (t : temporalGroup)
  : list (nat * item) :=
  omap (row_item st s e) (tg_subGroups t).

(** The items follow each other by start. *)
Fixpoint ascending (l : list (nat * item)) : Prop :=
  match l with
  | a :: (b :: _) as l' =>
      (exists x y, start_of a = TAt x /\ start_of b = TAt y /\ (x <= y)%Z)
      /\ ascending l'
  | _ => True
  end.

(** The runs of a row: its items by start, cut exactly where the gap to the
    following item is not below the threshold. *)
Definition runs_of (cd : num) (row : list (nat * item))
    (runs : list (list (nat * item))) : Prop :=
  concat runs ≡ₚ row /\
  ascending (concat runs) /\
  Forall (fun r => r <> []) runs /\
  Forall (close_run cd) runs /\
  separated cd runs.

(** The objects that a refresh reads exist: the registered items and groups,
    the temporal group of each group, and its sub groups. *)
Definition refresh_ok (st : viewer) : Prop :=
  Forall (fun i => is_Some (iobjs st !! i)) (values (items st)) /\
  Forall (fun gr => exists g t,
            gobjs st !! gr = Some g /\
            tgroups st !! gr_temporalGroup g = Some t /\
            Forall (fun c => is_Some (id_of st c)) (tg_subGroups t))
         (values (groups st)).

(** The guard of [refreshItems] lets the call through. *)
Definition recomputes (force : bool) (st : viewer) : Prop :=
  force = true \/ bgwidth (tl st) <> width st \/
  isSame (lookahead_start (tl st)) (start st) = false \/
  isSame (lookahead_end (tl st)) (end_ st) = false.

(** The item of a sub group, with its id, as [toggleSelection] reads it
    through [sg.item]. *)
Definition sibling_item (sgs : gmap nat spatialGroup) (ios : gmap nat item)
    (c : child) : option (nat * string) :=
  match c with
  | CSpatial g =>
      match sgs !! g with
      | Some sg =>
          match sg_item sg with
          | Some ri =>
              match ios !! ri with
              | Some it => Some (ri, it_id it)
              | None => None
              end
          | None => None
          end
      | None => None
      end
  | CTemporal _ => None
  end.

Definition sibling_items (st : viewer) (cs : list child) : list (nat * string) :=
  omap (sibling_item (sgroups st) (iobjs st)) cs.

(** The objects reached from a sub group exist. *)
Definition child_ok (st : viewer) (c : child) : Prop :=
  match c with
  | CSpatial g =>
      exists sg, sgroups st !! g = Some sg /\
                 forall ri, sg_item sg = Some ri -> is_Some (iobjs st !! ri)
  | CTemporal g => is_Some (tgroups st !! g)
  end.

(** The viewer after the siblings [sibs] were deselected. *)
Definition after_deselect (sibs : list (nat * string)) (st : viewer) : viewer :=
  upd_events
    (fun l => l ++ map (fun p => (EItem (fst p), DESELECT))
                       (filter (fun p => has (snd p) (selections st) = true) sibs))
    (upd_selections (fun s => foldl (fun s p => delete (snd p) s) s sibs) st).

(** The objects that the selection code reads are left as they are. *)
Definition same_heaps (st st1 : viewer) : Prop :=
  iobjs st1 = iobjs st /\ sgroups st1 = sgroups st /\
  tgroups st1 = tgroups st /\ items st1 = items st.

(** The SELECT event that a pushed id calls for: the id names an item that
    is not selected. *)
Definition select_event (st : viewer) (k : string) : option (target * action) :=
  match get k (items st) with
  | Some r => if has k (selections st) then None else Some (EItem r, SELECT)
  | None => None
  end.

(** The pushed selection [val] is applied to [st] as the symmetric
    difference: the result [st'] selects exactly the pushed ids that name an
    item, and the events are one DESELECT for every selected id that was not
    pushed followed by one SELECT for every pushed id that was not
    selected. *)
Definition delta_sync (st : viewer) (val : list string) (st' : viewer) : Prop :=
  (forall k, is_Some (get k (selections st'))
             <-> k ∈ val /\ is_Some (get k (items st))) /\
  events st'
  = events st
    ++ map (fun kv => (EItem (snd kv), DESELECT))
           (filter (fun kv => fst kv ∉ val) (selections st))
    ++ omap (select_event st) (newSet val).

(** The selection and the items of a viewer are maps, every selected item
    is a registered item, and every item is registered under its id. *)
Definition selection_ok (st : viewer) : Prop :=
  NoDup (keys (selections st)) /\
  (forall k r, get k (selections st) = Some r -> get k (items st) = Some r) /\
  (forall k r, get k (items st) = Some r ->
               exists it, iobjs st !! r = Some it /\ it_id it = k).

(** No pushed id finds the item of a sibling selected when its turn comes.
    For a pushed id [k] that names an unselected item of a spatial group that
    is not multiselect, and every other item of a sub group of the same
    super group: that item is not both selected and pushed, and it is not
    named by an id pushed before [k]. *)
Definition exclusive_apart (st : viewer) (val : list string) : Prop :=
  forall l1 k l2 r it,
    newSet val = l1 ++ k :: l2 ->
    get k (items st) = Some r -> iobjs st !! r = Some it ->
    get k (selections st) = None ->
    exists sg,
      sgroups st !! it_spatialGroup it = Some sg /\
      (sg_superGroup sg = None \/ sg_multiselect sg = true \/
       exists sup g,
         sg_superGroup sg = Some sup /\ tgroups st !! sup = Some g /\
         Forall (child_ok st) (tg_subGroups g) /\
         forall p, p ∈ sibling_items st (tg_subGroups g) -> snd p <> k ->
           (get (snd p) (selections st) = None \/ snd p ∉ val) /\
           (snd p ∈ l1 -> get (snd p) (items st) = None)).

(** Computations that only read the viewer. *)
Definition reads {A} (m : M A) : Prop :=
  forall st a st', m st = Some (a, st') -> st' = st.

(** Computations that leave the part [f] of the viewer as it is. *)
Definition keeps {B} (f : viewer -> B) {A} (m : M A) : Prop :=
  forall st a st', m st = Some (a, st') -> f st' = f st.

End TimelineSpec.

(** *** Predicates on the state of the map viewer *)

Module MapSpec.
Import Eff MapViewer.

(** The point of the vertex [v] exists, has its layer and is on the map. *)
Definition visible_point (st : viewer) (v : nat) : bool :=
  match vertices st !! v with
  | Some vx =>
      match v_point vx with
      | Some p =>
          match points st !! p with
          | Some pt => p_layer pt && bool_decide (p ∈ onmap (L st))
          | None => false
          end
      | None => false
      end
  | None => false
  end.

(** The line [l] is attached to the line container. *)
Definition attached (st : viewer) (l : nat) : Prop := l ∈ lineGroup (L st).

(** The line reference of the edge [e]. *)
Definition line_of (st : viewer) (e : nat) : option nat :=
  match edges st !! e with
  | Some ed => e_line ed
  | None => None
  end.

(** The claimed invariant: the line of every edge is attached exactly when
    both end points are visible. *)
Definition lines_follow_points (st : viewer) : Prop :=
  forall e ed l,
    edges st !! e = Some ed -> e_line ed = Some l ->
    (attached st l <->
     visible_point st (e_from ed) = true /\ visible_point st (e_to ed) = true).

(** A computation relates every state to its result state by [R]. *)
Definition preserves (R : viewer -> viewer -> Prop) {A} (m : M A) : Prop :=
  forall st a st', m st = Some (a, st') -> R st st'.

(** Only Leaflet's registry of layers on the map, the line container and the
    event bus differ. *)
Definition same_objects (st st' : viewer) : Prop :=
  vertices st' = vertices st /\ edges st' = edges st /\
  sgroups st' = sgroups st /\ tgroups st' = tgroups st /\
  points st' = points st /\ lines st' = lines st /\
  lgroups st' = lgroups st /\ cgroups st' = cgroups st /\
  next_ref st' = next_ref st /\ layers st' = layers st /\
  overlayTree st' = overlayTree st /\ treeUpdates st' = treeUpdates st /\
  members (L st') = members (L st) /\
  lineGroup_onmap (L st') = lineGroup_onmap (L st).

(** The parent that a visual records. *)
Definition recorded_parent (st : viewer) (k : kind) (r : nat) : option jsref :=
  match k with
  | KPoint => p_parent <$> points st !! r
  | KLayerGroup => lg_parent <$> lgroups st !! r
  | KControlGroup => cg_parent <$> cgroups st !! r
  | KLine => None
  end.

(** The members of the feature group of the visual [g]. *)
Definition group_members (st : viewer) (g : nat) : list nat :=
  default [] (members (L st) !! g).

(** What a visual keeps apart from its parent (and, for a control group,
    its children in the layer tree). *)
Definition point_core (p : point) : nat * string * bool :=
  (p_vertex p, p_type p, p_layer p).

Definition cg_core (g : controlGroup) : string * nat :=
  (cg_label g, cg_temporalGroup g).

(** The model, the lines and the cores of the visuals are the same in both
    states, and so is the recorded parent of every visual that satisfies
    [P]. *)
Definition frame_upto (P : kind -> nat -> Prop) (st st' : viewer) : Prop :=
  vertices st' = vertices st /\ edges st' = edges st /\
  sgroups st' = sgroups st /\ tgroups st' = tgroups st /\
  lines st' = lines st /\ next_ref st' = next_ref st /\
  layers st' = layers st /\ treeUpdates st' = treeUpdates st /\
  point_core <$> points st' = point_core <$> points st /\
  lg_spatialGroup <$> lgroups st' = lg_spatialGroup <$> lgroups st /\
  cg_core <$> cgroups st' = cg_core <$> cgroups st /\
  (forall k' r', P k' r' ->
                 recorded_parent st' k' r' = recorded_parent st k' r').

(** No recorded parent changes. *)
Definition visuals_frame : viewer -> viewer -> Prop :=
  frame_upto (fun _ _ => True).

(** Re-parenting the visual [(k, r)] leaves the model, the lines, and every
    other visual's recorded parent as they are. *)
Definition reparent_frame (k : kind) (r : nat) : viewer -> viewer -> Prop :=
  frame_upto (fun k' r' => (k', r') <> (k, r)).

(** The vertices and the points are the same in both states. *)
Definition same_points (st st' : viewer) : Prop :=
  vertices st' = vertices st /\ points st' = points st.

(** No layer has left the map. *)
Definition onmap_grows (st st' : viewer) : Prop :=
  onmap (L st) ⊆ onmap (L st').

(** Only the Leaflet side and the event bus differ. *)
Definition same_visuals (st st' : viewer) : Prop :=
  vertices st' = vertices st /\ edges st' = edges st /\
  sgroups st' = sgroups st /\ tgroups st' = tgroups st /\
  points st' = points st /\ lines st' = lines st /\
  lgroups st' = lgroups st /\ cgroups st' = cgroups st /\
  next_ref st' = next_ref st /\ layers st' = layers st /\
  overlayTree st' = overlayTree st /\ treeUpdates st' = treeUpdates st.

(** What the listeners of a point read through the edge [e] exists: the
    edge and, when the edge has a line, the line with its layer, the target
    vertex and the point of the target vertex. *)
Definition edge_ok (st : viewer) (e : nat) : Prop :=
  exists ed,
    edges st !! e = Some ed /\
    forall l, e_line ed = Some l ->
      (exists ln, lines st !! l = Some ln /\ l_layer ln = true) /\
      exists target,
        vertices st !! e_to ed = Some target /\
        forall q, v_point target = Some q -> is_Some (points st !! q).

(** Every point has its vertex, and the listeners of the point can read
    the outgoing edges of the vertex. *)
Definition listeners_ok (st : viewer) : Prop :=
  forall p pt, points st !! p = Some pt ->
    exists v, vertices st !! p_vertex pt = Some v /\
              Forall (edge_ok st) (v_edges v).

(** The feature groups are nested by rank: no group holds itself, directly
    or through its members. *)
Definition nesting (rank : nat -> nat) (st : viewer) : Prop :=
  forall g ms x, members (L st) !! g = Some ms -> x ∈ ms -> rank x < rank g.

(** The well-formedness that Leaflet and the listeners rely on. *)
Definition wired (rank : nat -> nat) (st : viewer) : Prop :=
  nesting rank st /\ listeners_ok st.

(** The object of the visual [(k, r)] exists. *)
Definition exists_visual (st : viewer) (k : kind) (r : nat) : Prop :=
  match k with
  | KPoint => is_Some (points st !! r)
  | KLine => is_Some (lines st !! r)
  | KLayerGroup => is_Some (lgroups st !! r)
  | KControlGroup => is_Some (cgroups st !! r)
  end.

(** The well-formedness, decided on a state that is given in full. *)
Definition edge_okb (st : viewer) (e : nat) : bool :=
  match edges st !! e with
  | Some ed =>
      match e_line ed with
      | Some l =>
          match lines st !! l, vertices st !! e_to ed with
          | Some ln, Some target =>
              l_layer ln
              && match v_point target with
                 | Some q =>
                     match points st !! q with
                     | Some _ => true
                     | None => false
                     end
                 | None => true
                 end
          | _, _ => false
          end
      | None => true
      end
  | None => false
  end.

Definition listeners_okb (st : viewer) : bool :=
  forallb (fun ppt : nat * point =>
             match vertices st !! p_vertex (snd ppt) with
             | Some v => forallb (edge_okb st) (v_edges v)
             | None => false
             end)
          (map_to_list (points st)).

Definition nestingb (rank : nat -> nat) (st : viewer) : bool :=
  forallb (fun gms : nat * list nat =>
             forallb (fun x => rank x <? rank (fst gms)) (snd gms))
          (map_to_list (members (L st))).

Definition wiredb (rank : nat -> nat) (st : viewer) : bool :=
  nestingb rank st && listeners_okb st.

End MapSpec.
(** *** Predicates on the record of a tour load *)

Module AlgorithmsSpec.
Import Eff Algorithms.

Section Trace.
Context {entity error directory path props MS : Type}.

#[local] Abbreviation attempt := (Algorithms.attempt entity error directory props).
#[local] Abbreviation call := (Algorithms.call entity directory props).
#[local] Abbreviation tour := (Algorithms.tour entity path props).
#[local] Abbreviation world := (Algorithms.world entity error directory props MS).

Definition succeeded (a : attempt) : bool :=
  match a_outcome a with
  | Returned _ => true
  | Thrown _ => false
  end.

(** The errors thrown in a record, in order. *)
Definition errors (tr : list attempt) : list error :=
  flat_map (fun a => match a_outcome a with
                     | Returned _ => []
                     | Thrown x => [x]
                     end) tr.

(** The call [c] was made, with some outcome, or returned [e]. *)
Definition attempted (tr : list attempt) (c : call) : Prop :=
  exists o, {| a_call := c; a_outcome := o |} ∈ tr.

Definition created (tr : list attempt) (c : call) (e : entity) : Prop :=
  {| a_call := c; a_outcome := Returned e |} ∈ tr.

(** A loop over [xs] that calls the model once for each element, in order,
    and queues the children of an element when its call returned. *)
Inductive batch {X C : Type} (mk : X -> call) (kids : entity -> X -> list C)
  : list X -> list attempt -> list C -> Prop :=
| batch_nil : batch mk kids [] [] []
| batch_returned x xs e tr q :
    batch mk kids xs tr q ->
    batch mk kids (x :: xs)
          ({| a_call := mk x; a_outcome := Returned e |} :: tr)
          (kids e x ++ q)
| batch_thrown x xs err tr q :
    batch mk kids xs tr q ->
    batch mk kids (x :: xs)
          ({| a_call := mk x; a_outcome := Thrown err |} :: tr) q.

(** The state [w'] differs from [w] by the calls [tr] and the errors thrown
    in them, which the logger has received. *)
Definition extends (w w' : world) (tr : list attempt) : Prop :=
  attempts w' = attempts w ++ tr /\
  logged w' = logged w ++ errors tr /\
  delivered w' = delivered w.

(** The claim's words, on the entities a tour file lists at its top: each
    of them is processed. *)
Definition listed_processed (t : tour) (tr : list attempt) : Prop :=
  (forall j, j ∈ or_empty (temporalGroups t) ->
             exists d, attempted tr (CTemporalGroup j d)) /\
  (forall g, g ∈ or_empty (spatialGroups t) -> attempted tr (CSpatialGroup g)) /\
  (forall v, v ∈ or_empty (vertices t) -> attempted tr (CVertex v)).

(** What [loadGraph] processes: every temporal group, spatial group and
    vertex the file lists at its top, and below an entity that was created
    every entity nested in it, linked to it; nothing else. *)
Record processed (t : tour) (tr : list attempt) : Prop := {
  temporalGroups_attempted j :
    j ∈ or_empty (temporalGroups t) -> attempted tr (CTemporalGroup j None);
  spatialGroups_attempted g :
    g ∈ or_empty (spatialGroups t) -> attempted tr (CSpatialGroup g);
  vertices_attempted v :
    v ∈ or_empty (vertices t) -> attempted tr (CVertex v);
  subGroups_attempted j tg g :
    created tr (CTemporalGroup j None) tg ->
    g ∈ or_empty (jtg_subGroups j) ->
    attempted tr (CSpatialGroup (set_superGroup tg g));
  group_vertices_attempted g sg v :
    created tr (CSpatialGroup g) sg ->
    v ∈ or_empty (jsg_vertices g) ->
    attempted tr (CVertex (set_spatialGroup sg v));
  outgoingEdges_attempted v vx e :
    created tr (CVertex v) vx ->
    e ∈ or_empty (jv_outgoingEdges v) ->
    attempted tr (CEdge (set_from vx e));
  temporalGroups_only j d :
    attempted tr (CTemporalGroup j d) ->
    d = None /\ j ∈ or_empty (temporalGroups t);
  spatialGroups_only g :
    attempted tr (CSpatialGroup g) ->
    g ∈ or_empty (spatialGroups t) \/
    exists j tg g0, created tr (CTemporalGroup j None) tg /\
                    g0 ∈ or_empty (jtg_subGroups j) /\
                    g = set_superGroup tg g0;
  vertices_only v :
    attempted tr (CVertex v) ->
    v ∈ or_empty (vertices t) \/
    exists g sg v0, created tr (CSpatialGroup g) sg /\
                    v0 ∈ or_empty (jsg_vertices g) /\
                    v = set_spatialGroup sg v0;
  edges_only e :
    attempted tr (CEdge e) ->
    exists v vx e0, created tr (CVertex v) vx /\
                    e0 ∈ or_empty (jv_outgoingEdges v) /\
                    e = set_from vx e0
}.

(** The number of JSON objects of a vertex, a spatial group, a temporal
    group and a tour file, each counted with the objects nested in it. *)
Definition vertex_size (v : jsonVertex entity props) : nat :=
  1 + length (or_empty (jv_outgoingEdges v)).

Definition group_size (g : jsonSpatialGroup entity props) : nat :=
  1 + list_sum (map vertex_size (or_empty (jsg_vertices g))).

Definition period_size (j : jsonTemporalGroup entity props) : nat :=
  1 + list_sum (map group_size (or_empty (jtg_subGroups j))).

Definition entities (t : tour) : nat :=
  list_sum (map period_size (or_empty (temporalGroups t)))
  + list_sum (map group_size (or_empty (spatialGroups t)))
  + list_sum (map vertex_size (or_empty (vertices t))).

End Trace.

End AlgorithmsSpec.

(** * Properties of the timeline projection *)

Section Aggregation.
Import Js Eff Timeline TimelineSpec.

Lemma last_cons_default {A} (l : list A) : forall c a b,
  List.last (c :: l) a = List.last (c :: l) b.
Proof.
  induction l as [|d l IH]; intros c a b; [done|].
  change (List.last (d :: l) a = List.last (d :: l) b). apply IH.
Qed.

Lemma last_default (a : nat * item) others :
  last (a :: others) = Some (List.last others a).
Proof.
  revert a. induction others as [|b others IH]; intros a; [done|].
  rewrite last_cons_cons, IH. f_equal.
  destruct others as [|c others]; [done|].
  change (List.last (c :: others) b = List.last (c :: others) a).
  apply last_cons_default.
Qed.

Lemma processArray_flushed r items :
  processArray r items = items ++ flushed r.
Proof.
  destruct r as [|a [|b [|c r]]]; simpl.
  - by rewrite app_nil_r.
  - done.
  - done.
  - unfold flushed. rewrite last_default. simpl head.
    replace (length (a :: b :: c :: r) <=? 2)%nat with false by done.
    done.
Qed.

Lemma close_run_snoc cd r x i :
  close_run cd r -> last r = Some x -> gap_below cd x i = true ->
  close_run cd (r ++ [i]).
Proof.
  induction r as [|a r IH]; [done|].
  intros Hc Hl Hg. destruct r as [|b r].
  - simpl in Hl. injection Hl as ->. simpl. auto.
  - destruct Hc as [Hab Hc]. rewrite last_cons_cons in Hl.
    split; [done|]. by apply IH.
Qed.

(** The loop, entered with a run [itemArray] under construction. *)
Lemma walk_runs cd l : forall itemArray x items,
  Forall valid_start l ->
  last itemArray = Some x -> valid_start x ->
  close_run cd itemArray ->
  exists ext runs,
    concat ((itemArray ++ ext) :: runs) = itemArray ++ l /\
    Forall (fun r => r <> []) runs /\
    Forall (close_run cd) ((itemArray ++ ext) :: runs) /\
    separated cd ((itemArray ++ ext) :: runs) /\
    (let '(arr, out) := walk cd l itemArray (Some (start_of x)) items in
     processArray arr out)
    = items ++ flat_map flushed ((itemArray ++ ext) :: runs).
Proof.
  induction l as [|i l IH]; intros itemArray x items Hv Hl Hx Hc.
  - exists [], []. rewrite !app_nil_r. simpl. rewrite app_nil_r.
    repeat split; auto. by rewrite app_nil_r, processArray_flushed.
  - apply Forall_cons in Hv as [Hi Hv]. simpl.
    destruct Hx as [ms Hms]. rewrite Hms. simpl time_truthy. cbv iota.
    change (it_start i.2) with (start_of i). rewrite <- Hms.
    fold (gap_below cd x i).
    destruct (gap_below cd x i) eqn:Hg.
    + destruct (IH (itemArray ++ [i]) i items Hv) as (ext & runs & H1 & H2 & H3 & H4 & H5).
      { by rewrite last_snoc. }
      { done. }
      { eapply close_run_snoc; eauto. }
      exists (i :: ext), runs.
      replace (itemArray ++ i :: ext) with ((itemArray ++ [i]) ++ ext)
        by (by rewrite <- app_assoc).
      replace (itemArray ++ i :: l) with ((itemArray ++ [i]) ++ l)
        by (by rewrite <- app_assoc).
      done.
    + destruct (IH [i] i (processArray itemArray items) Hv) as (ext & runs & H1 & H2 & H3 & H4 & H5).
      { done. }
      { done. }
      { done. }
      exists [], (([i] ++ ext) :: runs). rewrite app_nil_r.
      repeat split.
      * simpl. simpl in H1. by rewrite H1.
      * constructor; [done | done].
      * constructor; [done | done].
      * intros a b Ha Hb. simpl in Hb. injection Hb as <-.
        rewrite Hl in Ha. by injection Ha as <-.
      * done.
      * rewrite H5. rewrite processArray_flushed. simpl.
        by rewrite <- app_assoc.
Qed.

Lemma insert_by_start_valid x l :
  valid_start x -> Forall valid_start l -> Forall valid_start (insert_by_start x l).
Proof.
  intros Hx. induction 1 as [|y l Hy Hl IH]; simpl.
  - by constructor.
  - destruct (before x y); repeat constructor; auto.
Qed.

Lemma sort_by_start_valid l :
  Forall valid_start l -> Forall valid_start (sort_by_start l).
Proof.
  induction 1; simpl; [constructor | by apply insert_by_start_valid].
Qed.

(** The loop from its initial state. *)
Lemma walk_from_start cd l items :
  Forall valid_start l ->
  exists runs,
    concat runs = l /\
    Forall (fun r => r <> []) runs /\
    Forall (close_run cd) runs /\
    separated cd runs /\
    (let '(arr, out) := walk cd l [] None items in processArray arr out)
    = items ++ flat_map flushed runs.
Proof.
  destruct l as [|i l]; intros Hv.
  - exists []. simpl. by rewrite app_nil_r.
  - apply Forall_cons in Hv as [Hi Hv].
    destruct (walk_runs cd l [i] i items Hv) as (ext & runs & H1 & H2 & H3 & H4 & H5);
      [done | done | done |].
    exists (([i] ++ ext) :: runs). repeat split; try done.
    constructor; [done | done].
Qed.

End Aggregation.

Section Refresh.
Import Js Eff Timeline TimelineSpec.

Lemma reads_ret {A} (a : A) : reads (ret a).
Proof. intros st b st' [= _ <-]. done. Qed.

Lemma reads_gets {A} (f : viewer -> A) : reads (gets f).
Proof. intros st b st' [= _ <-]. done. Qed.

Lemma reads_deref {A} (heap : viewer -> gmap nat A) r : reads (deref heap r).
Proof.
  intros st b st'. unfold deref. destruct (heap st !! r); [|done].
  intros [= _ <-]. done.
Qed.

Lemma reads_bind {A B} (m : M A) (k : A -> M B) :
  reads m -> (forall a, reads (k a)) -> reads (bind m k).
Proof.
  intros Hm Hk st b st'. unfold bind.
  destruct (m st) as [[a st1]|] eqn:E; [|done].
  intros H. apply Hm in E as ->. by apply Hk in H.
Qed.

Lemma reads_filterM {A} (p : A -> M bool) l :
  (forall x, reads (p x)) -> reads (filterM p l).
Proof.
  intros Hp. induction l as [|x l IH]; simpl.
  - apply reads_ret.
  - apply reads_bind; [apply Hp|]. intros b.
    apply reads_bind; [apply IH|]. intros r. apply reads_ret.
Qed.

Lemma reads_foldM {A B} (f : B -> A -> M B) l : forall acc,
  (forall b x, reads (f b x)) -> reads (foldM f acc l).
Proof.
  induction l as [|x l IH]; intros acc Hf; simpl.
  - apply reads_ret.
  - apply reads_bind; [apply Hf|]. intros b. by apply IH.
Qed.

Lemma reads_in_window s e i : reads (in_window s e i).
Proof.
  apply reads_bind; [apply reads_deref|]. intros it. apply reads_ret.
Qed.

Lemma reads_child_id c : reads (child_id c).
Proof.
  destruct c; (apply reads_bind; [apply reads_deref|]); intros; apply reads_ret.
Qed.

Lemma reads_collect visibleItems gr : reads (collect visibleItems gr).
Proof.
  apply reads_bind; [apply reads_deref|]. intros g.
  apply reads_bind; [apply reads_deref|]. intros t.
  apply reads_foldM. intros acc c.
  apply reads_bind; [apply reads_child_id|]. intros id.
  apply reads_bind; [apply reads_gets|]. intros [i|]; [|apply reads_ret].
  case_bool_decide; [|apply reads_ret].
  apply reads_bind; [apply reads_deref|]. intros it. apply reads_ret.
Qed.

(** What a pass that recomputes leaves behind: the measured width and
    window are stored, and only the calls of the rendering layer grow. *)
Lemma refreshItems_recompute force st st1 :
  refreshItems force st = Some (tt, st1) ->
  (negb force
   && ((bgwidth (tl st) =? width st)%Z
       && isSame (lookahead_start (tl st)) (start st)
       && isSame (lookahead_end (tl st)) (end_ st))) = false ->
  exists c1 c2,
    st1 = upd_tl (record_call c2)
            (upd_tl (record_call c1)
               (store_window (bgwidth (tl st)) (lookahead_start (tl st))
                  (lookahead_end (tl st)) st)).
Proof.
  unfold refreshItems. unfold bind at 1. unfold gets at 1.
  unfold bind at 1. unfold gets at 1. cbv beta iota.
  intros H Hg. rewrite Hg in H.
  unfold bind at 1 in H. unfold modify at 1 in H. cbv beta iota in H.
  set (st' := store_window _ _ _ st) in *.
  unfold bind at 1 in H. unfold gets at 1 in H. cbv beta iota in H.
  unfold bind at 1 in H. unfold gets at 1 in H. cbv beta iota in H.
  unfold bind at 1 in H.
  destruct (aggregateItems (settings st')).
  - unfold bind at 1 in H.
    destruct (filterM _ _ st') as [[vis sa]|] eqn:Ef; [|done].
    apply reads_filterM in Ef as ->; [|intros; apply reads_in_window].
    unfold bind at 1 in H. unfold gets at 1 in H. cbv beta iota in H.
    unfold bind at 1 in H.
    destruct (foldM _ _ _ st') as [[out sb]|] eqn:Eg; [|done].
    apply reads_foldM in Eg as ->.
    2:{ intros acc gr. apply reads_bind; [apply reads_collect|].
        intros gi. apply reads_ret. }
    unfold tl_call, modify in H. cbv beta iota in H.
    unfold refreshSelections, bind, getSelectionsIds, gets, tl_call, modify in H.
    injection H as <-. eauto.
  - unfold tl_call, modify in H. cbv beta iota in H.
    unfold refreshSelections, bind, getSelectionsIds, gets, tl_call, modify in H.
    injection H as <-. eauto.
Qed.

Lemma isSame_eq a b : isSame a b = true -> a = b.
Proof.
  destruct a, b; simpl; try done. intros H. by apply Z.eqb_eq in H as ->.
Qed.

Lemma isSame_refl ms : isSame (TAt ms) (TAt ms) = true.
Proof. simpl. apply Z.eqb_refl. Qed.

Lemma le_of_Z a b : le (of_Z a) (of_Z b) = (a <=? b)%Z.
Proof.
  unfold le, of_Z, Qle_bool, inject_Z. simpl. by rewrite !Z.mul_1_r.
Qed.

Lemma in_window_view st s e i it :
  iobjs st !! i = Some it ->
  in_window s e i st = Some (in_view s e it, st).
Proof.
  intros Hi. unfold in_window, bind, deref, ret. rewrite Hi.
  unfold in_view. f_equal. f_equal.
  destruct s as [| |a], (it_start it) as [| |x], e as [| |b];
    simpl valueOf; rewrite ?le_of_Z; try reflexivity;
    try (by rewrite andb_false_r).
  all: by destruct (of_Z _).
Qed.

(** The loop that fills [visibleItems]. *)
Lemma visible_items st s e l :
  Forall (fun i => is_Some (iobjs st !! i)) l ->
  exists vis,
    filterM (in_window s e) l st = Some (vis, st) /\
    forall i, i ∈ vis <->
              i ∈ l /\ exists it, iobjs st !! i = Some it /\
                                  in_view s e it = true.
Proof.
  induction 1 as [|i l [it Hi] Hl (vis & IH & Hvis)].
  - exists []. split; [done|]. intros i. split.
    + by intros ?%elem_of_nil.
    + by intros [?%elem_of_nil _].
  - exists (if in_view s e it then i :: vis else vis). split.
    + cbn [filterM]. unfold bind at 1. rewrite (in_window_view _ _ _ _ _ Hi).
      unfold bind, ret. by rewrite IH.
    + intros j. destruct (in_view s e it) eqn:Hv.
      * rewrite !elem_of_cons, Hvis. split.
        -- intros [->|[? ?]]; [|by auto]. split; [by left|]. by exists it.
        -- intros [[->|?] ?]; [by left|by right].
      * rewrite elem_of_cons, Hvis. split.
        -- intros [? ?]. by auto.
        -- intros [[->|?] (it' & Hi' & Hv')]; [|by eauto].
           rewrite Hi in Hi'. injection Hi' as <-. congruence.
Qed.

Lemma get_values {V} k (v : V) (m : strmap V) :
  get k m = Some v -> v ∈ values m.
Proof.
  unfold values. induction m as [|[k' v'] m IH]; [done|]. simpl.
  destruct (decide (k' = k)).
  - intros [= ->]. by left.
  - intros H. right. by apply IH.
Qed.

(** The [forEach] that fills [groupItems]. *)
Lemma collect_row st s e vis gr g t :
  gobjs st !! gr = Some g ->
  tgroups st !! gr_temporalGroup g = Some t ->
  Forall (fun c => is_Some (id_of st c)) (tg_subGroups t) ->
  Forall (fun i => is_Some (iobjs st !! i)) (values (items st)) ->
  (forall i, i ∈ vis <->
             i ∈ values (items st) /\
             exists it, iobjs st !! i = Some it /\ in_view s e it = true) ->
  collect vis gr st = Some (row_items st s e t, st).
Proof.
  intros Hg Ht Hcs Hits Hvis.
  assert (G : forall cs, Forall (fun c => is_Some (id_of st c)) cs ->
    forall acc,
      foldM (fun groupItems c =>
               let! id := child_id c in
               let! oi := getItem id in
               match oi with
               | Some i =>
                   if bool_decide (i ∈ vis) then
                     let! it := deref iobjs i in
                     ret (groupItems ++ [(i, it)])
                   else ret groupItems
               | None => ret groupItems
               end) acc cs st
      = Some (acc ++ omap (row_item st s e) cs, st)).
  { clear Hcs. induction 1 as [|c cs [k Hk] Hcs IH]; intros acc.
    - simpl. unfold ret. by rewrite app_nil_r.
    - cbn [foldM omap list_omap]. unfold bind at 1.
      assert (Hid : child_id c st = Some (k, st)).
      { destruct c as [r|r]; simpl in Hk; unfold child_id, bind, deref, ret.
        - destruct (sgroups st !! r); [|done]. by injection Hk as <-.
        - destruct (tgroups st !! r); [|done]. by injection Hk as <-. }
      match goal with
      | |- match ?m st with _ => _ end = _ =>
          assert (Hstep : m st
                          = Some (acc ++ from_option (fun y => [y]) []
                                           (row_item st s e c), st))
      end.
      { unfold bind at 1. rewrite Hid.
        unfold bind at 1, getItem at 1, gets at 1.
        unfold row_item. rewrite Hk.
        destruct (get k (items st)) as [i|] eqn:Hget;
          [|by unfold ret; rewrite app_nil_r].
        pose proof (get_values _ _ _ Hget) as Hin.
        destruct (proj1 (Forall_forall _ _) Hits i) as [it Hi].
        { exact Hin. }
        rewrite Hi. destruct (in_view s e it) eqn:Hv.
        - rewrite bool_decide_eq_true_2 by (apply Hvis; eauto).
          unfold bind, deref. by rewrite Hi.
        - rewrite bool_decide_eq_false_2.
          { by unfold ret; rewrite app_nil_r. }
          intros (_ & it' & Hi' & Hv')%Hvis.
          rewrite Hi in Hi'. injection Hi' as <-. congruence. }
      rewrite Hstep, IH. f_equal. f_equal. rewrite <- app_assoc. f_equal.
      by destruct (row_item st s e c). }
  unfold collect, bind at 1, deref at 1.
  rewrite Hg. unfold bind at 1, deref at 1. rewrite Ht.
  exact (G _ Hcs []).
Qed.

Lemma insert_by_start_perm x l : insert_by_start x l ≡ₚ x :: l.
Proof.
  induction l as [|y l IH]; simpl; [done|].
  destruct (before x y); [done|]. rewrite IH. apply Permutation_swap.
Qed.

Lemma sort_by_start_perm l : sort_by_start l ≡ₚ l.
Proof.
  induction l as [|x l IH]; simpl; [done|].
  rewrite insert_by_start_perm. by rewrite IH.
Qed.

Lemma ascending_cons a l :
  ascending (a :: l) <->
  match l with
  | [] => True
  | b :: _ =>
      (exists x y, start_of a = TAt x /\ start_of b = TAt y /\ (x <= y)%Z)
      /\ ascending l
  end.
Proof. by destruct l. Qed.

Lemma insert_by_start_ascending x l :
  valid_start x -> Forall valid_start l -> ascending l ->
  ascending (insert_by_start x l).
Proof.
  intros [a Ha]. induction 1 as [|y l [b Hb] Hl IH]; intros Hasc; [done|].
  cbn [insert_by_start]. unfold before.
  unfold start_of in Ha, Hb. rewrite Ha, Hb.
  destruct (a <=? b)%Z eqn:Hab.
  - apply ascending_cons. split; [|done].
    exists a, b. apply Z.leb_le in Hab. done.
  - apply Z.leb_gt in Hab. apply ascending_cons.
    apply ascending_cons in Hasc.
    destruct l as [|z l]; cbn [insert_by_start].
    + split; [|done]. exists b, a. repeat split; [done|done|lia].
    + destruct Hasc as [Hyz Hasc]. specialize (IH Hasc).
      cbn [insert_by_start] in IH.
      destruct (before x z) eqn:Hxz.
      * split; [|done]. exists b, a. repeat split; [done|done|lia].
      * split; [done|done].
Qed.

Lemma sort_by_start_ascending l :
  Forall valid_start l -> ascending (sort_by_start l).
Proof.
  induction 1 as [|x l Hx Hl IH]; [done|]. simpl.
  apply insert_by_start_ascending; [done| |done].
  by apply sort_by_start_valid.
Qed.

(** The body of the loop over the groups on the items of one row. *)
Lemma aggregate_runs cd row items :
  Forall valid_start row ->
  exists runs, runs_of cd row runs /\
               aggregate cd row items = items ++ flat_map flushed runs.
Proof.
  intros Hv. unfold aggregate.
  destruct (walk_from_start cd (sort_by_start row) items)
    as (runs & H1 & H2 & H3 & H4 & H5); [by apply sort_by_start_valid|].
  exists runs. split; [|done]. unfold runs_of. rewrite H1.
  split; [apply sort_by_start_perm|]. split; [|done].
  by apply sort_by_start_ascending.
Qed.

Lemma row_items_valid st s e t : Forall valid_start (row_items st s e t).
Proof.
  unfold row_items. induction (tg_subGroups t) as [|c cs IH]; [constructor|].
  cbn [omap list_omap]. unfold row_item at 1.
  destruct (id_of st c) as [k|]; [|done].
  destruct (get k (items st)) as [i|]; [|done].
  destruct (iobjs st !! i) as [it|]; [|done].
  destruct (in_view s e it) eqn:Hv; [|done].
  constructor; [|done]. unfold valid_start, start_of. simpl.
  unfold in_view in Hv. destruct s, (it_start it); try done. by eexists.
Qed.

Lemma shown_last cs l ids :
  shown (cs ++ [SetItems l; SetSelection ids]) = Some l.
Proof. induction cs as [|c cs IH]; [done|]. simpl. by rewrite IH. Qed.

(** C1. A row lists sub groups with items that start at 100, 1, -500, 0,
    101, 2 and 900 ms; the window computed for the refresh runs from -10 to
    200 ms and the critical duration is 5 ms.  One aggregated refresh hands
    to the rendering layer exactly one range item over the items at 0, 1
    and 2 (from 0 to 2) followed by the items at 100 and 101 as they are.
    In general an aggregated refresh that gets past its guard returns and
    hands to the rendering layer, for every registered group in turn, the
    runs of its row: the row holds the registered items of the sub groups
    of the group that start in the window; in ascending order of start they
    split into maximal runs whose consecutive gaps are below the critical
    duration; every run of one or two items is emitted unchanged and every
    longer run as a single range item from its first to its last member. *)
Theorem aggregation_runs :
  (exists st r,
      (let! _ := TimelineExample.scatter in refreshItems false)
        TimelineExample.scattered_viewer = Some (tt, st) /\
      criticalDuration (tl st) = of_Z 5 /\
      start st = TAt (-10) /\ end_ st = TAt 200 /\
      map (fun i => it_start <$> iobjs st !! i) [1; 2; 3; 4; 5; 6; 7]
      = [Some (TAt 100); Some (TAt 1); Some (TAt (-500)); Some (TAt 0);
         Some (TAt 101); Some (TAt 2); Some (TAt 900)] /\
      shown (calls (tl st)) = Some [Range r; Single 1; Single 5] /\
      r_items r = [4; 2; 6] /\ r_start r = TAt 0 /\ r_end r = TAt 2) /\
  (forall force st,
      refresh_ok st ->
      aggregateItems (settings st) = true ->
      recomputes force st ->
      exists st' rows,
        refreshItems force st = Some (tt, st') /\
        Forall2 (fun gr runs =>
                   exists g t,
                     gobjs st !! gr = Some g /\
                     tgroups st !! gr_temporalGroup g = Some t /\
                     runs_of (criticalDuration (tl st))
                       (row_items st (lookahead_start (tl st))
                          (lookahead_end (tl st)) t)
                       runs)
                (values (groups st)) rows /\
        shown (calls (tl st')) = Some (flat_map (flat_map flushed) rows)).
Proof.
  split.
  - eexists _, _. split; [vm_compute; reflexivity|].
    split; [vm_compute; reflexivity|].
    split; [reflexivity|]. split; [reflexivity|].
    split; [vm_compute; reflexivity|].
    split; [vm_compute; reflexivity|].
    split; [reflexivity|]. split; reflexivity.
  - intros force st [Hits Hgrs] Hagg Hrec.
    set (s := lookahead_start (tl st)). set (e := lookahead_end (tl st)).
    set (cd := criticalDuration (tl st)).
    assert (Hg : negb force
                 && ((bgwidth (tl st) =? width st)%Z
                     && isSame s (start st) && isSame e (end_ st)) = false).
    { destruct Hrec as [->|[Hw|[Hs|He]]]; [done| | |].
      - apply Z.eqb_neq in Hw. rewrite Hw. by rewrite andb_false_r.
      - unfold s. rewrite Hs. by rewrite andb_false_r, andb_false_r.
      - unfold e. rewrite He. by rewrite !andb_false_r. }
    set (st0 := store_window (bgwidth (tl st)) s e st).
    destruct (visible_items st0 s e (values (items st0)) Hits)
      as (vis & Hf & Hvis).
    assert (Hloop : forall grs acc,
      Forall (fun gr => exists g t,
                gobjs st !! gr = Some g /\
                tgroups st !! gr_temporalGroup g = Some t /\
                Forall (fun c => is_Some (id_of st c)) (tg_subGroups t)) grs ->
      exists rows,
        Forall2 (fun gr runs =>
                   exists g t,
                     gobjs st !! gr = Some g /\
                     tgroups st !! gr_temporalGroup g = Some t /\
                     runs_of cd (row_items st s e t) runs) grs rows /\
        foldM (fun acc gr =>
                 let! groupItems := collect vis gr in
                 ret (aggregate cd groupItems acc)) acc grs st0
        = Some (acc ++ flat_map (flat_map flushed) rows, st0)).
    { intros grs acc H. revert acc.
      induction H as [|gr grs (g & t & Hgo & Ht & Hcs) Hrest IH]; intros acc.
      - exists []. split; [constructor|]. simpl. unfold ret.
        by rewrite app_nil_r.
      - destruct (aggregate_runs cd (row_items st s e t) acc
                    (row_items_valid st s e t)) as (runs & Hruns & Hagg').
        destruct (IH (aggregate cd (row_items st s e t) acc))
          as (rows & Hrows & Hfold).
        exists (runs :: rows). split.
        + constructor; [|done]. by exists g, t.
        + cbn [foldM]. unfold bind at 1, bind at 1.
          rewrite (collect_row st0 s e vis gr g t Hgo Ht Hcs Hits Hvis).
          unfold ret at 1.
          change (row_items st0 s e t) with (row_items st s e t).
          rewrite Hfold, Hagg'. cbn [flat_map]. by rewrite <- !app_assoc. }
    destruct (Hloop (values (groups st)) [] Hgrs) as (rows & Hrows & Hfold).
    eexists _, rows. split; [|split; [exact Hrows|]].
    + unfold refreshItems. unfold bind at 1. unfold gets at 1.
      unfold bind at 1. unfold gets at 1. cbv beta iota.
      fold s e cd. rewrite Hg.
      unfold bind at 1. unfold modify at 1. cbv beta iota. fold st0.
      unfold bind at 1. unfold gets at 1. cbv beta iota.
      unfold bind at 1. unfold gets at 1. cbv beta iota.
      change (aggregateItems (settings st0)) with (aggregateItems (settings st)).
      rewrite Hagg. unfold bind at 1, bind at 1. rewrite Hf.
      unfold bind at 1. unfold gets at 1. cbv beta iota.
      unfold bind at 1.
      change (values (groups st0)) with (values (groups st)).
      rewrite Hfold.
      unfold tl_call, modify, refreshSelections, bind, getSelectionsIds,
        gets, tl_call, modify.
      reflexivity.
    + cbn. rewrite <- app_assoc. apply shown_last.
Qed.

(** The general part of [aggregation_runs] at the scattered row of the
    example. *)
Lemma aggregation_runs_witness :
  exists st' rows,
    refreshItems false TimelineExample.scattered = Some (tt, st') /\
    Forall2 (fun gr runs =>
               exists g t,
                 gobjs TimelineExample.scattered !! gr = Some g /\
                 tgroups TimelineExample.scattered !! gr_temporalGroup g
                 = Some t /\
                 runs_of (criticalDuration (tl TimelineExample.scattered))
                   (row_items TimelineExample.scattered
                      (lookahead_start (tl TimelineExample.scattered))
                      (lookahead_end (tl TimelineExample.scattered)) t)
                   runs)
            (values (groups TimelineExample.scattered)) rows /\
    shown (calls (tl st')) = Some (flat_map (flat_map flushed) rows).
Proof.
  apply (proj2 aggregation_runs false TimelineExample.scattered).
  - split.
    + vm_compute. repeat constructor; eexists; reflexivity.
    + vm_compute. repeat constructor. eexists _, _.
      split; [reflexivity|]. split; [reflexivity|].
      repeat constructor; eexists; reflexivity.
  - reflexivity.
  - right. left. vm_compute. discriminate.
Defined.



(** C9 fails on a timeline whose background measures no pixel: the scale is
    infinite and the computed start of the window is an invalid date, which
    is never the same as the stored one.  The second unforced call, under
    the same width and the same computed window, recomputes and hands the
    items and the selection to the rendering layer again. *)
Lemma refresh_guard_counterexample :
  exists st1 st2,
    refreshItems false TimelineExample.collapsed = Some (tt, st1) /\
    bgwidth (tl st1) = bgwidth (tl TimelineExample.collapsed) /\
    lookahead_start (tl st1) = lookahead_start (tl TimelineExample.collapsed) /\
    lookahead_end (tl st1) = lookahead_end (tl TimelineExample.collapsed) /\
    lookahead_start (tl st1) = TInvalid /\
    refreshItems false st1 = Some (tt, st2) /\
    calls (tl st2) = calls (tl st1) ++ [SetItems []; SetSelection []] /\
    st2 <> st1.
Proof.
  eexists _, _. split; [vm_compute; reflexivity|].
  split; [reflexivity|]. split; [reflexivity|]. split; [reflexivity|].
  split; [vm_compute; reflexivity|].
  split; [vm_compute; reflexivity|].
  split; [reflexivity|].
  intros H. apply (f_equal (fun st => length (calls (tl st)))) in H.
  vm_compute in H. discriminate H.
Qed.

End Refresh.

Section OrderedMapFacts.
Import Js.
Context {V : Type}.
Implicit Types (m : strmap V) (k : string).

Lemma get_set_eq k v m : get k (set k v m) = Some v.
Proof.
  induction m as [|[k' v'] m IH]; simpl.
  - by rewrite decide_True.
  - destruct (decide (k' = k)) as [->|Hne]; simpl.
    + by rewrite decide_True.
    + by rewrite decide_False.
Qed.

Lemma get_set_ne k k' v m : k <> k' -> get k' (set k v m) = get k' m.
Proof.
  intros Hne. induction m as [|[k0 v0] m IH]; simpl.
  - by rewrite decide_False.
  - destruct (decide (k0 = k)) as [->|Hk]; simpl.
    + by rewrite !decide_False.
    + destruct (decide (k0 = k')); [done | apply IH].
Qed.

Lemma get_delete_eq k m : get k (delete k m) = None.
Proof.
  unfold delete. induction m as [|[k0 v0] m IH]; [done|].
  rewrite filter_cons. simpl. destruct (decide (k0 <> k)) as [Hk|Hk]; simpl.
  - by rewrite decide_False.
  - done.
Qed.

Lemma get_delete_ne k k' m : k <> k' -> get k' (delete k m) = get k' m.
Proof.
  intros Hne. unfold delete. induction m as [|[k0 v0] m IH]; [done|].
  rewrite filter_cons. simpl. destruct (decide (k0 <> k)) as [Hk|Hk]; simpl.
  - destruct (decide (k0 = k')); [done | apply IH].
  - apply dec_stable in Hk as ->. by rewrite decide_False.
Qed.

Lemma has_get k m : has k m = bool_decide (is_Some (get k m)).
Proof.
  unfold has. destruct (get k m); symmetry.
  - by apply bool_decide_eq_true_2.
  - apply bool_decide_eq_false_2. by intros [? ?].
Qed.

End OrderedMapFacts.

Section Selection.
Import Js Eff Timeline TimelineSpec.

Lemma delete_absent {V} k (m : strmap V) : has k m = false -> delete k m = m.
Proof.
  unfold has, delete. induction m as [|[k0 v0] m IH]; [done|].
  simpl. rewrite filter_cons. simpl.
  destruct (decide (k0 = k)) as [->|Hk]; [done|].
  intros H. rewrite decide_True by done. by rewrite IH.
Qed.

Lemma has_delete_ne {V} k k' (m : strmap V) :
  k <> k' -> has k' (delete k m) = has k' m.
Proof. intros H. unfold has. by rewrite get_delete_ne. Qed.

Lemma filter_ext_elem {A} (P1 P2 : A -> Prop)
    `{!forall x, Decision (P1 x), !forall x, Decision (P2 x)} (l : list A) :
  (forall x, x ∈ l -> P1 x <-> P2 x) -> filter P1 l = filter P2 l.
Proof.
  induction l as [|a l IH]; intros Hext; [done|].
  rewrite !filter_cons.
  rewrite IH by (intros x Hx; apply Hext; by right).
  apply decide_ext, Hext. by left.
Qed.

Lemma viewer_eq_sel_ev st f f' g g' :
  f (selections st) = f' (selections st) ->
  g (events st) = g' (events st) ->
  upd_events g (upd_selections f st) = upd_events g' (upd_selections f' st).
Proof. intros H1 H2. unfold upd_events, upd_selections. simpl. by rewrite H1, H2. Qed.

Lemma child_ok_frame st st' c :
  sgroups st' = sgroups st -> tgroups st' = tgroups st -> iobjs st' = iobjs st ->
  child_ok st c -> child_ok st' c.
Proof. intros H1 H2 H3. destruct c; simpl; by rewrite ?H1, ?H2, ?H3. Qed.

(** The [forEach] over the sub groups of the owning group. *)
Lemma deselect_siblings cs : forall st,
  Forall (child_ok st) cs ->
  NoDup (map snd (sibling_items st cs)) ->
  forM_ cs deselect_sibling st = Some (tt, after_deselect (sibling_items st cs) st).
Proof.
  induction cs as [|c cs IH]; intros st Hok Hnd.
  - simpl. unfold ret, after_deselect. f_equal. f_equal.
    destruct st. unfold upd_events, upd_selections. simpl. by rewrite app_nil_r.
  - apply Forall_cons in Hok as [Hc Hok].
    cbn [forM_]. unfold bind at 1.
    assert (Hstep : exists st1,
      deselect_sibling c st = Some (tt, st1) /\
      sgroups st1 = sgroups st /\ tgroups st1 = tgroups st /\ iobjs st1 = iobjs st /\
      after_deselect (sibling_items st cs) st1
      = after_deselect (sibling_items st (c :: cs)) st).
    { unfold deselect_sibling, child_item, sibling_items in *.
      destruct c as [g|g]; simpl in Hc.
      - destruct Hc as (sg & Hsg & Hit).
        cbn [omap list_omap sibling_item] in *. rewrite Hsg in *.
        unfold bind, deref, ret. rewrite Hsg. simpl.
        destruct (sg_item sg) as [ri|] eqn:Ei; [|by eauto 10].
        destruct (Hit ri eq_refl) as [it Hi]. rewrite Hi in *. simpl.
        unfold gets, modify, emit, modify. simpl.
        destruct (has (it_id it) (selections st)) eqn:Eh.
        + eexists. split; [done|]. repeat split.
          unfold after_deselect, upd_events, upd_selections. simpl.
          f_equal.
          rewrite filter_cons. simpl. rewrite decide_True by done.
            simpl. rewrite <- app_assoc. f_equal. simpl. f_equal. f_equal.
            apply filter_ext_elem. simpl in Hnd.
            apply NoDup_cons in Hnd as [Hni _].
            intros [r' id'] Hin. simpl.
            rewrite has_delete_ne; [done|]. intros Heq. apply Hni.
            apply list_elem_of_fmap. exists (r', id'). by rewrite Heq.
        + eexists. split; [done|]. repeat split.
          unfold after_deselect. simpl.
          apply viewer_eq_sel_ev; simpl.
          * by rewrite delete_absent.
          * rewrite filter_cons. simpl. rewrite decide_False; [done|].
            by rewrite Eh.
      - destruct Hc as [t Ht]. unfold bind, deref, ret. rewrite Ht. simpl.
        eauto 10. }
    destruct Hstep as (st1 & -> & H1 & H2 & H3 & Heq).
    assert (Hs : sibling_items st1 cs = sibling_items st cs).
    { unfold sibling_items. by rewrite H1, H3. }
    rewrite IH.
    + by rewrite Hs, Heq.
    + eapply Forall_impl; [exact Hok|]. intros c'. by apply child_ok_frame.
    + rewrite Hs. unfold sibling_items in *. cbn [omap list_omap] in Hnd.
      destruct (sibling_item _ _ c); [|done].
      simpl in Hnd. by apply NoDup_cons in Hnd as [_ ?].
Qed.

Lemma get_after_deletes {V} (ids : list (nat * string)) : forall (m : strmap V) k,
  get k (foldl (fun s p => delete (snd p) s) m ids)
  = if decide (k ∈ map snd ids) then None else get k m.
Proof.
  induction ids as [|[r id] ids IH]; intros m k; [done|].
  cbn [foldl List.map snd].
  - rewrite IH. destruct (decide (k ∈ map snd ids)) as [Hin|Hni].
    + rewrite decide_True; [done | by right].
    + destruct (decide (id = k)) as [->|Hne].
      * rewrite decide_True by left. apply get_delete_eq.
      * rewrite decide_False. { by apply get_delete_ne. }
        intros [?|?]%elem_of_cons; congruence.
Qed.

(** C3. Selecting an unselected item whose spatial group is not multiselect
    first deselects, with a DESELECT event each, the selected items of the
    sub groups of its parent group, and then selects the item with a SELECT
    event; every other entry of the selection is kept and no other event is
    emitted.  In the example with the rows T (a, b, c) and U (x), clicking
    x, a and b in turn leaves x and b selected, and the click on b emits
    DESELECT for a and then SELECT for b. *)
Theorem select_exclusive :
  (exists st,
      (let! _ := TimelineExample.click "x" in
       let! _ := TimelineExample.click "a" in
       TimelineExample.click "b") TimelineExample.rows = Some (tt, st) /\
      get "x" (items st) = Some 5 /\ get "a" (items st) = Some 2 /\
      get "b" (items st) = Some 3 /\
      selections st = [("x", 5); ("b", 3)] /\
      events st = events TimelineExample.rows
                  ++ [(EItem 5, SELECT); (EItem 2, SELECT);
                      (EItem 2, DESELECT); (EItem 3, SELECT)]) /\
  (forall st r it sg sup g explicit,
      explicit <> Some false ->
      iobjs st !! r = Some it ->
      has (it_id it) (selections st) = false ->
      sgroups st !! it_spatialGroup it = Some sg ->
      sg_superGroup sg = Some sup ->
      sg_multiselect sg = false ->
      tgroups st !! sup = Some g ->
      Forall (child_ok st) (tg_subGroups g) ->
      NoDup (map snd (sibling_items st (tg_subGroups g))) ->
      exists st',
        toggleSelection (Some r) explicit st = Some (Some r, st') /\
        events st'
        = events st
          ++ map (fun p => (EItem (fst p), DESELECT))
                 (filter (fun p => has (snd p) (selections st) = true)
                         (sibling_items st (tg_subGroups g)))
          ++ [(EItem r, SELECT)] /\
        (forall k,
            get k (selections st')
            = if decide (k = it_id it) then Some r
              else if decide (k ∈ map snd (sibling_items st (tg_subGroups g)))
                   then None
                   else get k (selections st)) /\
        calls (tl st') = calls (tl st) ++ [SetSelection (keys (selections st'))]).
Proof.
  split.
  - eexists. vm_compute. repeat split.
  - intros st r it sg sup g explicit Hsel Hi Hn Hsg Hsup Hm Hg Hok Hnd.
    pose proof (deselect_siblings _ st Hok Hnd) as Hloop.
    set (base := upd_events (fun l => l ++ [(EItem r, SELECT)])
                   (upd_selections (set (it_id it) r)
                      (after_deselect (sibling_items st (tg_subGroups g)) st))).
    assert (Hrun :
      toggleSelection (Some r) explicit st
      = Some (Some r,
              upd_tl (record_call (SetSelection (keys (selections base)))) base)).
    { unfold toggleSelection.
      destruct explicit as [[|]|]; [| congruence |];
        unfold isSelected, bind, deref, gets, ret, emit, modify,
          refreshSelections, bind, getSelectionsIds, gets, tl_call, modify;
        repeat (progress (rewrite ?Hi, ?Hn, ?Hsg, ?Hsup, ?Hm, ?Hg, ?Hloop;
                          cbv beta iota; cbn [negb]));
        reflexivity. }
    eexists. split; [exact Hrun|].
    unfold base, after_deselect. simpl. repeat split.
    + by rewrite <- app_assoc.
    + intros k. destruct (decide (k = it_id it)) as [->|Hne].
      * apply get_set_eq.
      * rewrite get_set_ne by done. apply get_after_deletes.
Qed.

(** The general part of [select_exclusive] at the click on b, with x (in
    the other row) and a selected. *)
Lemma select_exclusive_witness :
  exists st',
    toggleSelection (Some 3) None TimelineExample.a_selected
    = Some (Some 3, st') /\
    events st' = events TimelineExample.a_selected
                 ++ [(EItem 2, DESELECT); (EItem 3, SELECT)] /\
    get "x" (selections st') = Some 5 /\
    get "a" (selections st') = None /\
    get "b" (selections st') = Some 3.
Proof.
  destruct (proj2 select_exclusive TimelineExample.a_selected 3
              (TimelineExample.it "b" 1 2)
              (with_item (Some 3) (TimelineExample.sg_in 0 "b" 1)) 0
              (with_group (Some 0)
                 (TimelineExample.tg_with "T" [CSpatial 1; CSpatial 2; CSpatial 3]))
              None)
    as (st' & H1 & H2 & H3 & _).
  - discriminate.
  - reflexivity.
  - reflexivity.
  - reflexivity.
  - reflexivity.
  - reflexivity.
  - reflexivity.
  - repeat constructor; (eexists; split; [reflexivity|]);
      intros ri Hri; injection Hri as <-; eexists; reflexivity.
  - vm_compute. repeat constructor; set_solver.
  - exists st'. split; [exact H1|]. split; [exact H2|].
    rewrite !H3. repeat split.
Defined.

End Selection.

Section ExternalSelection.
Import Js Eff Timeline TimelineSpec.

Lemma same_heaps_refl st : same_heaps st st.
Proof. by repeat split. Qed.

Lemma same_heaps_trans st st1 st2 :
  same_heaps st st1 -> same_heaps st1 st2 -> same_heaps st st2.
Proof.
  intros (A & B & C & D) (A' & B' & C' & D').
  repeat split; congruence.
Qed.

Lemma has_true {V} k (m : strmap V) r : get k m = Some r -> has k m = true.
Proof. unfold has. by intros ->. Qed.

Lemma has_false {V} k (m : strmap V) : get k m = None -> has k m = false.
Proof. unfold has. by intros ->. Qed.

(** [toggleSelection(i, false)] *)
Lemma toggle_off st r it :
  iobjs st !! r = Some it ->
  exists st1,
    toggleSelection (Some r) (Some false) st = Some (Some r, st1) /\
    same_heaps st st1 /\
    selections st1 = delete (it_id it) (selections st) /\
    events st1 = events st
                 ++ (if has (it_id it) (selections st)
                     then [(EItem r, DESELECT)] else []).
Proof.
  intros Hi. unfold toggleSelection.
  unfold isSelected, bind, deref, gets, ret, emit, modify,
    refreshSelections, bind, getSelectionsIds, gets, tl_call, modify.
  rewrite Hi. cbv beta iota.
  destruct (has (it_id it) (selections st)); cbv beta iota.
  - eexists. split; [reflexivity|]. by repeat split.
  - eexists. split; [reflexivity|]. repeat split. simpl. by rewrite app_nil_r.
Qed.

(** [toggleSelection(i, true)] for an item of a multiselect group. *)
Lemma toggle_on_multi st r it sg :
  iobjs st !! r = Some it ->
  sgroups st !! it_spatialGroup it = Some sg ->
  sg_superGroup sg = None \/ sg_multiselect sg = true ->
  exists st1,
    toggleSelection (Some r) (Some true) st = Some (Some r, st1) /\
    same_heaps st st1 /\
    selections st1 = (if has (it_id it) (selections st) then selections st
                      else set (it_id it) r (selections st)) /\
    events st1 = events st
                 ++ (if has (it_id it) (selections st)
                     then [] else [(EItem r, SELECT)]).
Proof.
  intros Hi Hsg Hm. unfold toggleSelection.
  unfold isSelected, bind, deref, gets, ret, emit, modify,
    refreshSelections, bind, getSelectionsIds, gets, tl_call, modify.
  rewrite Hi. cbv beta iota.
  destruct (has (it_id it) (selections st)); cbn [negb]; cbv beta iota.
  - eexists. split; [reflexivity|]. repeat split. by rewrite app_nil_r.
  - rewrite Hi, Hsg. cbv beta iota.
    destruct Hm as [-> | ->]; [|destruct (sg_superGroup sg)];
      cbn [negb]; cbv beta iota;
      (eexists; split; [reflexivity|]; by repeat split).
Qed.

Lemma elem_of_newSet x l : x ∈ newSet l <-> x ∈ l.
Proof.
  induction l as [|y l IH]; simpl; [done|].
  rewrite !elem_of_cons, list_elem_of_filter, IH.
  destruct (decide (x = y)); naive_solver.
Qed.

Lemma NoDup_newSet l : NoDup (newSet l).
Proof.
  induction l as [|y l IH]; simpl; [constructor|].
  apply NoDup_cons. split.
  - rewrite list_elem_of_filter. naive_solver.
  - by apply NoDup_filter.
Qed.

(** The first loop of the subscription. *)
Lemma deselect_pass wanted l : forall st,
  NoDup (map fst l) ->
  (forall k r, (k, r) ∈ l ->
     get k (selections st) = Some r /\
     exists it, iobjs st !! r = Some it /\ it_id it = k) ->
  exists st1,
    forM_ l (deselect_unwanted wanted) st = Some (tt, st1) /\
    same_heaps st st1 /\
    (forall k, get k (selections st1)
               = if decide (k ∈ map fst l /\ k ∉ wanted) then None
                 else get k (selections st)) /\
    events st1
    = events st ++ map (fun kv => (EItem (snd kv), DESELECT))
                       (filter (fun kv => fst kv ∉ wanted) l).
Proof.
  induction l as [|[k r] l IH]; intros st Hnd Hl.
  - exists st. split; [done|]. split; [apply same_heaps_refl|]. split.
    + intros k. rewrite decide_False; [done|]. intros [H%elem_of_nil _]. done.
    + simpl. by rewrite app_nil_r.
  - cbn [map fst] in Hnd. apply NoDup_cons in Hnd as [Hk Hnd].
    destruct (Hl k r) as (Hget & it & Hi & Hid); [by left|].
    cbn [forM_]. unfold bind at 1.
    assert (Hstep : exists st1,
      deselect_unwanted wanted (k, r) st = Some (tt, st1) /\
      same_heaps st st1 /\
      selections st1 = (if decide (k ∉ wanted) then delete k (selections st)
                        else selections st) /\
      events st1 = events st ++ (if decide (k ∉ wanted)
                                 then [(EItem r, DESELECT)] else [])).
    { unfold deselect_unwanted. unfold bind at 1. unfold gets at 1.
      cbn [fst]. rewrite Hget. unfold bind at 1. unfold deref at 1.
      rewrite Hi. rewrite Hid.
      destruct (decide (k ∉ wanted)) as [Hw|Hw].
      - rewrite bool_decide_eq_false_2 by done. cbn [negb].
        destruct (toggle_off st r it Hi) as (st1 & Ht & Hh & Hs & He).
        unfold bind. rewrite Ht. exists st1. split; [done|].
        split; [done|]. rewrite Hs, He, Hid.
        by rewrite (has_true _ _ _ Hget).
      - apply dec_stable in Hw. rewrite bool_decide_eq_true_2 by done.
        cbn [negb]. exists st. split; [done|].
        split; [apply same_heaps_refl|]. by rewrite app_nil_r. }
    destruct Hstep as (st1 & -> & Hh1 & Hs1 & He1).
    destruct (IH st1 Hnd) as (st2 & Hrun & Hh2 & Hs2 & He2).
    { intros k' r' Hin. destruct (Hl k' r') as (Hget' & it' & Hi' & Hid');
        [by right|].
      assert (k <> k').
      { intros ->. apply Hk. apply list_elem_of_fmap. by exists (k', r'). }
      split.
      - rewrite Hs1. destruct (decide (k ∉ wanted)); [|done].
        by rewrite get_delete_ne.
      - exists it'. destruct Hh1 as (-> & _). done. }
    exists st2. split; [done|]. split; [by eapply same_heaps_trans|]. split.
    + intros k'. rewrite Hs2, Hs1. cbn [map fst].
      destruct (decide (k' ∈ map fst l /\ k' ∉ wanted)) as [[Hin Hw]|Hn].
      * rewrite decide_True; [done|]. split; [by right | done].
      * destruct (decide (k ∉ wanted)) as [Hw|Hw].
        -- destruct (decide (k = k')) as [<-|Hne].
           ++ rewrite decide_True; [apply get_delete_eq|]. split; [by left|done].
           ++ rewrite get_delete_ne by done. rewrite decide_False; [done|].
              intros [[?|?]%elem_of_cons ?]; [congruence | tauto].
        -- rewrite decide_False; [done|].
           intros [[?|?]%elem_of_cons ?]; [subst; tauto | tauto].
    + rewrite He2, He1, filter_cons. cbn [fst].
      destruct (decide (k ∉ wanted)); cbn [map snd].
      * by rewrite <- app_assoc.
      * by rewrite app_nil_r.
Qed.

Lemma omap_ext_elem {A B} (f g : A -> option B) (l : list A) :
  (forall x, x ∈ l -> f x = g x) -> omap f l = omap g l.
Proof.
  induction l as [|a l IH]; intros Hext; [done|].
  cbn [omap list_omap]. rewrite (Hext a) by left.
  rewrite IH by (intros x Hx; apply Hext; by right). done.
Qed.

Lemma sibling_items_frame st st' cs :
  sgroups st' = sgroups st -> iobjs st' = iobjs st ->
  sibling_items st' cs = sibling_items st cs.
Proof. intros H1 H2. unfold sibling_items. by rewrite H1, H2. Qed.

(** The [forEach] over the sub groups when none of their items is
    selected. *)
Lemma deselect_none cs : forall st,
  Forall (child_ok st) cs ->
  (forall p, p ∈ sibling_items st cs -> get (snd p) (selections st) = None) ->
  forM_ cs deselect_sibling st = Some (tt, st).
Proof.
  induction cs as [|c cs IH]; intros st Hok Hno; [done|].
  apply Forall_cons in Hok as [Hc Hok].
  cbn [forM_]. unfold bind at 1.
  assert (Hstep : deselect_sibling c st = Some (tt, st)).
  { unfold deselect_sibling, child_item.
    destruct c as [g|g]; simpl in Hc.
    - destruct Hc as (sg & Hsg & Hit).
      unfold bind, deref, ret. rewrite Hsg. simpl.
      destruct (sg_item sg) as [ri|] eqn:Ei; [|done].
      destruct (Hit ri eq_refl) as [it Hi]. rewrite Hi. simpl.
      unfold gets. rewrite has_false; [done|].
      apply (Hno (ri, it_id it)). unfold sibling_items.
      cbn [omap list_omap sibling_item]. rewrite Hsg, Ei, Hi. by left.
    - destruct Hc as [t Ht]. unfold bind, deref, ret. by rewrite Ht. }
  rewrite Hstep. apply IH; [done|].
  intros p Hp. apply Hno. unfold sibling_items in *.
  cbn [omap list_omap]. destruct (sibling_item _ _ c); [by right|done].
Qed.

(** [toggleSelection(i, true)] when no item of a sibling is selected. *)
Lemma toggle_on st r it :
  iobjs st !! r = Some it ->
  (get (it_id it) (selections st) = None ->
   exists sg,
     sgroups st !! it_spatialGroup it = Some sg /\
     (sg_superGroup sg = None \/ sg_multiselect sg = true \/
      exists sup g,
        sg_superGroup sg = Some sup /\ tgroups st !! sup = Some g /\
        Forall (child_ok st) (tg_subGroups g) /\
        forall p, p ∈ sibling_items st (tg_subGroups g) ->
                  snd p <> it_id it -> get (snd p) (selections st) = None)) ->
  exists st1,
    toggleSelection (Some r) (Some true) st = Some (Some r, st1) /\
    same_heaps st st1 /\
    selections st1 = (if has (it_id it) (selections st) then selections st
                      else set (it_id it) r (selections st)) /\
    events st1 = events st
                 ++ (if has (it_id it) (selections st)
                     then [] else [(EItem r, SELECT)]).
Proof.
  intros Hi Hsg.
  destruct (get (it_id it) (selections st)) as [r'|] eqn:Hsel.
  - rewrite (has_true _ _ _ Hsel). unfold toggleSelection.
    unfold isSelected, bind, deref, gets, ret. rewrite Hi. cbv beta iota.
    rewrite (has_true _ _ _ Hsel). cbn [negb]. cbv beta iota.
    exists st. split; [done|]. split; [apply same_heaps_refl|].
    split; [done|]. by rewrite app_nil_r.
  - destruct (Hsg eq_refl) as (sg & Hg & Hm).
    destruct Hm as [Hm|[Hm|(sup & g & Hsup & Htg & Hok & Hno)]].
    + apply (toggle_on_multi st r it sg); auto.
    + apply (toggle_on_multi st r it sg); auto.
    + rewrite (has_false _ _ Hsel).
      assert (Hloop : forM_ (tg_subGroups g) deselect_sibling st
                      = Some (tt, st)).
      { apply deselect_none; [done|]. intros p Hp.
        destruct (decide (snd p = it_id it)) as [->|Hne]; [done|].
        by apply Hno. }
      unfold toggleSelection.
      unfold isSelected, bind, deref, gets, ret, emit, modify,
        refreshSelections, bind, getSelectionsIds, gets, tl_call, modify.
      rewrite Hi. cbv beta iota. rewrite (has_false _ _ Hsel).
      cbn [negb]. cbv beta iota. rewrite Hi, Hg. cbv beta iota.
      rewrite Hsup. destruct (sg_multiselect sg); cbn [negb]; cbv beta iota.
      * eexists. split; [reflexivity|]. by repeat split.
      * rewrite Htg. cbv beta iota. rewrite Hloop. cbv beta iota.
        eexists. split; [reflexivity|]. by repeat split.
Qed.

(** The second loop of the subscription, when every pushed id finds the
    items of the siblings unselected. *)
Lemma select_pass w : forall st,
  NoDup w ->
  (forall l1 k l2 r, w = l1 ++ k :: l2 -> get k (items st) = Some r ->
     exists it, iobjs st !! r = Some it /\ it_id it = k /\
       (get k (selections st) = None ->
        exists sg,
          sgroups st !! it_spatialGroup it = Some sg /\
          (sg_superGroup sg = None \/ sg_multiselect sg = true \/
           exists sup g,
             sg_superGroup sg = Some sup /\ tgroups st !! sup = Some g /\
             Forall (child_ok st) (tg_subGroups g) /\
             forall p, p ∈ sibling_items st (tg_subGroups g) -> snd p <> k ->
               get (snd p) (selections st) = None /\
               (snd p ∈ l1 -> get (snd p) (items st) = None)))) ->
  exists st1,
    forM_ w select_wanted st = Some (tt, st1) /\
    same_heaps st st1 /\
    (forall k, get k (selections st1)
               = if decide (k ∈ w) then
                   match get k (selections st) with
                   | Some r => Some r
                   | None => get k (items st)
                   end
                 else get k (selections st)) /\
    events st1 = events st ++ omap (select_event st) w.
Proof.
  induction w as [|id w IH]; intros st Hnd Hw.
  - exists st. split; [done|]. split; [apply same_heaps_refl|]. split.
    + intros k. rewrite decide_False; [done | apply not_elem_of_nil].
    + simpl. by rewrite app_nil_r.
  - apply NoDup_cons in Hnd as [Hid Hnd].
    cbn [forM_]. unfold bind at 1.
    assert (Hstep : exists st1,
      select_wanted id st = Some (tt, st1) /\
      same_heaps st st1 /\
      selections st1
      = match get id (items st), get id (selections st) with
        | Some r, None => set id r (selections st)
        | _, _ => selections st
        end /\
      events st1 = events st ++ from_option (fun e => [e]) [] (select_event st id)).
    { unfold select_wanted, getItem. unfold bind at 1. unfold gets at 1.
      unfold select_event.
      destruct (get id (items st)) as [r|] eqn:Hget.
      - destruct (Hw [] id w r eq_refl Hget) as (it & Hi & Hit & Hsg).
        destruct (toggle_on st r it Hi) as (st1 & Ht & Hh & Hs & He).
        { rewrite Hit. intros Hsel.
          destruct (Hsg Hsel) as (sg & Hg & Hm). exists sg. split; [done|].
          destruct Hm as [Hm|[Hm|(sup & g & Hsup & Htg & Hok & Hno)]];
            [by left | by right; left |].
          right; right. exists sup, g. repeat split; try done.
          intros p Hp Hne. by apply Hno. }
        unfold bind. rewrite Ht. exists st1. split; [done|]. split; [done|].
        rewrite Hs, He, Hit. unfold has.
        by destruct (get id (selections st)).
      - cbn [toggleSelection]. unfold bind, ret. exists st.
        split; [done|]. split; [apply same_heaps_refl|]. split; [done|].
        simpl. by rewrite app_nil_r. }
    destruct Hstep as (st1 & -> & Hh1 & Hs1 & He1).
    pose proof Hh1 as (Hio & Hsgs & Htgs & Hits).
    assert (Hget1 : forall k, k <> id ->
              get k (selections st1) = get k (selections st)).
    { intros k Hk. rewrite Hs1.
      destruct (get id (items st)) as [r|]; [|done].
      destruct (get id (selections st)); [done|]. by apply get_set_ne. }
    destruct (IH st1 Hnd) as (st2 & Hrun & Hh2 & Hs2 & He2).
    { intros l1 k l2 r Hl. rewrite Hits, Hio, Hsgs, Htgs. intros Hget.
      assert (Hk : k <> id).
      { intros ->. apply Hid. rewrite Hl. apply elem_of_app. right. by left. }
      destruct (Hw (id :: l1) k l2 r) as (it & Hi & Hit & Hsg);
        [by rewrite Hl | done |].
      exists it. split; [done|]. split; [done|].
      rewrite (Hget1 k Hk). intros Hsel.
      destruct (Hsg Hsel) as (sg & Hg & Hm). exists sg. split; [done|].
      destruct Hm as [Hm|[Hm|(sup & g & Hsup & Htg & Hok & Hno)]];
        [by left | by right; left |].
      right; right. exists sup, g. split; [done|]. split; [done|]. split.
      { eapply Forall_impl; [exact Hok|]. intros c'.
        by apply child_ok_frame. }
      rewrite (sibling_items_frame st st1) by done.
      intros p Hp Hne. destruct (Hno p Hp Hne) as [Hps Hpi]. split.
      - destruct (decide (snd p = id)) as [Heq|Hpid].
        + assert (Hnone : get (snd p) (items st) = None).
          { apply Hpi. rewrite Heq. by left. }
          rewrite Hs1. rewrite <- Heq. by rewrite Hnone.
        + by rewrite Hget1.
      - intros Hin. apply Hpi. by right. }
    exists st2. split; [done|]. split; [by eapply same_heaps_trans|]. split.
    + intros k. rewrite Hs2, Hits.
      destruct (decide (k = id)) as [->|Hne].
      * rewrite decide_False by done. rewrite decide_True by left.
        rewrite Hs1. destruct (get id (items st)) as [r|] eqn:Hg.
        -- destruct (get id (selections st)) as [r'|] eqn:Hsel.
           ++ by rewrite Hsel.
           ++ by rewrite get_set_eq.
        -- by destruct (get id (selections st)).
      * rewrite (Hget1 k Hne).
        destruct (decide (k ∈ w)) as [Hin|Hni].
        -- rewrite decide_True by (by right). done.
        -- rewrite decide_False; [done|].
           intros [?|?]%elem_of_cons; done.
    + rewrite He2, He1. cbn [omap list_omap].
      rewrite (omap_ext_elem (select_event st1) (select_event st)).
      * destruct (select_event st id); simpl; by rewrite <- app_assoc.
      * intros k Hk. unfold select_event, has. rewrite Hits.
        rewrite Hget1; [done|]. by intros ->.
Qed.

Lemma get_None {V} k (m : strmap V) : get k m = None <-> k ∉ keys m.
Proof.
  unfold keys. induction m as [|[k0 v0] m IH]; simpl.
  - split; [intros _; apply not_elem_of_nil | done].
  - rewrite not_elem_of_cons. case_decide; naive_solver.
Qed.

Lemma get_elem_of {V} k r (m : strmap V) :
  NoDup (keys m) -> (k, r) ∈ m -> get k m = Some r.
Proof.
  unfold keys. induction m as [|[k0 v0] m IH]; simpl; intros Hnd Hin.
  - by apply elem_of_nil in Hin.
  - apply NoDup_cons in Hnd as [Hk Hnd].
    apply elem_of_cons in Hin as [[= -> ->]|Hin].
    + by rewrite decide_True.
    + rewrite decide_False; [by apply IH|].
      intros ->. apply Hk. apply list_elem_of_fmap. by exists (k, r).
Qed.




End ExternalSelection.

Section Creation.
Import Js Eff Timeline TimelineSpec.

(** On a registered id both creation methods return the registered visual,
    change nothing and emit nothing. *)
Lemma createItem_registered st g sg r :
  sgroups st !! g = Some sg ->
  get (sg_id sg) (items st) = Some r ->
  createItem g st = Some (Some r, st).
Proof.
  intros Hg Hr. unfold createItem, bind, deref, gets, ret.
  by rewrite Hg, (has_true _ _ _ Hr), Hr.
Qed.

Lemma createGroup_registered st g t r :
  tgroups st !! g = Some t ->
  get (tg_id t) (groups st) = Some r ->
  createGroup g st = Some (Some r, st).
Proof.
  intros Hg Hr. unfold createGroup, bind, deref, gets, ret.
  by rewrite Hg, (has_true _ _ _ Hr), Hr.
Qed.

(** C2, on the timeline.  The call that registers a spatial group (or a
    temporal group) returns [undefined]; the second call with the same id
    returns the item (the group), leaves the viewer as it is and emits no
    further event.  The two calls do not return the same entity. *)
Theorem timeline_create_twice :
  exists st1 st2 gr it,
    createGroup 0 TimelineExample.two_rows = Some (None, st1) /\
    createGroup 0 st1 = Some (Some gr, st1) /\
    createItem 1 st1 = Some (None, st2) /\
    createItem 1 st2 = Some (Some it, st2) /\
    events st2 = [(EGroup gr, CREATE); (EItem it, CREATE)].
Proof.
  eexists _, _, _, _. vm_compute. repeat split.
Qed.

End Creation.

(** * Properties of the map projection *)

Section MapFrames.
Import Eff MapViewer MapSpec.

Lemma same_objects_refl st : same_objects st st.
Proof. by repeat split. Qed.

Lemma same_objects_trans st st1 st2 :
  same_objects st st1 -> same_objects st1 st2 -> same_objects st st2.
Proof.
  unfold same_objects. intros H1 H2.
  destruct_and!. repeat split; congruence.
Qed.

Section Preserves.
Context (R : viewer -> viewer -> Prop).
Context (R_refl : forall st, R st st).
Context (R_trans : forall a b c, R a b -> R b c -> R a c).

Lemma preserves_ret {A} (a : A) : preserves R (ret a).
Proof. intros st b st' [= _ <-]. apply R_refl. Qed.

Lemma preserves_throw {A} : preserves R (@throw viewer A).
Proof. intros st b st' [=]. Qed.

Lemma preserves_gets {A} (f : viewer -> A) : preserves R (gets f).
Proof. intros st b st' [= _ <-]. apply R_refl. Qed.

Lemma preserves_deref {A} (heap : viewer -> gmap nat A) r :
  preserves R (deref heap r).
Proof.
  intros st b st'. unfold deref. destruct (heap st !! r); [|done].
  intros [= _ <-]. apply R_refl.
Qed.

Lemma preserves_modify f : (forall st, R st (f st)) -> preserves R (modify f).
Proof. intros Hf st b st' [= _ <-]. apply Hf. Qed.

Lemma preserves_bind {A B} (m : M A) (k : A -> M B) :
  preserves R m -> (forall a, preserves R (k a)) -> preserves R (bind m k).
Proof.
  intros Hm Hk st b st'. unfold bind.
  destruct (m st) as [[a st1]|] eqn:E; [|done].
  intros H. eapply R_trans; [by eapply Hm | by eapply Hk].
Qed.

Lemma preserves_forM_ {A} (f : A -> M unit) l :
  (forall x, preserves R (f x)) -> preserves R (forM_ l f).
Proof.
  intros Hf. induction l as [|x l IH]; simpl.
  - apply preserves_ret.
  - apply preserves_bind; [apply Hf | intros _; apply IH].
Qed.

End Preserves.

End MapFrames.

Ltac so_step :=
  first
    [ apply (preserves_ret MapSpec.same_objects same_objects_refl)
    | apply (preserves_gets MapSpec.same_objects same_objects_refl)
    | apply (preserves_deref MapSpec.same_objects same_objects_refl)
    | apply (preserves_throw MapSpec.same_objects)
    | apply (preserves_modify MapSpec.same_objects); intros ?; by repeat split
    | apply (preserves_bind MapSpec.same_objects same_objects_trans); [|intros ?]
    | apply (preserves_forM_ MapSpec.same_objects same_objects_refl same_objects_trans);
      intros ?
    | match goal with
      | |- MapSpec.preserves _ (match ?x with _ => _ end) => destruct x
      end
    | match goal with
      | H : forall x, MapSpec.preserves _ _ |- _ => apply H
      end ].

Ltac so_auto := repeat so_step.

Section MapLeaflet.
Import Eff MapViewer MapSpec.

(** The Leaflet operations and the listeners of the points change nothing
    but the registry of layers on the map, the line container and the
    bus. *)


Lemma so_emit k r a : preserves same_objects (emit k r a).
Proof. unfold emit. so_auto. Qed.

Lemma so_hasLayer x : preserves same_objects (hasLayer x).
Proof. unfold hasLayer. so_auto. Qed.

Lemma so_on_layeradd x : preserves same_objects (on_layeradd x).
Proof. unfold on_layeradd. so_auto; apply so_emit. Qed.

Lemma so_on_layerremove x : preserves same_objects (on_layerremove x).
Proof. unfold on_layerremove. so_auto; apply so_emit. Qed.

Lemma so_map_addLine x : preserves same_objects (map_addLine x).
Proof.
  unfold map_addLine. pose proof so_hasLayer. pose proof so_on_layeradd.
  so_auto.
Qed.

Lemma so_map_removeLine x : preserves same_objects (map_removeLine x).
Proof.
  unfold map_removeLine. pose proof so_hasLayer. pose proof so_on_layerremove.
  so_auto.
Qed.

Lemma so_lineGroup_addLayer x : preserves same_objects (lineGroup_addLayer x).
Proof. unfold lineGroup_addLayer. pose proof so_map_addLine. so_auto. Qed.

Lemma so_lineGroup_removeLayer x :
  preserves same_objects (lineGroup_removeLayer x).
Proof. unfold lineGroup_removeLayer. pose proof so_map_removeLine. so_auto. Qed.

Lemma so_isVisible p : preserves same_objects (isVisible p).
Proof. unfold isVisible. pose proof so_hasLayer. so_auto. Qed.

Lemma so_onPointAdd p : preserves same_objects (onPointAdd p).
Proof.
  unfold onPointAdd. pose proof so_isVisible. pose proof so_lineGroup_addLayer.
  so_auto.
Qed.

Lemma so_onPointRemove p : preserves same_objects (onPointRemove p).
Proof. unfold onPointRemove. pose proof so_lineGroup_removeLayer. so_auto. Qed.

Lemma so_map_addLayer_rec fuel : forall x,
  preserves same_objects (map_addLayer_rec fuel x).
Proof.
  induction fuel as [|fuel IH]; intros x; simpl.
  - so_auto.
  - unfold fire_add, members_of.
    pose proof so_hasLayer. pose proof so_on_layeradd. pose proof so_onPointAdd.
    so_auto.
Qed.

Lemma so_map_removeLayer_rec fuel : forall x,
  preserves same_objects (map_removeLayer_rec fuel x).
Proof.
  induction fuel as [|fuel IH]; intros x; simpl.
  - so_auto.
  - unfold fire_remove, members_of.
    pose proof so_hasLayer. pose proof so_on_layerremove.
    pose proof so_onPointRemove.
    so_auto.
Qed.

Lemma so_map_addLayer x : preserves same_objects (map_addLayer x).
Proof.
  unfold map_addLayer, nesting_bound. so_auto. apply so_map_addLayer_rec.
Qed.

Lemma so_map_removeLayer x : preserves same_objects (map_removeLayer x).
Proof.
  unfold map_removeLayer, nesting_bound. so_auto.
  apply so_map_removeLayer_rec.
Qed.

End MapLeaflet.

(** Case analysis on a lookup in a heap that is given in full. *)
Ltac enum_lookup H :=
  let l := fresh "l" in
  let El := fresh "El" in
  apply elem_of_map_to_list in H;
  match type of H with
  | _ ∈ ?m => remember m as l eqn:El; vm_compute in El; subst l
  end;
  repeat (apply elem_of_cons in H as [H|H]; [injection H as -> ->|]);
  [..|exfalso; exact (proj1 (elem_of_nil _) H)].

Section MapLines.
Import Eff MapViewer MapSpec.

Lemma bind_eq {S A B} (m : Eff.M S A) (k : A -> Eff.M S B) st a st1 :
  m st = Some (a, st1) -> bind m k st = k a st1.
Proof. intros H. unfold bind. by rewrite H. Qed.

Lemma bind_assoc {S A B C} (m : Eff.M S A) (f : A -> Eff.M S B)
    (g : B -> Eff.M S C) st :
  bind (bind m f) g st = bind m (fun x => bind (f x) g) st.
Proof. unfold bind. by destruct (m st) as [[a st1]|]. Qed.

Lemma deref_eq {S A} (heap : S -> gmap nat A) r st a :
  heap st !! r = Some a -> deref heap r st = Some (a, st).
Proof. intros H. unfold deref. by rewrite H. Qed.

Lemma filter_ne_absent (x : nat) (l : list nat) :
  x ∉ l -> filter (fun y => y <> x) l = l.
Proof.
  induction l as [|y l IH]; [done|].
  rewrite not_elem_of_cons. intros [Hne Hni].
  rewrite filter_cons, decide_True by done. by rewrite IH.
Qed.

Lemma not_elem_of_filter_ne (x : nat) (l : list nat) :
  x ∉ filter (fun y => y <> x) l.
Proof. rewrite list_elem_of_filter. tauto. Qed.

(** Taking a line off the map. *)
Lemma map_removeLine_spec l st :
  layers st !! l <> Some KLayerGroup ->
  exists st',
    map_removeLine l st = Some (tt, st') /\
    same_objects st st' /\
    onmap (L st') = onmap (L st) ∖ {[l]} /\
    lineGroup (L st') = lineGroup (L st) /\
    events st' = events st.
Proof.
  intros Hk. unfold map_removeLine, hasLayer, bind, gets.
  case_bool_decide as Hon.
  - unfold modify, on_layerremove, bind, gets. simpl.
    destruct (layers st !! l) as [[]|] eqn:E; try done;
      (eexists; split; [reflexivity|]; by repeat split).
  - exists st. split; [done|]. split; [apply same_objects_refl|].
    repeat split. set_solver.
Qed.

(** Detaching a line from the line container. *)
Lemma lineGroup_removeLayer_spec l st :
  layers st !! l <> Some KLayerGroup ->
  exists st',
    lineGroup_removeLayer l st = Some (tt, st') /\
    same_objects st st' /\
    lineGroup (L st') = filter (fun y => y <> l) (lineGroup (L st)) /\
    onmap (L st') ⊆ onmap (L st) /\
    events st' = events st.
Proof.
  intros Hk. unfold lineGroup_removeLayer. unfold bind at 1. unfold gets at 1.
  case_bool_decide as Hin.
  - unfold bind at 1. unfold gets at 1.
    destruct (map_removeLine_spec l st Hk) as (st1 & Hrun & Hso & Hon & Hlg & Hev).
    destruct (lineGroup_onmap (L st)).
    + rewrite (bind_eq _ _ _ _ _ Hrun). unfold modify.
      eexists. split; [reflexivity|]. simpl.
      split; [|rewrite Hlg, Hon, Hev; repeat split; set_solver].
      unfold same_objects in *. simpl. destruct_and!. by repeat split.
    + unfold bind, ret, modify. eexists. split; [reflexivity|].
      by repeat split.
  - exists st. split; [done|]. split; [apply same_objects_refl|].
    by rewrite filter_ne_absent.
Qed.

Lemma lineGroup_addLayer_spec l st :
  exists st',
    lineGroup_addLayer l st = Some (tt, st') /\
    same_objects st st' /\
    l ∈ lineGroup (L st') /\
    (forall x, x ∈ lineGroup (L st') <-> x ∈ lineGroup (L st) \/ x = l) /\
    onmap (L st) ⊆ onmap (L st').
Proof.
  assert (Hrun : exists st', lineGroup_addLayer l st = Some (tt, st') /\
            (forall x, x ∈ lineGroup (L st') <-> x ∈ lineGroup (L st) \/ x = l) /\
            onmap (L st) ⊆ onmap (L st')).
  { unfold lineGroup_addLayer, bind, gets, modify, map_addLine, hasLayer,
      bind, gets, modify, on_layeradd, bind, gets, emit, modify, ret.
    simpl. case_bool_decide as Hin.
    - exists st. split; [done|]. split; [|done]. intros x. naive_solver.
    - destruct (lineGroup_onmap (L st)); [case_bool_decide|];
        [| change (layers (upd_L _ (upd_L _ st))) with (layers st);
           change (layers (upd_L _ st)) with (layers st);
           destruct (layers st !! l) |];
        (eexists; split; [reflexivity|]; simpl; split;
         [intros x; rewrite elem_of_app, list_elem_of_singleton; tauto
         | set_solver]). }
  destruct Hrun as (st' & Hrun & Hlg & Hon). exists st'.
  split; [done|]. split; [by eapply so_lineGroup_addLayer|].
  split; [apply Hlg; by right | done].
Qed.



(** The visibility test of [createLine] only reads the viewer. *)
Lemma both_visible_reads e st ed :
  edges st !! e = Some ed ->
  is_Some (vertices st !! e_from ed) ->
  is_Some (vertices st !! e_to ed) ->
  (forall v vx p, vertices st !! v = Some vx -> v_point vx = Some p ->
                  is_Some (points st !! p)) ->
  both_visible e st
  = Some (visible_point st (e_from ed) && visible_point st (e_to ed), st).
Proof.
  intros He [vf Hf] [vt Ht] Hp.
  unfold both_visible, visible_point.
  rewrite (bind_eq _ _ _ _ _ (deref_eq edges e st ed He)).
  rewrite (bind_eq _ _ _ _ _ (deref_eq vertices _ st vf Hf)).
  rewrite (bind_eq _ _ _ _ _ (deref_eq vertices _ st vt Ht)).
  rewrite Hf, Ht.
  destruct (v_point vf) as [p|] eqn:Ep; [|done].
  destruct (Hp _ _ _ Hf Ep) as [pt Hpt]. rewrite Hpt.
  destruct (v_point vt) as [q|] eqn:Eq.
  - destruct (Hp _ _ _ Ht Eq) as [qt Hqt]. rewrite Hqt.
    unfold isVisible, hasLayer, bind, deref, gets, ret. rewrite Hpt.
    destruct (p_layer pt); simpl; [|done].
    case_bool_decide; simpl; [|done].
    rewrite Hqt. by destruct (p_layer qt).
  - by rewrite andb_false_r.
Qed.

(** C6. For an edge [e] with the opposite edge [o]: creating the line of
    [e] makes one new line object and installs it as the line of both
    edges; [deleteLine] on [e] detaches the layer of the shared line from
    the line container, takes it off the map and out of the layer lookup,
    drops the layer, clears the line of both edges and emits one DELETE;
    the following [deleteLine] on [o] finds no line and does nothing. *)
Theorem shared_line st e ed o oe :
  edges st !! e = Some ed ->
  e_opposite ed = Some o ->
  o <> e ->
  edges st !! o = Some oe ->
  (forall cfg,
      e_line ed = None ->
      e_type ed <> edge_TEMPORAL ->
      is_Some (vertices st !! e_from ed) ->
      is_Some (vertices st !! e_to ed) ->
      (forall v vx p, vertices st !! v = Some vx -> v_point vx = Some p ->
                      is_Some (points st !! p)) ->
      exists st' ln,
        createLine e cfg st = Some (Some (next_ref st), st') /\
        line_of st' e = Some (next_ref st) /\
        line_of st' o = Some (next_ref st) /\
        lines st' !! next_ref st = Some ln /\
        l_edge ln = e /\ l_layer ln = true /\
        layers st' !! next_ref st = Some KLine) /\
  (forall l ln,
      e_line ed = Some l ->
      lines st !! l = Some ln ->
      l_layer ln = true ->
      layers st !! l = Some KLine ->
      exists st',
        deleteLine e st = Some (tt, st') /\
        line_of st' e = None /\
        line_of st' o = None /\
        ~ attached st' l /\
        (l ∉ onmap (L st')) /\
        layers st' !! l = None /\
        lines st' !! l = Some (line_no_layer ln) /\
        events st' = events st ++ [(KLine, l, DELETE)] /\
        deleteLine o st' = Some (tt, st')).
Proof.
  intros He Hopp Hne Ho. split.
  - intros cfg Hl Hty Hf Ht Hp. unfold createLine.
    rewrite (bind_eq _ _ _ _ _ (deref_eq edges e st ed He)).
    rewrite Hl. rewrite decide_False by done.
    set (type := if decide (type_or cfg (e_type ed) = edge_TEMP)
                 then line_EDIT else type_or cfg (e_type ed)).
    set (l := next_ref st).
    set (ln := {| l_edge := e; l_type := type; l_layer := true |}).
    set (s1 := upd_edges <[o := with_line (Some l) oe]>
                 (upd_edges <[e := with_line (Some l) ed]>
                    (upd_lines <[l := ln]> (upd_next_ref S st)))).
    assert (Hnew : new_line e type st = Some (l, s1)).
    { destruct Hf as [vf Hf], Ht as [vt Ht].
      unfold new_line, alloc, bind, deref, gets, modify, ret. simpl.
      rewrite He, Hopp. simpl. rewrite lookup_insert_ne by done.
      rewrite Ho. simpl. rewrite Hf. simpl. by rewrite Ht. }
    rewrite (bind_eq _ _ _ _ _ Hnew).
    unfold bind at 1. unfold modify at 1.
    set (s2 := upd_layers <[l := KLine]> s1).
    assert (He2 : edges s2 !! e = Some (with_line (Some l) ed)).
    { simpl. rewrite lookup_insert_ne by done. apply lookup_insert_eq. }
    assert (Ho2 : edges s2 !! o = Some (with_line (Some l) oe)).
    { simpl. apply lookup_insert_eq. }
    rewrite (bind_eq _ _ _ _ _
               (both_visible_reads e s2 _ He2 Hf Ht Hp)).
    set (vis := visible_point s2 _ && visible_point s2 _).
    assert (Hadd : exists s3,
      (if vis then lineGroup_addLayer l else ret tt) s2 = Some (tt, s3) /\
      same_objects s2 s3).
    { destruct vis.
      - destruct (lineGroup_addLayer_spec l s2) as (s3 & ? & ? & _). eauto.
      - exists s2. split; [done | apply same_objects_refl]. }
    destruct Hadd as (s3 & Hadd & Hso).
    rewrite (bind_eq _ _ _ _ _ Hadd).
    unfold emit, bind, modify, ret. eexists _, ln. split; [reflexivity|].
    destruct Hso as (_ & Hed & _ & _ & _ & Hln & _ & _ & _ & Hly & _).
    unfold line_of. simpl. rewrite Hed, Hln, Hly, He2, Ho2. simpl.
    repeat split; try apply lookup_insert_eq.
  - intros l ln Hl Hln Hlay Hk. unfold deleteLine at 1.
    rewrite (bind_eq _ _ _ _ _ (deref_eq edges e st ed He)).
    rewrite Hl.
    rewrite (bind_eq _ _ _ _ _ (deref_eq lines l st ln Hln)).
    rewrite Hlay.
    destruct (lineGroup_removeLayer_spec l st) as (s1 & Hr1 & Hso1 & Hlg1 & Hon1 & Hev1).
    { by rewrite Hk. }
    pose proof Hso1 as (Hv1 & Hed1 & _ & _ & _ & Hln1 & _ & _ & _ & Hly1 & _).
    destruct (map_removeLine_spec l s1) as (s2 & Hr2 & Hso2 & Hon2 & Hlg2 & Hev2).
    { by rewrite Hly1, Hk. }
    pose proof Hso2 as (Hv2 & Hed2 & _ & _ & _ & Hln2 & _ & _ & _ & Hly2 & _).
    cbv iota. rewrite bind_assoc, (bind_eq _ _ _ _ _ Hr1).
    rewrite bind_assoc, (bind_eq _ _ _ _ _ Hr2).
    unfold bind, modify, deref, emit, modify, ret.
    rewrite Hopp. simpl.
    rewrite lookup_insert_ne by done. rewrite Hed2, Hed1, Ho.
    eexists. split; [reflexivity|].
    unfold line_of, attached. simpl.
    rewrite lookup_insert_ne by done. rewrite !lookup_insert_eq.
    rewrite Hlg2, Hlg1, Hon2, Hly2, Hly1, Hev2, Hev1.
    repeat split.
    + apply not_elem_of_filter_ne.
    + set_solver.
    + apply lookup_delete_eq.
    + unfold deleteLine, bind, deref, ret. simpl.
      by rewrite lookup_insert_eq.
Qed.

Lemma with_points_valid v vx p :
  vertices MapExample.with_points !! v = Some vx ->
  v_point vx = Some p ->
  is_Some (points MapExample.with_points !! p).
Proof.
  intros Hv Hp. enum_lookup Hv; injection Hp as <-; eexists;
    vm_compute; reflexivity.
Qed.

(** [shared_line] in the example: the line is created from the edge 1 and
    deleted from its opposite edge 2. *)
Lemma shared_line_witness :
  (exists st' ln,
      createLine 1 None MapExample.with_points = Some (Some 6, st') /\
      line_of st' 1 = Some 6 /\ line_of st' 2 = Some 6 /\
      lines st' !! 6 = Some ln /\ l_edge ln = 1 /\ l_layer ln = true /\
      layers st' !! 6 = Some KLine) /\
  (exists st',
      deleteLine 2 MapExample.with_lines = Some (tt, st') /\
      line_of st' 2 = None /\ line_of st' 1 = None /\
      ~ attached st' 6 /\ (6 ∉ onmap (L st')) /\
      layers st' !! 6 = None /\
      lines st' !! 6
      = Some (line_no_layer {| l_edge := 1; l_type := "route"; l_layer := true |}) /\
      events st' = events MapExample.with_lines ++ [(KLine, 6, DELETE)] /\
      deleteLine 1 st' = Some (tt, st')).
Proof.
  split.
  - apply (proj1 (shared_line MapExample.with_points 1
                    (MapExample.ed 1 2 edge_ROUTE (Some 2)) 2
                    (MapExample.ed 2 1 edge_ROUTE (Some 1))
                    eq_refl eq_refl ltac:(discriminate) eq_refl) None).
    + reflexivity.
    + discriminate.
    + eexists. vm_compute. reflexivity.
    + eexists. vm_compute. reflexivity.
    + apply with_points_valid.
  - apply (proj2 (shared_line MapExample.with_lines 2
                    (with_line (Some 6) (MapExample.ed 2 1 edge_ROUTE (Some 1))) 1
                    (with_line (Some 6) (MapExample.ed 1 2 edge_ROUTE (Some 2)))
                    eq_refl eq_refl ltac:(discriminate) eq_refl) 6);
      reflexivity.
Defined.

End MapLines.

Section LineVisibility.
Import Eff MapViewer MapSpec.

Lemma forM_invariant {A} (f : A -> M unit) (I : list A -> viewer -> Prop) l :
  forall processed st st',
    I processed st ->
    (forall processed x s s',
        I processed s -> f x s = Some (tt, s') -> I (processed ++ [x]) s') ->
    forM_ l f st = Some (tt, st') ->
    I (processed ++ l) st'.
Proof.
  induction l as [|x l IH]; intros processed st st' HI Hstep Hrun.
  - injection Hrun as <-. by rewrite app_nil_r.
  - cbn [forM_] in Hrun. unfold bind in Hrun.
    destruct (f x st) as [[[] s1]|] eqn:Hx; [|done].
    replace (processed ++ x :: l) with ((processed ++ [x]) ++ l)
      by (by rewrite <- app_assoc).
    eapply IH; [|exact Hstep|exact Hrun]. by eapply Hstep.
Qed.

Lemma lineGroup_removeLayer_result l st st' :
  lineGroup_removeLayer l st = Some (tt, st') ->
  same_objects st st' /\
  (forall x, attached st' x <-> attached st x /\ x <> l).
Proof.
  intros Hrun. split; [by eapply so_lineGroup_removeLayer|].
  revert Hrun. unfold lineGroup_removeLayer. unfold bind at 1. unfold gets at 1.
  unfold attached. case_bool_decide as Hin.
  - unfold bind at 1. unfold gets at 1. unfold bind.
    destruct ((if lineGroup_onmap (L st) then map_removeLine l else ret tt) st)
      as [[[] s1]|] eqn:E; [|done].
    assert (Hlg : lineGroup (L s1) = lineGroup (L st)).
    { destruct (lineGroup_onmap (L st)).
      - revert E. unfold map_removeLine, hasLayer, bind, gets, modify,
          on_layerremove, bind, gets, emit, modify, ret.
        case_bool_decide; [|by intros [= <-]]. simpl.
        destruct (layers st !! l) as [[]|]; by intros [= <-].
      - by injection E as <-. }
    unfold modify. intros [= <-]. simpl. intros x.
    rewrite list_elem_of_filter, Hlg. tauto.
  - intros [= <-]. intros x. split; [|tauto]. intros Hx. split; [done|].
    by intros ->.
Qed.

Lemma lineGroup_addLayer_result l st st' :
  lineGroup_addLayer l st = Some (tt, st') ->
  same_objects st st' /\
  (forall x, attached st' x <-> attached st x \/ x = l) /\
  onmap (L st) ⊆ onmap (L st').
Proof.
  intros Hrun.
  destruct (lineGroup_addLayer_spec l st) as (s & Hs & Hso & _ & Hlg & Hon).
  rewrite Hrun in Hs. injection Hs as <-. done.
Qed.

Lemma visible_point_frame st st' v :
  same_objects st st' -> onmap (L st) ⊆ onmap (L st') ->
  visible_point st v = true -> visible_point st' v = true.
Proof.
  intros (Hv & _ & _ & _ & Hp & _) Hon. unfold visible_point.
  rewrite Hv, Hp. destruct (vertices st !! v) as [vx|]; [|done].
  destruct (v_point vx) as [p|]; [|done].
  destruct (points st !! p) as [pt|]; [|done].
  rewrite !andb_true_iff, !bool_decide_eq_true. set_solver.
Qed.

(** The listener for 'remove' detaches the lines of the outgoing edges. *)
Lemma onPointRemove_result p pt v st st' :
  points st !! p = Some pt ->
  vertices st !! p_vertex pt = Some v ->
  onPointRemove p st = Some (tt, st') ->
  same_objects st st' /\
  (forall x, attached st' x -> attached st x) /\
  (forall e ed l ln,
      e ∈ v_edges v -> edges st !! e = Some ed -> e_line ed = Some l ->
      lines st !! l = Some ln -> l_layer ln = true -> ~ attached st' l).
Proof.
  intros Hp Hv. unfold onPointRemove.
  rewrite (bind_eq _ _ _ _ _ (deref_eq points p st pt Hp)).
  rewrite (bind_eq _ _ _ _ _ (deref_eq vertices _ st v Hv)).
  intros Hrun.
  eapply (forM_invariant _
    (fun processed s =>
       same_objects st s /\
       (forall x, attached s x -> attached st x) /\
       (forall e ed l ln,
           e ∈ processed -> edges st !! e = Some ed -> e_line ed = Some l ->
           lines st !! l = Some ln -> l_layer ln = true -> ~ attached s l))
    (v_edges v) []) in Hrun; [exact Hrun| |].
  - split; [apply same_objects_refl|]. split; [done|].
    intros e ed l ln Hin. by apply elem_of_nil in Hin.
  - intros processed e s s' (Hso & Hsub & Hdone) Hstep.
    pose proof Hso as (_ & Hed & _ & _ & _ & Hln & _).
    assert (Hres : same_objects s s' /\
              (forall x, attached s' x -> attached s x) /\
              (forall ed l ln, edges st !! e = Some ed -> e_line ed = Some l ->
                  lines st !! l = Some ln -> l_layer ln = true ->
                  ~ attached s' l)).
    { revert Hstep. unfold bind at 1. unfold deref at 1. rewrite Hed.
      destruct (edges st !! e) as [ed|] eqn:He; [|done].
      destruct (e_line ed) as [l|] eqn:El.
      - unfold bind at 1. unfold deref at 1. rewrite Hln.
        destruct (lines st !! l) as [ln|] eqn:Eln; [|done].
        destruct (l_layer ln) eqn:Elay.
        + intros Hr. apply lineGroup_removeLayer_result in Hr as [Hso' Hat].
          split; [done|]. split; [intros x Hx; apply Hat in Hx; tauto|].
          intros ed' l' ln' [= <-]. rewrite El. intros [= <-] _ _ Hx.
          apply Hat in Hx. tauto.
        + intros [= <-]. split; [apply same_objects_refl|]. split; [done|].
          intros ed' l' ln' [= <-]. rewrite El. intros [= <-].
          rewrite Eln. intros [= <-]. congruence.
      - intros [= <-]. split; [apply same_objects_refl|]. split; [done|].
        intros ed' l' ln' [= <-]. congruence. }
    destruct Hres as (Hso' & Hsub' & Hnew).
    split; [by eapply same_objects_trans|]. split; [by auto|].
    intros e' ed l ln [Hin| ->%list_elem_of_singleton]%elem_of_app He El Hl Hlay.
    + intros Hx. eapply Hdone; eauto.
    + eauto.
Qed.

(** The listener for 'add' attaches the lines of the outgoing edges whose
    target point is visible, and detaches nothing. *)
Lemma onPointAdd_result p pt v st st' :
  points st !! p = Some pt ->
  vertices st !! p_vertex pt = Some v ->
  onPointAdd p st = Some (tt, st') ->
  same_objects st st' /\
  onmap (L st) ⊆ onmap (L st') /\
  (forall x, attached st x -> attached st' x) /\
  (forall e ed l,
      e ∈ v_edges v -> edges st !! e = Some ed -> e_line ed = Some l ->
      visible_point st (e_to ed) = true -> attached st' l).
Proof.
  intros Hp Hv. unfold onPointAdd.
  rewrite (bind_eq _ _ _ _ _ (deref_eq points p st pt Hp)).
  rewrite (bind_eq _ _ _ _ _ (deref_eq vertices _ st v Hv)).
  intros Hrun.
  eapply (forM_invariant _
    (fun processed s =>
       same_objects st s /\
       onmap (L st) ⊆ onmap (L s) /\
       (forall x, attached st x -> attached s x) /\
       (forall e ed l,
           e ∈ processed -> edges st !! e = Some ed -> e_line ed = Some l ->
           visible_point st (e_to ed) = true -> attached s l))
    (v_edges v) []) in Hrun; [exact Hrun| |].
  - split; [apply same_objects_refl|]. split; [done|]. split; [done|].
    intros e ed l Hin. by apply elem_of_nil in Hin.
  - intros processed e s s' (Hso & Hon & Hsub & Hdone) Hstep.
    pose proof Hso as (Hvs & Hed & _ & _ & Hps & Hln & _).
    assert (Hres : same_objects s s' /\
              onmap (L s) ⊆ onmap (L s') /\
              (forall x, attached s x -> attached s' x) /\
              (forall ed l, edges st !! e = Some ed -> e_line ed = Some l ->
                  visible_point st (e_to ed) = true -> attached s' l)).
    { revert Hstep. unfold bind at 1. unfold deref at 1. rewrite Hed.
      destruct (edges st !! e) as [ed|] eqn:He; [|done].
      destruct (e_line ed) as [l|] eqn:El.
      2:{ intros [= <-]. split; [apply same_objects_refl|]. split; [done|].
          split; [done|]. intros ed' l' [= <-]. congruence. }
      unfold bind at 1. unfold deref at 1. rewrite Hvs.
      destruct (vertices st !! e_to ed) as [target|] eqn:Et; [|done].
      destruct (v_point target) as [q|] eqn:Eq.
      2:{ intros [= <-]. split; [apply same_objects_refl|]. split; [done|].
          split; [done|]. intros ed' l' [= <-] _.
          unfold visible_point. by rewrite Et, Eq. }
      unfold bind at 1. unfold isVisible, hasLayer, bind, deref, gets, ret.
      rewrite Hps. destruct (points st !! q) as [qt|] eqn:Eqt; [|done].
      assert (Hvis : visible_point st (e_to ed) = true ->
                p_layer qt = true /\ q ∈ onmap (L s)).
      { unfold visible_point. rewrite Et, Eq, Eqt.
        rewrite andb_true_iff, bool_decide_eq_true. set_solver. }
      destruct (p_layer qt) eqn:Elay.
      2:{ intros [= <-]. split; [apply same_objects_refl|]. split; [done|].
          split; [done|]. intros ed' l' [= <-] _ Hv'.
          apply Hvis in Hv' as [? _]. done. }
      case_bool_decide as Hq.
      2:{ intros [= <-]. split; [apply same_objects_refl|]. split; [done|].
          split; [done|]. intros ed' l' [= <-] _ Hv'.
          apply Hvis in Hv' as [_ ?]. done. }
      rewrite Hln. destruct (lines st !! l) as [ln|]; [|done].
      destruct (l_layer ln); [|done].
      intros Hr. apply lineGroup_addLayer_result in Hr as (Hso' & Hat & Hon').
      split; [done|]. split; [done|].
      split; [intros x Hx; apply Hat; by left|].
      intros ed' l' [= <-]. rewrite El. intros [= <-] _. apply Hat. by right. }
    destruct Hres as (Hso' & Hon' & Hsub' & Hnew).
    split; [by eapply same_objects_trans|]. split; [set_solver|].
    split; [by auto|].
    intros e' ed l [Hin| ->%list_elem_of_singleton]%elem_of_app He El Hvis.
    + apply Hsub'. eapply Hdone; eauto.
    + eauto.
Qed.

Lemma visible_point_ext st st' v :
  vertices st' = vertices st -> points st' = points st ->
  onmap (L st') = onmap (L st) ->
  visible_point st' v = visible_point st v.
Proof. intros H1 H2 H3. unfold visible_point. by rewrite H1, H2, H3. Qed.

Lemma new_line_result e type st l s1 ed :
  edges st !! e = Some ed ->
  new_line e type st = Some (l, s1) ->
  l = next_ref st /\
  vertices s1 = vertices st /\ points s1 = points st /\ L s1 = L st /\
  exists ed', edges s1 !! e = Some ed' /\ e_from ed' = e_from ed /\
              e_to ed' = e_to ed /\ e_line ed' = Some l.
Proof.
  intros He. unfold new_line, alloc, bind, deref, gets, modify, ret. simpl.
  rewrite He. simpl.
  destruct (e_opposite ed) as [o|]; simpl.
  - destruct (decide (o = e)) as [->|Hne].
    + rewrite lookup_insert_eq. simpl.
      destruct (vertices st !! e_from ed); [|done]. simpl.
      destruct (vertices st !! e_to ed); [|done].
      intros [= <- <-]. simpl. repeat split.
      eexists. rewrite lookup_insert_eq. done.
    + rewrite lookup_insert_ne by done.
      destruct (edges st !! o); [|done]. simpl.
      destruct (vertices st !! e_from ed); [|done]. simpl.
      destruct (vertices st !! e_to ed); [|done].
      intros [= <- <-]. simpl. repeat split.
      eexists. rewrite lookup_insert_ne by done. rewrite lookup_insert_eq. done.
  - destruct (vertices st !! e_from ed); [|done]. simpl.
    destruct (vertices st !! e_to ed); [|done].
    intros [= <- <-]. simpl. repeat split.
    eexists. rewrite lookup_insert_eq. done.
Qed.

Lemma both_visible_result e st ed b st' :
  edges st !! e = Some ed ->
  both_visible e st = Some (b, st') ->
  st' = st /\
  b = visible_point st (e_from ed) && visible_point st (e_to ed).
Proof.
  intros He. unfold both_visible, visible_point, isVisible, hasLayer,
    bind, deref, gets, ret.
  rewrite He.
  destruct (vertices st !! e_from ed) as [vf|]; [|done].
  destruct (vertices st !! e_to ed) as [vt|]; [|done].
  destruct (v_point vf) as [p|]; [|by intros [= <- <-]].
  destruct (v_point vt) as [q|].
  2:{ intros [= <- <-]. by rewrite andb_false_r. }
  destruct (points st !! p) as [pt|]; [|done].
  destruct (p_layer pt); simpl.
  - case_bool_decide; simpl.
    + destruct (points st !! q) as [qt|]; [|done].
      destruct (p_layer qt); by intros [= <- <-].
    + by intros [= <- <-].
  - by intros [= <- <-].
Qed.

(** A new line is attached exactly when both end points are visible. *)
Lemma createLine_attach st e ed cfg l st' :
  edges st !! e = Some ed ->
  e_line ed = None ->
  next_ref st ∉ lineGroup (L st) ->
  createLine e cfg st = Some (Some l, st') ->
  line_of st' e = Some l /\
  (attached st' l <->
   visible_point st (e_from ed) = true /\ visible_point st (e_to ed) = true).
Proof.
  intros He Hl Hfresh. unfold createLine.
  rewrite (bind_eq _ _ _ _ _ (deref_eq edges e st ed He)), Hl.
  case_decide; [done|].
  unfold bind at 1.
  destruct (new_line _ _ st) as [[l0 s1]|] eqn:Hnew; [|done].
  destruct (new_line_result _ _ _ _ _ _ He Hnew)
    as (-> & Hvs & Hps & HL & ed' & He' & Hfrom & Hto & Hline).
  unfold bind at 1. unfold modify at 1. unfold bind at 1.
  destruct (both_visible e _) as [[b s2]|] eqn:Hvis; [|done].
  apply (both_visible_result _ _ ed') in Hvis as [-> ->]; [|done].
  rewrite Hfrom, Hto.
  rewrite !(visible_point_ext st (upd_layers _ s1)) by (by simpl; congruence).
  unfold bind at 1.
  destruct (visible_point st (e_from ed) && visible_point st (e_to ed)) eqn:Hb.
  - destruct (lineGroup_addLayer _ _) as [[[] s3]|] eqn:Hadd; [|done].
    apply lineGroup_addLayer_result in Hadd as (Hso & Hat & _).
    unfold emit, bind, modify, ret. intros [= <- <-].
    destruct Hso as (_ & Hed & _). unfold line_of, attached. simpl.
    rewrite Hed. simpl. rewrite He', Hline. split; [done|].
    apply andb_true_iff in Hb. split; [done|]. intros _. apply Hat. by right.
  - unfold ret at 1. unfold emit, bind, modify, ret. intros [= <- <-].
    unfold line_of, attached. simpl. rewrite He', Hline, HL.
    split; [done|]. apply andb_false_iff in Hb.
    split; [done|]. intros [? ?]. destruct Hb; congruence.
Qed.

End LineVisibility.

(** Case analysis on the first computation of a sequence that returned. *)
Ltac bind_inv s1 E :=
  unfold Eff.bind at 1;
  match goal with
  | |- match ?m with Some _ => _ | None => _ end = _ -> _ =>
      let a := fresh "a" in
      destruct m as [[a s1]|] eqn:E; [|discriminate];
      match type of a with
      | unit => destruct a
      | _ => idtac
      end
  end.

Section Reparenting.
Import Eff MapViewer MapSpec.

Lemma frame_upto_refl P st : frame_upto P st st.
Proof. by repeat split. Qed.

Lemma frame_upto_trans P a b c :
  frame_upto P a b -> frame_upto P b c -> frame_upto P a c.
Proof.
  unfold frame_upto.
  intros (A1 & A2 & A3 & A4 & A5 & A6 & A7 & A8 & A9 & A10 & A11 & A12)
         (B1 & B2 & B3 & B4 & B5 & B6 & B7 & B8 & B9 & B10 & B11 & B12).
  repeat split; try congruence.
  intros k' r' Hne. rewrite B12 by done. by apply A12.
Qed.

Lemma frame_upto_weaken (P Q : kind -> nat -> Prop) st st' :
  (forall k r, Q k r -> P k r) -> frame_upto P st st' -> frame_upto Q st st'.
Proof.
  unfold frame_upto. intros HPQ H. destruct_and!. repeat split; try done.
  intros k' r' HQ. auto.
Qed.

Lemma visuals_reparent_frame k r st st' :
  visuals_frame st st' -> reparent_frame k r st st'.
Proof. by apply frame_upto_weaken. Qed.

Lemma same_objects_visuals_frame st st' :
  same_objects st st' -> visuals_frame st st'.
Proof.
  unfold same_objects, visuals_frame, frame_upto, recorded_parent. intros H.
  destruct_and!. repeat split; try congruence.
  intros k' r' _. destruct k'; congruence.
Qed.

Lemma same_objects_members st st' g :
  same_objects st st' -> group_members st' g = group_members st g.
Proof.
  unfold same_objects, group_members. intros H. destruct_and!. congruence.
Qed.

(** [elem.parent = x] *)
Lemma set_parent_result k r x st st' :
  set_parent k r x st = Some (tt, st') ->
  reparent_frame k r st st' /\ L st' = L st /\
  overlayTree st' = overlayTree st /\ events st' = events st /\
  (k <> KLine -> recorded_parent st' k r = Some x).
Proof.
  unfold set_parent, bind, deref, modify, ret.
  destruct k.
  - destruct (points st !! r) as [p|] eqn:E; [|done]. intros [= <-].
    unfold reparent_frame, frame_upto, recorded_parent. simpl.
    repeat split; try done.
    + rewrite fmap_insert. apply insert_id. by rewrite lookup_fmap, E.
    + intros k' r' Hne. destruct k'; try done.
      rewrite lookup_insert_ne; [done|]. congruence.
    + intros _. by rewrite lookup_insert_eq.
  - destruct (lines st !! r); [|done]. intros [= <-].
    split; [apply frame_upto_refl|]. by repeat split.
  - destruct (lgroups st !! r) as [g|] eqn:E; [|done]. intros [= <-].
    unfold reparent_frame, frame_upto, recorded_parent. simpl.
    repeat split; try done.
    + rewrite fmap_insert. apply insert_id. by rewrite lookup_fmap, E.
    + intros k' r' Hne. destruct k'; try done.
      rewrite lookup_insert_ne; [done|]. congruence.
    + intros _. by rewrite lookup_insert_eq.
  - destruct (cgroups st !! r) as [g|] eqn:E; [|done]. intros [= <-].
    unfold reparent_frame, frame_upto, recorded_parent. simpl.
    repeat split; try done.
    + rewrite fmap_insert. apply insert_id. by rewrite lookup_fmap, E.
    + intros k' r' Hne. destruct k'; try done.
      rewrite lookup_insert_ne; [done|]. congruence.
    + intros _. by rewrite lookup_insert_eq.
Qed.

Lemma group_members_insert st g g' ms :
  group_members (upd_L (upd_members <[g := ms]>) st) g'
  = if decide (g = g') then ms else group_members st g'.
Proof.
  unfold group_members. simpl. case_decide as Hg.
  - subst. by rewrite lookup_insert_eq.
  - by rewrite lookup_insert_ne.
Qed.

Lemma visuals_frame_members st g ms :
  visuals_frame st (upd_L (upd_members <[g := ms]>) st).
Proof. by repeat split. Qed.

(** [group.removeLayer(layer)] *)
Lemma group_removeLayer_result g x st st' :
  group_removeLayer g x st = Some (tt, st') ->
  visuals_frame st st' /\
  overlayTree st' = overlayTree st /\
  (x ∉ group_members st' g) /\
  (forall g', g' <> g -> group_members st' g' = group_members st g').
Proof.
  unfold group_removeLayer, members_of. unfold bind at 1. unfold gets at 1.
  fold (group_members st g). case_bool_decide as Hin.
  - unfold bind at 1. unfold hasLayer at 1. unfold gets at 1. unfold bind.
    destruct ((if bool_decide (g ∈ onmap (L st)) then map_removeLayer x
               else ret tt) st) as [[[] s1]|] eqn:E; [|done].
    assert (Hso : same_objects st s1).
    { destruct (bool_decide (g ∈ onmap (L st))).
      - by eapply so_map_removeLayer.
      - injection E as <-. apply same_objects_refl. }
    unfold modify. intros [= <-].
    split.
    { eapply frame_upto_trans; [by apply same_objects_visuals_frame|].
      apply visuals_frame_members. }
    split. { simpl. by destruct Hso as (_&_&_&_&_&_&_&_&_&_&?&_). }
    split.
    + rewrite group_members_insert, decide_True by done.
      apply not_elem_of_filter_ne.
    + intros g' Hne. rewrite group_members_insert, decide_False by done.
      by apply same_objects_members.
  - intros [= <-]. split; [apply frame_upto_refl|]. by repeat split.
Qed.

(** [layer.addTo(group)] *)
Lemma group_addLayer_result g x st st' :
  group_addLayer g x st = Some (tt, st') ->
  visuals_frame st st' /\
  overlayTree st' = overlayTree st /\
  x ∈ group_members st' g /\
  (forall g', g' <> g -> group_members st' g' = group_members st g').
Proof.
  unfold group_addLayer, members_of. unfold bind at 1. unfold gets at 1.
  fold (group_members st g). case_bool_decide as Hin.
  - intros [= <-]. split; [apply frame_upto_refl|]. by repeat split.
  - unfold bind at 1. unfold modify at 1.
    set (s1 := upd_L _ st).
    unfold bind at 1. unfold hasLayer at 1. unfold gets at 1.
    intros E.
    assert (Hso : same_objects s1 st').
    { destruct (bool_decide (g ∈ onmap (L s1))).
      - by eapply so_map_addLayer.
      - injection E as <-. apply same_objects_refl. }
    split.
    { eapply frame_upto_trans; [apply visuals_frame_members|].
      by apply same_objects_visuals_frame. }
    split. { by destruct Hso as (_&_&_&_&_&_&_&_&_&_&?&_). }
    split.
    + rewrite (same_objects_members _ _ _ Hso). unfold s1.
      rewrite group_members_insert, decide_True by done.
      apply elem_of_app. right. apply list_elem_of_singleton. done.
    + intros g' Hne. rewrite (same_objects_members _ _ _ Hso). unfold s1.
      by rewrite group_members_insert, decide_False.
Qed.

Lemma fmap_lookup_eq {A B} (f : A -> B) (m m' : gmap nat A) r a :
  f <$> m' = f <$> m -> m !! r = Some a ->
  exists a', m' !! r = Some a' /\ f a' = f a.
Proof.
  intros Hm Hr. assert (H : (f <$> m') !! r = Some (f a)).
  { by rewrite Hm, lookup_fmap, Hr. }
  rewrite lookup_fmap in H. destruct (m' !! r) as [a'|]; [|done].
  injection H as H. eauto.
Qed.

(** The derived parent depends on the model and on the cores of the
    visuals only. *)
Lemma deriveParent_frame P st st' k r d s :
  frame_upto P st st' ->
  deriveParent k r st = Some (d, s) ->
  s = st /\ deriveParent k r st' = Some (d, st').
Proof.
  intros (Hv & _ & Hsg & Htg & _ & _ & _ & _ & Hp & Hlg & Hcg & _) H.
  destruct k; [| done | |]; revert H; unfold deriveParent at 1;
    unfold bind, deref, ret.
  - destruct (points st !! r) as [p|] eqn:E; [|done].
    destruct (fmap_lookup_eq _ _ _ _ _ Hp E) as (p' & E' & [= Hpv _ _]).
    destruct (vertices st !! p_vertex p) as [v|] eqn:Ev; [|done].
    destruct (v_spatialGroup v) as [g|] eqn:Eg; [|done].
    destruct (sgroups st !! g) as [sg|] eqn:Es; [|done].
    intros [= <- <-]. split; [done|]. unfold deriveParent.
    rewrite (bind_eq _ _ _ _ _ (deref_eq points r st' p' E')).
    rewrite <- Hv, <- Hpv in Ev.
    rewrite (bind_eq _ _ _ _ _ (deref_eq vertices _ st' v Ev)), Eg.
    rewrite <- Hsg in Es.
    by rewrite (bind_eq _ _ _ _ _ (deref_eq sgroups _ st' sg Es)).
  - destruct (lgroups st !! r) as [g|] eqn:E; [|done].
    destruct (fmap_lookup_eq _ _ _ _ _ Hlg E) as (g' & E' & Hg).
    destruct (sgroups st !! lg_spatialGroup g) as [sg|] eqn:Es; [|done].
    rewrite <- Hsg, <- Hg in Es.
    destruct (sg_superGroup sg) as [t|] eqn:Et.
    + destruct (tgroups st !! t) as [tg|] eqn:Etg; [|done].
      intros [= <- <-]. split; [done|]. unfold deriveParent.
      rewrite (bind_eq _ _ _ _ _ (deref_eq lgroups r st' g' E')).
      rewrite (bind_eq _ _ _ _ _ (deref_eq sgroups _ st' sg Es)), Et.
      rewrite <- Htg in Etg.
      by rewrite (bind_eq _ _ _ _ _ (deref_eq tgroups _ st' tg Etg)).
    + intros [= <- <-]. split; [done|]. unfold deriveParent.
      rewrite (bind_eq _ _ _ _ _ (deref_eq lgroups r st' g' E')).
      by rewrite (bind_eq _ _ _ _ _ (deref_eq sgroups _ st' sg Es)), Et.
  - destruct (cgroups st !! r) as [g|] eqn:E; [|done].
    destruct (fmap_lookup_eq _ _ _ _ _ Hcg E) as (g' & E' & [= _ Hg]).
    destruct (tgroups st !! cg_temporalGroup g) as [tg0|] eqn:Es; [|done].
    rewrite <- Htg, <- Hg in Es.
    destruct (tg_superGroup tg0) as [t|] eqn:Et.
    + destruct (tgroups st !! t) as [tg|] eqn:Etg; [|done].
      intros [= <- <-]. split; [done|]. unfold deriveParent.
      rewrite (bind_eq _ _ _ _ _ (deref_eq cgroups r st' g' E')).
      rewrite (bind_eq _ _ _ _ _ (deref_eq tgroups _ st' tg0 Es)), Et.
      rewrite <- Htg in Etg.
      by rewrite (bind_eq _ _ _ _ _ (deref_eq tgroups _ st' tg Etg)).
    + intros [= <- <-]. split; [done|]. unfold deriveParent.
      rewrite (bind_eq _ _ _ _ _ (deref_eq cgroups r st' g' E')).
      by rewrite (bind_eq _ _ _ _ _ (deref_eq tgroups _ st' tg0 Es)), Et.
Qed.

Lemma has_layer_frame P st st' k r b s :
  frame_upto P st st' ->
  has_layer k r st = Some (b, s) ->
  s = st /\ has_layer k r st' = Some (b, st').
Proof.
  intros (_ & _ & _ & _ & Hl & _ & _ & _ & Hp & Hlg & Hcg & _) H.
  destruct k; revert H; unfold has_layer at 1; unfold bind, deref, ret.
  - destruct (points st !! r) as [p|] eqn:E; [|done].
    destruct (fmap_lookup_eq _ _ _ _ _ Hp E) as (p' & E' & [= _ _ Hpl]).
    intros [= <- <-]. split; [done|]. unfold has_layer.
    by rewrite (bind_eq _ _ _ _ _ (deref_eq points r st' p' E')), Hpl.
  - destruct (lines st !! r) as [l|] eqn:E; [|done]. rewrite <- Hl in E.
    intros [= <- <-]. split; [done|]. unfold has_layer.
    by rewrite (bind_eq _ _ _ _ _ (deref_eq lines r st' l E)).
  - destruct (lgroups st !! r) as [g|] eqn:E; [|done].
    destruct (fmap_lookup_eq _ _ _ _ _ Hlg E) as (g' & E' & _).
    intros [= <- <-]. split; [done|]. unfold has_layer.
    by rewrite (bind_eq _ _ _ _ _ (deref_eq lgroups r st' g' E')).
  - destruct (cgroups st !! r) as [g|] eqn:E; [|done].
    destruct (fmap_lookup_eq _ _ _ _ _ Hcg E) as (g' & E' & _).
    intros [= <- <-]. split; [done|]. unfold has_layer.
    by rewrite (bind_eq _ _ _ _ _ (deref_eq cgroups r st' g' E')).
Qed.

Lemma parent_of_recorded k r st x s :
  parent_of k r st = Some (x, s) ->
  s = st /\ (k <> KLine -> recorded_parent st k r = Some x).
Proof.
  unfold parent_of, recorded_parent, bind, deref, ret. destruct k.
  - destruct (points st !! r); [|done]. by intros [= <- <-].
  - destruct (lines st !! r); [|done]. by intros [= <- <-].
  - destruct (lgroups st !! r); [|done]. by intros [= <- <-].
  - destruct (cgroups st !! r); [|done]. by intros [= <- <-].
Qed.

Lemma frame_upto_sym P st st' : frame_upto P st st' -> frame_upto P st' st.
Proof.
  unfold frame_upto. intros H. destruct_and!. repeat split; try done.
  intros k' r' HP. symmetry. auto.
Qed.

Lemma visuals_frame_children st pr pg c :
  cgroups st !! pr = Some pg ->
  visuals_frame st (upd_cgroups <[pr := cg_with_children c pg]> st).
Proof.
  intros E. unfold visuals_frame, frame_upto, recorded_parent. simpl.
  repeat split; try done.
  - rewrite fmap_insert. apply insert_id. by rewrite lookup_fmap, E.
  - intros k' r' _. destruct k'; try done.
    destruct (decide (pr = r')) as [<-|Hne].
    + by rewrite lookup_insert_eq, E.
    + by rewrite lookup_insert_ne.
Qed.

Lemma visuals_frame_overlay st f : visuals_frame st (upd_overlayTree f st).
Proof. by repeat split. Qed.

Lemma visuals_frame_recorded st st' k r :
  visuals_frame st st' -> recorded_parent st' k r = recorded_parent st k r.
Proof. intros H. by apply H. Qed.

Lemma removeFromParentControlGroup_result cg st st' :
  removeFromParentControlGroup cg st = Some (tt, st') ->
  reparent_frame KControlGroup cg st st' /\ L st' = L st.
Proof.
  unfold removeFromParentControlGroup. unfold bind at 1. unfold deref at 1.
  destruct (cgroups st !! cg) as [g|]; [|done].
  bind_inv s1 E.
  assert (H1 : visuals_frame st s1 /\ L s1 = L st).
  { destruct (cg_parent g) as [| |pr].
    - injection E as <-. split; [apply visuals_frame_overlay | done].
    - injection E as <-. split; [apply visuals_frame_overlay | done].
    - revert E. unfold bind, deref, modify.
      destruct (cgroups st !! pr) as [pg|] eqn:Epg; [|done].
      destruct (cg_children pg); [|done]. intros [= <-].
      split; [by apply visuals_frame_children | done]. }
  destruct H1 as [H1 HL1]. intros H2.
  apply set_parent_result in H2 as (H2 & HL2 & _).
  split; [|congruence].
  eapply frame_upto_trans; [|exact H2]. by apply visuals_reparent_frame.
Qed.

Lemma removeFromParent_result k r x st st' :
  parent_of k r st = Some (x, st) ->
  removeFromParent k r st = Some (tt, st') ->
  reparent_frame k r st st' /\
  (forall pr, x = Ref pr -> has_layer k r st = Some (true, st) ->
              r ∉ group_members st' pr) /\
  (forall g, x <> Ref g -> group_members st' g = group_members st g).
Proof.
  intros Hx. unfold removeFromParent. rewrite (bind_eq _ _ _ _ _ Hx).
  bind_inv s1 E.
  assert (H1 : visuals_frame st s1 /\
    (forall pr, x = Ref pr -> has_layer k r st = Some (true, st) ->
                r ∉ group_members s1 pr) /\
    (forall g, x <> Ref g -> group_members s1 g = group_members st g)).
  { destruct x as [| |pr].
    - injection E as <-. split; [apply frame_upto_refl|]. by split.
    - injection E as <-. split; [apply frame_upto_refl|]. by split.
    - revert E. unfold bind at 1.
      destruct (has_layer k r st) as [[hl s0]|] eqn:Ehl; [|done].
      destruct (has_layer_frame _ _ _ _ _ _ _ (frame_upto_refl (fun _ _ => True) st) Ehl)
        as [-> _].
      destruct hl.
      + intros E. apply group_removeLayer_result in E as (Hf & _ & Hni & Hoth).
        split; [done|]. split.
        * intros pr' [= <-] _. done.
        * intros g Hg. apply Hoth. congruence.
      + intros [= <-]. split; [apply frame_upto_refl|]. split.
        * intros pr' _ [=].
        * done. }
  destruct H1 as (Hf1 & Hni & Hoth).
  bind_inv s2 E2.
  assert (H2 : reparent_frame k r s1 s2 /\ L s2 = L s1).
  { destruct k; try (injection E2 as <-; split; [apply frame_upto_refl|done]).
    by apply removeFromParentControlGroup_result. }
  destruct H2 as [Hf2 HL2]. intros H3.
  apply set_parent_result in H3 as (Hf3 & HL3 & _).
  assert (HL : L st' = L s1) by congruence.
  split.
  { eapply frame_upto_trans; [by apply visuals_reparent_frame|].
    eapply frame_upto_trans; eauto. }
  unfold group_members in *. rewrite HL. by split.
Qed.

Lemma addToDerivedParent_result k r st st' :
  addToDerivedParent k r st = Some (tt, st') ->
  exists d,
    deriveParent k r st = Some (d, st) /\
    has_layer k r st = Some (true, st) /\
    reparent_frame k r st st' /\
    (k <> KLine -> recorded_parent st' k r = Some d) /\
    (forall pr, d = Ref pr -> r ∈ group_members st' pr) /\
    (forall g, d <> Ref g -> group_members st' g = group_members st g).
Proof.
  unfold addToDerivedParent. bind_inv s0 Ed. rename a into d.
  destruct (deriveParent_frame _ _ _ _ _ _ _
              (frame_upto_refl (fun _ _ => True) st) Ed) as [-> _].
  bind_inv sa Es. apply set_parent_result in Es as (Hfa & HLa & _ & _ & Hra).
  bind_inv s1 Eh. rename a into hl.
  destruct (has_layer_frame _ _ _ _ _ _ _
              (frame_upto_refl (fun _ _ => True) sa) Eh) as [-> _].
  destruct (has_layer_frame _ _ _ _ _ _ _ (frame_upto_sym _ _ _ Hfa) Eh)
    as [_ Hhl].
  bind_inv sb Eb.
  destruct hl; [|done].
  assert (Hb : visuals_frame sa sb /\
            (forall pr, d = Ref pr -> r ∈ group_members sb pr) /\
            (forall g, d <> Ref g -> group_members sb g = group_members st g)).
  { assert (Hm : forall g, group_members sa g = group_members st g).
    { intros g. unfold group_members. by rewrite HLa. }
    destruct d as [| |pr].
    - apply so_map_addLayer in Eb.
      split; [by apply same_objects_visuals_frame|]. split; [done|].
      intros g _. by rewrite (same_objects_members _ _ _ Eb).
    - apply so_map_addLayer in Eb.
      split; [by apply same_objects_visuals_frame|]. split; [done|].
      intros g _. by rewrite (same_objects_members _ _ _ Eb).
    - apply group_addLayer_result in Eb as (Hf & _ & Hin & Hoth).
      split; [done|]. split.
      + by intros pr' [= <-].
      + intros g Hg. rewrite Hoth by congruence. apply Hm. }
  destruct Hb as (Hfb & Hin & Hoth).
  intros Hlast.
  assert (Hc : visuals_frame sb st' /\ L st' = L sb).
  { destruct k; try (injection Hlast as <-; split; [apply frame_upto_refl|done]).
    destruct d as [| |pr].
    - injection Hlast as <-. split; [apply visuals_frame_overlay | done].
    - injection Hlast as <-. split; [apply visuals_frame_overlay | done].
    - revert Hlast. unfold bind, deref, modify.
      destruct (cgroups sb !! pr) as [pg|] eqn:Epg; [|done].
      intros [= <-]. split; [by apply visuals_frame_children | done]. }
  destruct Hc as (Hfc & HLc).
  exists d. split; [done|]. split; [done|]. split.
  { eapply frame_upto_trans; [exact Hfa|]. apply visuals_reparent_frame.
    by eapply frame_upto_trans. }
  split.
  { intros Hk. rewrite (visuals_frame_recorded _ _ _ _ Hfc).
    rewrite (visuals_frame_recorded _ _ _ _ Hfb). by apply Hra. }
  unfold group_members in *. rewrite HLc. by split.
Qed.

End Reparenting.

Section MapTotal.
Import Eff MapViewer MapSpec.

Lemma forM_returns {A} (f : A -> M unit) (I : viewer -> Prop) l : forall st,
  I st ->
  (forall x s, x ∈ l -> I s -> exists s', f x s = Some (tt, s') /\ I s') ->
  exists st', forM_ l f st = Some (tt, st') /\ I st'.
Proof.
  induction l as [|x l IH]; intros st HI Hf.
  - by exists st.
  - destruct (Hf x st) as (s1 & E1 & HI1); [by left|done|].
    destruct (IH s1 HI1) as (st' & E & HI').
    { intros y s Hy. apply Hf. by right. }
    exists st'. split; [|done]. cbn [forM_].
    by rewrite (bind_eq _ _ _ _ _ E1).
Qed.

Lemma same_visuals_refl st : same_visuals st st.
Proof. by repeat split. Qed.

Lemma same_visuals_trans a b c :
  same_visuals a b -> same_visuals b c -> same_visuals a c.
Proof.
  unfold same_visuals. intros H1 H2. destruct_and!. repeat split; congruence.
Qed.

Lemma same_objects_visuals st st' : same_objects st st' -> same_visuals st st'.
Proof. unfold same_objects, same_visuals. intros H. destruct_and!. by repeat split. Qed.

Lemma same_visuals_frame st st' : same_visuals st st' -> visuals_frame st st'.
Proof.
  unfold same_visuals, visuals_frame, frame_upto, recorded_parent. intros H.
  destruct_and!. repeat split; try congruence.
  intros k' r' _. destruct k'; congruence.
Qed.

(** *** Well-formedness is kept *)

Lemma listeners_ok_ext st st' :
  vertices st' = vertices st -> edges st' = edges st -> lines st' = lines st ->
  point_core <$> points st' = point_core <$> points st ->
  listeners_ok st -> listeners_ok st'.
Proof.
  intros Hv He Hl Hp H p pt' Hpt'.
  destruct (fmap_lookup_eq point_core (points st') (points st) p pt'
              (eq_sym Hp) Hpt') as (pt & Hpt & Hc).
  injection Hc as Hpv _ _.
  destruct (H p pt Hpt) as (v & Hvx & Hes).
  exists v. split; [by rewrite Hv, <- Hpv|].
  eapply Forall_impl; [exact Hes|].
  intros e (ed & Hed & Hline). exists ed. split; [by rewrite He|].
  intros l Hll. destruct (Hline l Hll) as ((ln & Hln & Hlay) & target & Ht & Hq).
  split; [exists ln; by rewrite Hl|].
  exists target. split; [by rewrite Hv|].
  intros q Hvq. destruct (Hq q Hvq) as [qt Hqt].
  destruct (fmap_lookup_eq point_core (points st) (points st') q qt Hp Hqt)
    as (qt' & Hqt' & _).
  by exists qt'.
Qed.

Lemma listeners_ok_frame P st st' :
  frame_upto P st st' -> listeners_ok st -> listeners_ok st'.
Proof.
  intros (Hv & He & _ & _ & Hl & _ & _ & _ & Hp & _).
  by apply listeners_ok_ext.
Qed.

Lemma wired_frame P rank st st' :
  frame_upto P st st' -> members (L st') = members (L st) ->
  wired rank st -> wired rank st'.
Proof.
  intros Hf HL [Hn Hl]. split; [|by eapply listeners_ok_frame].
  intros g ms x. rewrite HL. apply Hn.
Qed.

Lemma wired_so rank st st' :
  same_objects st st' -> wired rank st -> wired rank st'.
Proof.
  intros Hso. apply (wired_frame (fun _ _ => True)).
  - by apply same_objects_visuals_frame.
  - by destruct Hso as (_&_&_&_&_&_&_&_&_&_&_&_&?&_).
Qed.

(** *** The Leaflet operations return *)

Lemma on_layeradd_returns x st : exists st', on_layeradd x st = Some (tt, st').
Proof.
  unfold on_layeradd, bind, gets, emit, modify, ret.
  destruct (layers st !! x); eauto.
Qed.

Lemma on_layerremove_returns x st :
  exists st', on_layerremove x st = Some (tt, st').
Proof.
  unfold on_layerremove, bind, gets, emit, modify, ret.
  destruct (layers st !! x) as [[]|]; eauto.
Qed.

Lemma map_removeLine_returns l st :
  exists st', map_removeLine l st = Some (tt, st').
Proof.
  unfold map_removeLine. unfold bind at 1, hasLayer at 1, gets at 1.
  case_bool_decide; [|by eexists].
  unfold bind, modify. apply on_layerremove_returns.
Qed.

Lemma lineGroup_removeLayer_returns l st :
  exists st', lineGroup_removeLayer l st = Some (tt, st').
Proof.
  unfold lineGroup_removeLayer. unfold bind at 1, gets at 1.
  case_bool_decide; [|by eexists].
  unfold bind at 1, gets at 1.
  destruct (lineGroup_onmap (L st)).
  - destruct (map_removeLine_returns l st) as [s1 E].
    rewrite (bind_eq _ _ _ _ _ E). unfold modify. by eexists.
  - unfold bind, ret, modify. by eexists.
Qed.

Lemma isVisible_returns q st :
  is_Some (points st !! q) -> exists b, isVisible q st = Some (b, st).
Proof.
  intros [pt H]. unfold isVisible, hasLayer, bind, deref, gets, ret.
  rewrite H. destruct (p_layer pt); by eexists.
Qed.

Lemma onPointAdd_returns p st :
  listeners_ok st -> is_Some (points st !! p) ->
  exists st', onPointAdd p st = Some (tt, st').
Proof.
  intros Hok [pt Hp]. destruct (Hok p pt Hp) as (v & Hv & Hes).
  unfold onPointAdd.
  rewrite (bind_eq _ _ _ _ _ (deref_eq points p st pt Hp)).
  rewrite (bind_eq _ _ _ _ _ (deref_eq vertices _ st v Hv)).
  match goal with
  | |- exists st', forM_ _ ?f st = _ =>
      destruct (forM_returns f (same_objects st) (v_edges v) st)
        as (st' & E & _); [apply same_objects_refl| |by exists st']
  end.
  intros e s He Hso.
  pose proof Hso as (Hvs & Hed & _ & _ & Hps & Hln & _).
  destruct (proj1 (Forall_forall _ _) Hes e He) as (ed & Hedge & Hline).
  rewrite <- Hed in Hedge.
  rewrite (bind_eq _ _ _ _ _ (deref_eq edges e s ed Hedge)).
  destruct (e_line ed) as [l|]; [|by exists s].
  destruct (Hline l eq_refl) as ((ln & Hl & Hlay) & target & Ht & Hq).
  rewrite <- Hvs in Ht. rewrite <- Hln in Hl.
  rewrite (bind_eq _ _ _ _ _ (deref_eq vertices _ s target Ht)).
  destruct (v_point target) as [q|]; [|by exists s].
  destruct (isVisible_returns q s) as [b Hb]. { rewrite Hps. by apply Hq. }
  rewrite (bind_eq _ _ _ _ _ Hb). destruct b; [|by exists s].
  rewrite (bind_eq _ _ _ _ _ (deref_eq lines l s ln Hl)). rewrite Hlay.
  destruct (lineGroup_addLayer_spec l s) as (s' & E & Hso' & _).
  exists s'. split; [done|]. by eapply same_objects_trans.
Qed.

Lemma onPointRemove_returns p st :
  listeners_ok st -> is_Some (points st !! p) ->
  exists st', onPointRemove p st = Some (tt, st').
Proof.
  intros Hok [pt Hp]. destruct (Hok p pt Hp) as (v & Hv & Hes).
  unfold onPointRemove.
  rewrite (bind_eq _ _ _ _ _ (deref_eq points p st pt Hp)).
  rewrite (bind_eq _ _ _ _ _ (deref_eq vertices _ st v Hv)).
  match goal with
  | |- exists st', forM_ _ ?f st = _ =>
      destruct (forM_returns f (same_objects st) (v_edges v) st)
        as (st' & E & _); [apply same_objects_refl| |by exists st']
  end.
  intros e s He Hso.
  pose proof Hso as (Hvs & Hed & _ & _ & Hps & Hln & _).
  destruct (proj1 (Forall_forall _ _) Hes e He) as (ed & Hedge & Hline).
  rewrite <- Hed in Hedge.
  rewrite (bind_eq _ _ _ _ _ (deref_eq edges e s ed Hedge)).
  destruct (e_line ed) as [l|]; [|by exists s].
  destruct (Hline l eq_refl) as ((ln & Hl & Hlay) & _).
  rewrite <- Hln in Hl.
  rewrite (bind_eq _ _ _ _ _ (deref_eq lines l s ln Hl)). rewrite Hlay.
  destruct (lineGroup_removeLayer_returns l s) as (s' & E).
  exists s'. split; [done|].
  eapply same_objects_trans; [exact Hso|]. by eapply so_lineGroup_removeLayer.
Qed.

Lemma fire_add_returns x st :
  listeners_ok st -> exists st', fire_add x st = Some (tt, st').
Proof.
  intros Hok. unfold fire_add, bind, gets.
  destruct (points st !! x) as [pt|] eqn:E; [|by eexists].
  apply onPointAdd_returns; [done|by exists pt].
Qed.

Lemma fire_remove_returns x st :
  listeners_ok st -> exists st', fire_remove x st = Some (tt, st').
Proof.
  intros Hok. unfold fire_remove, bind, gets.
  destruct (points st !! x) as [pt|] eqn:E; [|by eexists].
  apply onPointRemove_returns; [done|by exists pt].
Qed.

Lemma so_fire_add x : preserves same_objects (fire_add x).
Proof. unfold fire_add. pose proof so_onPointAdd. so_auto. Qed.

Lemma so_fire_remove x : preserves same_objects (fire_remove x).
Proof. unfold fire_remove. pose proof so_onPointRemove. so_auto. Qed.

Lemma elem_of_insert_by_id id x y l :
  y ∈ insert_by_id id x l <-> y = x \/ y ∈ l.
Proof.
  induction l as [|z l IH]; simpl.
  - rewrite list_elem_of_singleton, elem_of_nil. tauto.
  - destruct (id x <=? id z)%nat.
    + by rewrite elem_of_cons.
    + rewrite !elem_of_cons, IH. tauto.
Qed.

Lemma elem_of_by_id id x l : x ∈ by_id id l <-> x ∈ l.
Proof.
  induction l as [|z l IH]; [done|]. unfold by_id in *. simpl.
  by rewrite elem_of_insert_by_id, elem_of_cons, IH.
Qed.

Lemma eachLayer_members rank x m st :
  nesting rank st ->
  m ∈ by_id (layerId (L st)) (default [] (members (L st) !! x)) ->
  rank m < rank x.
Proof.
  intros Hn Hm. apply elem_of_by_id in Hm.
  destruct (members (L st) !! x) as [ms|] eqn:E; simpl in Hm.
  - by eapply Hn.
  - by apply elem_of_nil in Hm.
Qed.

Lemma map_addLayer_rec_returns rank fuel : forall x st,
  wired rank st -> rank x < fuel ->
  exists st', map_addLayer_rec fuel x st = Some (tt, st').
Proof.
  induction fuel as [|fuel IH]; intros x st Hw Hr; [lia|].
  cbn [map_addLayer_rec]. unfold bind at 1, hasLayer at 1, gets at 1.
  case_bool_decide; [by eexists|].
  unfold bind at 1, modify at 1.
  set (s1 := upd_L _ st).
  assert (Hso1 : same_objects st s1) by (by repeat split).
  pose proof (wired_so _ _ _ Hso1 Hw) as Hw1.
  unfold bind at 1, eachLayer at 1, gets at 1.
  destruct (forM_returns (map_addLayer_rec fuel) (same_objects s1)
              (by_id (layerId (L s1)) (default [] (members (L s1) !! x))) s1)
    as (s2 & E2 & Hso2); [apply same_objects_refl| |].
  { intros m s Hm Hso. pose proof (wired_so _ _ _ Hso Hw1) as Hws.
    destruct (IH m s Hws) as (s' & E).
    { pose proof (eachLayer_members rank x m s1 (proj1 Hw1) Hm). lia. }
    exists s'. split; [done|].
    eapply same_objects_trans; [exact Hso|]. by eapply so_map_addLayer_rec. }
  rewrite (bind_eq _ _ _ _ _ E2).
  pose proof (wired_so _ _ _ Hso2 Hw1) as Hw2.
  destruct (fire_add_returns x s2 (proj2 Hw2)) as (s3 & E3).
  rewrite (bind_eq _ _ _ _ _ E3). apply on_layeradd_returns.
Qed.

Lemma map_removeLayer_rec_returns rank fuel : forall x st,
  wired rank st -> rank x < fuel ->
  exists st', map_removeLayer_rec fuel x st = Some (tt, st').
Proof.
  induction fuel as [|fuel IH]; intros x st Hw Hr; [lia|].
  cbn [map_removeLayer_rec]. unfold bind at 1, hasLayer at 1, gets at 1.
  case_bool_decide; [|by eexists].
  unfold bind at 1, eachLayer at 1, gets at 1.
  destruct (forM_returns (map_removeLayer_rec fuel) (same_objects st)
              (by_id (layerId (L st)) (default [] (members (L st) !! x))) st)
    as (s2 & E2 & Hso2); [apply same_objects_refl| |].
  { intros m s Hm Hso. pose proof (wired_so _ _ _ Hso Hw) as Hws.
    destruct (IH m s Hws) as (s' & E).
    { pose proof (eachLayer_members rank x m st (proj1 Hw) Hm). lia. }
    exists s'. split; [done|].
    eapply same_objects_trans; [exact Hso|].
    by eapply so_map_removeLayer_rec. }
  rewrite (bind_eq _ _ _ _ _ E2).
  pose proof (wired_so _ _ _ Hso2 Hw) as Hw2.
  unfold bind at 1, modify at 1. set (s3 := upd_L _ s2).
  assert (Hw3 : wired rank s3).
  { apply (wired_so _ s2); [by repeat split|done]. }
  destruct (on_layerremove_returns x s3) as (s4 & E4).
  rewrite (bind_eq _ _ _ _ _ E4).
  apply fire_remove_returns.
  apply (wired_so rank s3 s4); [by eapply so_on_layerremove|done].
Qed.

(** The bound on the recursion suffices: groups nested by some rank are
    nested by a rank that stays below the number of groups. *)
Lemma nesting_bounded rank st :
  nesting rank st ->
  exists rank', nesting rank' st /\
                forall x, rank' x <= size (members (L st)).
Proof.
  intros Hn.
  set (D := dom (members (L st)) : gset nat).
  set (below := fun x => filter (fun k => rank k < rank x) D).
  exists (fun x => (if decide (x ∈ D) then 1 else 0) + size (below x)).
  split.
  - intros g ms x Hg Hx. pose proof (Hn g ms x Hg Hx) as Hlt.
    assert (Hgd : g ∈ D) by (by eapply elem_of_dom_2).
    rewrite (decide_True (P := g ∈ D)) by done.
    assert (Hsub : below x ⊆ below g).
    { intros k. unfold below. rewrite !elem_of_filter. intros [? ?].
      split; [lia|done]. }
    destruct (decide (x ∈ D)) as [Hxd|Hxd].
    + assert (Hstrict : below x ⊂ below g).
      { split; [done|]. intros Hback.
        assert (Hin : x ∈ below g) by (unfold below; rewrite elem_of_filter; done).
        apply Hback in Hin. unfold below in Hin.
        rewrite elem_of_filter in Hin. lia. }
      apply subset_size in Hstrict. lia.
    + apply subseteq_size in Hsub. lia.
  - intros x. rewrite <- (size_dom (members (L st))). fold D.
    destruct (decide (x ∈ D)) as [Hxd|Hxd].
    + assert (Hstrict : below x ⊂ D).
      { split.
        - intros k. unfold below. rewrite elem_of_filter. tauto.
        - intros Hback. apply Hback in Hxd. unfold below in Hxd.
          rewrite elem_of_filter in Hxd. lia. }
      apply subset_size in Hstrict. lia.
    + assert (Hsub : below x ⊆ D).
      { intros k. unfold below. rewrite elem_of_filter. tauto. }
      apply subseteq_size in Hsub. lia.
Qed.

Lemma map_addLayer_returns rank x st :
  wired rank st -> exists st', map_addLayer x st = Some (tt, st').
Proof.
  intros [Hn Hl]. destruct (nesting_bounded rank st Hn) as (rank' & Hn' & Hb).
  unfold map_addLayer, nesting_bound, bind, gets.
  apply (map_addLayer_rec_returns rank'); [by split|].
  specialize (Hb x). lia.
Qed.

Lemma map_removeLayer_returns rank x st :
  wired rank st -> exists st', map_removeLayer x st = Some (tt, st').
Proof.
  intros [Hn Hl]. destruct (nesting_bounded rank st Hn) as (rank' & Hn' & Hb).
  unfold map_removeLayer, nesting_bound, bind, gets.
  apply (map_removeLayer_rec_returns rank'); [by split|].
  specialize (Hb x). lia.
Qed.

(** *** The operations on groups and parents return *)

Lemma wired_members_insert rank st g ms :
  wired rank st -> (forall x, x ∈ ms -> rank x < rank g) ->
  wired rank (upd_L (upd_members <[g := ms]>) st).
Proof.
  intros [Hn Hl] Hms. split.
  - intros g' ms' x. simpl. destruct (decide (g = g')) as [<-|Hne].
    + rewrite lookup_insert_eq. intros [= <-]. apply Hms.
    + rewrite lookup_insert_ne by done. apply Hn.
  - by apply (listeners_ok_ext st).
Qed.

Lemma members_default rank st g x :
  nesting rank st -> x ∈ default [] (members (L st) !! g) -> rank x < rank g.
Proof.
  intros Hn. destruct (members (L st) !! g) as [ms|] eqn:E; simpl.
  - by apply Hn.
  - by intros ?%elem_of_nil.
Qed.

Lemma group_removeLayer_returns rank g x st :
  wired rank st ->
  exists st', group_removeLayer g x st = Some (tt, st') /\
              wired rank st' /\ same_visuals st st'.
Proof.
  intros Hw. unfold group_removeLayer, members_of.
  unfold bind at 1, gets at 1.
  case_bool_decide; [|exists st; split; [done|]; split;
                       [done|apply same_visuals_refl]].
  unfold bind at 1, hasLayer at 1, gets at 1.
  assert (H1 : exists s1,
    (if bool_decide (g ∈ onmap (L st)) then map_removeLayer x else ret tt) st
    = Some (tt, s1) /\ same_objects st s1).
  { case_bool_decide.
    - destruct (map_removeLayer_returns rank x st Hw) as (s1 & E).
      exists s1. split; [done|]. by eapply so_map_removeLayer.
    - exists st. split; [done|apply same_objects_refl]. }
  destruct H1 as (s1 & E1 & Hso). rewrite (bind_eq _ _ _ _ _ E1).
  unfold modify. eexists. split; [reflexivity|]. split.
  - apply wired_members_insert; [by eapply wired_so|].
    intros y Hy. apply list_elem_of_filter in Hy as [_ Hy].
    by eapply members_default; [apply Hw|].
  - apply same_objects_visuals in Hso.
    eapply same_visuals_trans; [exact Hso|]. by repeat split.
Qed.

Lemma group_addLayer_returns rank g x st :
  wired rank st -> rank x < rank g ->
  exists st', group_addLayer g x st = Some (tt, st') /\
              wired rank st' /\ same_visuals st st'.
Proof.
  intros Hw Hr. unfold group_addLayer, members_of.
  unfold bind at 1, gets at 1.
  case_bool_decide; [exists st; split; [done|]; split;
                       [done|apply same_visuals_refl]|].
  unfold bind at 1, modify at 1. set (s1 := upd_L _ st).
  assert (Hw1 : wired rank s1).
  { apply wired_members_insert; [done|]. intros y Hy.
    apply elem_of_app in Hy as [Hy|Hy].
    - by eapply members_default; [apply Hw|].
    - by apply list_elem_of_singleton in Hy as ->. }
  assert (Hv1 : same_visuals st s1) by (by repeat split).
  unfold bind at 1, hasLayer at 1, gets at 1.
  case_bool_decide.
  - destruct (map_addLayer_returns rank x s1 Hw1) as (s2 & E).
    exists s2. split; [done|].
    pose proof (so_map_addLayer _ _ _ _ E) as Hso.
    split; [by eapply wired_so|].
    eapply same_visuals_trans; [exact Hv1|]. by apply same_objects_visuals.
  - exists s1. split; [done|]. by split.
Qed.

Lemma parent_of_exists k r st x s :
  parent_of k r st = Some (x, s) -> exists_visual st k r.
Proof.
  unfold parent_of, exists_visual, bind, deref, ret.
  destruct k;
    [destruct (points st !! r) | destruct (lines st !! r)
    | destruct (lgroups st !! r) | destruct (cgroups st !! r)];
    try done; by eexists.
Qed.

Lemma is_Some_fmap_eq {A B} (f : A -> B) (m m' : gmap nat A) r :
  f <$> m' = f <$> m -> is_Some (m !! r) -> is_Some (m' !! r).
Proof.
  intros Hm [a Ha].
  destruct (fmap_lookup_eq f m m' r a Hm Ha) as (a' & Ha' & _). by exists a'.
Qed.

Lemma exists_visual_frame P st st' k r :
  frame_upto P st st' -> exists_visual st k r -> exists_visual st' k r.
Proof.
  intros (_ & _ & _ & _ & Hl & _ & _ & _ & Hp & Hlg & Hcg & _).
  destruct k; simpl.
  - by apply (is_Some_fmap_eq point_core).
  - by rewrite Hl.
  - by apply (is_Some_fmap_eq lg_spatialGroup).
  - by apply (is_Some_fmap_eq cg_core).
Qed.

Lemma set_parent_returns k r x st :
  exists_visual st k r -> exists st', set_parent k r x st = Some (tt, st').
Proof.
  unfold set_parent, exists_visual, bind, deref, modify, ret.
  destruct k; intros [a Ha]; rewrite Ha; by eexists.
Qed.

Lemma has_layer_returns k r st :
  exists_visual st k r -> exists b, has_layer k r st = Some (b, st).
Proof.
  unfold has_layer, exists_visual, bind, deref, ret.
  destruct k; intros [a Ha]; rewrite Ha; by eexists.
Qed.

Lemma wired_set_parent rank k r x st st' :
  set_parent k r x st = Some (tt, st') -> wired rank st -> wired rank st'.
Proof.
  intros H. apply set_parent_result in H as (Hf & HL & _).
  apply (wired_frame _ _ _ _ Hf). by rewrite HL.
Qed.

Lemma removeFromParentControlGroup_returns rank cg g st :
  cgroups st !! cg = Some g ->
  (forall pr, cg_parent g = Ref pr ->
     exists pg arr, cgroups st !! pr = Some pg /\ cg_children pg = Some arr) ->
  wired rank st ->
  exists st', removeFromParentControlGroup cg st = Some (tt, st') /\
              wired rank st'.
Proof.
  intros Hg Hpar Hw. unfold removeFromParentControlGroup.
  rewrite (bind_eq _ _ _ _ _ (deref_eq cgroups cg st g Hg)).
  assert (H1 : exists s1,
    match cg_parent g with
    | Ref pr =>
        let! pg := deref cgroups pr in
        match cg_children pg with
        | Some arr =>
            let arr' := remove_first cg arr in
            modify (upd_cgroups
                      <[pr := cg_with_children
                                (if decide (arr' = []) then None else Some arr')
                                pg]>)
        | None => throw
        end
    | _ => modify (upd_overlayTree (remove_first cg))
    end st = Some (tt, s1) /\
    wired rank s1 /\ is_Some (cgroups s1 !! cg)).
  { destruct (cg_parent g) as [| |pr] eqn:Ep.
    - eexists. split; [reflexivity|]. split; [|by exists g].
      apply (wired_frame (fun _ _ => True) rank st); [|done|done].
      apply visuals_frame_overlay.
    - eexists. split; [reflexivity|]. split; [|by exists g].
      apply (wired_frame (fun _ _ => True) rank st); [|done|done].
      apply visuals_frame_overlay.
    - destruct (Hpar pr eq_refl) as (pg & arr & Hpg & Harr).
      rewrite (bind_eq _ _ _ _ _ (deref_eq cgroups pr st pg Hpg)), Harr.
      cbv zeta. unfold modify. eexists. split; [reflexivity|]. split.
      + apply (wired_frame (fun _ _ => True) rank st); [|done|done].
        by apply visuals_frame_children.
      + simpl. destruct (decide (pr = cg)) as [->|Hne].
        * rewrite lookup_insert_eq. by eexists.
        * rewrite lookup_insert_ne by done. by exists g. }
  destruct H1 as (s1 & E1 & Hw1 & Hex). rewrite (bind_eq _ _ _ _ _ E1).
  destruct (set_parent_returns KControlGroup cg Null s1 Hex) as (s2 & E2).
  exists s2. split; [done|]. by eapply wired_set_parent.
Qed.

Lemma removeFromParent_returns rank k r x st :
  parent_of k r st = Some (x, st) ->
  wired rank st ->
  (k = KControlGroup -> forall pr, x = Ref pr ->
     exists pg arr, cgroups st !! pr = Some pg /\ cg_children pg = Some arr) ->
  exists st', removeFromParent k r st = Some (tt, st') /\ wired rank st'.
Proof.
  intros Hx Hw Hcg. pose proof (parent_of_exists _ _ _ _ _ Hx) as Hex.
  unfold removeFromParent. rewrite (bind_eq _ _ _ _ _ Hx).
  assert (H1 : exists s1,
    match x with
    | Ref pr =>
        let! hl := has_layer k r in
        if hl : bool then group_removeLayer pr r else ret tt
    | _ => ret tt
    end st = Some (tt, s1) /\ wired rank s1 /\ same_visuals st s1).
  { destruct x as [| |pr];
      try (exists st; split; [done|]; split; [done|apply same_visuals_refl]).
    destruct (has_layer_returns k r st Hex) as [b Hb].
    rewrite (bind_eq _ _ _ _ _ Hb). destruct b.
    - apply group_removeLayer_returns; done.
    - exists st. split; [done|]. split; [done|apply same_visuals_refl]. }
  destruct H1 as (s1 & E1 & Hw1 & Hv1). rewrite (bind_eq _ _ _ _ _ E1).
  assert (H2 : exists s2,
    match k with
    | KControlGroup => removeFromParentControlGroup r
    | _ => ret tt
    end s1 = Some (tt, s2) /\ wired rank s2 /\ exists_visual s2 k r).
  { assert (Hex1 : exists_visual s1 k r).
    { eapply exists_visual_frame; [|exact Hex]. by apply same_visuals_frame. }
    destruct k;
      try (exists s1; split; [reflexivity|]; split; [exact Hw1|exact Hex1]).
    pose proof Hv1 as (_&_&_&_&_&_&_&Hcgs&_).
    revert Hx. unfold parent_of, bind, deref, ret.
    destruct (cgroups st !! r) as [g|] eqn:Eg; [|done]. intros [= Hp].
    destruct (removeFromParentControlGroup_returns rank r g s1)
      as (s2 & E2 & Hw2); [by rewrite Hcgs| |done|].
    { intros pr Hpr. rewrite Hcgs. apply Hcg; [done|congruence]. }
    exists s2. split; [done|]. split; [done|].
    apply removeFromParentControlGroup_result in E2 as [Hf _].
    by eapply exists_visual_frame. }
  destruct H2 as (s2 & E2 & Hw2 & Hex2). rewrite (bind_eq _ _ _ _ _ E2).
  destruct (set_parent_returns k r Null s2 Hex2) as (s3 & E3).
  exists s3. split; [done|]. by eapply wired_set_parent.
Qed.

Lemma addToDerivedParent_returns rank k r d st :
  deriveParent k r st = Some (d, st) ->
  has_layer k r st = Some (true, st) ->
  wired rank st ->
  (forall pr, d = Ref pr -> rank r < rank pr) ->
  (k = KControlGroup -> forall pr, d = Ref pr -> is_Some (cgroups st !! pr)) ->
  exists st', addToDerivedParent k r st = Some (tt, st').
Proof.
  intros Hd Hhl Hw Hr Hcg.
  assert (Hex : exists_visual st k r).
  { revert Hhl. unfold has_layer, exists_visual, bind, deref, ret.
    destruct k;
      [destruct (points st !! r) | destruct (lines st !! r)
      | destruct (lgroups st !! r) | destruct (cgroups st !! r)];
      try done; by eexists. }
  unfold addToDerivedParent. rewrite (bind_eq _ _ _ _ _ Hd).
  destruct (set_parent_returns k r d st Hex) as (sa & Ea).
  rewrite (bind_eq _ _ _ _ _ Ea).
  pose proof (wired_set_parent rank _ _ _ _ _ Ea Hw) as Hwa.
  apply set_parent_result in Ea as (Hfa & HLa & _).
  destruct (has_layer_frame _ _ _ _ _ _ _ Hfa Hhl) as [_ Hhla].
  rewrite (bind_eq _ _ _ _ _ Hhla).
  assert (Hb : exists sb,
    match d with
    | Ref pr => group_addLayer pr r
    | _ => map_addLayer r
    end sa = Some (tt, sb) /\ same_visuals sa sb).
  { destruct d as [| |pr].
    - destruct (map_addLayer_returns rank r sa Hwa) as (sb & E).
      exists sb. split; [done|].
      apply same_objects_visuals. by eapply so_map_addLayer.
    - destruct (map_addLayer_returns rank r sa Hwa) as (sb & E).
      exists sb. split; [done|].
      apply same_objects_visuals. by eapply so_map_addLayer.
    - destruct (group_addLayer_returns rank pr r sa Hwa (Hr pr eq_refl))
        as (sb & E & _ & Hv). by exists sb. }
  destruct Hb as (sb & Eb & Hvb). rewrite (bind_eq _ _ _ _ _ Eb).
  destruct k; try by eexists.
  destruct d as [| |pr]; try by eexists.
  assert (Hpr : is_Some (cgroups sb !! pr)).
  { pose proof Hvb as (_&_&_&_&_&_&_&Hcgs&_). rewrite Hcgs.
    destruct Hfa as (_ & _ & _ & _ & _ & _ & _ & _ & _ & _ & Hc & _).
    eapply is_Some_fmap_eq; [exact Hc|]. by apply Hcg. }
  destruct Hpr as [pg Hpg].
  rewrite (bind_eq _ _ _ _ _ (deref_eq cgroups pr sb pg Hpg)).
  by eexists.
Qed.

Lemma parent_of_events k r x st f :
  parent_of k r st = Some (x, st) ->
  parent_of k r (upd_events f st) = Some (x, upd_events f st).
Proof.
  unfold parent_of, bind, deref, ret.
  destruct k; simpl;
    [destruct (points st !! r) | destruct (lines st !! r)
    | destruct (lgroups st !! r) | destruct (cgroups st !! r)];
    try done; by intros [= <-].
Qed.

(** [updateParent] returns when the derived parent differs from the
    recorded one. *)
Lemma updateParent_returns rank st elem k r x d :
  visual_of elem st = Some (Some (k, r), st) ->
  parent_of k r st = Some (x, st) ->
  deriveParent k r st = Some (d, st) ->
  x <> d ->
  has_layer k r st = Some (true, st) ->
  wired rank st ->
  (forall pr, d = Ref pr -> rank r < rank pr) ->
  (k = KControlGroup ->
   (forall pr, x = Ref pr ->
      exists pg arr, cgroups st !! pr = Some pg /\ cg_children pg = Some arr) /\
   (forall pr, d = Ref pr -> is_Some (cgroups st !! pr))) ->
  exists st', updateParent elem st = Some ((k, r), st').
Proof.
  intros Hvis Hx Hd Hne Hhl Hw Hr Hcg. unfold updateParent.
  rewrite (bind_eq _ _ _ _ _ Hvis), (bind_eq _ _ _ _ _ Hx),
    (bind_eq _ _ _ _ _ Hd).
  rewrite decide_False by done.
  unfold startUpdate, endUpdate, updateLayerTree.
  unfold bind at 1. unfold emit at 1. unfold modify at 1.
  set (s0 := upd_events _ st).
  assert (Hf0 : visuals_frame st s0) by (by repeat split).
  pose proof (parent_of_events k r x st _ Hx : parent_of k r s0 = Some (x, s0))
    as Hx0.
  assert (Hw0 : wired rank s0) by (by apply (wired_frame _ _ _ _ Hf0)).
  destruct (removeFromParent_returns rank k r x s0 Hx0 Hw0) as (s1 & E1 & Hw1).
  { intros Hk pr Hpr. apply (proj1 (Hcg Hk)). done. }
  rewrite (bind_eq _ _ _ _ _ E1).
  destruct (removeFromParent_result _ _ _ _ _ Hx0 E1) as (Hf1 & _ & _).
  assert (Hf01 : frame_upto (fun k' r' => (k', r') <> (k, r)) st s1).
  { eapply frame_upto_trans; [|exact Hf1]. by apply visuals_reparent_frame. }
  destruct (deriveParent_frame _ _ _ _ _ _ _ Hf01 Hd) as [_ Hd1].
  destruct (has_layer_frame _ _ _ _ _ _ _ Hf01 Hhl) as [_ Hhl1].
  destruct (addToDerivedParent_returns rank k r d s1 Hd1 Hhl1 Hw1 Hr)
    as (s2 & E2).
  { intros Hk pr Hpr.
    destruct Hf01 as (_ & _ & _ & _ & _ & _ & _ & _ & _ & _ & Hc & _).
    eapply is_Some_fmap_eq; [exact Hc|]. by apply (proj2 (Hcg Hk)). }
  rewrite (bind_eq _ _ _ _ _ E2).
  unfold bind, emit, modify, ret. by eexists.
Qed.

(** *** The well-formedness of a state that is given in full *)

Lemma edge_okb_sound st e : edge_okb st e = true -> edge_ok st e.
Proof.
  unfold edge_okb, edge_ok.
  destruct (edges st !! e) as [ed|]; [|done]. intros H.
  exists ed. split; [done|]. intros l Hl. rewrite Hl in H.
  destruct (lines st !! l) as [ln|]; [|done].
  destruct (vertices st !! e_to ed) as [target|]; [|done].
  apply andb_true_iff in H as [Hlay Hq].
  split; [by exists ln|]. exists target. split; [done|].
  intros q Hvq. rewrite Hvq in Hq.
  destruct (points st !! q); [by eexists|done].
Qed.

Lemma listeners_okb_sound st : listeners_okb st = true -> listeners_ok st.
Proof.
  unfold listeners_okb. rewrite forallb_forall. intros H p pt Hp.
  apply elem_of_map_to_list in Hp. apply list_elem_of_In in Hp.
  specialize (H _ Hp). simpl in H.
  destruct (vertices st !! p_vertex pt) as [v|]; [|done].
  exists v. split; [done|]. rewrite forallb_forall in H.
  apply Forall_forall. intros e He. apply edge_okb_sound, H.
  by apply list_elem_of_In.
Qed.

Lemma nestingb_sound rank st : nestingb rank st = true -> nesting rank st.
Proof.
  unfold nestingb. rewrite forallb_forall. intros H g ms x Hg Hx.
  apply elem_of_map_to_list in Hg. apply list_elem_of_In in Hg.
  specialize (H _ Hg). simpl in H. rewrite forallb_forall in H.
  apply list_elem_of_In in Hx. specialize (H _ Hx).
  by apply Nat.ltb_lt in H.
Qed.

Lemma wiredb_sound rank st : wiredb rank st = true -> wired rank st.
Proof.
  unfold wiredb. rewrite andb_true_iff. intros [H1 H2]. split.
  - by apply nestingb_sound.
  - by apply listeners_okb_sound.
Qed.

End MapTotal.

Section LineAttachment.
Import Eff MapViewer MapSpec.

Lemma new_line_returns e type st ed :
  edges st !! e = Some ed ->
  (forall o, e_opposite ed = Some o -> is_Some (edges st !! o)) ->
  is_Some (vertices st !! e_from ed) ->
  is_Some (vertices st !! e_to ed) ->
  exists s1, new_line e type st = Some (next_ref st, s1).
Proof.
  intros He Ho [vf Hf] [vt Ht].
  unfold new_line, alloc, bind, deref, gets, modify, ret. simpl.
  rewrite He. simpl.
  destruct (e_opposite ed) as [o|]; simpl.
  - destruct (decide (o = e)) as [->|Hne].
    + rewrite lookup_insert_eq. simpl. rewrite Hf. simpl. rewrite Ht.
      by eexists.
    + rewrite lookup_insert_ne by done.
      destruct (Ho o eq_refl) as [oe Hoe]. rewrite Hoe. simpl.
      rewrite Hf. simpl. rewrite Ht. by eexists.
  - rewrite Hf. simpl. rewrite Ht. by eexists.
Qed.

(** [createLine] makes a line for an edge that has none and is not
    temporal, and attaches it exactly when both end points are visible. *)
Lemma createLine_returns st e ed cfg :
  edges st !! e = Some ed ->
  e_line ed = None ->
  e_type ed <> edge_TEMPORAL ->
  (forall o, e_opposite ed = Some o -> is_Some (edges st !! o)) ->
  is_Some (vertices st !! e_from ed) ->
  is_Some (vertices st !! e_to ed) ->
  (forall v vx p, vertices st !! v = Some vx -> v_point vx = Some p ->
                  is_Some (points st !! p)) ->
  exists st', createLine e cfg st = Some (Some (next_ref st), st').
Proof.
  intros He Hl Hty Ho Hf Ht Hp. unfold createLine.
  rewrite (bind_eq _ _ _ _ _ (deref_eq edges e st ed He)), Hl.
  rewrite decide_False by done.
  match goal with
  | |- context [new_line e ?type] =>
      destruct (new_line_returns e type st ed He Ho Hf Ht) as (s1 & Hnew)
  end.
  rewrite (bind_eq _ _ _ _ _ Hnew).
  destruct (new_line_result _ _ _ _ _ _ He Hnew)
    as (_ & Hvs & Hps & HL & ed' & He' & Hfrom & Hto & Hline).
  unfold bind at 1. unfold modify at 1.
  set (s2 := upd_layers _ s1).
  assert (E2 : both_visible e s2
               = Some (visible_point s2 (e_from ed')
                       && visible_point s2 (e_to ed'), s2)).
  { apply both_visible_reads; [done| | |].
    - rewrite Hfrom. simpl. by rewrite Hvs.
    - rewrite Hto. simpl. by rewrite Hvs.
    - intros v vx p. simpl. rewrite Hvs, Hps. apply Hp. }
  rewrite (bind_eq _ _ _ _ _ E2).
  destruct (visible_point s2 (e_from ed') && visible_point s2 (e_to ed')).
  - destruct (lineGroup_addLayer_spec (next_ref st) s2) as (s3 & E3 & _).
    rewrite (bind_eq _ _ _ _ _ E3).
    unfold emit, bind, modify, ret. by eexists.
  - unfold bind, ret, emit, modify. by eexists.
Qed.

Lemma lineGroup_removeLayer_onmap l st st' :
  lineGroup_removeLayer l st = Some (tt, st') ->
  onmap (L st') ⊆ onmap (L st).
Proof.
  unfold lineGroup_removeLayer. unfold bind at 1. unfold gets at 1.
  case_bool_decide as Hin; [|by intros [= <-]].
  unfold bind at 1. unfold gets at 1. unfold bind.
  destruct ((if lineGroup_onmap (L st) then map_removeLine l else ret tt) st)
    as [[[] s1]|] eqn:E; [|done].
  unfold modify. intros [= <-]. simpl.
  destruct (lineGroup_onmap (L st)); [|by injection E as <-].
  revert E. unfold map_removeLine, hasLayer, bind, gets, modify,
    on_layerremove, bind, gets, emit, modify, ret.
  case_bool_decide; [|by intros [= <-]]. simpl.
  destruct (layers st !! l) as [[]|]; intros [= <-]; simpl; set_solver.
Qed.

(** The listener for 'add' attaches lines of outgoing edges only. *)
Lemma onPointAdd_only p pt v st st' :
  points st !! p = Some pt ->
  vertices st !! p_vertex pt = Some v ->
  onPointAdd p st = Some (tt, st') ->
  forall x, attached st' x ->
    attached st x \/
    exists e ed, e ∈ v_edges v /\ edges st !! e = Some ed /\
                 e_line ed = Some x.
Proof.
  intros Hp Hv. unfold onPointAdd.
  rewrite (bind_eq _ _ _ _ _ (deref_eq points p st pt Hp)).
  rewrite (bind_eq _ _ _ _ _ (deref_eq vertices _ st v Hv)).
  intros Hrun.
  eapply (forM_invariant _
    (fun processed s =>
       same_objects st s /\
       forall x, attached s x ->
         attached st x \/
         exists e ed, e ∈ processed /\ edges st !! e = Some ed /\
                      e_line ed = Some x)
    (v_edges v) []) in Hrun; [exact (proj2 Hrun)| |].
  - split; [apply same_objects_refl|]. intros x Hx. by left.
  - intros processed e s s' (Hso & Hat) Hstep.
    pose proof Hso as (Hvs & Hed & _ & _ & Hps & Hln & _).
    assert (Hres : same_objects s s' /\
              forall x, attached s' x ->
                attached s x \/
                exists ed, edges st !! e = Some ed /\ e_line ed = Some x).
    { revert Hstep. unfold bind at 1. unfold deref at 1. rewrite Hed.
      destruct (edges st !! e) as [ed|] eqn:He; [|done].
      destruct (e_line ed) as [l|] eqn:El.
      2:{ intros [= <-]. split; [apply same_objects_refl|]. by left. }
      unfold bind at 1. unfold deref at 1.
      destruct (vertices s !! e_to ed) as [target|]; [|done].
      destruct (v_point target) as [q|].
      2:{ intros [= <-]. split; [apply same_objects_refl|]. by left. }
      unfold bind at 1.
      destruct (isVisible q s) as [[vis s0]|] eqn:Evis; [|done].
      assert (s0 = s) as ->.
      { revert Evis. unfold isVisible, hasLayer, bind, deref, gets, ret.
        destruct (points s !! q) as [qt|]; [|done].
        destruct (p_layer qt); by intros [= _ <-]. }
      destruct vis.
      2:{ intros [= <-]. split; [apply same_objects_refl|]. by left. }
      unfold bind at 1. unfold deref at 1.
      destruct (lines s !! l) as [ln|]; [|done].
      destruct (l_layer ln); [|done].
      intros Hr. apply lineGroup_addLayer_result in Hr as (Hso' & Hat' & _).
      split; [done|]. intros x Hx. apply Hat' in Hx as [Hx| ->].
      - by left.
      - right. by exists ed. }
    destruct Hres as (Hso' & Hat').
    split; [by eapply same_objects_trans|].
    intros x Hx. apply Hat' in Hx as [Hx|(ed & He & El)].
    + apply Hat in Hx as [Hx|(e' & ed & Hin & He & El)]; [by left|].
      right. exists e', ed. split; [|done]. apply elem_of_app. by left.
    + right. exists e, ed. split; [|done]. apply elem_of_app. right.
      by apply list_elem_of_singleton.
Qed.

(** The listener for 'remove' detaches lines of outgoing edges only, and
    takes nothing but lines off the map. *)
Lemma onPointRemove_only p pt v st st' :
  points st !! p = Some pt ->
  vertices st !! p_vertex pt = Some v ->
  onPointRemove p st = Some (tt, st') ->
  onmap (L st') ⊆ onmap (L st) /\
  forall x, attached st x ->
    (forall e ed, e ∈ v_edges v -> edges st !! e = Some ed ->
                  e_line ed <> Some x) ->
    attached st' x.
Proof.
  intros Hp Hv. unfold onPointRemove.
  rewrite (bind_eq _ _ _ _ _ (deref_eq points p st pt Hp)).
  rewrite (bind_eq _ _ _ _ _ (deref_eq vertices _ st v Hv)).
  intros Hrun.
  eapply (forM_invariant _
    (fun processed s =>
       same_objects st s /\
       onmap (L s) ⊆ onmap (L st) /\
       forall x, attached st x ->
         (forall e ed, e ∈ processed -> edges st !! e = Some ed ->
                       e_line ed <> Some x) ->
         attached s x)
    (v_edges v) []) in Hrun; [exact (proj2 Hrun)| |].
  - split; [apply same_objects_refl|]. split; [done|]. by intros x Hx _.
  - intros processed e s s' (Hso & Hon & Hat) Hstep.
    pose proof Hso as (Hvs & Hed & _ & _ & Hps & Hln & _).
    assert (Hres : same_objects s s' /\
              onmap (L s') ⊆ onmap (L s) /\
              forall x, attached s x ->
                (forall ed, edges st !! e = Some ed -> e_line ed <> Some x) ->
                attached s' x).
    { revert Hstep. unfold bind at 1. unfold deref at 1. rewrite Hed.
      destruct (edges st !! e) as [ed|] eqn:He; [|done].
      destruct (e_line ed) as [l|] eqn:El.
      2:{ intros [= <-]. split; [apply same_objects_refl|]. by split. }
      unfold bind at 1. unfold deref at 1.
      destruct (lines s !! l) as [ln|]; [|done].
      destruct (l_layer ln).
      2:{ intros [= <-]. split; [apply same_objects_refl|]. by split. }
      intros Hr. pose proof (lineGroup_removeLayer_onmap _ _ _ Hr) as Hon'.
      apply lineGroup_removeLayer_result in Hr as (Hso' & Hat').
      split; [done|]. split; [done|].
      intros x Hx Hne. apply Hat'. split; [done|].
      intros ->. by apply (Hne ed). }
    destruct Hres as (Hso' & Hon' & Hat').
    split; [by eapply same_objects_trans|]. split; [set_solver|].
    intros x Hx Hne. apply Hat'.
    + apply Hat; [done|]. intros e' ed Hin. apply Hne.
      apply elem_of_app. by left.
    + intros ed. apply Hne. apply elem_of_app. right.
      by apply list_elem_of_singleton.
Qed.

Lemma eachLayer_point p st :
  group_members st p = [] -> eachLayer p st = Some ([], st).
Proof.
  unfold group_members, eachLayer, gets. by intros ->.
Qed.

Lemma on_layeradd_result x st st' :
  on_layeradd x st = Some (tt, st') -> L st' = L st.
Proof.
  unfold on_layeradd, bind, gets, emit, modify, ret.
  destruct (layers st !! x); by intros [= <-].
Qed.

Lemma on_layerremove_result x st st' :
  on_layerremove x st = Some (tt, st') ->
  L st' = L st /\ same_objects st st'.
Proof.
  intros H. split; [|by eapply so_on_layerremove].
  revert H. unfold on_layerremove, bind, gets, emit, modify, ret.
  destruct (layers st !! x) as [[]|]; by intros [= <-].
Qed.

(** A point is added to the map. *)
Lemma point_added fuel p pt v st :
  points st !! p = Some pt ->
  vertices st !! p_vertex pt = Some v ->
  group_members st p = [] ->
  p ∉ onmap (L st) ->
  listeners_ok st ->
  exists st',
    map_addLayer_rec (S fuel) p st = Some (tt, st') /\
    p ∈ onmap (L st') /\
    (forall x, attached st x -> attached st' x) /\
    (forall e ed l,
        e ∈ v_edges v -> edges st !! e = Some ed -> e_line ed = Some l ->
        visible_point st (e_to ed) = true -> attached st' l) /\
    (forall x, attached st' x ->
       attached st x \/
       exists e ed, e ∈ v_edges v /\ edges st !! e = Some ed /\
                    e_line ed = Some x).
Proof.
  intros Hp Hv Hms Hoff Hok.
  cbn [map_addLayer_rec]. unfold bind at 1, hasLayer at 1, gets at 1.
  rewrite bool_decide_eq_false_2 by done.
  unfold bind at 1, modify at 1. set (s1 := upd_L _ st).
  assert (Hso1 : same_objects st s1) by (by repeat split).
  rewrite (bind_eq _ _ _ _ _ (eachLayer_point p s1 Hms)).
  cbn [forM_]. unfold bind at 1, ret at 1.
  unfold bind at 1, fire_add at 1, bind at 1, gets at 1.
  change (points s1 !! p) with (points st !! p). rewrite Hp.
  assert (Hok1 : listeners_ok s1) by (by apply (listeners_ok_ext st)).
  destruct (onPointAdd_returns p s1 Hok1) as (s2 & E2); [by exists pt|].
  rewrite E2.
  destruct (onPointAdd_result p pt v s1 s2 Hp Hv E2) as (Hso2 & Hon2 & Hk2 & Ha2).
  pose proof (onPointAdd_only p pt v s1 s2 Hp Hv E2) as Ho2.
  destruct (on_layeradd_returns p s2) as (s3 & E3). rewrite E3.
  apply on_layeradd_result in E3 as HL3.
  exists s3. split; [done|]. unfold attached. rewrite HL3.
  split; [apply Hon2; simpl; set_solver|].
  split; [intros x Hx; by apply Hk2|].
  split.
  - intros e ed l He Hed Hl Hvis. apply (Ha2 e ed l He Hed Hl).
    apply (visible_point_frame st s1); [done| |done]. simpl. set_solver.
  - intros x Hx. by apply Ho2.
Qed.

(** A point is removed from the map. *)
Lemma point_removed fuel p pt v st :
  points st !! p = Some pt ->
  vertices st !! p_vertex pt = Some v ->
  group_members st p = [] ->
  p ∈ onmap (L st) ->
  listeners_ok st ->
  exists st',
    map_removeLayer_rec (S fuel) p st = Some (tt, st') /\
    (p ∉ onmap (L st')) /\
    (forall x, attached st' x -> attached st x) /\
    (forall e ed l,
        e ∈ v_edges v -> edges st !! e = Some ed -> e_line ed = Some l ->
        ~ attached st' l) /\
    (forall x, attached st x ->
       (forall e ed, e ∈ v_edges v -> edges st !! e = Some ed ->
                     e_line ed <> Some x) ->
       attached st' x).
Proof.
  intros Hp Hv Hms Hon Hok.
  cbn [map_removeLayer_rec]. unfold bind at 1, hasLayer at 1, gets at 1.
  rewrite bool_decide_eq_true_2 by done.
  rewrite (bind_eq _ _ _ _ _ (eachLayer_point p st Hms)).
  cbn [forM_]. unfold bind at 1, ret at 1.
  unfold bind at 1, modify at 1. set (s1 := upd_L _ st).
  assert (Hso1 : same_objects st s1) by (by repeat split).
  destruct (on_layerremove_returns p s1) as (s2 & E2).
  rewrite (bind_eq _ _ _ _ _ E2).
  apply on_layerremove_result in E2 as [HL2 Hso2].
  pose proof (same_objects_trans _ _ _ Hso1 Hso2) as Hso02.
  pose proof Hso02 as (Hvs & Hes & _ & _ & Hps & Hls & _).
  unfold fire_remove, bind at 1, gets at 1. rewrite Hps, Hp.
  assert (Hok2 : listeners_ok s2).
  { apply (listeners_ok_ext st); try done. by rewrite Hps. }
  destruct (onPointRemove_returns p s2 Hok2) as (s3 & E3).
  { rewrite Hps. by exists pt. }
  rewrite <- Hps in Hp. rewrite <- Hvs in Hv.
  destruct (onPointRemove_result p pt v s2 s3 Hp Hv E3) as (_ & Hk3 & Hd3).
  destruct (onPointRemove_only p pt v s2 s3 Hp Hv E3) as (Hon3 & Ho3).
  exists s3. split; [done|].
  assert (Hat2 : forall x, attached s2 x <-> attached st x).
  { intros x. unfold attached. by rewrite HL2. }
  split.
  { intros Hin. apply Hon3 in Hin. rewrite HL2 in Hin. simpl in Hin.
    set_solver. }
  split; [intros x Hx; by apply Hat2, Hk3|].
  split.
  - intros e ed l He Hed Hl.
    destruct (Hok p pt) as (v' & Hv' & Hedges).
    { by rewrite <- Hps. }
    rewrite Hvs in Hv. rewrite Hv in Hv'. injection Hv' as <-.
    destruct (proj1 (Forall_forall _ _) Hedges e He) as (ed' & Hed' & Hline).
    rewrite Hed in Hed'. injection Hed' as <-.
    destruct (Hline l Hl) as ((ln & Hln & Hlay) & _).
    apply (Hd3 e ed l ln); [done|by rewrite Hes|done|by rewrite Hls|done].
  - intros x Hx Hne. apply Ho3; [by apply Hat2|].
    intros e ed He. rewrite Hes. by apply Hne.
Qed.

End LineAttachment.

Section LineCounter.
Import Eff MapViewer MapSpec.

(** The claimed invariant holds in the example once the lines are created,
    and hiding the layer group of vertex 3 breaks it: the line 7 of the
    one-directional edge 3 (from vertex 1 to vertex 3) stays attached while
    the point of vertex 3 is off the map. *)
Lemma lines_follow_points_counterexample :
  lines_follow_points MapExample.with_lines /\
  exists st',
    hideLayerGroup 2 MapExample.with_lines = Some (Some 2, st') /\
    line_of st' 3 = Some 7 /\
    visible_point st' 3 = false /\
    attached st' 7 /\
    ~ lines_follow_points st'.
Proof.
  assert (Hlg : lineGroup (L MapExample.with_lines) = [6; 7])
    by (vm_compute; reflexivity).
  split.
  - intros e ed l He Hl. unfold attached. rewrite Hlg. clear Hlg.
    enum_lookup He; simpl in Hl; try discriminate Hl; injection Hl as <-;
      (split; [intros _; split; vm_compute; reflexivity | intros _; set_solver]).
  - eexists. split; [vm_compute; reflexivity|].
    split; [reflexivity|]. split; [vm_compute; reflexivity|].
    clear Hlg. assert (Hat : 7 ∈ [6; 7]) by set_solver.
    split; [exact Hat|].
    intros Hinv.
    destruct (proj1 (Hinv 3 (with_line (Some 7) (MapExample.ed 1 3 edge_ROUTE None))
                       7 eq_refl eq_refl) Hat) as [_ Hv].
    vm_compute in Hv. discriminate Hv.
Qed.

End LineCounter.


Section LineClaims.
Import Eff MapViewer MapSpec.

(** C7 (amended).  [createLine] makes a line for an edge that has none
    (and is not temporal) and attaches it to the line container exactly
    when the points of both end vertices exist and are visible.  When a
    point is added to the map, the lines of the outgoing edges of its
    vertex whose target point is visible are attached, no line is detached
    and no other line is attached.  When a point is removed from the map,
    the lines of all outgoing edges of its vertex are detached, no line is
    attached and every other line stays as it is.  The listeners follow
    the outgoing edges only: the line of an edge reacts to its target point
    through an opposite edge that shares the line, and stays attached when
    the target point is removed and no outgoing edge of the target vertex
    carries it. *)
Theorem line_attachment :
  (forall st e ed cfg,
      edges st !! e = Some ed ->
      e_line ed = None ->
      e_type ed <> edge_TEMPORAL ->
      (forall o, e_opposite ed = Some o -> is_Some (edges st !! o)) ->
      is_Some (vertices st !! e_from ed) ->
      is_Some (vertices st !! e_to ed) ->
      (forall v vx p, vertices st !! v = Some vx -> v_point vx = Some p ->
                      is_Some (points st !! p)) ->
      next_ref st ∉ lineGroup (L st) ->
      exists st',
        createLine e cfg st = Some (Some (next_ref st), st') /\
        line_of st' e = Some (next_ref st) /\
        (attached st' (next_ref st) <->
         visible_point st (e_from ed) = true /\
         visible_point st (e_to ed) = true)) /\
  (forall fuel p pt v st,
      points st !! p = Some pt ->
      vertices st !! p_vertex pt = Some v ->
      group_members st p = [] ->
      p ∉ onmap (L st) ->
      listeners_ok st ->
      exists st',
        map_addLayer_rec (S fuel) p st = Some (tt, st') /\
        p ∈ onmap (L st') /\
        (forall x, attached st x -> attached st' x) /\
        (forall e ed l,
            e ∈ v_edges v -> edges st !! e = Some ed -> e_line ed = Some l ->
            visible_point st (e_to ed) = true -> attached st' l) /\
        (forall x, attached st' x ->
           attached st x \/
           exists e ed, e ∈ v_edges v /\ edges st !! e = Some ed /\
                        e_line ed = Some x)) /\
  (forall fuel p pt v st,
      points st !! p = Some pt ->
      vertices st !! p_vertex pt = Some v ->
      group_members st p = [] ->
      p ∈ onmap (L st) ->
      listeners_ok st ->
      exists st',
        map_removeLayer_rec (S fuel) p st = Some (tt, st') /\
        (p ∉ onmap (L st')) /\
        (forall x, attached st' x -> attached st x) /\
        (forall e ed l,
            e ∈ v_edges v -> edges st !! e = Some ed -> e_line ed = Some l ->
            ~ attached st' l) /\
        (forall x, attached st x ->
           (forall e ed, e ∈ v_edges v -> edges st !! e = Some ed ->
                         e_line ed <> Some x) ->
           attached st' x)).
Proof.
  split; [|split].
  - intros st e ed cfg He Hl Hty Ho Hf Ht Hp Hfresh.
    destruct (createLine_returns st e ed cfg He Hl Hty Ho Hf Ht Hp)
      as (st' & E).
    exists st'. split; [done|].
    by apply (createLine_attach st e ed cfg).
  - intros fuel p pt v st. apply point_added.
  - intros fuel p pt v st. apply point_removed.
Qed.

(** [line_attachment] in the example with all lines made: the point 5 of
    the vertex 3, which has no outgoing edge, is removed from the map, and
    the line 7 of the edge 3, which leads to the vertex 3 and has no
    opposite, stays attached. *)
Lemma line_attachment_witness :
  exists st',
    map_removeLayer_rec 1 5 MapExample.with_lines = Some (tt, st') /\
    (5 ∉ onmap (L st')) /\
    attached st' 7.
Proof.
  assert (Hlg : lineGroup (L MapExample.with_lines) = [6; 7])
    by (vm_compute; reflexivity).
  destruct (proj2 (proj2 line_attachment) 0 5
              {| p_vertex := 3; p_type := "panorama"; p_layer := true;
                 p_parent := Ref 2 |}
              (with_point (Some 5) (MapExample.vx 2 []))
              MapExample.with_lines)
    as (st' & E & Hoff & _ & _ & Hstay).
  - vm_compute. reflexivity.
  - vm_compute. reflexivity.
  - vm_compute. reflexivity.
  - apply (bool_decide_eq_true_1 _). vm_compute. reflexivity.
  - apply listeners_okb_sound. vm_compute. reflexivity.
  - exists st'. split; [exact E|]. split; [exact Hoff|].
    apply (Hstay 7).
    + unfold attached. rewrite Hlg.
      apply list_elem_of_further, list_elem_of_here.
    + intros e ed He. exfalso. exact (proj1 (elem_of_nil e) He).
Defined.

(** C10 fails for a temporal edge whose opposite edge is no temporal edge:
    the line made for the opposite edge is installed on the temporal edge
    as well, it is attached since both end points are visible, and
    [createLine] on the temporal edge returns that line. *)
Lemma temporal_edge_counterexample :
  exists st1 l ed,
    createLine 5 None MapExample.mixed = Some (Some l, st1) /\
    edges st1 !! 4 = Some ed /\
    e_type ed = edge_TEMPORAL /\
    e_line ed = Some l /\
    attached st1 l /\
    createLine 4 None st1 = Some (Some l, st1).
Proof.
  eexists _, _, _. split; [vm_compute; reflexivity|].
  split; [vm_compute; reflexivity|]. split; [reflexivity|].
  split; [reflexivity|]. split; [|vm_compute; reflexivity].
  unfold attached. simpl. apply list_elem_of_here.
Qed.

End LineClaims.

Section ReparentingClaim.
Import Eff MapViewer MapSpec.

(** What a call of [updateParent] that re-parents leaves behind. *)
Lemma updateParent_result st elem k r x d st' :
  visual_of elem st = Some (Some (k, r), st) ->
  parent_of k r st = Some (x, st) ->
  deriveParent k r st = Some (d, st) ->
  x <> d ->
  updateParent elem st = Some ((k, r), st') ->
  recorded_parent st' k r = Some d /\
  treeUpdates st' = S (treeUpdates st) /\
  (forall pr, x = Ref pr -> r ∉ group_members st' pr) /\
  (forall pr, d = Ref pr -> r ∈ group_members st' pr) /\
  (forall k' r', (k', r') <> (k, r) ->
                 recorded_parent st' k' r' = recorded_parent st k' r').
Proof.
  intros Hvis Hx Hd Hne.
  assert (Hk : k <> KLine) by (intros ->; discriminate Hd).
  unfold updateParent.
  rewrite (bind_eq _ _ _ _ _ Hvis), (bind_eq _ _ _ _ _ Hx),
    (bind_eq _ _ _ _ _ Hd).
  rewrite decide_False by done.
  unfold startUpdate, endUpdate, updateLayerTree.
  unfold bind at 1. unfold emit at 1. unfold modify at 1.
  set (s0 := upd_events _ st).
  assert (Hf0 : visuals_frame st s0) by (by repeat split).
  pose proof (parent_of_events k r x st _ Hx : parent_of k r s0 = Some (x, s0))
    as Hx0.
  bind_inv s1 E1.
  destruct (removeFromParent_result _ _ _ _ _ Hx0 E1) as (Hf1 & Hni & Hoth1).
  bind_inv s2 E2.
  destruct (addToDerivedParent_result _ _ _ _ E2)
    as (d' & Hd' & Hhl & Hf2 & Hrec & Hin & Hoth2).
  assert (Hf01 : frame_upto (fun k' r' => (k', r') <> (k, r)) st s1).
  { eapply frame_upto_trans; [|exact Hf1]. by apply visuals_reparent_frame. }
  destruct (deriveParent_frame _ _ _ _ _ _ _ Hf01 Hd) as [_ Hd1].
  rewrite Hd1 in Hd'. injection Hd' as <-.
  destruct (has_layer_frame _ _ _ _ _ _ _ (frame_upto_sym _ _ _ Hf1) Hhl)
    as [_ Hhl0].
  unfold bind, emit, modify, ret. intros [= <-].
  assert (Hf : reparent_frame k r st s2) by (by eapply frame_upto_trans).
  unfold group_members in *. unfold recorded_parent in *. simpl.
  split; [by apply Hrec|]. split.
  { destruct Hf as (_&_&_&_&_&_&_&Ht&_). by rewrite Ht. }
  split.
  { intros pr ->. rewrite Hoth2 by congruence.
    by apply Hni. }
  split; [done|].
  intros k' r' Hne'. by apply Hf.
Qed.



End ReparentingClaim.
(** * The map projection: creation and deletion *)

Section MapCreation.
Import Eff MapViewer MapSpec.

Lemma deref_inv {S A} (heap : S -> gmap nat A) r st a s :
  deref heap r st = Some (a, s) -> s = st /\ heap st !! r = Some a.
Proof. unfold deref. destruct (heap st !! r); [|done]. by intros [= <- <-]. Qed.

Lemma frame_model P st st' :
  frame_upto P st st' ->
  vertices st' = vertices st /\ edges st' = edges st /\
  sgroups st' = sgroups st /\ tgroups st' = tgroups st.
Proof. intros H. unfold frame_upto in H. destruct_and!. done. Qed.

(** X11. A second [createPoint] for a vertex returns the point the first
    call returned and leaves the viewer as it is: no second point, no
    further event. *)
Theorem createPoint_twice st v cfg cfg' o st1 :
  createPoint v cfg st = Some (o, st1) ->
  createPoint v cfg' st1 = Some (o, st1).
Proof.
  unfold createPoint at 1. bind_inv s0 Ev.
  apply deref_inv in Ev as [-> Hv].
  destruct (v_point a) as [p|] eqn:Hp.
  - intros [= <- <-]. unfold createPoint.
    rewrite (bind_eq _ _ _ _ _ (deref_eq _ _ _ _ Hv)), Hp. done.
  - bind_inv s1 E1. unfold alloc, bind, gets, modify, ret in E1.
    injection E1 as <- <-.
    bind_inv s2 E2. injection E2 as <-.
    bind_inv s3 E3. injection E3 as <-.
    bind_inv s4 E4.
    apply addToDerivedParent_result in E4 as (d & _ & _ & Hframe & _).
    apply frame_model in Hframe as (Hvs & _).
    bind_inv s5 E5. injection E5 as <-.
    bind_inv s6 E6. injection E6 as <-.
    intros [= <- <-]. unfold createPoint.
    erewrite bind_eq.
    2:{ apply deref_eq. simpl. rewrite Hvs. simpl. apply lookup_insert_eq. }
    done.
Qed.

(** X12. A second [createLayerGroup] for a spatial group returns the layer
    group the first call returned and leaves the viewer as it is. *)
Theorem createLayerGroup_twice st g o st1 :
  createLayerGroup g st = Some (o, st1) ->
  createLayerGroup g st1 = Some (o, st1).
Proof.
  unfold createLayerGroup at 1. bind_inv s0 Eg.
  apply deref_inv in Eg as [-> Hg].
  destruct (sg_layerGroup a) as [lg|] eqn:Hlg.
  - intros [= <- <-]. unfold createLayerGroup.
    rewrite (bind_eq _ _ _ _ _ (deref_eq _ _ _ _ Hg)), Hlg. done.
  - unfold alloc, bind, gets, modify, ret. simpl. intros [= <- <-].
    unfold createLayerGroup.
    erewrite bind_eq; [|apply deref_eq; simpl; apply lookup_insert_eq]. done.
Qed.

(** X13. A second [createControlGroup] for a temporal group returns the
    control group the first call returned and leaves the viewer as it
    is. *)
Theorem createControlGroup_twice st g o st1 :
  createControlGroup g st = Some (o, st1) ->
  createControlGroup g st1 = Some (o, st1).
Proof.
  unfold createControlGroup at 1. bind_inv s0 Eg.
  apply deref_inv in Eg as [-> Hg].
  destruct (tg_controlGroup a) as [cg|] eqn:Hcg.
  - intros [= <- <-]. unfold createControlGroup.
    rewrite (bind_eq _ _ _ _ _ (deref_eq _ _ _ _ Hg)), Hcg. done.
  - bind_inv s1 E1. unfold alloc, bind, gets, modify, ret in E1.
    injection E1 as <- <-.
    bind_inv s2 E2. injection E2 as <-.
    bind_inv s3 E3. injection E3 as <-.
    bind_inv s4 E4. injection E4 as <-.
    bind_inv s5 E5.
    apply addToDerivedParent_result in E5 as (d & _ & _ & Hframe & _).
    apply frame_model in Hframe as (_ & _ & _ & Htg).
    bind_inv s6 E6. injection E6 as <-.
    bind_inv s7 E7. injection E7 as <-.
    bind_inv s8 E8. injection E8 as <-.
    intros [= <- <-]. unfold createControlGroup.
    erewrite bind_eq.
    2:{ apply deref_eq. simpl. rewrite Htg. simpl. apply lookup_insert_eq. }
    done.
Qed.

(** X14. A second [createLine] for an edge returns what the first call
    returned (the line, or [null] for a temporal edge) and leaves the
    viewer as it is. *)
Theorem createLine_twice st e cfg cfg' o st1 :
  createLine e cfg st = Some (o, st1) ->
  createLine e cfg' st1 = Some (o, st1).
Proof.
  unfold createLine at 1. bind_inv s0 Ee.
  apply deref_inv in Ee as [-> He].
  destruct (e_line a) as [l|] eqn:Hl.
  - intros [= <- <-]. unfold createLine.
    rewrite (bind_eq _ _ _ _ _ (deref_eq _ _ _ _ He)), Hl. done.
  - case_decide as Ht.
    + intros [= <- <-]. unfold createLine.
      rewrite (bind_eq _ _ _ _ _ (deref_eq _ _ _ _ He)), Hl.
      by rewrite decide_True.
    + bind_inv s1 E1.
      destruct (new_line_result _ _ _ _ _ _ He E1)
        as (-> & _ & _ & _ & ed' & He' & _ & _ & Hline).
      bind_inv s2 E2. injection E2 as <-.
      bind_inv s3 E3.
      apply (both_visible_result _ _ ed') in E3 as [-> _]; [|done].
      bind_inv s4 E4.
      assert (Hed : edges s4 = edges s1).
      { destruct a0.
        - apply so_lineGroup_addLayer in E4. unfold same_objects in E4.
          destruct_and!. done.
        - by injection E4 as <-. }
      bind_inv s5 E5. injection E5 as <-.
      intros [= <- <-]. unfold createLine.
      erewrite bind_eq; [|apply deref_eq; simpl; rewrite Hed; exact He'].
      by rewrite Hline.
Qed.

(** [deriveParent] throws for a line. *)
Lemma deriveParent_line l st : deriveParent KLine l st = None.
Proof. done. Qed.

(** X15. [updateParent] throws for every edge: an edge without line has no
    visual to read the parent from, and the parent of a line cannot be
    derived. *)
Theorem updateParent_edge_throws st e : updateParent (EEdge e) st = None.
Proof.
  unfold updateParent, visual_of, bind, deref, ret.
  destruct (edges st !! e) as [ed|]; [|done].
  destruct (e_line ed) as [l|]; simpl; [|done].
  unfold bind, deref. by destruct (lines st !! l).
Qed.

End MapCreation.

(** [createPoint_twice], [createLayerGroup_twice], [createControlGroup_twice]
    and [createLine_twice] in the example. *)
Lemma createPoint_twice_witness :
  exists st1,
    MapViewer.createPoint 1 None MapExample.with_groups = Some (Some 3, st1) /\
    MapViewer.createPoint 1 None st1 = Some (Some 3, st1).
Proof.
  exists (MapExample.run (MapViewer.createPoint 1 None) MapExample.with_groups).
  assert (E : MapViewer.createPoint 1 None MapExample.with_groups
              = Some (Some 3, MapExample.run (MapViewer.createPoint 1 None)
                                MapExample.with_groups))
    by (vm_compute; reflexivity).
  split; [exact E|].
  exact (createPoint_twice _ _ _ None _ _ E).
Defined.

Lemma createLayerGroup_twice_witness :
  exists st1,
    MapViewer.createLayerGroup 1 MapExample.model = Some (Some 0, st1) /\
    MapViewer.createLayerGroup 1 st1 = Some (Some 0, st1).
Proof.
  exists (MapExample.run (MapViewer.createLayerGroup 1) MapExample.model).
  assert (E : MapViewer.createLayerGroup 1 MapExample.model
              = Some (Some 0, MapExample.run (MapViewer.createLayerGroup 1)
                                MapExample.model))
    by (vm_compute; reflexivity).
  split; [exact E|].
  exact (createLayerGroup_twice _ _ _ _ E).
Defined.

Lemma createControlGroup_twice_witness :
  exists st1,
    MapViewer.createControlGroup 0 MapExample.model = Some (Some 0, st1) /\
    MapViewer.createControlGroup 0 st1 = Some (Some 0, st1).
Proof.
  exists (MapExample.run (MapViewer.createControlGroup 0) MapExample.model).
  assert (E : MapViewer.createControlGroup 0 MapExample.model
              = Some (Some 0, MapExample.run (MapViewer.createControlGroup 0)
                                MapExample.model))
    by (vm_compute; reflexivity).
  split; [exact E|].
  exact (createControlGroup_twice _ _ _ _ E).
Defined.

Lemma createLine_twice_witness :
  exists st1,
    MapViewer.createLine 1 None MapExample.with_points = Some (Some 6, st1) /\
    MapViewer.createLine 1 None st1 = Some (Some 6, st1).
Proof.
  exists (MapExample.run (MapViewer.createLine 1 None) MapExample.with_points).
  assert (E : MapViewer.createLine 1 None MapExample.with_points
              = Some (Some 6, MapExample.run (MapViewer.createLine 1 None)
                                MapExample.with_points))
    by (vm_compute; reflexivity).
  split; [exact E|].
  exact (createLine_twice _ _ _ None _ _ E).
Defined.

Section MapDeletion.
Import Eff MapViewer MapSpec.

Lemma so_edges st st' : same_objects st st' -> edges st' = edges st.
Proof. unfold same_objects. intros H. destruct_and!. done. Qed.

Lemma so_vertices st st' : same_objects st st' -> vertices st' = vertices st.
Proof. unfold same_objects. intros H. destruct_and!. done. Qed.

Lemma parent_of_reads k r st x s : parent_of k r st = Some (x, s) -> s = st.
Proof.
  unfold parent_of, bind, deref, ret.
  destruct k.
  - destruct (points st !! r); [|done]. by intros [= _ <-].
  - destruct (lines st !! r); [|done]. by intros [= _ <-].
  - destruct (lgroups st !! r); [|done]. by intros [= _ <-].
  - destruct (cgroups st !! r); [|done]. by intros [= _ <-].
Qed.

Lemma removeFromParent_frame k r st st' :
  removeFromParent k r st = Some (tt, st') -> reparent_frame k r st st'.
Proof.
  intros H. destruct (parent_of k r st) as [[x s]|] eqn:E.
  - pose proof (parent_of_reads _ _ _ _ _ E) as ->.
    by destruct (removeFromParent_result _ _ _ _ _ E H).
  - unfold removeFromParent, bind in H. by rewrite E in H.
Qed.

(** [deleteLine] clears the line of its edge and sets no line. *)
Lemma deleteLine_lines e st st' :
  deleteLine e st = Some (tt, st') ->
  vertices st' = vertices st /\
  line_of st' e = None /\
  forall e', line_of st e' = None -> line_of st' e' = None.
Proof.
  unfold deleteLine. bind_inv s0 Ee. apply deref_inv in Ee as [-> He].
  destruct (e_line a) as [elem|] eqn:Hl.
  - bind_inv s1 E1. apply deref_inv in E1 as [-> Hln].
    bind_inv s2 E2.
    assert (H2 : edges s2 = edges st /\ vertices s2 = vertices st).
    { destruct (l_layer a0).
      - revert E2. bind_inv s3 E3. apply so_lineGroup_removeLayer in E3.
        bind_inv s4 E4. apply so_map_removeLine in E4.
        bind_inv s5 E5. injection E5 as <-.
        intros [= <-]. simpl.
        rewrite (so_edges _ _ E4), (so_edges _ _ E3).
        by rewrite (so_vertices _ _ E4), (so_vertices _ _ E3).
      - by injection E2 as <-. }
    destruct H2 as [Hed Hvs].
    bind_inv s6 E6. injection E6 as <-.
    bind_inv s7 E7.
    assert (H7 : vertices s7 = vertices st /\
                 line_of s7 e = None /\
                 forall e', line_of st e' = None -> line_of s7 e' = None).
    { destruct (e_opposite a) as [o|].
      - revert E7. bind_inv s8 E8. apply deref_inv in E8 as [-> Ho].
        intros [= <-]. unfold line_of. simpl. rewrite Hed.
        split; [done|]. split.
        + destruct (decide (o = e)) as [->|Hne].
          * by rewrite lookup_insert_eq.
          * rewrite lookup_insert_ne by done. by rewrite lookup_insert_eq.
        + intros e' He'.
          destruct (decide (o = e')) as [->|Hne]; [by rewrite lookup_insert_eq|].
          rewrite lookup_insert_ne by done.
          destruct (decide (e = e')) as [->|Hne']; [by rewrite lookup_insert_eq|].
          by rewrite lookup_insert_ne.
      - injection E7 as <-. unfold line_of. simpl. rewrite Hed.
        split; [done|]. split; [by rewrite lookup_insert_eq|].
        intros e' He'.
        destruct (decide (e = e')) as [->|Hne']; [by rewrite lookup_insert_eq|].
        by rewrite lookup_insert_ne. }
    intros [= <-]. done.
  - intros [= <-]. split; [done|]. split; [|done].
    unfold line_of. by rewrite He.
Qed.

Lemma deleteLines_lines es : forall st st',
  forM_ es deleteLine st = Some (tt, st') ->
  vertices st' = vertices st /\
  (forall e, e ∈ es -> line_of st' e = None) /\
  forall e', line_of st e' = None -> line_of st' e' = None.
Proof.
  induction es as [|e es IH]; intros st st'.
  - intros [= <-]. split; [done|]. split; [|done].
    intros e He. by apply elem_of_nil in He.
  - simpl. bind_inv s1 E1. apply deleteLine_lines in E1 as (Hv1 & Hl1 & Hk1).
    intros H. apply IH in H as (Hv & Hl & Hk).
    split; [congruence|]. split; [|by auto].
    intros e0 He0. apply elem_of_cons in He0 as [->|He0]; [by apply Hk|by apply Hl].
Qed.


(** X17. A second [deletePoint], [deleteLayerGroup] or
    [deleteControlGroup] finds no visual and leaves the viewer as it is. *)
Theorem delete_twice st st1 :
  (forall v, deletePoint v st = Some (tt, st1) ->
             deletePoint v st1 = Some (tt, st1)) /\
  (forall g, deleteLayerGroup g st = Some (tt, st1) ->
             deleteLayerGroup g st1 = Some (tt, st1)) /\
  (forall g, deleteControlGroup g st = Some (tt, st1) ->
             deleteControlGroup g st1 = Some (tt, st1)).
Proof.
  split; [|split].
  - intros v. unfold deletePoint at 1. bind_inv s0 Ev.
    apply deref_inv in Ev as [-> Hv].
    destruct (v_point a) as [elem|] eqn:Hp.
    + bind_inv s1 E1. bind_inv s2 E2. bind_inv s3 E3.
      bind_inv s4 E4. bind_inv s5 E5. bind_inv s6 E6.
      bind_inv s7 E7. apply deref_inv in E7 as [-> Hvx].
      bind_inv s8 E8. injection E8 as <-.
      unfold emit, modify. intros [= <-]. unfold deletePoint.
      erewrite bind_eq; [|apply deref_eq; simpl; apply lookup_insert_eq]. done.
    + intros [= <-]. unfold deletePoint.
      rewrite (bind_eq _ _ _ _ _ (deref_eq _ _ _ _ Hv)), Hp. done.
  - intros g. unfold deleteLayerGroup at 1. bind_inv s0 Eg.
    apply deref_inv in Eg as [-> Hg].
    destruct (sg_layerGroup a) as [elem|] eqn:Hp.
    + bind_inv s1 E1. bind_inv s2 E2. bind_inv s3 E3.
      bind_inv s4 E4. injection E4 as <-.
      unfold emit, modify. intros [= <-]. unfold deleteLayerGroup.
      erewrite bind_eq; [|apply deref_eq; simpl; apply lookup_insert_eq]. done.
    + intros [= <-]. unfold deleteLayerGroup.
      rewrite (bind_eq _ _ _ _ _ (deref_eq _ _ _ _ Hg)), Hp. done.
  - intros g. unfold deleteControlGroup at 1. bind_inv s0 Eg.
    apply deref_inv in Eg as [-> Hg].
    destruct (tg_controlGroup a) as [elem|] eqn:Hp.
    + bind_inv s1 E1. bind_inv s2 E2. bind_inv s3 E3.
      bind_inv s4 E4. injection E4 as <-.
      unfold emit, modify. intros [= <-]. unfold deleteControlGroup.
      erewrite bind_eq; [|apply deref_eq; simpl; apply lookup_insert_eq]. done.
    + intros [= <-]. unfold deleteControlGroup.
      rewrite (bind_eq _ _ _ _ _ (deref_eq _ _ _ _ Hg)), Hp. done.
Qed.

End MapDeletion.


Lemma delete_twice_witness :
  MapViewer.deletePoint 1 MapExample.with_lines
  = Some (tt, MapExample.point_deleted) /\
  MapViewer.deletePoint 1 MapExample.point_deleted
  = Some (tt, MapExample.point_deleted).
Proof.
  assert (E : MapViewer.deletePoint 1 MapExample.with_lines
              = Some (tt, MapExample.point_deleted))
    by (vm_compute; reflexivity).
  split; [exact E|].
  exact (proj1 (delete_twice MapExample.with_lines MapExample.point_deleted)
           1 E).
Defined.

Section MapEditMode.
Import Eff MapViewer MapSpec.

Lemma same_points_refl st : same_points st st.
Proof. by split. Qed.

Lemma same_points_trans a b c :
  same_points a b -> same_points b c -> same_points a c.
Proof. intros [? ?] [? ?]. split; congruence. Qed.

Lemma same_objects_points st st' : same_objects st st' -> same_points st st'.
Proof. unfold same_objects. intros H. destruct_and!. by split. Qed.

Lemma preserves_weaken (R R' : viewer -> viewer -> Prop) {A} (m : M A) :
  (forall a b, R a b -> R' a b) -> preserves R m -> preserves R' m.
Proof. intros HR Hm st a st' H. apply HR. by eapply Hm. Qed.

Lemma sp_createLine e cfg : preserves same_points (createLine e cfg).
Proof.
  intros st o st'. unfold createLine. bind_inv s0 Ee.
  apply deref_inv in Ee as [-> He].
  destruct (e_line a); [by intros [= _ <-]|].
  case_decide; [by intros [= _ <-]|].
  bind_inv s1 E1.
  destruct (new_line_result _ _ _ _ _ _ He E1)
    as (_ & Hv1 & Hp1 & _ & ed' & He' & _).
  bind_inv s2 E2. injection E2 as <-.
  bind_inv s3 E3.
  apply (both_visible_result _ _ ed') in E3 as [-> _]; [|done].
  bind_inv s4 E4.
  assert (H4 : same_points s1 s4).
  { destruct a1.
    - apply so_lineGroup_addLayer in E4. apply same_objects_points in E4.
      destruct E4. by split.
    - injection E4 as <-. by split. }
  bind_inv s5 E5. injection E5 as <-.
  intros [= _ <-]. destruct H4 as [H4 H4']. split; simpl; congruence.
Qed.

Lemma sp_createLines v : preserves same_points (createLines v).
Proof.
  unfold createLines.
  apply (preserves_bind _ same_points_trans);
    [apply (preserves_deref _ same_points_refl)|intros vx].
  apply (preserves_forM_ _ same_points_refl same_points_trans). intros e.
  apply (preserves_bind _ same_points_trans); [apply sp_createLine|intros ?].
  apply (preserves_ret _ same_points_refl).
Qed.

(** After [deletePoint] the vertex has no point. *)
Lemma deletePoint_no_point v st st' :
  deletePoint v st = Some (tt, st') ->
  exists vx', vertices st' !! v = Some vx' /\ v_point vx' = None.
Proof.
  unfold deletePoint. bind_inv s0 Ev. apply deref_inv in Ev as [-> Hv].
  destruct (v_point a) as [elem|] eqn:Hp.
  - bind_inv s1 E1. bind_inv s2 E2. bind_inv s3 E3.
    bind_inv s4 E4. bind_inv s5 E5. bind_inv s6 E6.
    bind_inv s7 E7. apply deref_inv in E7 as [-> Hvx].
    bind_inv s8 E8. injection E8 as <-.
    unfold emit, modify. intros [= <-]. simpl.
    eexists. split; [apply lookup_insert_eq|done].
  - intros [= <-]. eauto.
Qed.

(** [createPoint] for a vertex without point makes a point of the
    configured type, or of the type of the vertex. *)
Lemma createPoint_fresh v vx cfg st o st' :
  vertices st !! v = Some vx -> v_point vx = None ->
  createPoint v cfg st = Some (o, st') ->
  exists p pt,
    o = Some p /\
    vertices st' !! v = Some (with_point (Some p) vx) /\
    points st' !! p = Some pt /\
    p_type pt = type_or cfg (v_type vx).
Proof.
  intros Hv Hp. unfold createPoint.
  rewrite (bind_eq _ _ _ _ _ (deref_eq _ _ _ _ Hv)), Hp.
  bind_inv s1 E1. unfold alloc, bind, gets, modify, ret in E1.
  injection E1 as <- <-.
  bind_inv s2 E2. injection E2 as <-.
  bind_inv s3 E3. injection E3 as <-.
  bind_inv s4 E4.
  apply addToDerivedParent_result in E4 as (d & _ & _ & Hframe & _).
  pose proof (frame_model _ _ _ Hframe) as (Hvs & _).
  destruct Hframe as (_ & _ & _ & _ & _ & _ & _ & _ & Hcore & _).
  bind_inv s5 E5. injection E5 as <-.
  bind_inv s6 E6. injection E6 as <-.
  intros [= <- <-].
  eapply (fmap_lookup_eq point_core _ _ (next_ref st)) in Hcore as (pt & Hpt & Hc);
    [|simpl; apply lookup_insert_eq].
  exists (next_ref st), pt. split; [done|]. simpl. rewrite Hvs. simpl.
  split; [apply lookup_insert_eq|]. split; [done|].
  unfold point_core in Hc. simpl in Hc. by injection Hc.
Qed.


Lemma new_line_owner e ed o type st l s1 :
  edges st !! e = Some ed -> e_opposite ed = Some o -> o <> e ->
  new_line e type st = Some (l, s1) ->
  (exists ln, lines s1 !! l = Some ln /\ l_edge ln = e) /\
  exists oe, edges s1 !! o = Some oe /\ e_line oe = Some l.
Proof.
  intros He Ho Hne. unfold new_line, alloc, bind, deref, gets, modify, ret.
  simpl. rewrite He. simpl. rewrite Ho. simpl.
  rewrite lookup_insert_ne by done.
  destruct (edges st !! o) as [oe|]; [|done]. simpl.
  destruct (vertices st !! e_from ed); [|done]. simpl.
  destruct (vertices st !! e_to ed); [|done].
  intros [= <- <-]. simpl. split.
  - eexists. split; [apply lookup_insert_eq|done].
  - eexists. split; [apply lookup_insert_eq|done].
Qed.

(** X19. The line that [createLine] makes for an edge belongs to that
    edge: [setEditable] and [unsetEditable] called with the opposite edge,
    which shares the line, return [undefined] and leave the viewer as it
    is. *)
Theorem createLine_owner st e ed o cfg l st1 :
  edges st !! e = Some ed -> e_line ed = None ->
  e_opposite ed = Some o -> o <> e ->
  createLine e cfg st = Some (Some l, st1) ->
  setEditable (EEdge o) st1 = Some (None, st1) /\
  unsetEditable (EEdge o) st1 = Some (None, st1).
Proof.
  intros He Hl Ho Hne. unfold createLine.
  rewrite (bind_eq _ _ _ _ _ (deref_eq _ _ _ _ He)), Hl.
  case_decide; [done|].
  bind_inv s1 E1.
  destruct (new_line_result _ _ _ _ _ _ He E1)
    as (_ & _ & _ & _ & ed' & He' & _).
  destruct (new_line_owner _ _ _ _ _ _ _ He Ho Hne E1)
    as ((ln & Hln & Hown) & oe & Hoe & Hol).
  bind_inv s2 E2. injection E2 as <-.
  bind_inv s3 E3.
  apply (both_visible_result _ _ ed') in E3 as [-> _]; [|done].
  bind_inv s4 E4.
  assert (H4 : edges s4 = edges s1 /\ lines s4 = lines s1).
  { destruct a0.
    - apply so_lineGroup_addLayer in E4. unfold same_objects in E4.
      destruct_and!. done.
    - by injection E4 as <-. }
  destruct H4 as [Hes Hls].
  bind_inv s5 E5. injection E5 as <-.
  intros [= <- <-].
  assert (Hoe' : edges (upd_events (fun l0 => l0 ++ [(KLine, a, CREATE)]) s4) !! o
                 = Some oe) by (simpl; by rewrite Hes).
  assert (Hln' : lines (upd_events (fun l0 => l0 ++ [(KLine, a, CREATE)]) s4) !! a
                 = Some ln) by (simpl; by rewrite Hls).
  unfold setEditable, unsetEditable.
  rewrite !(bind_eq _ _ _ _ _ (deref_eq _ _ _ _ Hoe')), Hol.
  rewrite !(bind_eq _ _ _ _ _ (deref_eq _ _ _ _ Hln')).
  rewrite (bool_decide_eq_false_2 (l_edge ln = o)) by congruence. done.
Qed.

End MapEditMode.

Section OnMap.
Import MapViewer MapSpec.

Lemma onmap_grows_refl st : onmap_grows st st.
Proof. unfold onmap_grows. set_solver. Qed.

Lemma onmap_grows_trans a b c :
  onmap_grows a b -> onmap_grows b c -> onmap_grows a c.
Proof. unfold onmap_grows. set_solver. Qed.

End OnMap.

Ltac og_step :=
  first
    [ apply (preserves_ret MapSpec.onmap_grows onmap_grows_refl)
    | apply (preserves_gets MapSpec.onmap_grows onmap_grows_refl)
    | apply (preserves_deref MapSpec.onmap_grows onmap_grows_refl)
    | apply (preserves_throw MapSpec.onmap_grows)
    | apply (preserves_modify MapSpec.onmap_grows); intros ?;
      unfold MapSpec.onmap_grows; simpl; set_solver
    | apply (preserves_bind MapSpec.onmap_grows onmap_grows_trans); [|intros ?]
    | apply (preserves_forM_ MapSpec.onmap_grows onmap_grows_refl
               onmap_grows_trans); intros ?
    | match goal with
      | |- MapSpec.preserves _ (match ?x with _ => _ end) => destruct x
      end
    | match goal with
      | H : forall x, MapSpec.preserves _ _ |- _ => apply H
      end ].

Section MapShowHide.
Import Eff MapViewer MapSpec.

Lemma og_map_addLine x : preserves onmap_grows (map_addLine x).
Proof. unfold map_addLine, hasLayer, on_layeradd, emit. repeat og_step. Qed.

Lemma og_lineGroup_addLayer x : preserves onmap_grows (lineGroup_addLayer x).
Proof.
  unfold lineGroup_addLayer. repeat first [apply og_map_addLine | og_step].
Qed.

Lemma og_onPointAdd p : preserves onmap_grows (onPointAdd p).
Proof.
  unfold onPointAdd, isVisible, hasLayer.
  repeat first [apply og_lineGroup_addLayer | og_step].
Qed.

Lemma og_map_addLayer_rec fuel : forall x,
  preserves onmap_grows (map_addLayer_rec fuel x).
Proof.
  induction fuel as [|fuel IH]; intros x; simpl.
  - apply preserves_throw.
  - unfold hasLayer, eachLayer, fire_add, on_layeradd, emit.
    repeat first [apply og_onPointAdd | og_step].
Qed.

Lemma map_addLayer_on x st st' :
  map_addLayer x st = Some (tt, st') -> x ∈ onmap (L st').
Proof.
  unfold map_addLayer, nesting_bound. unfold bind at 1, gets at 1.
  simpl. unfold bind at 1, hasLayer at 1, gets at 1.
  case_bool_decide as Hon.
  - by intros [= <-].
  - bind_inv s1 E1. injection E1 as <-. intros H.
    assert (G : onmap_grows (upd_L (upd_onmap (fun s => {[x]} ∪ s)) st) st').
    { revert H. generalize (upd_L (upd_onmap (fun s => {[x]} ∪ s)) st).
      intros s H.
      assert (P : preserves onmap_grows
                    (let! ms := eachLayer x in
                     let! _ := forM_ ms (map_addLayer_rec (S (size (members (L st))))) in
                     let! _ := fire_add x in
                     on_layeradd x)).
      { unfold eachLayer, fire_add, on_layeradd, emit.
        repeat first [apply og_onPointAdd | apply og_map_addLayer_rec | og_step]. }
      exact (P _ _ _ H). }
    apply G. simpl. set_solver.
Qed.

Lemma has_layer_reads k r st b s : has_layer k r st = Some (b, s) -> s = st.
Proof.
  unfold has_layer, bind, deref, ret. destruct k.
  - destruct (points st !! r); [|done]. by intros [= _ <-].
  - destruct (lines st !! r); [|done]. by intros [= _ <-].
  - destruct (lgroups st !! r); [|done]. by intros [= _ <-].
  - destruct (cgroups st !! r); [|done]. by intros [= _ <-].
Qed.

(** A visual whose derived parent is [null] is put on the map. *)
Lemma addToDerivedParent_toplevel k r st st' :
  deriveParent k r st = Some (Null, st) ->
  addToDerivedParent k r st = Some (tt, st') ->
  r ∈ onmap (L st').
Proof.
  intros Hd. unfold addToDerivedParent. rewrite (bind_eq _ _ _ _ _ Hd).
  bind_inv s1 E1. apply set_parent_result in E1 as (_ & HL1 & _).
  bind_inv s2 E2. apply has_layer_reads in E2 as ->.
  destruct a; [|done].
  bind_inv s3 E3. apply map_addLayer_on in E3.
  destruct k; by intros [= <-].
Qed.

(** X20. A layer group that [showLayerGroup] has put directly on the map,
    its derived parent being [null], is still on the map after
    [hideLayerGroup]: the layer is only taken out of a parent group. *)
Theorem show_hide_toplevel st g lg st1 o st2 :
  showLayerGroup g st = Some (Some lg, st1) ->
  deriveParent KLayerGroup lg st1 = Some (Null, st1) ->
  hideLayerGroup g st1 = Some (o, st2) ->
  o = Some lg /\ lg ∈ onmap (L st1) /\ lg ∈ onmap (L st2).
Proof.
  unfold showLayerGroup. bind_inv s0 E0. apply deref_inv in E0 as [-> Hg].
  bind_inv s1 E1. bind_inv s2 E2. apply deref_inv in E2 as [-> Hg'].
  destruct (sg_layerGroup a0) as [lg0|] eqn:Hlg; [|done].
  bind_inv s3 E3. intros [= -> <-] Hnull.
  destruct (addToDerivedParent_result _ _ _ _ E3)
    as (d & Hd & _ & Hframe & Hrec & _).
  destruct (deriveParent_frame _ _ _ _ _ _ _ Hframe Hd) as [_ Hd'].
  rewrite Hd' in Hnull. injection Hnull as ->.
  pose proof (addToDerivedParent_toplevel _ _ _ _ Hd E3) as Hon.
  pose proof (frame_model _ _ _ Hframe) as (_ & _ & Hsg & _).
  specialize (Hrec ltac:(done)).
  unfold hideLayerGroup.
  erewrite bind_eq; [|apply deref_eq; rewrite Hsg; exact Hg'].
  rewrite Hlg. bind_inv s4 E4. intros [= <- <-].
  split; [done|]. split; [done|].
  assert (HL : L s4 = L s3).
  { revert E4. unfold removeFromParent.
    unfold recorded_parent in Hrec.
    destruct (lgroups s3 !! lg) as [lgo|] eqn:Hlgo; [|done].
    injection Hrec as Hpar.
    erewrite bind_eq;
      [|unfold parent_of; erewrite bind_eq; [|by apply deref_eq]; done].
    rewrite Hpar. unfold bind at 1. unfold ret at 1.
    unfold bind at 1. unfold ret at 1.
    intros E4. by apply set_parent_result in E4 as (_ & HL & _). }
  by rewrite HL.
Qed.

End MapShowHide.


Lemma createLine_owner_witness :
  MapViewer.setEditable (MapViewer.EEdge 2)
    (MapExample.run (MapViewer.createLine 1 None) MapExample.with_points)
  = Some (None, MapExample.run (MapViewer.createLine 1 None)
                  MapExample.with_points) /\
  MapViewer.unsetEditable (MapViewer.EEdge 2)
    (MapExample.run (MapViewer.createLine 1 None) MapExample.with_points)
  = Some (None, MapExample.run (MapViewer.createLine 1 None)
                  MapExample.with_points).
Proof.
  apply (createLine_owner MapExample.with_points 1
           (MapExample.ed 1 2 MapViewer.edge_ROUTE (Some 2)) 2 None 6).
  - vm_compute. reflexivity.
  - reflexivity.
  - reflexivity.
  - discriminate.
  - vm_compute. reflexivity.
Defined.

Lemma show_hide_toplevel_witness :
  Some 8 = Some 8 /\
  8 ∈ MapViewer.onmap (MapViewer.L MapExample.loose_shown) /\
  8 ∈ MapViewer.onmap (MapViewer.L MapExample.loose_hidden).
Proof.
  apply (show_hide_toplevel MapExample.with_loose_group 7 8
           MapExample.loose_shown (Some 8) MapExample.loose_hidden).
  - vm_compute. reflexivity.
  - vm_compute. reflexivity.
  - vm_compute. reflexivity.
Defined.

Section MapHideShow.
Import Eff MapViewer MapSpec.

(** After [removeFromParent] the visual records no parent. *)
Lemma removeFromParent_recorded k r st st' :
  k <> KLine ->
  removeFromParent k r st = Some (tt, st') ->
  recorded_parent st' k r = Some Null.
Proof.
  intros Hk. unfold removeFromParent.
  bind_inv s1 E1. bind_inv s2 E2. bind_inv s3 E3.
  intros H. apply set_parent_result in H as (_ & _ & _ & _ & H). by apply H.
Qed.

(** What [hideLayerGroup] followed by [showLayerGroup] leaves behind. *)
Lemma hide_show_result st g sg lg o1 st1 o2 st2 :
  sgroups st !! g = Some sg ->
  sg_layerGroup sg = Some lg ->
  hideLayerGroup g st = Some (o1, st1) ->
  showLayerGroup g st1 = Some (o2, st2) ->
  o1 = Some lg /\ o2 = Some lg /\
  recorded_parent st1 KLayerGroup lg = Some Null /\
  exists d,
    deriveParent KLayerGroup lg st2 = Some (d, st2) /\
    recorded_parent st2 KLayerGroup lg = Some d /\
    forall pr, d = Ref pr -> lg ∈ group_members st2 pr.
Proof.
  intros Hg Hlg. unfold hideLayerGroup.
  rewrite (bind_eq _ _ _ _ _ (deref_eq _ _ _ _ Hg)), Hlg.
  bind_inv s1 E1. intros [= <- <-].
  assert (Hrec1 : recorded_parent s1 KLayerGroup lg = Some Null)
    by (by apply (removeFromParent_recorded KLayerGroup lg st s1)).
  apply removeFromParent_frame in E1.
  pose proof (frame_model _ _ _ E1) as (_ & _ & Hsg1 & _).
  unfold showLayerGroup.
  erewrite bind_eq; [|apply deref_eq; rewrite Hsg1; exact Hg].
  rewrite Hlg. unfold bind at 1. unfold ret at 1.
  erewrite bind_eq; [|apply deref_eq; rewrite Hsg1; exact Hg].
  rewrite Hlg. bind_inv s2 E2. intros [= <- <-].
  destruct (addToDerivedParent_result _ _ _ _ E2)
    as (d & Hd & _ & Hframe & Hrec & Hin & _).
  destruct (deriveParent_frame _ _ _ _ _ _ _ Hframe Hd) as [_ Hd'].
  split; [done|]. split; [done|]. split; [done|].
  exists d. split; [done|]. split; [by apply Hrec|done].
Qed.

(** X30. [hideLayerGroup] followed by [showLayerGroup] for a spatial group
    with a layer group, in a viewer whose feature groups are nested by rank
    with the derived parent above the layer group and whose listeners find
    what they read: both calls return the layer group; after the first the
    layer group records no parent; after the second it records the parent
    derived from the model again and, when that parent is a control group,
    its layer is a member of the feature group of that control group. *)
Theorem hide_show_roundtrip rank st g sg lg grp d :
  sgroups st !! g = Some sg ->
  sg_layerGroup sg = Some lg ->
  lgroups st !! lg = Some grp ->
  deriveParent KLayerGroup lg st = Some (d, st) ->
  wired rank st ->
  (forall pr, d = Ref pr -> rank lg < rank pr) ->
  exists st1 st2,
    hideLayerGroup g st = Some (Some lg, st1) /\
    showLayerGroup g st1 = Some (Some lg, st2) /\
    recorded_parent st1 KLayerGroup lg = Some Null /\
    deriveParent KLayerGroup lg st2 = Some (d, st2) /\
    recorded_parent st2 KLayerGroup lg = Some d /\
    forall pr, d = Ref pr -> lg ∈ group_members st2 pr.
Proof.
  intros Hg Hlg Hgrp Hd Hw Hr.
  assert (Hx : parent_of KLayerGroup lg st = Some (lg_parent grp, st)).
  { unfold parent_of, bind, deref, ret. by rewrite Hgrp. }
  destruct (removeFromParent_returns rank KLayerGroup lg _ st Hx Hw)
    as (st1 & E1 & Hw1); [discriminate|].
  destruct (removeFromParent_result _ _ _ _ _ Hx E1) as (Hf1 & _ & _).
  destruct (deriveParent_frame _ _ _ _ _ _ _ Hf1 Hd) as [_ Hd1].
  assert (Hhl : has_layer KLayerGroup lg st = Some (true, st)).
  { unfold has_layer, bind, deref, ret. by rewrite Hgrp. }
  destruct (has_layer_frame _ _ _ _ _ _ _ Hf1 Hhl) as [_ Hhl1].
  destruct (addToDerivedParent_returns rank KLayerGroup lg d st1
              Hd1 Hhl1 Hw1 Hr) as (st2 & E2); [discriminate|].
  assert (Hhide : hideLayerGroup g st = Some (Some lg, st1)).
  { unfold hideLayerGroup.
    rewrite (bind_eq _ _ _ _ _ (deref_eq _ _ _ _ Hg)), Hlg.
    by rewrite (bind_eq _ _ _ _ _ E1). }
  assert (Hsg1 : sgroups st1 !! g = Some sg).
  { destruct Hf1 as (_ & _ & -> & _). done. }
  assert (Hshow : showLayerGroup g st1 = Some (Some lg, st2)).
  { unfold showLayerGroup.
    rewrite (bind_eq _ _ _ _ _ (deref_eq _ _ _ _ Hsg1)), Hlg.
    unfold bind at 1. unfold ret at 1.
    rewrite (bind_eq _ _ _ _ _ (deref_eq _ _ _ _ Hsg1)), Hlg.
    by rewrite (bind_eq _ _ _ _ _ E2). }
  exists st1, st2. split; [done|]. split; [done|].
  destruct (hide_show_result st g sg lg _ st1 _ st2 Hg Hlg Hhide Hshow)
    as (_ & _ & Hrec1 & d' & Hd' & Hrec2 & Hin).
  split; [done|].
  destruct (addToDerivedParent_result _ _ _ _ E2)
    as (d2 & Hd2 & _ & Hf2 & _).
  rewrite Hd1 in Hd2. injection Hd2 as <-.
  destruct (deriveParent_frame _ _ _ _ _ _ _ Hf2 Hd1) as [_ Hd2'].
  rewrite Hd2' in Hd'. injection Hd' as <-.
  done.
Qed.

End MapHideShow.

(** [hide_show_roundtrip] for the spatial group 1 of the example, whose
    layer group 1 lies in the control group 0. *)
Lemma hide_show_roundtrip_witness :
  exists st1 st2,
    MapViewer.hideLayerGroup 1 MapExample.with_lines = Some (Some 1, st1) /\
    MapViewer.showLayerGroup 1 st1 = Some (Some 1, st2) /\
    MapSpec.recorded_parent st1 MapViewer.KLayerGroup 1 = Some MapViewer.Null /\
    MapViewer.deriveParent MapViewer.KLayerGroup 1 st2
    = Some (MapViewer.Ref 0, st2) /\
    MapSpec.recorded_parent st2 MapViewer.KLayerGroup 1
    = Some (MapViewer.Ref 0) /\
    forall pr, MapViewer.Ref 0 = MapViewer.Ref pr ->
               1 ∈ MapSpec.group_members st2 pr.
Proof.
  apply (hide_show_roundtrip MapExample.rank MapExample.with_lines 1
           {| MapViewer.sg_superGroup := Some 0;
              MapViewer.sg_layerGroup := Some 1 |} 1
           {| MapViewer.lg_spatialGroup := 1;
              MapViewer.lg_parent := MapViewer.Ref 0 |}
           (MapViewer.Ref 0)).
  - vm_compute. reflexivity.
  - reflexivity.
  - vm_compute. reflexivity.
  - vm_compute. reflexivity.
  - apply wiredb_sound. vm_compute. reflexivity.
  - intros pr Hpr. injection Hpr as <-. vm_compute. lia.
Defined.
(** * The timeline projection: refresh, deletion and repeated selection *)

Section TimelineFrames.
Import Js Eff Timeline TimelineSpec.

Lemma upd_items_same f st : f (items st) = items st -> upd_items f st = st.
Proof. destruct st. unfold upd_items. simpl. by intros ->. Qed.

Lemma upd_selections_same f st :
  f (selections st) = selections st -> upd_selections f st = st.
Proof. destruct st. unfold upd_selections. simpl. by intros ->. Qed.

Lemma upd_groups_same f st : f (groups st) = groups st -> upd_groups f st = st.
Proof. destruct st. unfold upd_groups. simpl. by intros ->. Qed.

(** What [refreshItems] leaves as it is. *)
Lemma refreshItems_keeps force st st1 :
  refreshItems force st = Some (tt, st1) ->
  items st1 = items st /\ groups st1 = groups st /\
  selections st1 = selections st /\ events st1 = events st /\
  iobjs st1 = iobjs st /\ gobjs st1 = gobjs st /\
  sgroups st1 = sgroups st /\ tgroups st1 = tgroups st /\
  settings st1 = settings st.
Proof.
  intros H.
  destruct (negb force
            && ((bgwidth (tl st) =? width st)%Z
                && isSame (lookahead_start (tl st)) (start st)
                && isSame (lookahead_end (tl st)) (end_ st))) eqn:Hg.
  - unfold refreshItems in H. unfold bind at 1, gets at 1 in H.
    unfold bind at 1, gets at 1 in H. cbv beta iota in H.
    rewrite Hg in H. by injection H as <-.
  - destruct (refreshItems_recompute _ _ _ H Hg) as (c1 & c2 & ->).
    by repeat split.
Qed.

(** A pass of [refreshItems] that gets past the guard stores the window
    and calls the rendering layer twice: with the items and with the ids of
    the selection. *)
Lemma refreshItems_pushes force st st1 :
  refreshItems force st = Some (tt, st1) ->
  (negb force
   && ((bgwidth (tl st) =? width st)%Z
       && isSame (lookahead_start (tl st)) (start st)
       && isSame (lookahead_end (tl st)) (end_ st))) = false ->
  exists shown,
    st1 = upd_tl (record_call (SetSelection (keys (selections st))))
            (upd_tl (record_call (SetItems shown))
               (store_window (bgwidth (tl st)) (lookahead_start (tl st))
                  (lookahead_end (tl st)) st)).
Proof.
  unfold refreshItems. unfold bind at 1. unfold gets at 1.
  unfold bind at 1. unfold gets at 1. cbv beta iota.
  intros H Hg. rewrite Hg in H.
  unfold bind at 1 in H. unfold modify at 1 in H. cbv beta iota in H.
  set (st' := store_window _ _ _ st) in *.
  unfold bind at 1 in H. unfold gets at 1 in H. cbv beta iota in H.
  unfold bind at 1 in H. unfold gets at 1 in H. cbv beta iota in H.
  unfold bind at 1 in H.
  destruct (aggregateItems (settings st')).
  - unfold bind at 1 in H.
    destruct (filterM _ _ st') as [[vis sa]|] eqn:Ef; [|done].
    apply reads_filterM in Ef as ->; [|intros; apply reads_in_window].
    unfold bind at 1 in H. unfold gets at 1 in H. cbv beta iota in H.
    unfold bind at 1 in H.
    destruct (foldM _ _ _ st') as [[out sb]|] eqn:Eg; [|done].
    apply reads_foldM in Eg as ->.
    2:{ intros acc gr. apply reads_bind; [apply reads_collect|].
        intros gi. apply reads_ret. }
    unfold tl_call, modify in H. cbv beta iota in H.
    unfold refreshSelections, bind, getSelectionsIds, gets, tl_call, modify in H.
    injection H as <-. by exists out.
  - unfold tl_call, modify in H. cbv beta iota in H.
    unfold refreshSelections, bind, getSelectionsIds, gets, tl_call, modify in H.
    injection H as <-. by eexists.
Qed.

(** X21. [refreshItems] touches only the stored window and the rendering
    layer: the registered items and groups, the selection, the objects and
    the emitted events are the same after the call, forced or not.  The
    call either changes nothing at all, or stores the measured width and
    the computed window and hands the rendering layer the items and then
    the ids of the selection. *)
Theorem refreshItems_frame force st st1 :
  refreshItems force st = Some (tt, st1) ->
  (items st1 = items st /\ groups st1 = groups st /\
   selections st1 = selections st /\ events st1 = events st /\
   iobjs st1 = iobjs st /\ gobjs st1 = gobjs st /\
   sgroups st1 = sgroups st /\ tgroups st1 = tgroups st /\
   settings st1 = settings st) /\
  (st1 = st \/
   exists shown,
     calls (tl st1)
     = calls (tl st) ++ [SetItems shown; SetSelection (keys (selections st))] /\
     width st1 = bgwidth (tl st) /\
     start st1 = lookahead_start (tl st) /\
     end_ st1 = lookahead_end (tl st)).
Proof.
  intros H. split; [exact (refreshItems_keeps force st st1 H)|].
  destruct (negb force
            && ((bgwidth (tl st) =? width st)%Z
                && isSame (lookahead_start (tl st)) (start st)
                && isSame (lookahead_end (tl st)) (end_ st))) eqn:Hg.
  - left. unfold refreshItems in H. unfold bind at 1, gets at 1 in H.
    unfold bind at 1, gets at 1 in H. cbv beta iota in H.
    rewrite Hg in H. by injection H as <-.
  - right. destruct (refreshItems_pushes _ _ _ H Hg) as (shown & ->).
    exists shown. simpl. by rewrite <- app_assoc.
Qed.

(** X22. [deleteItem] for a spatial group whose id is not registered
    leaves the viewer as it is. *)
Theorem deleteItem_absent st g sg :
  sgroups st !! g = Some sg ->
  has (sg_id sg) (items st) = false ->
  deleteItem g st = Some (tt, st).
Proof.
  intros Hg Hno. unfold deleteItem, bind, deref, gets, modify, ret.
  rewrite Hg, Hno. simpl.
  by rewrite upd_items_same by (by apply delete_absent).
Qed.

Lemma has_delete_eq {V} k (m : strmap V) : has k (delete k m) = false.
Proof. unfold has. by rewrite get_delete_eq. Qed.

(** X23. [deleteItem] for a registered spatial group with its item drops
    the id from the registered items and from the selection, clears the
    item of the spatial group, and emits DESELECT for the item if it was
    selected and then DELETE. *)
Theorem deleteItem_registered st g sg i it st' :
  sgroups st !! g = Some sg ->
  sg_item sg = Some i ->
  iobjs st !! i = Some it ->
  it_id it = sg_id sg ->
  has (sg_id sg) (items st) = true ->
  deleteItem g st = Some (tt, st') ->
  has (sg_id sg) (items st') = false /\
  has (sg_id sg) (selections st') = false /\
  (exists sg', sgroups st' !! g = Some sg' /\ sg_item sg' = None) /\
  events st'
  = events st
    ++ (if has (sg_id sg) (selections st) then [(EItem i, DESELECT)] else [])
    ++ [(EItem i, DELETE)].
Proof.
  intros Hg Hi Hit Hid Hreg. unfold deleteItem.
  unfold bind at 1. rewrite (deref_eq _ _ _ _ Hg).
  unfold bind at 1, gets at 1. rewrite Hreg.
  unfold bind at 1, modify at 1. rewrite Hi.
  set (s0 := upd_items (delete (sg_id sg)) st).
  destruct (toggle_off s0 i it Hit) as (s1 & E1 & (Hio & Hsg & Htg & Hits) & Hsel & Hev).
  unfold bind at 1. rewrite E1.
  unfold bind at 1.
  rewrite (deref_eq sgroups g s1 sg) by (rewrite Hsg; exact Hg).
  unfold bind at 1, modify at 1.
  unfold bind at 1.
  destruct (refreshItems true _) as [[[] s3]|] eqn:E3; [|done].
  apply refreshItems_keeps in E3
    as (Hit3 & _ & Hsel3 & Hev3 & _ & _ & Hsg3 & _).
  unfold emit, modify. intros [= <-]. simpl in *.
  rewrite Hit3, Hsel3, Hev3, Hsg3, Hits, Hsel, Hev, Hid.
  split; [apply has_delete_eq|]. split; [apply has_delete_eq|].
  split; [eexists; split; [apply lookup_insert_eq|done]|].
  by rewrite <- app_assoc.
Qed.

End TimelineFrames.

(** [refreshItems_frame], [deleteItem_absent] and [deleteItem_registered]
    in the examples. *)
Lemma refreshItems_frame_witness :
  (Timeline.items TimelineExample.refreshed
   = Timeline.items TimelineExample.populated /\
   Timeline.groups TimelineExample.refreshed
   = Timeline.groups TimelineExample.populated /\
   Timeline.selections TimelineExample.refreshed
   = Timeline.selections TimelineExample.populated /\
   Timeline.events TimelineExample.refreshed
   = Timeline.events TimelineExample.populated /\
   Timeline.iobjs TimelineExample.refreshed
   = Timeline.iobjs TimelineExample.populated /\
   Timeline.gobjs TimelineExample.refreshed
   = Timeline.gobjs TimelineExample.populated /\
   Timeline.sgroups TimelineExample.refreshed
   = Timeline.sgroups TimelineExample.populated /\
   Timeline.tgroups TimelineExample.refreshed
   = Timeline.tgroups TimelineExample.populated /\
   Timeline.settings TimelineExample.refreshed
   = Timeline.settings TimelineExample.populated) /\
  (TimelineExample.refreshed = TimelineExample.populated \/
   exists shown,
     Timeline.calls (Timeline.tl TimelineExample.refreshed)
     = Timeline.calls (Timeline.tl TimelineExample.populated)
       ++ [Timeline.SetItems shown;
           Timeline.SetSelection
             (Js.keys (Timeline.selections TimelineExample.populated))] /\
     Timeline.width TimelineExample.refreshed
     = Timeline.bgwidth (Timeline.tl TimelineExample.populated) /\
     Timeline.start TimelineExample.refreshed
     = Timeline.lookahead_start (Timeline.tl TimelineExample.populated) /\
     Timeline.end_ TimelineExample.refreshed
     = Timeline.lookahead_end (Timeline.tl TimelineExample.populated)).
Proof.
  apply (refreshItems_frame false).
  vm_compute. reflexivity.
Defined.

Lemma deleteItem_absent_witness :
  Timeline.deleteItem 1 TimelineExample.two_rows
  = Some (tt, TimelineExample.two_rows).
Proof.
  apply (deleteItem_absent TimelineExample.two_rows 1
           (TimelineExample.sg_in 0 "a" 0)).
  - vm_compute. reflexivity.
  - reflexivity.
Defined.

Lemma deleteItem_registered_witness :
  Js.has "a" (Timeline.items TimelineExample.a_deleted) = false /\
  Js.has "a" (Timeline.selections TimelineExample.a_deleted) = false /\
  (exists sg', Timeline.sgroups TimelineExample.a_deleted !! 1 = Some sg' /\
               Timeline.sg_item sg' = None) /\
  Timeline.events TimelineExample.a_deleted
  = Timeline.events TimelineExample.a_selected
    ++ (if Js.has "a" (Timeline.selections TimelineExample.a_selected)
        then [(Timeline.EItem 2, Timeline.DESELECT)] else [])
    ++ [(Timeline.EItem 2, Timeline.DELETE)].
Proof.
  apply (deleteItem_registered TimelineExample.a_selected 1
           (Timeline.with_item (Some 2) (TimelineExample.sg_in 0 "a" 0)) 2
           (TimelineExample.it "a" 0 1)).
  - vm_compute. reflexivity.
  - reflexivity.
  - vm_compute. reflexivity.
  - reflexivity.
  - vm_compute. reflexivity.
  - vm_compute. reflexivity.
Defined.

Section RepeatedSelection.
Import Js Eff Timeline TimelineSpec.

(** X24. [toggleSelection] with the selection state the item already has
    changes nothing: no entry moves, no event is emitted and the rendering
    layer is not called. *)
Theorem toggle_again st r it :
  iobjs st !! r = Some it ->
  toggleSelection (Some r) (Some (has (it_id it) (selections st))) st
  = Some (Some r, st).
Proof.
  intros Hi. unfold toggleSelection.
  unfold isSelected, bind, deref, gets, ret, emit, modify,
    refreshSelections, bind, getSelectionsIds, gets, tl_call, modify.
  destruct (has (it_id it) (selections st)) eqn:Hsel; cbv beta iota.
  - rewrite Hi. cbv beta iota. rewrite Hsel. done.
  - rewrite Hi. cbv beta iota. rewrite Hsel. cbv beta iota.
    by rewrite upd_selections_same by (by apply delete_absent).
Qed.

Lemma toggle_default st r it :
  iobjs st !! r = Some it ->
  toggleSelection (Some r) None st
  = toggleSelection (Some r) (Some (negb (has (it_id it) (selections st)))) st.
Proof.
  intros Hi. unfold toggleSelection.
  unfold bind at 1. unfold bind at 1. unfold isSelected at 1.
  unfold bind at 1. rewrite (deref_eq _ _ _ _ Hi).
  unfold gets at 1, ret at 1. unfold bind at 3. unfold ret at 1. done.
Qed.

Lemma delete_set_fresh {V} k (v : V) (m : strmap V) :
  has k m = false -> delete k (set k v m) = m.
Proof.
  unfold has, delete. induction m as [|[k' v'] m IH]; simpl.
  - intros _. rewrite filter_cons. simpl. by rewrite decide_False by (by intros H; apply H).
  - destruct (decide (k' = k)) as [->|Hne]; [done|]. intros Hm.
    rewrite filter_cons. simpl. rewrite decide_True by done.
    f_equal. by apply IH.
Qed.

Lemma has_set_eq {V} k (v : V) (m : strmap V) : has k (set k v m) = true.
Proof. unfold has. by rewrite get_set_eq. Qed.

(** X25. Clicking twice on an unselected item of a multiselect group (or
    of a group without super group) selects and deselects it: the selection
    is the one before the clicks, and the events are SELECT and
    DESELECT. *)
Theorem toggle_twice st r it sg :
  iobjs st !! r = Some it ->
  sgroups st !! it_spatialGroup it = Some sg ->
  sg_superGroup sg = None \/ sg_multiselect sg = true ->
  has (it_id it) (selections st) = false ->
  exists st1 st2,
    toggleSelection (Some r) None st = Some (Some r, st1) /\
    toggleSelection (Some r) None st1 = Some (Some r, st2) /\
    has (it_id it) (selections st1) = true /\
    selections st2 = selections st /\
    events st2 = events st ++ [(EItem r, SELECT); (EItem r, DESELECT)].
Proof.
  intros Hi Hsg Hm Hsel.
  destruct (toggle_on_multi st r it sg Hi Hsg Hm)
    as (st1 & E1 & (Hio & _) & Hs1 & He1).
  rewrite Hsel in Hs1, He1.
  assert (Hi1 : iobjs st1 !! r = Some it) by (by rewrite Hio).
  destruct (toggle_off st1 r it Hi1) as (st2 & E2 & _ & Hs2 & He2).
  assert (Hsel1 : has (it_id it) (selections st1) = true)
    by (rewrite Hs1; apply has_set_eq).
  rewrite Hsel1 in He2.
  exists st1, st2.
  split; [by rewrite (toggle_default _ _ _ Hi), Hsel|].
  split; [by rewrite (toggle_default _ _ _ Hi1), Hsel1|].
  split; [done|]. split.
  - rewrite Hs2, Hs1. by apply delete_set_fresh.
  - by rewrite He2, He1, <- app_assoc.
Qed.

End RepeatedSelection.

Section Keeps.
Import Js Eff Timeline TimelineSpec.
Context {B : Type} (f : viewer -> B).

Lemma keeps_ret {A} (a : A) : keeps f (ret a).
Proof. by intros st b st' [= _ <-]. Qed.

Lemma keeps_throw {A} : keeps f (@throw viewer A).
Proof. intros st b st' [=]. Qed.

Lemma keeps_gets {A} (h : viewer -> A) : keeps f (gets h).
Proof. by intros st b st' [= _ <-]. Qed.

Lemma keeps_deref {A} (heap : viewer -> gmap nat A) r : keeps f (deref heap r).
Proof.
  intros st b st'. unfold deref. destruct (heap st !! r); [|done].
  by intros [= _ <-].
Qed.

Lemma keeps_modify h : (forall st, f (h st) = f st) -> keeps f (modify h).
Proof. intros Hh st b st' [= _ <-]. apply Hh. Qed.

Lemma keeps_bind {A C} (m : M A) (k : A -> M C) :
  keeps f m -> (forall a, keeps f (k a)) -> keeps f (bind m k).
Proof.
  intros Hm Hk st b st'. unfold bind.
  destruct (m st) as [[a st1]|] eqn:E; [|done].
  intros H. rewrite (Hk _ _ _ _ H). by eapply Hm.
Qed.

Lemma keeps_forM_ {A} (h : A -> M unit) l :
  (forall x, keeps f (h x)) -> keeps f (forM_ l h).
Proof.
  intros Hh. induction l as [|x l IH]; simpl.
  - apply keeps_ret.
  - apply keeps_bind; [apply Hh | intros _; apply IH].
Qed.

End Keeps.

Ltac kp_step :=
  first
    [ apply keeps_ret
    | apply keeps_gets
    | apply keeps_deref
    | apply keeps_throw
    | apply keeps_modify; intros ?; reflexivity
    | apply keeps_bind; [|intros ?]
    | apply keeps_forM_; intros ?
    | match goal with
      | |- TimelineSpec.keeps _ (match ?x with _ => _ end) => destruct x
      end ].

Section GroupDeletion.
Import Js Eff Timeline TimelineSpec.

Lemma keeps_groups_toggleSelection i s :
  keeps groups (toggleSelection i s).
Proof.
  unfold toggleSelection, isSelected, refreshSelections, getSelectionsIds,
    emit, tl_call.
  repeat first
    [ kp_step
    | unfold deselect_sibling, child_item, emit ].
Qed.

Lemma keeps_groups_refreshItems force : keeps groups (refreshItems force).
Proof.
  intros st [] st' H. by apply refreshItems_keeps in H as (_ & H & _).
Qed.

Lemma keeps_groups_deleteItem g : keeps groups (deleteItem g).
Proof.
  unfold deleteItem, emit.
  repeat first
    [ apply keeps_groups_toggleSelection
    | apply keeps_groups_refreshItems
    | kp_step ].
Qed.

(** X26. [deleteGroup] drops the registration of the group itself and of
    no other group: the groups nested in it stay registered, their ids
    being handed to [deleteGroup] in place of the groups.  For a group that
    is not registered nothing changes; for a registered group the last
    event is its DELETE. *)
Theorem deleteGroup_own_registration st g t st' :
  tgroups st !! g = Some t ->
  deleteGroup g st = Some (tt, st') ->
  groups st' = delete (tg_id t) (groups st) /\
  (has (tg_id t) (groups st) = false -> st' = st) /\
  (has (tg_id t) (groups st) = true ->
   exists gr, tg_group t = Some gr /\
              last (events st') = Some (EGroup gr, DELETE)).
Proof.
  intros Hg. unfold deleteGroup.
  unfold bind at 1. rewrite (deref_eq _ _ _ _ Hg).
  unfold bind at 1, gets at 1. unfold bind at 1, modify at 1.
  destruct (has (tg_id t) (groups st)) eqn:Hreg.
  - destruct (tg_group t) as [gr|]; [|done].
    set (s0 := upd_groups (delete (tg_id t)) st).
    intros H.
    assert (K : keeps groups
                  (let! o := deref gobjs gr in
                   let! _ :=
                     match gr_nestedGroups o with
                     | Some ids => forM_ ids deleteGroup_of_id
                     | None => ret tt
                     end in
                   let! snapshot := gets items in
                   let! _ := forM_ snapshot (delete_item_of (tg_id t)) in
                   let! _ :=
                     match tg_superGroup t with
                     | Some sup =>
                         let! s := deref tgroups sup in
                         match tg_group s with
                         | Some sgr =>
                             let! so := deref gobjs sgr in
                             match gr_nestedGroups so with
                             | Some ids =>
                                 modify (upd_gobjs
                                           <[sgr := with_nested
                                                      (Some (remove_first (tg_id t) ids))
                                                      so]>)
                             | None => ret tt
                             end
                         | None => ret tt
                         end
                     | None => ret tt
                     end in
                   let! t' := deref tgroups g in
                   let! _ := modify (upd_tgroups <[g := with_group None t']>) in
                   let! _ := refreshGroups in
                   emit (EGroup gr) DELETE)).
    { unfold deleteGroup_of_id, delete_item_of, refreshGroups, tl_call, emit.
      repeat first [apply keeps_groups_deleteItem | kp_step]. }
    split; [exact (K _ _ _ H)|]. split; [done|]. intros _.
    exists gr. split; [done|].
    clear K. revert H. generalize s0. clear s0. intros s0.
    bind_inv s1 E1. bind_inv s2 E2. bind_inv s3 E3. bind_inv s4 E4.
    bind_inv s5 E5. bind_inv s6 E6. bind_inv s7 E7. bind_inv s8 E8.
    unfold emit, modify. intros [= <-]. simpl. by rewrite last_snoc.
  - intros [= <-].
    rewrite upd_groups_same by (by apply delete_absent).
    split; [symmetry; by apply delete_absent|]. split; [done|]. intros [=].
Qed.

End GroupDeletion.

(** [toggle_again], [toggle_twice] and [deleteGroup_own_registration] in
    the examples. *)
Lemma toggle_again_witness :
  Timeline.toggleSelection (Some 2) (Some true) TimelineExample.a_selected
  = Some (Some 2, TimelineExample.a_selected).
Proof.
  assert (H : Js.has "a" (Timeline.selections TimelineExample.a_selected) = true)
    by (vm_compute; reflexivity).
  rewrite <- H at 1.
  apply (toggle_again TimelineExample.a_selected 2 (TimelineExample.it "a" 0 1)).
  vm_compute. reflexivity.
Defined.

Lemma toggle_twice_witness :
  exists st1 st2,
    Timeline.toggleSelection (Some 3) None TimelineExample.multi_rows
    = Some (Some 3, st1) /\
    Timeline.toggleSelection (Some 3) None st1 = Some (Some 3, st2) /\
    Js.has "b" (Timeline.selections st1) = true /\
    Timeline.selections st2 = Timeline.selections TimelineExample.multi_rows /\
    Timeline.events st2
    = Timeline.events TimelineExample.multi_rows
      ++ [(Timeline.EItem 3, Timeline.SELECT);
          (Timeline.EItem 3, Timeline.DESELECT)].
Proof.
  apply (toggle_twice TimelineExample.multi_rows 3 (TimelineExample.it "b" 1 2)
           (TimelineExample.multi
              (Timeline.with_item (Some 3) (TimelineExample.sg_in 0 "b" 1)))).
  - vm_compute. reflexivity.
  - vm_compute. reflexivity.
  - right. reflexivity.
  - vm_compute. reflexivity.
Defined.

Lemma deleteGroup_own_registration_witness :
  Js.has "Q" (Timeline.groups TimelineExample.parent_deleted) = true /\
  Timeline.groups TimelineExample.parent_deleted
  = Js.delete "P" (Timeline.groups TimelineExample.nested_groups) /\
  (Js.has "P" (Timeline.groups TimelineExample.nested_groups) = false ->
   TimelineExample.parent_deleted = TimelineExample.nested_groups) /\
  (Js.has "P" (Timeline.groups TimelineExample.nested_groups) = true ->
   exists gr,
     Some 0 = Some gr /\
     last (Timeline.events TimelineExample.parent_deleted)
     = Some (Timeline.EGroup gr, Timeline.DELETE)).
Proof.
  split; [vm_compute; reflexivity|].
  apply (deleteGroup_own_registration TimelineExample.nested_groups 20
           (Timeline.with_group (Some 0)
              (TimelineExample.tg_with "P" [Timeline.CTemporal 21]))).
  - vm_compute. reflexivity.
  - vm_compute. reflexivity.
Defined.

Section ItemUpdate.
Import Js Eff Timeline TimelineSpec.

(** X27. After [updateItem] the item of the spatial group lies in the row
    of the super group the spatial group has now, and a second call changes
    nothing. *)
Theorem updateItem_syncs st g sg i t sup st' :
  sgroups st !! g = Some sg ->
  sg_item sg = Some i ->
  sg_superGroup sg = Some t ->
  tgroups st !! t = Some sup ->
  updateItem g st = Some (tt, st') ->
  (exists it', iobjs st' !! i = Some it' /\ it_group it' = tg_id sup) /\
  updateItem g st' = Some (tt, st').
Proof.
  intros Hg Hi Ht Hsup.
  assert (Hsame : forall s it,
            sgroups s !! g = Some sg -> tgroups s !! t = Some sup ->
            iobjs s !! i = Some it -> it_group it = tg_id sup ->
            updateItem g s = Some (tt, s)).
  { intros s it Hg' Hsup' Hit Heq. unfold updateItem.
    rewrite (bind_eq _ _ _ _ _ (deref_eq _ _ _ _ Hg')), Hi, Ht.
    rewrite (bind_eq _ _ _ _ _ (deref_eq _ _ _ _ Hit)).
    rewrite (bind_eq _ _ _ _ _ (deref_eq _ _ _ _ Hsup')).
    by rewrite decide_False by (by intros H; apply H). }
  unfold updateItem.
  rewrite (bind_eq _ _ _ _ _ (deref_eq _ _ _ _ Hg)), Hi, Ht.
  unfold bind at 1. destruct (deref iobjs i st) as [[it s0]|] eqn:Ei; [|done].
  apply deref_inv in Ei as [-> Hit].
  rewrite (bind_eq _ _ _ _ _ (deref_eq _ _ _ _ Hsup)).
  destruct (decide (it_group it <> tg_id sup)) as [Hne|Heq].
  - unfold bind at 1, modify at 1.
    unfold bind at 1, gets at 1.
    unfold bind at 1, tl_call at 1, modify at 1.
    intros H. apply refreshItems_keeps in H
      as (_ & _ & _ & _ & Hio & _ & Hsg' & Htg' & _).
    simpl in Hio, Hsg', Htg'.
    assert (Hit' : iobjs st' !! i = Some (with_it_group (tg_id sup) it))
      by (rewrite Hio; apply lookup_insert_eq).
    split; [by eexists|].
    eapply Hsame; [by rewrite Hsg'|by rewrite Htg'|exact Hit'|done].
  - intros [= <-].
    assert (it_group it = tg_id sup) as Heq'.
    { destruct (decide (it_group it = tg_id sup)); [done|]. by destruct Heq. }
    split; [by eexists|]. by eapply Hsame.
Qed.

End ItemUpdate.

(** [updateItem_syncs] in the example: the item a moves to the row U. *)
Lemma updateItem_syncs_witness :
  (exists it', Timeline.iobjs TimelineExample.a_updated !! 2 = Some it' /\
               Timeline.it_group it' = "U") /\
  Timeline.updateItem 1 TimelineExample.a_updated
  = Some (tt, TimelineExample.a_updated).
Proof.
  apply (updateItem_syncs TimelineExample.a_moved 1
           (Timeline.with_item (Some 2) (TimelineExample.sg_in 10 "a" 0)) 2 10
           (Timeline.with_group (Some 1) (TimelineExample.tg_with "U"
                                            [Timeline.CSpatial 11]))).
  - vm_compute. reflexivity.
  - reflexivity.
  - reflexivity.
  - vm_compute. reflexivity.
  - vm_compute. reflexivity.
Defined.

Section FirstCreation.
Import Js Eff Timeline TimelineSpec.

(** X28. The first [createItem] for a spatial group with a super group,
    whose id is not among the selections of the settings: the call returns
    [undefined]; the new item carries the id, the name, the description
    and the time slot of the spatial group and the id of its super group;
    it is registered under the id and recorded as the item of the spatial
    group; one refresh is scheduled, CREATE is the only event and the
    selection is not touched. *)
Theorem createItem_first st g sg t sup :
  sgroups st !! g = Some sg ->
  has (sg_id sg) (items st) = false ->
  sg_superGroup sg = Some t ->
  tgroups st !! t = Some sup ->
  sg_id sg ∉ timelineSelections (settings st) ->
  exists st',
    createItem g st = Some (None, st') /\
    get (sg_id sg) (items st') = Some (next_ref st) /\
    iobjs st' !! next_ref st
    = Some {| it_group := tg_id sup; it_id := sg_id sg;
              it_title := sg_description sg; it_content := sg_name sg;
              it_start := sg_timeslot sg; it_spatialGroup := g |} /\
    sgroups st' !! g = Some (with_item (Some (next_ref st)) sg) /\
    timers st' = S (timers st) /\
    events st' = events st ++ [(EItem (next_ref st), CREATE)] /\
    selections st' = selections st.
Proof.
  intros Hg Hno Ht Hsup Hsel.
  unfold createItem, new_item, alloc, bind, deref, gets, modify, ret, emit.
  rewrite Hg. simpl. rewrite Hno, Hg, Ht, Hsup. simpl.
  rewrite lookup_insert_eq. simpl.
  rewrite bool_decide_eq_false_2 by (by rewrite elem_of_newSet).
  eexists. split; [reflexivity|]. simpl.
  split; [apply get_set_eq|]. split; [apply lookup_insert_eq|].
  split; [apply lookup_insert_eq|]. done.
Qed.

(** X29. The first [createGroup] for a temporal group nested in a
    temporal group whose timeline group exists: the call returns
    [undefined]; the id of the new group is appended to the nested groups
    of the parent's timeline group, the new group names that group as the
    one it is nested in and lies one level below the depth of its temporal
    group; it is registered under its id, the rendering layer receives the
    registered groups, and CREATE is the only event. *)
Theorem createGroup_first_nested st g t p pt pg po :
  tgroups st !! g = Some t ->
  has (tg_id t) (groups st) = false ->
  tg_superGroup t = Some p ->
  tgroups st !! p = Some pt ->
  tg_group pt = Some pg ->
  gobjs st !! pg = Some po ->
  pg <> next_ref st ->
  exists st',
    createGroup g st = Some (None, st') /\
    get (tg_id t) (groups st') = Some (next_ref st) /\
    gobjs st' !! pg = Some (push_nested (tg_id t) po) /\
    gobjs st' !! next_ref st
    = Some {| gr_id := tg_id t; gr_title := tg_description t;
              gr_content := tg_name t; gr_nestedGroups := None;
              gr_treeLevel := tg_depth t + 1;
              gr_nestedInGroup := Some (gr_id po);
              gr_temporalGroup := g |} /\
    last (calls (tl st')) = Some (SetGroups (values (groups st'))) /\
    events st' = events st ++ [(EGroup (next_ref st), CREATE)].
Proof.
  intros Hg Hno Hsup Hp Hpg Hpo Hfresh.
  unfold createGroup, new_group, alloc, refreshGroups, tl_call,
    bind, deref, gets, modify, ret, emit.
  rewrite Hg. simpl. rewrite Hno, Hg, Hsup, Hp, Hpg, Hpo. simpl.
  rewrite lookup_insert_eq. simpl.
  eexists. split; [reflexivity|]. simpl.
  split; [apply get_set_eq|].
  split; [rewrite lookup_insert_ne by done; apply lookup_insert_eq|].
  split; [apply lookup_insert_eq|].
  split; [by rewrite last_snoc|done].
Qed.

End FirstCreation.

(** [createItem_first] for the spatial group a of the two rows, once the
    groups are registered, and [createGroup_first_nested] for the row Q
    nested in the row P. *)
Lemma createItem_first_witness :
  exists st',
    Timeline.createItem 1 TimelineExample.rows_groups = Some (None, st') /\
    Js.get "a" (Timeline.items st') = Some 2 /\
    Timeline.iobjs st' !! 2 = Some (TimelineExample.it "a" 0 1) /\
    Timeline.sgroups st' !! 1
    = Some (Timeline.with_item (Some 2) (TimelineExample.sg_in 0 "a" 0)) /\
    Timeline.timers st' = 1 /\
    Timeline.events st'
    = Timeline.events TimelineExample.rows_groups
      ++ [(Timeline.EItem 2, Timeline.CREATE)] /\
    Timeline.selections st' = Timeline.selections TimelineExample.rows_groups.
Proof.
  apply (createItem_first TimelineExample.rows_groups 1
           (TimelineExample.sg_in 0 "a" 0) 0
           (Timeline.with_group (Some 0)
              (TimelineExample.tg_with "T"
                 [Timeline.CSpatial 1; Timeline.CSpatial 2; Timeline.CSpatial 3]))).
  - vm_compute. reflexivity.
  - reflexivity.
  - reflexivity.
  - vm_compute. reflexivity.
  - intros H. exact (proj1 (elem_of_nil _) H).
Defined.

Lemma createGroup_first_nested_witness :
  exists st',
    Timeline.createGroup 21 TimelineExample.parent_group = Some (None, st') /\
    Js.get "Q" (Timeline.groups st') = Some 1 /\
    (exists po, Timeline.gobjs st' !! 0 = Some po /\
                Timeline.gr_nestedGroups po = Some ["Q"]) /\
    (exists gr, Timeline.gobjs st' !! 1 = Some gr /\
                Timeline.gr_nestedInGroup gr = Some "P" /\
                Timeline.gr_treeLevel gr = 2) /\
    last (Timeline.calls (Timeline.tl st'))
    = Some (Timeline.SetGroups (Js.values (Timeline.groups st'))) /\
    Timeline.events st'
    = Timeline.events TimelineExample.parent_group
      ++ [(Timeline.EGroup 1, Timeline.CREATE)].
Proof.
  destruct (createGroup_first_nested TimelineExample.parent_group 21
              {| Timeline.tg_id := "Q"; Timeline.tg_name := "Q";
                 Timeline.tg_description := "Q";
                 Timeline.tg_superGroup := Some 20;
                 Timeline.tg_subGroups := [];
                 Timeline.tg_depth := 1; Timeline.tg_group := None |}
              20
              (Timeline.with_group (Some 0)
                 (TimelineExample.tg_with "P" [Timeline.CTemporal 21]))
              0
              {| Timeline.gr_id := "P"; Timeline.gr_title := EmptyString;
                 Timeline.gr_content := "P";
                 Timeline.gr_nestedGroups := None;
                 Timeline.gr_treeLevel := 1;
                 Timeline.gr_nestedInGroup := None;
                 Timeline.gr_temporalGroup := 20 |})
    as (st' & E & Hreg & Hpo & Hgr & Hcall & Hev).
  - vm_compute. reflexivity.
  - reflexivity.
  - reflexivity.
  - vm_compute. reflexivity.
  - reflexivity.
  - vm_compute. reflexivity.
  - discriminate.
  - exists st'. split; [exact E|]. split; [exact Hreg|].
    split; [eexists; split; [exact Hpo|reflexivity]|].
    split; [eexists; split; [exact Hgr|split; reflexivity]|].
    split; [exact Hcall|exact Hev].
Defined.
(** * Tour loading: theorems *)

Section TourLoading.
Import Eff Algorithms AlgorithmsSpec.

Context {entity error directory file path props MS : Type}.
Variable createTemporalGroup :
  props -> option directory -> MS -> outcome entity error * MS.
Variable createSpatialGroup :
  props -> link entity -> MS -> outcome entity error * MS.
Variable createVertex : props -> link entity -> MS -> outcome entity error * MS.
Variable createEdge : props -> link entity -> MS -> outcome entity error * MS.
Variable setDirectory : entity -> option directory -> MS -> MS.
Variable searchFile : directory -> path -> list file.
Variable readAsJSON : file -> list (tour entity path props).
Variable parent : file -> directory.

#[local] Abbreviation world := (Algorithms.world entity error directory props MS).
#[local] Abbreviation attempt := (Algorithms.attempt entity error directory props).
#[local] Abbreviation call := (Algorithms.call entity directory props).
#[local] Abbreviation loadGraph :=
  (Algorithms.loadGraph (path := path) createTemporalGroup createSpatialGroup
     createVertex createEdge setDirectory).
#[local] Abbreviation readTour :=
  (Algorithms.readTour createTemporalGroup createSpatialGroup createVertex
     createEdge setDirectory searchFile readAsJSON parent).

Lemma extends_refl (w : world) : extends w w [].
Proof. unfold extends. simpl. by rewrite !app_nil_r. Qed.

Lemma extends_trans (w1 w2 w3 : world) tr tr' :
  extends w1 w2 tr -> extends w2 w3 tr' -> extends w1 w3 (tr ++ tr').
Proof.
  intros (Ha & Hl & Hd) (Ha' & Hl' & Hd'). unfold extends, errors.
  rewrite Ha', Ha, Hl', Hl, Hd', Hd, flat_map_app, !app_assoc. done.
Qed.

Lemma errors_app (tr tr' : list attempt) :
  errors (tr ++ tr') = errors tr ++ errors tr'.
Proof. apply flat_map_app. Qed.

(** One call into the model, with the logging of what it throws. *)
Lemma invoke_logged {A} (c : call) f (k : entity -> A) (bad : A) (w : world)
    (after : entity -> Eff.M world unit) :
  (forall e w0, exists w1, after e w0 = Some (tt, w1) /\ extends w0 w1 []) ->
  exists o w',
    (let! o := invoke c f in
     match o with
     | Returned e => let! _ := after e in ret (k e)
     | Thrown x => let! _ := logger_log x in ret bad
     end) w
    = Some (match o with Returned e => k e | Thrown _ => bad end, w') /\
    extends w w' [{| a_call := c; a_outcome := o |}].
Proof.
  intros Hafter. unfold bind at 1, invoke.
  destruct (f (model w)) as [o m] eqn:E. exists o.
  destruct o as [e|x].
  - unfold bind.
    match goal with |- context [after e ?w0] =>
      destruct (Hafter e w0) as (w1 & -> & Ha & Hl & Hd) end.
    eexists. split; [reflexivity|]. unfold extends. simpl in *.
    rewrite Ha, Hl, Hd. simpl. rewrite !app_nil_r. done.
  - eexists. split; [reflexivity|]. unfold extends. simpl. done.
Qed.

Lemma ret_after (e : entity) (w0 : world) :
  exists w1, (ret tt : Eff.M world unit) w0 = Some (tt, w1) /\ extends w0 w1 [].
Proof. exists w0. split; [done|apply extends_refl]. Qed.

Lemma loadTemporalGroup_step acc j (w : world) :
  exists o w',
    loadTemporalGroup createTemporalGroup acc j w
    = Some (match o with
            | Returned tg =>
                (fst acc,
                 snd acc ++ map (set_superGroup tg) (or_empty (jtg_subGroups j)))
            | Thrown _ => (false, snd acc)
            end, w') /\
    extends w w' [{| a_call := CTemporalGroup j None; a_outcome := o |}].
Proof.
  destruct (invoke_logged (CTemporalGroup j None)
              (createTemporalGroup (jtg_props j) None)
              (fun tg => (fst acc, snd acc ++ map (set_superGroup tg)
                                     (or_empty (jtg_subGroups j))))
              (false, snd acc) w (fun _ => ret tt) ret_after)
    as (o & w' & H & Hext).
  exists o, w'. split; [|done]. rewrite <- H. unfold loadTemporalGroup.
  unfold bind. destruct (invoke _ _ w) as [[[e|x] w1]|]; done.
Qed.

Lemma loadSpatialGroup_step dir acc j (w : world) :
  exists o w',
    loadSpatialGroup createSpatialGroup setDirectory dir acc j w
    = Some (match o with
            | Returned sg =>
                (fst acc,
                 snd acc ++ map (set_spatialGroup sg) (or_empty (jsg_vertices j)))
            | Thrown _ => (false, snd acc)
            end, w') /\
    extends w w' [{| a_call := CSpatialGroup j; a_outcome := o |}].
Proof.
  destruct (invoke_logged (CSpatialGroup j)
              (createSpatialGroup (jsg_props j) (jsg_superGroup j))
              (fun sg => (fst acc, snd acc ++ map (set_spatialGroup sg)
                                     (or_empty (jsg_vertices j))))
              (false, snd acc) w
              (fun sg => assign_directory setDirectory sg dir))
    as (o & w' & H & Hext).
  { intros e w0. eexists. split; [reflexivity|].
    unfold extends. simpl. by rewrite !app_nil_r. }
  exists o, w'. split; [|done]. rewrite <- H. reflexivity.
Qed.

Lemma loadVertex_step acc j (w : world) :
  exists o w',
    loadVertex createVertex acc j w
    = Some (match o with
            | Returned v =>
                (fst acc,
                 snd acc ++ map (set_from v) (or_empty (jv_outgoingEdges j)))
            | Thrown _ => (false, snd acc)
            end, w') /\
    extends w w' [{| a_call := CVertex j; a_outcome := o |}].
Proof.
  destruct (invoke_logged (CVertex j)
              (createVertex (jv_props j) (jv_spatialGroup j))
              (fun v => (fst acc, snd acc ++ map (set_from v)
                                    (or_empty (jv_outgoingEdges j))))
              (false, snd acc) w (fun _ => ret tt) ret_after)
    as (o & w' & H & Hext).
  exists o, w'. split; [|done]. rewrite <- H. unfold loadVertex.
  unfold bind. destruct (invoke _ _ w) as [[[e|x] w1]|]; done.
Qed.

Lemma loadEdge_step successful e (w : world) :
  exists o w',
    loadEdge createEdge successful e w
    = Some (match o with Returned _ => successful | Thrown _ => false end, w') /\
    extends w w' [{| a_call := CEdge e; a_outcome := o |}].
Proof.
  destruct (invoke_logged (CEdge e) (createEdge (je_props e) (je_from e))
              (fun _ => successful) false w (fun _ => ret tt) ret_after)
    as (o & w' & H & Hext).
  exists o, w'. split; [|done]. rewrite <- H. unfold loadEdge.
  unfold bind. destruct (invoke _ _ w) as [[[v|x] w1]|]; done.
Qed.

Lemma prepareTemporalGroup_step root successful j (w : world) :
  exists o w',
    prepareTemporalGroup createTemporalGroup root successful j w
    = Some (match o with Returned _ => successful | Thrown _ => false end, w') /\
    extends w w' [{| a_call := CTemporalGroup j (Some root); a_outcome := o |}].
Proof.
  destruct (invoke_logged (CTemporalGroup j (Some root))
              (createTemporalGroup (jtg_props j) (Some root))
              (fun _ => successful) false w (fun _ => ret tt) ret_after)
    as (o & w' & H & Hext).
  exists o, w'. split; [|done]. rewrite <- H. unfold prepareTemporalGroup.
  unfold bind. destruct (invoke _ _ w) as [[[v|x] w1]|]; done.
Qed.

(** A loop whose body makes one call and queues the children on return. *)
Lemma foldM_batch {X C} (body : bool * list C -> X -> Eff.M world (bool * list C))
    (mk : X -> call) (kids : entity -> X -> list C) :
  (forall acc x w, exists o w',
      body acc x w
      = Some (match o with
              | Returned e => (fst acc, snd acc ++ kids e x)
              | Thrown _ => (false, snd acc)
              end, w') /\
      extends w w' [{| a_call := mk x; a_outcome := o |}]) ->
  forall xs acc w, exists tr q w',
    foldM body acc xs w
    = Some ((fst acc && forallb succeeded tr, snd acc ++ q), w') /\
    batch mk kids xs tr q /\
    extends w w' tr.
Proof.
  intros Hbody. induction xs as [|x xs IH]; intros acc w.
  - exists [], [], w. simpl. rewrite andb_true_r, app_nil_r.
    split; [by destruct acc|]. split; [constructor|apply extends_refl].
  - destruct (Hbody acc x w) as (o & w1 & Hb & Hext).
    simpl. unfold bind at 1. rewrite Hb.
    match goal with |- context [foldM body ?a xs w1] =>
      destruct (IH a w1) as (tr & q & w' & -> & Hbatch & Hext') end.
    destruct o as [e|err]; simpl.
    + exists ({| a_call := mk x; a_outcome := Returned e |} :: tr),
             (kids e x ++ q), w'.
      split; [by rewrite app_assoc|]. split; [by constructor|].
      exact (extends_trans _ _ _ _ _ Hext Hext').
    + exists ({| a_call := mk x; a_outcome := Thrown err |} :: tr), q, w'.
      split; [by rewrite andb_false_r|]. split; [by constructor|].
      exact (extends_trans _ _ _ _ _ Hext Hext').
Qed.

(** A loop whose body makes one call and queues nothing. *)
Lemma foldM_flag {X} (body : bool -> X -> Eff.M world bool) (mk : X -> call) :
  (forall b x w, exists o w',
      body b x w
      = Some (match o with Returned _ => b | Thrown _ => false end, w') /\
      extends w w' [{| a_call := mk x; a_outcome := o |}]) ->
  forall xs b w, exists tr w',
    foldM body b xs w = Some (b && forallb succeeded tr, w') /\
    map a_call tr = map mk xs /\
    extends w w' tr.
Proof.
  intros Hbody. induction xs as [|x xs IH]; intros b w.
  - exists [], w. simpl. rewrite andb_true_r.
    split; [done|]. split; [done|apply extends_refl].
  - destruct (Hbody b x w) as (o & w1 & Hb & Hext).
    simpl. unfold bind at 1. rewrite Hb.
    match goal with |- context [foldM body ?a xs w1] =>
      destruct (IH a w1) as (tr & w' & -> & Hcalls & Hext') end.
    exists ({| a_call := mk x; a_outcome := o |} :: tr), w'.
    split; [destruct o; simpl; by rewrite ?andb_false_r|].
    split; [simpl; by rewrite Hcalls|].
    exact (extends_trans _ _ _ _ _ Hext Hext').
Qed.

Section Batch.
Context {X C : Type} (mk : X -> call) (kids : entity -> X -> list C).

Lemma batch_attempted xs (tr : list attempt) q x :
  batch mk kids xs tr q -> x ∈ xs -> attempted tr (mk x).
Proof.
  induction 1 as [|y ys e tr q _ IH|y ys err tr q _ IH]; intros Hx.
  - by apply elem_of_nil in Hx.
  - apply elem_of_cons in Hx as [->|Hx].
    + eexists. apply list_elem_of_here.
    + destruct (IH Hx) as [o Ho]. exists o. by apply list_elem_of_further.
  - apply elem_of_cons in Hx as [->|Hx].
    + eexists. apply list_elem_of_here.
    + destruct (IH Hx) as [o Ho]. exists o. by apply list_elem_of_further.
Qed.

Lemma batch_calls xs (tr : list attempt) q a :
  batch mk kids xs tr q -> a ∈ tr -> exists x, x ∈ xs /\ a_call a = mk x.
Proof.
  induction 1 as [|y ys e tr q _ IH|y ys err tr q _ IH]; intros Ha.
  - by apply elem_of_nil in Ha.
  - apply elem_of_cons in Ha as [->|Ha].
    + exists y. split; [apply list_elem_of_here|done].
    + destruct (IH Ha) as (x & Hx & Hc). exists x.
      split; [by apply list_elem_of_further|done].
  - apply elem_of_cons in Ha as [->|Ha].
    + exists y. split; [apply list_elem_of_here|done].
    + destruct (IH Ha) as (x & Hx & Hc). exists x.
      split; [by apply list_elem_of_further|done].
Qed.

Lemma batch_queued xs (tr : list attempt) q x e c :
  (forall y z, mk y = mk z -> y = z) ->
  batch mk kids xs tr q ->
  created tr (mk x) e -> c ∈ kids e x -> c ∈ q.
Proof.
  intros Hinj. unfold created.
  induction 1 as [|y ys e' tr q _ IH|y ys err tr q _ IH]; intros Ha Hc.
  - by apply elem_of_nil in Ha.
  - apply elem_of_app. apply elem_of_cons in Ha as [Ha|Ha].
    + injection Ha as Hm <-. apply Hinj in Hm as <-. by left.
    + right. by apply IH.
  - apply elem_of_cons in Ha as [Ha|Ha]; [discriminate Ha|by apply IH].
Qed.

Lemma batch_queue xs (tr : list attempt) q c :
  batch mk kids xs tr q ->
  c ∈ q -> exists x e, x ∈ xs /\ created tr (mk x) e /\ c ∈ kids e x.
Proof.
  unfold created.
  induction 1 as [|y ys e' tr q _ IH|y ys err tr q _ IH]; intros Hc.
  - by apply elem_of_nil in Hc.
  - apply elem_of_app in Hc as [Hc|Hc].
    + exists y, e'. split; [apply list_elem_of_here|].
      split; [apply list_elem_of_here|done].
    + destruct (IH Hc) as (x & e & Hx & Ha & Hk). exists x, e.
      split; [by apply list_elem_of_further|].
      split; [by apply list_elem_of_further|done].
  - destruct (IH Hc) as (x & e & Hx & Ha & Hk). exists x, e.
    split; [by apply list_elem_of_further|].
    split; [by apply list_elem_of_further|done].
Qed.

End Batch.

(** The four loops of [loadGraph], each with the record of its calls and
    the queue it hands to the next loop. *)
Lemma loadGraph_loops (t : tour entity path props) dir (w : world) :
  exists tr1 tr2 tr3 tr4 q1 q2 q3 w',
    loadGraph t dir w
    = Some (forallb succeeded (tr1 ++ tr2 ++ tr3 ++ tr4), w') /\
    batch (fun j => CTemporalGroup j None)
          (fun tg j => map (set_superGroup tg) (or_empty (jtg_subGroups j)))
          (or_empty (temporalGroups t)) tr1 q1 /\
    batch CSpatialGroup
          (fun sg g => map (set_spatialGroup sg) (or_empty (jsg_vertices g)))
          (or_empty (spatialGroups t) ++ q1) tr2 q2 /\
    batch CVertex
          (fun v j => map (set_from v) (or_empty (jv_outgoingEdges j)))
          (or_empty (vertices t) ++ q2) tr3 q3 /\
    map a_call tr4 = map CEdge q3 /\
    extends w w' (tr1 ++ tr2 ++ tr3 ++ tr4).
Proof.
  unfold Algorithms.loadGraph.
  destruct (foldM_batch _ _ _ (loadTemporalGroup_step)
              (or_empty (temporalGroups t)) (true, or_empty (spatialGroups t)) w)
    as (tr1 & q1 & w1 & E1 & B1 & X1).
  destruct (foldM_batch _ _ _ (loadSpatialGroup_step (or_filesys dir))
              (or_empty (spatialGroups t) ++ q1)
              (forallb succeeded tr1, or_empty (vertices t)) w1)
    as (tr2 & q2 & w2 & E2 & B2 & X2).
  destruct (foldM_batch _ _ _ (loadVertex_step)
              (or_empty (vertices t) ++ q2)
              (forallb succeeded tr1 && forallb succeeded tr2, []) w2)
    as (tr3 & q3 & w3 & E3 & B3 & X3).
  destruct (foldM_flag _ _ (loadEdge_step) q3
              (forallb succeeded tr1 && forallb succeeded tr2
               && forallb succeeded tr3) w3)
    as (tr4 & w4 & E4 & C4 & X4).
  exists tr1, tr2, tr3, tr4, q1, q2, q3, w4.
  split; [|split; [done|split; [done|split; [done|split; [done|]]]]].
  - unfold bind at 1. rewrite E1. simpl.
    unfold bind at 1. rewrite E2. simpl.
    unfold bind at 1. rewrite E3. simpl. rewrite E4.
    by rewrite !forallb_app, !andb_assoc.
  - pose proof (extends_trans _ _ _ _ _ X1
                  (extends_trans _ _ _ _ _ X2
                     (extends_trans _ _ _ _ _ X3 X4))) as H.
    exact H.
Qed.

(** [loadGraph] returns, for every tour file and model. *)
Lemma loadGraph_returns (t : tour entity path props) dir (w : world) :
  exists b w', loadGraph t dir w = Some (b, w').
Proof.
  destruct (loadGraph_loops t dir w) as (? & ? & ? & ? & ? & ? & ? & w' & H & _).
  eauto.
Qed.

Lemma calls_attempted (tr : list attempt) {X} (mk : X -> call)
    (q : list X) (x : X) :
  map a_call tr = map mk q -> x ∈ q -> attempted tr (mk x).
Proof.
  intros Hm Hx.
  assert (Hx' : mk x ∈ map mk q) by exact (list_elem_of_fmap_2 mk _ _ Hx).
  rewrite <- Hm in Hx'.
  destruct (proj1 (list_elem_of_fmap a_call tr (mk x)) Hx')
    as ([c' o] & Hc & Ha).
  simpl in Hc. exists o. by rewrite Hc.
Qed.

Lemma calls_only (tr : list attempt) {X} (mk : X -> call) (q : list X) a :
  map a_call tr = map mk q -> a ∈ tr -> exists x, x ∈ q /\ a_call a = mk x.
Proof.
  intros Hm Ha.
  assert (Ha' : a_call a ∈ map a_call tr)
    by exact (list_elem_of_fmap_2 a_call _ _ Ha).
  rewrite Hm in Ha'.
  destruct (proj1 (list_elem_of_fmap mk q (a_call a)) Ha') as (x & Hc & Hx).
  eauto.
Qed.

Lemma loops_processed (t : tour entity path props)
    (tr1 tr2 tr3 tr4 : list attempt) q1 q2 q3 :
  batch (fun j => CTemporalGroup j None)
        (fun tg j => map (set_superGroup tg) (or_empty (jtg_subGroups j)))
        (or_empty (temporalGroups t)) tr1 q1 ->
  batch CSpatialGroup
        (fun sg g => map (set_spatialGroup sg) (or_empty (jsg_vertices g)))
        (or_empty (spatialGroups t) ++ q1) tr2 q2 ->
  batch CVertex
        (fun v j => map (set_from v) (or_empty (jv_outgoingEdges j)))
        (or_empty (vertices t) ++ q2) tr3 q3 ->
  map a_call tr4 = map CEdge q3 ->
  processed t (tr1 ++ tr2 ++ tr3 ++ tr4).
Proof.
  intros B1 B2 B3 C4.
  assert (Hin : forall a, a ∈ tr1 ++ tr2 ++ tr3 ++ tr4 ->
            (a ∈ tr1 /\ exists j, j ∈ or_empty (temporalGroups t) /\
                                  a_call a = CTemporalGroup j None) \/
            (a ∈ tr2 /\ exists g, g ∈ or_empty (spatialGroups t) ++ q1 /\
                                  a_call a = CSpatialGroup g) \/
            (a ∈ tr3 /\ exists v, v ∈ or_empty (vertices t) ++ q2 /\
                                  a_call a = CVertex v) \/
            (a ∈ tr4 /\ exists e, e ∈ q3 /\ a_call a = CEdge e)).
  { intros a Ha. rewrite !elem_of_app in Ha.
    destruct Ha as [Ha|[Ha|[Ha|Ha]]].
    - left. split; [done|]. exact (batch_calls _ _ _ _ _ _ B1 Ha).
    - right; left. split; [done|]. exact (batch_calls _ _ _ _ _ _ B2 Ha).
    - right; right; left. split; [done|]. exact (batch_calls _ _ _ _ _ _ B3 Ha).
    - right; right; right. split; [done|]. exact (calls_only _ _ _ _ C4 Ha). }
  assert (H1 : forall c, attempted tr1 c -> attempted (tr1 ++ tr2 ++ tr3 ++ tr4) c).
  { intros c [o Ho]. exists o. rewrite !elem_of_app. tauto. }
  assert (H2 : forall c, attempted tr2 c -> attempted (tr1 ++ tr2 ++ tr3 ++ tr4) c).
  { intros c [o Ho]. exists o. rewrite !elem_of_app. tauto. }
  assert (H3 : forall c, attempted tr3 c -> attempted (tr1 ++ tr2 ++ tr3 ++ tr4) c).
  { intros c [o Ho]. exists o. rewrite !elem_of_app. tauto. }
  assert (H4 : forall c, attempted tr4 c -> attempted (tr1 ++ tr2 ++ tr3 ++ tr4) c).
  { intros c [o Ho]. exists o. rewrite !elem_of_app. tauto. }
  assert (K1 : forall c e, created tr1 c e -> created (tr1 ++ tr2 ++ tr3 ++ tr4) c e).
  { intros c e Ho. unfold created. rewrite !elem_of_app. tauto. }
  assert (K2 : forall c e, created tr2 c e -> created (tr1 ++ tr2 ++ tr3 ++ tr4) c e).
  { intros c e Ho. unfold created. rewrite !elem_of_app. tauto. }
  assert (K3 : forall c e, created tr3 c e -> created (tr1 ++ tr2 ++ tr3 ++ tr4) c e).
  { intros c e Ho. unfold created. rewrite !elem_of_app. tauto. }
  split.
  - intros j Hj. apply H1. exact (batch_attempted _ _ _ _ _ _ B1 Hj).
  - intros g Hg. apply H2.
    apply (batch_attempted _ _ _ _ _ _ B2). apply elem_of_app. by left.
  - intros v Hv. apply H3.
    apply (batch_attempted _ _ _ _ _ _ B3). apply elem_of_app. by left.
  - intros j tg g Hc Hg. apply H2.
    apply (batch_attempted _ _ _ _ _ _ B2). apply elem_of_app. right.
    destruct (Hin _ Hc) as [[Ha _]|[[_ (? & _ & E)]|[[_ (? & _ & E)]|[_ (? & _ & E)]]]];
      try discriminate E.
    apply (batch_queued (fun j => CTemporalGroup j None) _ _ _ _ j tg
             (set_superGroup tg g)) in B1; [done| |done|].
    + intros y z [= ->]. done.
    + by apply list_elem_of_fmap_2.
  - intros g sg v Hc Hv. apply H3.
    apply (batch_attempted _ _ _ _ _ _ B3). apply elem_of_app. right.
    destruct (Hin _ Hc) as [[_ (? & _ & E)]|[[Ha _]|[[_ (? & _ & E)]|[_ (? & _ & E)]]]];
      try discriminate E.
    apply (batch_queued CSpatialGroup _ _ _ _ g sg
             (set_spatialGroup sg v)) in B2; [done| |done|].
    + intros y z [= ->]. done.
    + by apply list_elem_of_fmap_2.
  - intros v vx e Hc He. apply H4.
    apply (calls_attempted tr4 CEdge q3 _ C4).
    destruct (Hin _ Hc) as [[_ (? & _ & E)]|[[_ (? & _ & E)]|[[Ha _]|[_ (? & _ & E)]]]];
      try discriminate E.
    apply (batch_queued CVertex _ _ _ _ v vx (set_from vx e)) in B3;
      [done| |done|].
    + intros y z [= ->]. done.
    + by apply list_elem_of_fmap_2.
  - intros j d [o Ho].
    destruct (Hin _ Ho) as [[_ (j' & Hj & E)]|[[_ (? & _ & E)]|[[_ (? & _ & E)]|[_ (? & _ & E)]]]];
      try discriminate E.
    simpl in E. injection E as -> ->. done.
  - intros g [o Ho].
    destruct (Hin _ Ho) as [[_ (? & _ & E)]|[[_ (g' & Hg & E)]|[[_ (? & _ & E)]|[_ (? & _ & E)]]]];
      try discriminate E.
    simpl in E. injection E as ->. apply elem_of_app in Hg as [Hg|Hg]; [by left|].
    right. destruct (batch_queue _ _ _ _ _ _ B1 Hg) as (j & tg & Hj & Hc & Hk).
    apply list_elem_of_fmap in Hk as (g0 & -> & Hg0).
    exists j, tg, g0. split; [by apply K1|done].
  - intros v [o Ho].
    destruct (Hin _ Ho) as [[_ (? & _ & E)]|[[_ (? & _ & E)]|[[_ (v' & Hv & E)]|[_ (? & _ & E)]]]];
      try discriminate E.
    simpl in E. injection E as ->. apply elem_of_app in Hv as [Hv|Hv]; [by left|].
    right. destruct (batch_queue _ _ _ _ _ _ B2 Hv) as (g & sg & Hg & Hc & Hk).
    apply list_elem_of_fmap in Hk as (v0 & -> & Hv0).
    exists g, sg, v0. split; [by apply K2|done].
  - intros e [o Ho].
    destruct (Hin _ Ho) as [[_ (? & _ & E)]|[[_ (? & _ & E)]|[[_ (? & _ & E)]|[_ (e' & He & E)]]]];
      try discriminate E.
    simpl in E. injection E as ->.
    destruct (batch_queue _ _ _ _ _ _ B3 He) as (v & vx & Hv & Hc & Hk).
    apply list_elem_of_fmap in Hk as (e0 & -> & He0).
    exists v, vx, e0. split; [by apply K3|done].
Qed.

(** The loop of [readTour] over the temporal groups, and what follows it:
    the gate on the flag of the loop when the tour file has no [tours], the
    referenced tours otherwise. *)
Lemma readTour_gate fuel (t : tour entity path props) root next (w : world) :
  exists tr w1,
    extends w w1 tr /\
    map a_call tr
    = map (fun j => CTemporalGroup j (Some root)) (or_empty (temporalGroups t)) /\
    readTour (S fuel) t root next w
    = match tours t with
      | None =>
          if forallb succeeded tr
          then (let! r := loadGraph t (Some root) in next r) w1
          else next false w1
      | Some ps =>
          forM_ ps (fun p =>
            forM_ (searchFile root p) (fun f =>
              forM_ (readAsJSON f) (fun t' =>
                readTour fuel t' (parent f) (fun successful =>
                  if successful
                  then let! r := loadGraph t (Some root) in next r
                  else next false)))) w1
      end.
Proof.
  destruct (foldM_flag _ _ (prepareTemporalGroup_step root)
              (or_empty (temporalGroups t)) true w)
    as (tr & w1 & E & Hc & Hext).
  exists tr, w1. split; [done|]. split; [done|].
  simpl. unfold bind at 1. rewrite E. simpl.
  destruct (tours t) as [ps|]; [done|].
  unfold deliver. by destruct (forallb succeeded tr).
Qed.


End TourLoading.

Section TourLoadingExample.
Import Eff Algorithms AlgorithmsSpec.



End TourLoadingExample.
(** * Utility algorithms: theorems *)

Section NumberOrder.
Import Js.

Lemma le_not_NaN x y : le x y = true -> x <> NaN /\ y <> NaN.
Proof. by destruct x, y. Qed.

Lemma le_refl x : x <> NaN -> le x x = true.
Proof.
  destruct x as [q| | |]; try done. intros _. simpl.
  apply Qle_bool_iff. apply Qle_refl.
Qed.

Lemma le_trans x y z : le x y = true -> le y z = true -> le x z = true.
Proof.
  destruct x as [a| | |], y as [b| | |], z as [c| | |]; simpl; try done.
  rewrite !Qle_bool_iff. apply Qle_trans.
Qed.

Lemma le_total x y : x <> NaN -> y <> NaN -> le x y = false -> le y x = true.
Proof.
  destruct x as [a| | |], y as [b| | |]; simpl; try done.
  intros _ _ H. apply Qle_bool_iff.
  destruct (Qlt_le_dec b a) as [Hlt|Hle].
  - by apply Qlt_le_weak.
  - apply Qle_bool_iff in Hle. congruence.
Qed.

End NumberOrder.

Section ColocatedFacts.
Import Js Algorithms.
Context {vertex coordinates : Type}.
Variable getDistance : coordinates -> vertex -> num.
Variable coords : coordinates.

#[local] Abbreviation d := (getDistance coords).

(** The loop of [getColocated] from the bound [m0] and the candidate [o0]:
    either no vertex is within the bound, or the result is the last of the
    vertices nearest to the coordinates. *)
Lemma nearer_fold (sg : list vertex) : forall m0 o0 m o,
  fold_left (nearer getDistance coords) sg (m0, o0) = (m, o) ->
  (o = o0 /\ m = m0 /\ forall u, u ∈ sg -> le (d u) m0 = false) \/
  (exists l1 v l2,
      sg = l1 ++ v :: l2 /\ o = Some v /\ m = d v /\
      le (d v) m0 = true /\
      (forall u, u ∈ l1 -> le (d u) m0 = true -> le (d v) (d u) = true) /\
      (forall u, u ∈ l2 -> le (d u) (d v) = false)).
Proof.
  induction sg as [|u sg IH]; intros m0 o0 m o H.
  - injection H as <- <-. left. split; [done|]. split; [done|].
    intros u Hu. by apply elem_of_nil in Hu.
  - simpl in H. unfold nearer at 2 in H. simpl in H.
    destruct (le (d u) m0) eqn:Hu.
    + destruct (IH _ _ _ _ H) as [(-> & -> & Hall)|
        (l1 & v & l2 & -> & -> & -> & Hv & Hl1 & Hl2)].
      * right. exists [], u, sg. repeat split; try done.
        intros w Hw. by apply elem_of_nil in Hw.
      * right. exists (u :: l1), v, l2. repeat split; try done.
        -- exact (le_trans _ _ _ Hv Hu).
        -- intros w Hw Hwm. apply elem_of_cons in Hw as [->|Hw]; [done|].
           destruct (le (d w) (d u)) eqn:Hwu; [by apply Hl1|].
           apply (le_trans _ (d u)); [done|].
           apply le_total; [|by apply (le_not_NaN _ _ Hu)|done].
           by apply (le_not_NaN _ _ Hwm).
    + destruct (IH _ _ _ _ H) as [(-> & -> & Hall)|
        (l1 & v & l2 & -> & -> & -> & Hv & Hl1 & Hl2)].
      * left. repeat split; try done.
        intros w Hw. apply elem_of_cons in Hw as [->|Hw]; [done|by apply Hall].
      * right. exists (u :: l1), v, l2. repeat split; try done.
        intros w Hw Hwm. apply elem_of_cons in Hw as [->|Hw]; [congruence|].
        by apply Hl1.
Qed.

(** X1. A vertex returned by [getColocated] for a given threshold belongs
    to the group and lies within the threshold; no vertex of the group
    within the threshold is nearer; and the vertices that follow it in the
    group are strictly farther (among equally near vertices the last one is
    returned). *)
Theorem getColocated_nearest sg radius (T : num) v :
  getColocated getDistance sg radius coords (Some T) = Some (Some v) ->
  le (d v) T = true /\
  (forall u, u ∈ sg -> le (d u) T = true -> le (d v) (d u) = true) /\
  exists l1 l2, sg = l1 ++ v :: l2 /\
                forall u, u ∈ l2 -> le (d u) (d v) = false.
Proof.
  unfold getColocated. intros [= H].
  destruct (fold_left (nearer getDistance coords) sg (T, None)) as [m o] eqn:E.
  simpl in H. subst o.
  destruct (nearer_fold sg _ _ _ _ E) as [(Hn & _)|
    (l1 & w & l2 & -> & [= <-] & -> & Hv & Hl1 & Hl2)]; [done|].
  split; [done|]. split; [|by exists l1, l2].
  intros u Hu HuT. apply elem_of_app in Hu as [Hu|Hu]; [by apply Hl1|].
  apply elem_of_cons in Hu as [->|Hu].
  - apply le_refl. by apply (le_not_NaN _ _ Hv).
  - apply le_total; [by apply (le_not_NaN _ _ HuT)
                    |by apply (le_not_NaN _ _ Hv)|by apply Hl2].
Qed.

(** X2. [getColocated] returns [null] for a given threshold exactly when no
    vertex of the group lies within the threshold; a vertex at a distance
    that is not a number never lies within it. *)
Theorem getColocated_null sg radius (T : num) :
  getColocated getDistance sg radius coords (Some T) = Some None <->
  forall u, u ∈ sg -> le (d u) T = false.
Proof.
  unfold getColocated.
  destruct (fold_left (nearer getDistance coords) sg (T, None)) as [m o] eqn:E.
  simpl.
  destruct (nearer_fold sg _ _ _ _ E) as [(-> & _ & Hall)|
    (l1 & w & l2 & -> & -> & -> & Hv & Hl1 & Hl2)].
  - split; [done|]. done.
  - split; [done|]. intros Hall. rewrite Hall in Hv; [done|].
    apply elem_of_app. right. apply list_elem_of_here.
Qed.

End ColocatedFacts.

(** [getColocated_nearest] on four vertices at the distances 5, 2, 7 and 2
    with the threshold 4: the fourth vertex is returned. *)
Lemma getColocated_nearest_witness :
  Js.le (Js.of_Z 2) (Js.of_Z 4) = true /\
  (forall u, u ∈ [(1, 5%Z); (2, 2%Z); (3, 7%Z); (4, 2%Z)] ->
             Js.le (Js.of_Z (snd u)) (Js.of_Z 4) = true ->
             Js.le (Js.of_Z 2) (Js.of_Z (snd u)) = true) /\
  exists l1 l2,
    [(1, 5%Z); (2, 2%Z); (3, 7%Z); (4, 2%Z)] = l1 ++ (4, 2%Z) :: l2 /\
    forall u, u ∈ l2 -> Js.le (Js.of_Z (snd u)) (Js.of_Z 2) = false.
Proof.
  exact (getColocated_nearest (fun (_ : unit) (v : nat * Z) => Js.of_Z (snd v))
           tt [(1, 5%Z); (2, 2%Z); (3, 7%Z); (4, 2%Z)] None (Js.of_Z 4)
           (4, 2%Z) eq_refl).
Defined.

Section AtomicProperties.
Import Js Algorithms.

#[local] Abbreviation step :=
  (fun (acc : strmap jsval * nat) (kv : string * jsval) =>
     if kept (snd kv)
     then (assign (fst kv) (snd kv) (fst acc), S (snd acc))
     else acc).

(** A property that the result can hold. *)
#[local] Abbreviation stored :=
  (fun kv : string * jsval =>
     kept (snd kv) && negb (String.eqb (fst kv) "__proto__")).

Lemma set_fresh {V} k (v : V) (m : strmap V) :
  k ∉ keys m -> set k v m = m ++ [(k, v)].
Proof.
  induction m as [|[k' v'] m IH]; intros Hk; [done|].
  simpl in *. apply not_elem_of_cons in Hk as [Hne Hk].
  destruct (decide (k' = k)); [congruence|]. by rewrite IH.
Qed.

Lemma keys_set {V} k (v : V) (m : strmap V) :
  keys (set k v m) = if bool_decide (k ∈ keys m) then keys m else keys m ++ [k].
Proof.
  induction m as [|[k' v'] m IH]; [done|].
  simpl. destruct (decide (k' = k)) as [->|Hne].
  - simpl. rewrite bool_decide_eq_true_2; [done|apply list_elem_of_here].
  - simpl. rewrite IH. unfold keys. simpl.
    destruct (bool_decide (k ∈ map fst m)) eqn:E.
    + apply bool_decide_eq_true in E.
      rewrite bool_decide_eq_true_2; [done|by apply list_elem_of_further].
    + apply bool_decide_eq_false in E.
      rewrite bool_decide_eq_false_2; [done|].
      intros H. apply elem_of_cons in H as [->|H]; done.
Qed.

Lemma values_set {V} (P : V -> Prop) k (v : V) (m : strmap V) :
  P v -> Forall (fun kv => P (snd kv)) m ->
  Forall (fun kv => P (snd kv)) (set k v m).
Proof.
  intros Hv. induction m as [|[k' v'] m IH]; intros Hm.
  - by repeat constructor.
  - simpl. apply Forall_cons in Hm as [Hv' Hm].
    destruct (decide (k' = k)); constructor; auto.
Qed.

(** What the loop keeps: distinct names other than [__proto__] and values
    that pass the tests. *)
Lemma loop_invariant (o : strmap jsval) : forall acc,
  NoDup (keys (fst acc)) ->
  Forall (fun kv => stored kv = true) (fst acc) ->
  let r := fold_left step o acc in
  NoDup (keys (fst r)) /\
  Forall (fun kv => stored kv = true) (fst r).
Proof.
  induction o as [|[k v] o IH]; intros acc Hnd Hk; [done|].
  simpl. destruct (kept v) eqn:Hv; [|by apply IH].
  unfold assign. destruct (String.eqb k "__proto__") eqn:Hp;
    [by apply IH|].
  apply IH; simpl.
  - rewrite keys_set. case_bool_decide as Hin; [done|].
    apply NoDup_app. split; [done|]. split; [|apply NoDup_singleton].
    intros x Hx Hx'. apply list_elem_of_singleton in Hx' as ->. done.
  - clear IH Hnd. induction (fst acc) as [|[k' v'] m IHm]; simpl.
    + repeat constructor. simpl. by rewrite Hv, Hp.
    + apply Forall_cons in Hk as [Hk' Hk].
      destruct (decide (k' = k)); constructor; auto.
      simpl. by rewrite Hv, Hp.
Qed.

(** The loop on an object with distinct property names: the properties
    that can be stored are appended, those that pass the tests counted. *)
Lemma loop_filter (o : strmap jsval) : forall acc n,
  NoDup (keys acc ++ keys o) ->
  fold_left step o (acc, n)
  = (acc ++ filter (fun kv => stored kv = true) o,
     n + length (filter (fun kv => kept (snd kv) = true) o)).
Proof.
  induction o as [|[k v] o IH]; intros acc n Hnd.
  - simpl. by rewrite app_nil_r, Nat.add_0_r.
  - change (keys ((k, v) :: o)) with (k :: keys o) in Hnd.
    assert (Hnd' : NoDup (keys acc ++ keys o)).
    { apply NoDup_app in Hnd as (H1 & H2 & H3).
      apply NoDup_app. split; [done|]. split.
      - intros x Hx Hx'. apply (H2 x Hx). by apply list_elem_of_further.
      - by apply NoDup_cons in H3 as [_ H3]. }
    simpl fold_left. rewrite !filter_cons. cbn [fst snd].
    destruct (kept v) eqn:Hv; cbn [andb].
    + rewrite (decide_True (P := true = true)) by done. unfold assign.
      destruct (String.eqb k "__proto__") eqn:Hp; cbn [negb].
      * rewrite decide_False by done. rewrite IH by done.
        cbn [length]. by rewrite Nat.add_succ_r.
      * rewrite decide_True by done. rewrite set_fresh.
        -- rewrite IH; [by cbn [length]; rewrite <- app_assoc, Nat.add_succ_r|].
           by unfold keys; rewrite map_app, <- app_assoc.
        -- apply NoDup_app in Hnd as (_ & Hd & _). intros Hin.
           apply (Hd k Hin). apply list_elem_of_here.
    + rewrite !decide_False by done. by apply IH.
Qed.

Lemma filter_all {A} (f : A -> bool) (l : list A) :
  Forall (fun x => f x = true) l -> filter (fun x => f x = true) l = l.
Proof.
  induction 1 as [|x l Hx Hl IH]; [done|].
  rewrite filter_cons, decide_True by done. by rewrite IH.
Qed.



End AtomicProperties.


Section BoundingBox.
Import Js Algorithms.

Lemma fold_min (l : list num) : forall x,
  x <> NaN -> Forall (fun y => y <> NaN) l ->
  let r := fold_left Math_min l x in
  r ∈ x :: l /\ forall y, y ∈ x :: l -> le r y = true.
Proof.
  induction l as [|a l IH]; intros x Hx Hl.
  - simpl. split; [apply list_elem_of_here|].
    intros y Hy. apply list_elem_of_singleton in Hy as ->. by apply le_refl.
  - apply Forall_cons in Hl as [Ha Hl]. simpl.
    assert (Hm : Math_min x a <> NaN /\
                 (Math_min x a = x \/ Math_min x a = a) /\
                 le (Math_min x a) x = true /\ le (Math_min x a) a = true).
    { unfold Math_min. destruct x as [p| | |], a as [q| | |]; try done;
        match goal with |- context [if ?c then _ else _] =>
          destruct c eqn:E end;
        (split; [done|]); (split; [by auto|]);
        (split; [first [by apply le_refl | done | by apply le_total]
                |first [by apply le_refl | done | by apply le_total]]). }
    destruct Hm as (Hn & Hor & Hlx & Hla).
    destruct (IH (Math_min x a) Hn Hl) as [Hin Hle]. split.
    + apply elem_of_cons in Hin as [->|Hin].
      * destruct Hor as [->| ->]; [apply list_elem_of_here|].
        apply list_elem_of_further, list_elem_of_here.
      * by do 2 apply list_elem_of_further.
    + intros y Hy.
      pose proof (Hle (Math_min x a) (list_elem_of_here _ _)) as Hr.
      apply elem_of_cons in Hy as [->|Hy]; [exact (le_trans _ _ _ Hr Hlx)|].
      apply elem_of_cons in Hy as [->|Hy]; [exact (le_trans _ _ _ Hr Hla)|].
      apply Hle. by apply list_elem_of_further.
Qed.

Lemma fold_max (l : list num) : forall x,
  x <> NaN -> Forall (fun y => y <> NaN) l ->
  let r := fold_left Math_max l x in
  r ∈ x :: l /\ forall y, y ∈ x :: l -> le y r = true.
Proof.
  induction l as [|a l IH]; intros x Hx Hl.
  - simpl. split; [apply list_elem_of_here|].
    intros y Hy. apply list_elem_of_singleton in Hy as ->. by apply le_refl.
  - apply Forall_cons in Hl as [Ha Hl]. simpl.
    assert (Hm : Math_max x a <> NaN /\
                 (Math_max x a = x \/ Math_max x a = a) /\
                 le x (Math_max x a) = true /\ le a (Math_max x a) = true).
    { unfold Math_max. destruct x as [p| | |], a as [q| | |]; try done;
        match goal with |- context [if ?c then _ else _] =>
          destruct c eqn:E end;
        (split; [done|]); (split; [by auto|]);
        (split; [first [by apply le_refl | done | by apply le_total]
                |first [by apply le_refl | done | by apply le_total]]). }
    destruct Hm as (Hn & Hor & Hlx & Hla).
    destruct (IH (Math_max x a) Hn Hl) as [Hin Hle]. split.
    + apply elem_of_cons in Hin as [->|Hin].
      * destruct Hor as [->| ->]; [apply list_elem_of_here|].
        apply list_elem_of_further, list_elem_of_here.
      * by do 2 apply list_elem_of_further.
    + intros y Hy.
      pose proof (Hle (Math_max x a) (list_elem_of_here _ _)) as Hr.
      apply elem_of_cons in Hy as [->|Hy]; [exact (le_trans _ _ _ Hlx Hr)|].
      apply elem_of_cons in Hy as [->|Hy]; [exact (le_trans _ _ _ Hla Hr)|].
      apply Hle. by apply list_elem_of_further.
Qed.

Lemma reduce_min (l : list num) :
  l <> [] -> Forall (fun y => y <> NaN) l ->
  exists r, reduce Math_min l = Some r /\ r ∈ l /\
            forall y, y ∈ l -> le r y = true.
Proof.
  destruct l as [|x l]; [done|]. intros _ Hl.
  apply Forall_cons in Hl as [Hx Hl].
  exists (fold_left Math_min l x). split; [done|]. by apply fold_min.
Qed.

Lemma reduce_max (l : list num) :
  l <> [] -> Forall (fun y => y <> NaN) l ->
  exists r, reduce Math_max l = Some r /\ r ∈ l /\
            forall y, y ∈ l -> le y r = true.
Proof.
  destruct l as [|x l]; [done|]. intros _ Hl.
  apply Forall_cons in Hl as [Hx Hl].
  exists (fold_left Math_max l x). split; [done|]. by apply fold_max.
Qed.

(** X5. For a non-empty array of points whose coordinates are numbers,
    [getAxisAlignedBoundingBox] returns a box that contains every point and
    whose four bounds are each the coordinate of some point. *)
Theorem boundingBox_bounds (points : list (num * num)) :
  points <> [] ->
  Forall (fun p => fst p <> NaN /\ snd p <> NaN) points ->
  exists x0 y0 x1 y1,
    getAxisAlignedBoundingBox points = Some ((x0, y0), (x1, y1)) /\
    (forall p, p ∈ points ->
       le x0 (fst p) = true /\ le (fst p) x1 = true /\
       le y0 (snd p) = true /\ le (snd p) y1 = true) /\
    x0 ∈ map fst points /\ x1 ∈ map fst points /\
    y0 ∈ map snd points /\ y1 ∈ map snd points.
Proof.
  intros Hne Hall.
  assert (Hx : Forall (fun y => y <> NaN) (map fst points)).
  { apply Forall_fmap. eapply Forall_impl; [exact Hall|]. by intros p [? ?]. }
  assert (Hy : Forall (fun y => y <> NaN) (map snd points)).
  { apply Forall_fmap. eapply Forall_impl; [exact Hall|]. by intros p [? ?]. }
  assert (Hnx : map fst points <> []) by by destruct points.
  assert (Hny : map snd points <> []) by by destruct points.
  destruct (reduce_min _ Hnx Hx) as (x0 & Ex0 & Hx0 & Lx0).
  destruct (reduce_min _ Hny Hy) as (y0 & Ey0 & Hy0 & Ly0).
  destruct (reduce_max _ Hnx Hx) as (x1 & Ex1 & Hx1 & Lx1).
  destruct (reduce_max _ Hny Hy) as (y1 & Ey1 & Hy1 & Ly1).
  exists x0, y0, x1, y1. unfold getAxisAlignedBoundingBox.
  rewrite Ex0, Ey0, Ex1, Ey1. split; [done|]. split; [|done].
  intros p Hp.
  pose proof (list_elem_of_fmap_2 fst _ _ Hp) as Hpx.
  pose proof (list_elem_of_fmap_2 snd _ _ Hp) as Hpy.
  repeat split; [apply Lx0|apply Lx1|apply Ly0|apply Ly1]; done.
Qed.

Lemma fold_NaN (f : num -> num -> num) (l : list num) :
  (forall a, f NaN a = NaN) -> fold_left f l NaN = NaN.
Proof. intros Hf. induction l as [|a l IH]; simpl; [done|]. by rewrite Hf. Qed.

Lemma reduce_NaN (f : num -> num -> num) (l : list num) :
  (forall a, f NaN a = NaN) -> (forall a, f a NaN = NaN) ->
  NaN ∈ l -> reduce f l = Some NaN.
Proof.
  intros Hl Hr. destruct l as [|x l]; intros Hin.
  { by apply elem_of_nil in Hin. }
  simpl. f_equal. revert x Hin. induction l as [|a l IH]; intros x Hin.
  - by apply list_elem_of_singleton in Hin as <-.
  - simpl. apply elem_of_cons in Hin as [<-|Hin]; [by rewrite Hl, fold_NaN|].
    apply elem_of_cons in Hin as [<-|Hin]; [by rewrite Hr, fold_NaN|].
    apply IH. by apply list_elem_of_further.
Qed.

(** X6. [getAxisAlignedBoundingBox] throws exactly on the empty array, and
    a point whose first coordinate is not a number turns both bounds of the
    first coordinate into NaN. *)
Theorem boundingBox_degenerate (points : list (num * num)) :
  (getAxisAlignedBoundingBox points = None <-> points = []) /\
  (forall p, p ∈ points -> fst p = NaN ->
     exists y0 y1,
       getAxisAlignedBoundingBox points = Some ((NaN, y0), (NaN, y1))).
Proof.
  split.
  - split; [|by intros ->].
    destruct points as [|p points]; [done|]. discriminate.
  - intros p Hp Hnan.
    assert (Hin : NaN ∈ map fst points).
    { rewrite <- Hnan. by apply (list_elem_of_fmap_2 fst). }
    unfold getAxisAlignedBoundingBox.
    rewrite (reduce_NaN Math_min) by (done || by intros []).
    rewrite (reduce_NaN Math_max) by (done || by intros []).
    destruct points as [|q points]; [by apply elem_of_nil in Hp|].
    simpl. eauto.
Qed.

End BoundingBox.

(** [boundingBox_bounds] on the three points (2, 7), (-1, 3) and (4, 5). *)
Lemma boundingBox_bounds_witness :
  exists x0 y0 x1 y1,
    Algorithms.getAxisAlignedBoundingBox
      [(Js.of_Z 2, Js.of_Z 7); (Js.of_Z (-1), Js.of_Z 3); (Js.of_Z 4, Js.of_Z 5)]
    = Some ((x0, y0), (x1, y1)) /\
    (forall p, p ∈ [(Js.of_Z 2, Js.of_Z 7); (Js.of_Z (-1), Js.of_Z 3);
                    (Js.of_Z 4, Js.of_Z 5)] ->
       Js.le x0 (fst p) = true /\ Js.le (fst p) x1 = true /\
       Js.le y0 (snd p) = true /\ Js.le (snd p) y1 = true) /\
    x0 ∈ map fst [(Js.of_Z 2, Js.of_Z 7); (Js.of_Z (-1), Js.of_Z 3);
                  (Js.of_Z 4, Js.of_Z 5)] /\
    x1 ∈ map fst [(Js.of_Z 2, Js.of_Z 7); (Js.of_Z (-1), Js.of_Z 3);
                  (Js.of_Z 4, Js.of_Z 5)] /\
    y0 ∈ map snd [(Js.of_Z 2, Js.of_Z 7); (Js.of_Z (-1), Js.of_Z 3);
                  (Js.of_Z 4, Js.of_Z 5)] /\
    y1 ∈ map snd [(Js.of_Z 2, Js.of_Z 7); (Js.of_Z (-1), Js.of_Z 3);
                  (Js.of_Z 4, Js.of_Z 5)].
Proof.
  apply boundingBox_bounds; [discriminate|].
  repeat (apply Forall_cons; split; [split; discriminate|]).
  apply Forall_nil. done.
Defined.

(** [boundingBox_degenerate] on two points, the first without a number as
    first coordinate. *)
Lemma boundingBox_degenerate_witness :
  exists y0 y1,
    Algorithms.getAxisAlignedBoundingBox
      [(Js.NaN, Js.of_Z 1); (Js.of_Z 2, Js.of_Z 3)]
    = Some ((Js.NaN, y0), (Js.NaN, y1)).
Proof.
  apply (proj2 (boundingBox_degenerate
                  [(Js.NaN, Js.of_Z 1); (Js.of_Z 2, Js.of_Z 3)])
           (Js.NaN, Js.of_Z 1)).
  - apply list_elem_of_here.
  - reflexivity.
Defined.
(** * Tour loading: order, counts and references *)

Section TourLoadingOrder.
Import Eff Algorithms AlgorithmsSpec.

Context {entity error directory file path props MS : Type}.
Variable createTemporalGroup :
  props -> option directory -> MS -> outcome entity error * MS.
Variable createSpatialGroup :
  props -> link entity -> MS -> outcome entity error * MS.
Variable createVertex : props -> link entity -> MS -> outcome entity error * MS.
Variable createEdge : props -> link entity -> MS -> outcome entity error * MS.
Variable setDirectory : entity -> option directory -> MS -> MS.
Variable searchFile : directory -> path -> list file.
Variable readAsJSON : file -> list (tour entity path props).
Variable parent : file -> directory.

#[local] Abbreviation world := (Algorithms.world entity error directory props MS).
#[local] Abbreviation attempt := (Algorithms.attempt entity error directory props).
#[local] Abbreviation call := (Algorithms.call entity directory props).
#[local] Abbreviation loadGraph :=
  (Algorithms.loadGraph (path := path) createTemporalGroup createSpatialGroup
     createVertex createEdge setDirectory).
#[local] Abbreviation readTour :=
  (Algorithms.readTour createTemporalGroup createSpatialGroup createVertex
     createEdge setDirectory searchFile readAsJSON parent).

Lemma batch_calls_map {X C} (mk : X -> call) (kids : entity -> X -> list C)
    xs (tr : list attempt) q :
  batch mk kids xs tr q -> map a_call tr = map mk xs.
Proof. induction 1; simpl; congruence. Qed.

Lemma batch_nested {X C} (mk : X -> call) (kids : entity -> X -> list C)
    xs (tr : list attempt) q c :
  batch mk kids xs tr q -> c ∈ q -> exists x e, x ∈ xs /\ c ∈ kids e x.
Proof.
  intros B Hc. destruct (batch_queue mk kids xs tr q c B Hc)
    as (x & e & Hx & _ & Hk). eauto.
Qed.

(** X7. [loadGraph] calls the model in four phases: for the temporal
    groups in the order of the file; then for the spatial groups the file
    lists, in its order, followed by spatial groups nested in temporal
    groups; then for the listed vertices followed by vertices nested in
    spatial groups; then for edges nested in vertices. *)
Theorem loadGraph_phases (t : tour entity path props) dir (w : world) :
  exists b w' tr1 tr2 tr3 tr4 q1 q2 q3,
    loadGraph t dir w = Some (b, w') /\
    attempts w' = attempts w ++ tr1 ++ tr2 ++ tr3 ++ tr4 /\
    map a_call tr1
    = map (fun j => CTemporalGroup j None) (or_empty (temporalGroups t)) /\
    map a_call tr2 = map CSpatialGroup (or_empty (spatialGroups t) ++ q1) /\
    map a_call tr3 = map CVertex (or_empty (vertices t) ++ q2) /\
    map a_call tr4 = map CEdge q3 /\
    (forall g, g ∈ q1 ->
       exists j tg g0, j ∈ or_empty (temporalGroups t) /\
                       g0 ∈ or_empty (jtg_subGroups j) /\
                       g = set_superGroup tg g0) /\
    (forall v, v ∈ q2 ->
       exists g sg v0, g ∈ or_empty (spatialGroups t) ++ q1 /\
                       v0 ∈ or_empty (jsg_vertices g) /\
                       v = set_spatialGroup sg v0) /\
    (forall e, e ∈ q3 ->
       exists v vx e0, v ∈ or_empty (vertices t) ++ q2 /\
                       e0 ∈ or_empty (jv_outgoingEdges v) /\
                       e = set_from vx e0).
Proof.
  destruct (loadGraph_loops createTemporalGroup createSpatialGroup createVertex
              createEdge setDirectory t dir w)
    as (tr1 & tr2 & tr3 & tr4 & q1 & q2 & q3 & w' & E & B1 & B2 & B3 & C4 & X).
  exists (forallb succeeded (tr1 ++ tr2 ++ tr3 ++ tr4)), w',
         tr1, tr2, tr3, tr4, q1, q2, q3.
  split; [done|]. split; [by destruct X|].
  split; [exact (batch_calls_map _ _ _ _ _ B1)|].
  split; [exact (batch_calls_map _ _ _ _ _ B2)|].
  split; [exact (batch_calls_map _ _ _ _ _ B3)|].
  split; [done|]. split; [|split].
  - intros g Hg. destruct (batch_nested _ _ _ _ _ _ B1 Hg) as (j & tg & Hj & Hk).
    apply list_elem_of_fmap in Hk as (g0 & -> & Hg0). by exists j, tg, g0.
  - intros v Hv. destruct (batch_nested _ _ _ _ _ _ B2 Hv) as (g & sg & Hg & Hk).
    apply list_elem_of_fmap in Hk as (v0 & -> & Hv0). by exists g, sg, v0.
  - intros e He. destruct (batch_nested _ _ _ _ _ _ B3 He) as (v & vx & Hv & Hk).
    apply list_elem_of_fmap in Hk as (e0 & -> & He0). by exists v, vx, e0.
Qed.

Lemma errors_nil (tr : list attempt) :
  errors tr = [] <-> forallb succeeded tr = true.
Proof.
  induction tr as [|[c [e|x]] tr IH]; simpl; [done|exact IH|done].
Qed.

(** X8. [loadGraph] returns [true] exactly when it has logged nothing. *)
Theorem loadGraph_true_iff_silent (t : tour entity path props) dir (w : world) :
  exists b w',
    loadGraph t dir w = Some (b, w') /\
    (b = true <-> logged w' = logged w).
Proof.
  destruct (loadGraph_loops createTemporalGroup createSpatialGroup createVertex
              createEdge setDirectory t dir w)
    as (tr1 & tr2 & tr3 & tr4 & q1 & q2 & q3 & w' & E & _ & _ & _ & _ & X).
  eexists _, w'. split; [exact E|].
  destruct X as (_ & Hl & _). rewrite Hl, <- errors_nil. split.
  - intros ->. by rewrite app_nil_r.
  - intros H. rewrite <- (app_nil_r (logged w)) in H at 2.
    by apply app_inv_head in H.
Qed.

(** The weight of what a loop queues is bounded by the weight nested in the
    elements it went through, and equal to it when every call returned. *)
Lemma batch_weight {X C} (mk : X -> call) (kids : entity -> X -> list C)
    (wC : C -> nat) (wX : X -> nat) xs (tr : list attempt) q :
  (forall e x, list_sum (map wC (kids e x)) = wX x) ->
  batch mk kids xs tr q ->
  length tr = length xs /\
  list_sum (map wC q) <= list_sum (map wX xs) /\
  (forallb succeeded tr = true -> list_sum (map wC q) = list_sum (map wX xs)).
Proof.
  intros Hw. induction 1 as [|x xs e tr q _ (IH1 & IH2 & IH3)
                               |x xs err tr q _ (IH1 & IH2 & IH3)]; simpl.
  - done.
  - rewrite map_app, list_sum_app, Hw, IH1.
    split; [done|]. split; [lia|]. intros H. rewrite IH3; done.
  - rewrite IH1. split; [done|]. split; [lia|done].
Qed.

Lemma list_sum_succ {A} (f : A -> nat) (l : list A) :
  list_sum (map (fun x => S (f x)) l) = length l + list_sum (map f l).
Proof. induction l as [|x l IH]; simpl; [done|]. rewrite IH. lia. Qed.

Lemma list_sum_ones {A} (l : list A) : list_sum (map (fun _ => 1) l) = length l.
Proof. induction l as [|x l IH]; simpl; [done|]. by rewrite IH. Qed.

(** X9. [loadGraph] calls the model at most once for each JSON object of
    the tour file, and exactly once for each when it returns [true]. *)
Theorem loadGraph_count (t : tour entity path props) dir (w : world) :
  exists b w',
    loadGraph t dir w = Some (b, w') /\
    length (attempts w') <= length (attempts w) + entities t /\
    (b = true -> length (attempts w') = length (attempts w) + entities t).
Proof.
  destruct (loadGraph_loops createTemporalGroup createSpatialGroup createVertex
              createEdge setDirectory t dir w)
    as (tr1 & tr2 & tr3 & tr4 & q1 & q2 & q3 & w' & E & B1 & B2 & B3 & C4 & X).
  eexists _, w'. split; [exact E|].
  destruct X as (Ha & _ & _). rewrite Ha, !length_app.
  pose proof (fun H => batch_weight _ _ group_size
                (fun j => list_sum (map group_size (or_empty (jtg_subGroups j))))
                _ _ _ H B1) as K1.
  destruct K1 as (L1 & W1 & E1); [intros e x; by rewrite map_map|].
  pose proof (fun H => batch_weight _ _ vertex_size
                (fun g => list_sum (map vertex_size (or_empty (jsg_vertices g))))
                _ _ _ H B2) as K2.
  destruct K2 as (L2 & W2 & E2); [intros e x; by rewrite map_map|].
  pose proof (fun H => batch_weight _ _ (fun _ => 1)
                (fun v => length (or_empty (jv_outgoingEdges v)))
                _ _ _ H B3) as K3.
  destruct K3 as (L3 & W3 & E3);
    [intros e x; by rewrite map_map, list_sum_ones|].
  assert (L4 : length tr4 = length q3).
  { by rewrite <- (length_map a_call), C4, length_map. }
  rewrite list_sum_ones in W3, E3.
  rewrite !map_app, !list_sum_app in W2, E2, W3, E3.
  rewrite L1, L2, L3, L4, !length_app.
  unfold entities.
  change period_size
    with (fun j : jsonTemporalGroup entity props =>
            S (list_sum (map group_size (or_empty (jtg_subGroups j))))).
  rewrite (list_sum_succ
             (fun j => list_sum (map group_size (or_empty (jtg_subGroups j))))).
  assert (G : forall l : list (jsonSpatialGroup entity props),
             list_sum (map group_size l)
             = length l
               + list_sum (map (fun g => list_sum (map vertex_size
                                                     (or_empty (jsg_vertices g)))) l)).
  { intros l. exact (list_sum_succ _ l). }
  assert (V : forall l : list (jsonVertex entity props),
             list_sum (map vertex_size l)
             = length l
               + list_sum (map (fun v => length (or_empty (jv_outgoingEdges v))) l)).
  { intros l. exact (list_sum_succ _ l). }
  rewrite (G q1) in W1, E1. rewrite (V q2) in W2, E2.
  rewrite (G (or_empty (spatialGroups t))), (V (or_empty (vertices t))).
  split; [lia|].
  rewrite !forallb_app, !andb_true_iff. intros (S1 & S2 & S3 & _).
  specialize (E1 S1). specialize (E2 S2). specialize (E3 S3). lia.
Qed.

(** X10. For a tour file whose array of referenced tours is empty,
    [readTour] calls the model for the temporal groups and nothing more:
    the subscriber receives no value and [loadGraph] does not run, so the
    spatial groups, vertices and edges of the file are not created. *)
Theorem readTour_no_references fuel (t : tour entity path props) root next
    (w : world) :
  tours t = Some [] ->
  exists tr w',
    readTour (S fuel) t root next w = Some (tt, w') /\
    extends w w' tr /\
    map a_call tr
    = map (fun j => CTemporalGroup j (Some root)) (or_empty (temporalGroups t)).
Proof.
  intros Ht.
  destruct (foldM_flag _ _
              (prepareTemporalGroup_step createTemporalGroup root)
              (or_empty (temporalGroups t)) true w)
    as (tr & w1 & E & Hc & Hext).
  exists tr, w1. split; [|done].
  simpl. unfold bind at 1. rewrite E, Ht. done.
Qed.

End TourLoadingOrder.

(** [readTour_no_references] in the example. *)
Lemma readTour_no_references_witness :
  exists tr w',
    AlgorithmsExample.readTour 1 AlgorithmsExample.no_references tt
      (@Algorithms.collect _ _ _ _ _) AlgorithmsExample.empty_world
    = Some (tt, w') /\
    AlgorithmsSpec.extends AlgorithmsExample.empty_world w' tr /\
    map Algorithms.a_call tr
    = map (fun j => Algorithms.CTemporalGroup j (Some tt))
          (Algorithms.or_empty
             (Algorithms.temporalGroups AlgorithmsExample.no_references)).
Proof.
  exact (readTour_no_references AlgorithmsExample.createTemporalGroup
           AlgorithmsExample.createSpatialGroup
           AlgorithmsExample.createVertex
           AlgorithmsExample.createEdge
           AlgorithmsExample.setDirectory
           AlgorithmsExample.searchFile
           AlgorithmsExample.readAsJSON
           AlgorithmsExample.parent
           0 AlgorithmsExample.no_references tt
           (@Algorithms.collect _ _ _ _ _) AlgorithmsExample.empty_world
           eq_refl).
Defined.
